(** * Text layout and pagination engine of [pdfMarkdownParser.ts]

    A shallow embedding of [src/utils/pdfMarkdownParser.ts] and the
    properties of its inline parser, line breaker, line renderer,
    table-of-contents formatter and page flow.

    Modelling conventions.
    - JavaScript numbers are exact rationals ([Q]); comparisons are the
      source's comparisons, arithmetic is exact.  A sum of doubles carries
      a rounding error: where a sum meets the bound it is compared with
      exactly, as the cursor may meet the bottom margin, the source decides
      on the rounded sum and the model on the exact one.
    - JavaScript strings are [string]s, one [ascii] per code unit, so the
      code units are those below 256.  In that range the whitespace class
      [\s] (and what [trim] removes) is tab, line feed, vertical tab, form
      feed, carriage return, space and the no-break space; the line
      terminators are line feed and carriage return; [\d] is [0-9]; and the
      flag [i] only folds the ASCII letters of the patterns used here.
    - The jsPDF document is a record: the current font (name, style, size),
      the page size, and the list of the [text] and [addPage] calls issued
      so far, oldest first.  [getTextWidth] is a parameter: a function of
      the current font and of the measured string.
    - A loop body is a function on the variables the loop changes, named
      after what it does; a function that changes the document returns the
      new document next to its result. *)

From Stdlib Require Import List String Ascii Bool Arith ZArith QArith Qround Lia Lqa.
Import ListNotations.

Local Close Scope Q_scope.
Local Open Scope string_scope.
Local Open Scope list_scope.

(** ** Data model *)

Inductive HeadingLevel := H1 | H2 | H3 | H4 | H5 | H6.

Inductive ListType := ordered | unordered.

(** [interface TextStyle].  The field [list] of the source is [list_] here.
    [heading] is [number | null] in the source; the table [headingSizes] of
    [applyStyle] is keyed by 1..6, the levels represented. *)
Record TextStyle := mkStyle {
  bold : bool;
  italic : bool;
  heading : option HeadingLevel;
  list_ : bool;
  listType : option ListType;
  listLevel : Z;
  indentation : Q
}.

(** [interface TextSegment] *)
Record TextSegment := mkSegment {
  text : string;
  style : TextStyle
}.

Definition Line := list TextSegment.

Inductive Align := left | center | right | justify.

(** [interface PDFMarkdownOptions]; [align] is optional in the source. *)
Record PDFMarkdownOptions := mkOptions {
  maxWidth : Q;
  align : option Align;
  fontSize : Q;
  lineHeight : Q;
  font : string
}.

(** ** The drawing surface *)

Inductive FontStyle := normal | fsBold | fsItalic | bolditalic.

Record Font := mkFont {
  fontName : string;
  fontStyle : FontStyle;
  size : Q
}.

(** A call that leaves a trace on the surface.  [CallText] records the
    string, the coordinates, the font in force when [doc.text] is called, and
    whether the call carries [{ align: 'right' }]. *)
Inductive Call :=
| CallText (s : string) (x y : Q) (f : Font) (alignRight : bool)
| CallAddPage.

Record Doc := mkDoc {
  getFont : Font;
  pageWidth : Q;
  pageHeight : Q;
  calls : list Call
}.

Definition getFontSize (doc : Doc) : Q := size (getFont doc).

Definition setFont (doc : Doc) (name : string) (fs : FontStyle) : Doc :=
  mkDoc (mkFont name fs (size (getFont doc)))
        (pageWidth doc) (pageHeight doc) (calls doc).

Definition setFontSize (doc : Doc) (sz : Q) : Doc :=
  mkDoc (mkFont (fontName (getFont doc)) (fontStyle (getFont doc)) sz)
        (pageWidth doc) (pageHeight doc) (calls doc).

Definition docText (doc : Doc) (s : string) (x y : Q) : Doc :=
  mkDoc (getFont doc) (pageWidth doc) (pageHeight doc)
        (calls doc ++ [CallText s x y (getFont doc) false]).

Definition docTextRight (doc : Doc) (s : string) (x y : Q) : Doc :=
  mkDoc (getFont doc) (pageWidth doc) (pageHeight doc)
        (calls doc ++ [CallText s x y (getFont doc) true]).

Definition addPage (doc : Doc) : Doc :=
  mkDoc (getFont doc) (pageWidth doc) (pageHeight doc)
        (calls doc ++ [CallAddPage]).

(** ** [applyStyle] *)

Definition headingSizes (baseFontSize : Q) (h : HeadingLevel) : Q :=
  match h with
  | H1 => baseFontSize * 2
  | H2 => baseFontSize * (15 # 10)
  | H3 => baseFontSize * (117 # 100)
  | H4 => baseFontSize * 1
  | H5 => baseFontSize * (83 # 100)
  | H6 => baseFontSize * (67 # 100)
  end%Q.

Definition styleFont (st : TextStyle) : FontStyle :=
  if bold st && italic st then bolditalic
  else if bold st then fsBold
  else if italic st then fsItalic
  else normal.

Definition applyStyle (doc : Doc) (st : TextStyle) (baseFontSize : Q)
    (fnt : string) : Doc :=
  let doc := setFont doc fnt (styleFont st) in
  match heading st with
  | Some h => setFontSize doc (headingSizes baseFontSize h)
  | None => setFontSize doc baseFontSize
  end.

(** ** Characters and strings of the JavaScript runtime *)

Definition isSpace (c : ascii) : bool :=
  let n := nat_of_ascii c in
  (Nat.leb 9 n && Nat.leb n 13) || Nat.eqb n 32 || Nat.eqb n 160.

Definition isDigit (c : ascii) : bool :=
  let n := nat_of_ascii c in Nat.leb 48 n && Nat.leb n 57.

(** [.] of a regular expression: anything but a line terminator. *)
Definition isLineTerminator (c : ascii) : bool :=
  let n := nat_of_ascii c in Nat.eqb n 10 || Nat.eqb n 13.

Definition nonEmpty (s : string) : bool :=
  match s with EmptyString => false | _ => true end.

Definition snoc (s : string) (c : ascii) : string := s ++ String c "".

Fixpoint dropSpaces (s : string) : string :=
  match s with
  | String c r => if isSpace c then dropSpaces r else s
  | "" => ""
  end.

Fixpoint countSpaces (s : string) : nat :=
  match s with
  | String c r => if isSpace c then S (countSpaces r) else O
  | "" => O
  end.

Fixpoint stringRev (s : string) : string :=
  match s with
  | "" => ""
  | String c r => snoc (stringRev r) c
  end.

(** [String.prototype.trim] *)
Definition trim (s : string) : string :=
  stringRev (dropSpaces (stringRev (dropSpaces s))).

Fixpoint startsWith (p s : string) : bool :=
  match p, s with
  | "", _ => true
  | String a p', String b s' => Ascii.eqb a b && startsWith p' s'
  | _, "" => false
  end.

(** [String.prototype.includes] *)
Fixpoint includes (s p : string) : bool :=
  startsWith p s ||
  match s with
  | "" => false
  | String _ r => includes r p
  end.

(** ** [parseInlineMarkdown] *)

Definition isMarker (c : ascii) : bool :=
  Ascii.eqb c "*" || Ascii.eqb c "_".

Definition initialStyle : TextStyle :=
  mkStyle false false None false None 0 0.

Definition toggleBold (st : TextStyle) : TextStyle :=
  mkStyle (negb (bold st)) (italic st) (heading st) (list_ st)
          (listType st) (listLevel st) (indentation st).

Definition toggleItalic (st : TextStyle) : TextStyle :=
  mkStyle (bold st) (negb (italic st)) (heading st) (list_ st)
          (listType st) (listLevel st) (indentation st).

(** [if (currentText) segments.push(...)] *)
Definition flush (segments : list TextSegment) (currentText : string)
    (currentStyle : TextStyle) : list TextSegment :=
  if nonEmpty currentText
  then segments ++ [mkSegment currentText currentStyle]
  else segments.

(** The [while (i < text.length)] loop; [rest] is [text] from index [i]. *)
Fixpoint parseInlineLoop (rest : string) (segments : list TextSegment)
    (currentText : string) (currentStyle : TextStyle) : list TextSegment :=
  match rest with
  | "" => flush segments currentText currentStyle
  | String c rest1 =>
      if isMarker c then
        let segments := flush segments currentText currentStyle in
        match rest1 with
        | String c1 rest2 =>
            if Ascii.eqb c1 c
            then parseInlineLoop rest2 segments "" (toggleBold currentStyle)
            else parseInlineLoop rest1 segments "" (toggleItalic currentStyle)
        | "" => parseInlineLoop rest1 segments "" (toggleItalic currentStyle)
        end
      else parseInlineLoop rest1 segments (snoc currentText c) currentStyle
  end.

Definition parseInlineMarkdown (t : string) : list TextSegment :=
  parseInlineLoop t [] "" initialStyle.

Definition plainStyle := initialStyle.
Definition boldStyle := toggleBold initialStyle.
Definition italicStyle := toggleItalic initialStyle.

Definition lineText (l : list TextSegment) : string :=
  fold_right (fun s acc => (text s ++ acc)%string) "" l.

(** The input with every [*] and [_] removed. *)
Fixpoint stripMarkers (s : string) : string :=
  match s with
  | "" => ""
  | String c r => if isMarker c then stripMarkers r else String c (stripMarkers r)
  end.

(** ** [calculateIndentation] *)

Fixpoint dropDigits (s : string) : string :=
  match s with
  | String c r => if isDigit c then dropDigits r else s
  | "" => ""
  end.

Fixpoint countDigits (s : string) : nat :=
  match s with
  | String c r => if isDigit c then S (countDigits r) else O
  | "" => O
  end.

Definition startsWithSpace (s : string) : bool :=
  match s with
  | String c _ => isSpace c
  | "" => false
  end.

(** [/^(\s*(?:[-*]|\d+\.)\s+)/] *)
Definition listMatch (t : string) : bool :=
  match dropSpaces t with
  | String c r =>
      if Ascii.eqb c "-" || Ascii.eqb c "*" then startsWithSpace r
      else
        Nat.leb 1 (countDigits (String c r)) &&
        match dropDigits (String c r) with
        | String d r' => Ascii.eqb d "." && startsWithSpace r'
        | "" => false
        end
  | "" => false
  end.

Definition calculateIndentation (t : string) : Q :=
  let baseIndent :=
    (inject_Z (Z.of_nat (Nat.div (countSpaces t) 2)) * (25 # 100))%Q in
  if listMatch t then (baseIndent + (25 # 100))%Q
  else if negb (Qle_bool baseIndent 0) then (baseIndent + (75 # 100))%Q
  else if nonEmpty (trim t) then (baseIndent + (25 # 100))%Q
  else baseIndent.

(** ** [String.prototype.split] *)

(** [split(/\s+/)]: the pieces between maximal runs of whitespace, empty
    pieces at both ends included. *)
Fixpoint splitSpacesLoop (s : string) (piece : string) (inSep : bool)
    : list string :=
  match s with
  | "" => [piece]
  | String c r =>
      if isSpace c then
        if inSep then splitSpacesLoop r piece true
        else piece :: splitSpacesLoop r "" true
      else splitSpacesLoop r (snoc piece c) false
  end.

Definition splitSpaces (s : string) : list string :=
  splitSpacesLoop s "" false.

(** [split('\n')] *)
Fixpoint splitLinesLoop (s : string) (piece : string) : list string :=
  match s with
  | "" => [piece]
  | String c r =>
      if Ascii.eqb c "010" then piece :: splitLinesLoop r ""
      else splitLinesLoop r (snoc piece c)
  end.

Definition splitLines (s : string) : list string := splitLinesLoop s "".

(** ** Arrays *)

(** [a[i] = v] for [i <= a.length]: an element is replaced, and writing at
    [a.length] appends.  The breaker never writes further out. *)
Fixpoint arraySet {A : Type} (a : list A) (i : nat) (v : A) : list A :=
  match a, i with
  | [], _ => [v]
  | _ :: t, O => v :: t
  | h :: t, S i' => h :: arraySet t i' v
  end.

Definition Qgtb (a b : Q) : bool := negb (Qle_bool a b).

Definition isSpaceRun (s : TextSegment) : bool := String.eqb (text s) " ".

Definition nonEmptyLine {A : Type} (l : list A) : bool :=
  match l with [] => false | _ => true end.

(** ** Regular expressions of the table-of-contents formatter *)

Definition lowerAscii (c : ascii) : ascii :=
  let n := nat_of_ascii c in
  if Nat.leb 65 n && Nat.leb n 90 then ascii_of_nat (n + 32) else c.

(** [startsWith] up to the case of ASCII letters. *)
Fixpoint startsWithCI (p s : string) : bool :=
  match p, s with
  | "", _ => true
  | String a p', String b s' =>
      Ascii.eqb (lowerAscii a) (lowerAscii b) && startsWithCI p' s'
  | _, "" => false
  end.

Fixpoint allChars (f : ascii -> bool) (s : string) : bool :=
  match s with
  | "" => true
  | String c r => f c && allChars f r
  end.

Fixpoint dropN (n : nat) (s : string) : string :=
  match n, s with
  | O, _ => s
  | S n', String _ r => dropN n' r
  | S _, "" => ""
  end.

(** [[ivxlcdm]] under the flag [i] *)
Definition isRoman (c : ascii) : bool :=
  let l := lowerAscii c in
  Ascii.eqb l "i" || Ascii.eqb l "v" || Ascii.eqb l "x" || Ascii.eqb l "l" ||
  Ascii.eqb l "c" || Ascii.eqb l "d" || Ascii.eqb l "m".

(** [(\d+|[ivxlcdm]+)$] at the start of [s] *)
Definition numberToEnd (s : string) : bool :=
  nonEmpty s && (allChars isDigit s || allChars isRoman s).

(** The expression of [pageMatch] (flag [i]) tried at the start of [s]: an
    optional [- Halaman] with any whitespace after it, then the group
    [(\d+|[ivxlcdm]+)] up to the end of the string.  The result is the
    group. *)
Definition pageMatchAt (s : string) : option string :=
  if startsWithCI "- Halaman" s && numberToEnd (dropSpaces (dropN 9 s))
  then Some (dropSpaces (dropN 9 s))
  else if numberToEnd s then Some s
  else None.

(** The leftmost match: its index and its group. *)
Fixpoint pageMatchFrom (s : string) (index : nat) : option (nat * string) :=
  match pageMatchAt s with
  | Some g => Some (index, g)
  | None =>
      match s with
      | "" => None
      | String _ r => pageMatchFrom r (S index)
      end
  end.

(** [replace(/- Halaman\s*$/, '')] *)
Fixpoint stripHalamanTail (s : string) : string :=
  if startsWith "- Halaman" s && allChars isSpace (dropN 9 s) then ""
  else
    match s with
    | "" => ""
    | String c r => String c (stripHalamanTail r)
    end.

Definition startsWithDigit (s : string) : bool :=
  match s with
  | String c _ => isDigit c
  | "" => false
  end.

(** [/^Bab\s+\d+/i] *)
Definition matchBab (s : string) : bool :=
  startsWithCI "Bab" s &&
  Nat.leb 1 (countSpaces (dropN 3 s)) &&
  startsWithDigit (dropSpaces (dropN 3 s)).

(** [/^\d+\.\d+/] *)
Definition matchSubchapter (s : string) : bool :=
  Nat.leb 1 (countDigits s) &&
  match dropDigits s with
  | String c r => Ascii.eqb c "." && startsWithDigit r
  | "" => false
  end.

Fixpoint takeNonTerminators (s : string) : string :=
  match s with
  | String c r =>
      if isLineTerminator c then "" else String c (takeNonTerminators r)
  | "" => ""
  end.

(** [\s+(.+)] on a string of whitespace only: the whitespace gives back
    characters until [.] can start; [j] is the index of the head of [s]. *)
Fixpoint separatorInSpaces (s : string) (j : nat) (best : option (nat * string))
    : option (nat * string) :=
  match s with
  | "" => best
  | String c r =>
      separatorInSpaces r (S j)
        (if Nat.leb 1 j && negb (isLineTerminator c)
         then Some (j + String.length (takeNonTerminators s),
                    takeNonTerminators s)
         else best)
  end.

(** [/\s+(.+)/] tried at the start of [s]: the length of the match and the
    group. *)
Definition separatorAt (s : string) : option (nat * string) :=
  let k := countSpaces s in
  if Nat.eqb k 0 then None
  else
    match dropN k s with
    | "" => separatorInSpaces s 0 None
    | rest => Some (k + String.length (takeNonTerminators rest),
                    takeNonTerminators rest)
    end.

(** [split(/\s+(.+)/)]: the loop of [String.prototype.split] over the
    positions of the string; [piece] is the text since the last match. *)
Fixpoint splitSeparatorLoop (fuel : nat) (s : string) (piece : string)
    : list string :=
  match fuel with
  | O => [(piece ++ s)%string]
  | S fuel' =>
      match s with
      | "" => [piece]
      | String c r =>
          match separatorAt s with
          | Some (e, group) =>
              piece :: group :: splitSeparatorLoop fuel' (dropN e s) ""
          | None => splitSeparatorLoop fuel' r (snoc piece c)
          end
      end
  end.

Definition splitSeparator (s : string) : list string :=
  splitSeparatorLoop (S (String.length s)) s "".

(** [Array.prototype.join(' ')] *)
Fixpoint joinSpace (l : list string) : string :=
  match l with
  | [] => ""
  | [a] => a
  | a :: l' => (a ++ " " ++ joinSpace l')%string
  end.

(** ** Regular expressions of the page flow *)

Fixpoint countHashes (s : string) : nat :=
  match s with
  | String c r => if Ascii.eqb c "#" then S (countHashes r) else O
  | "" => O
  end.

Fixpoint lastChar (s : string) : option ascii :=
  match s with
  | "" => None
  | String c "" => Some c
  | String _ r => lastChar r
  end.

(** [\s+(.+)$] tried at the start of [s]; the result is the group. *)
Definition spacesThenRest (s : string) : option string :=
  let k := countSpaces s in
  if Nat.eqb k 0 then None
  else
    match dropN k s with
    | "" =>
        match lastChar s with
        | Some c =>
            if Nat.leb 2 k && negb (isLineTerminator c)
            then Some (String c "") else None
        | None => None
        end
    | rest =>
        if allChars (fun c => negb (isLineTerminator c)) rest
        then Some rest else None
    end.

(** [/^(#{1,6})\s+(.+)$/]: the length of the first group and the second
    group. *)
Definition headerMatch (s : string) : option (nat * string) :=
  let n := countHashes s in
  if Nat.leb 1 n && Nat.leb n 6 then
    match spacesThenRest (dropN n s) with
    | Some content => Some (n, content)
    | None => None
    end
  else None.

(** [/^(\d+)\.\s+(.+)$/]: the two groups. *)
Definition orderedListMatch (s : string) : option (string * string) :=
  let n := countDigits s in
  if Nat.leb 1 n then
    match dropN n s with
    | String c r =>
        if Ascii.eqb c "." then
          match spacesThenRest r with
          | Some content => Some (substring 0 n s, content)
          | None => None
          end
        else None
    | "" => None
    end
  else None.

(** [/^[-*]\s+(.+)$/]: the group. *)
Definition unorderedListMatch (s : string) : option string :=
  match s with
  | String c r =>
      if Ascii.eqb c "-" || Ascii.eqb c "*" then spacesThenRest r else None
  | "" => None
  end.

(** ** Normalisation of the input *)

Definition isDash (c : ascii) : bool := Ascii.eqb c "-".
Definition isNewline (c : ascii) : bool := Ascii.eqb c "010".

Definition newline : string := String "010" "".

(** [replace(/---/g, '\n')] *)
Fixpoint replaceRules (s : string) : string :=
  match s with
  | "" => ""
  | String c r =>
      match r with
      | String c2 (String c3 r3) =>
          if isDash c && isDash c2 && isDash c3
          then String "010" (replaceRules r3)
          else String c (replaceRules r)
      | _ => String c (replaceRules r)
      end
  end.

Definition startsWithNewline (s : string) : bool :=
  match s with
  | String c _ => isNewline c
  | "" => false
  end.

(** [replace(/\n{2,}/g, '\n')] *)
Fixpoint collapseNewlines (s : string) : string :=
  match s with
  | "" => ""
  | String c r =>
      if isNewline c && startsWithNewline r then collapseNewlines r
      else String c (collapseNewlines r)
  end.

Definition normalize (t : string) : string :=
  collapseNewlines (replaceRules t).

(** The test that sends a document to [formatPDFTableOfContents]. *)
Definition isTableOfContents (t : string) : bool :=
  includes t "- Halaman" && (includes t "Bab" || includes t "Kata Pengantar").

Section Engine.

(** [doc.getTextWidth], as a function of the font in force. *)
Variable getTextWidth : Font -> string -> Q.

Definition measure (doc : Doc) (s : string) : Q := getTextWidth (getFont doc) s.

(** ** [splitWordIfNeeded] *)

(** The [for] loop over the characters of [word]; [rest] is what is left of
    the word. *)
Fixpoint splitWordLoop (doc : Doc) (st : TextStyle) (maxW : Q)
    (rest : string) (result : list TextSegment) (currentPart : string)
    : list TextSegment :=
  match rest with
  | "" =>
      if nonEmpty currentPart
      then result ++ [mkSegment currentPart st]
      else result
  | String char rest' =>
      let testPart := snoc currentPart char in
      let testWidth := measure doc testPart in
      if Qgtb testWidth (maxW * (95 # 100))%Q then
        if Nat.leb 2 (String.length currentPart) then
          splitWordLoop doc st maxW rest'
            (result ++ [mkSegment (currentPart ++ "-") st]) (String char "")
        else if nonEmpty currentPart then
          splitWordLoop doc st maxW rest'
            (result ++ [mkSegment currentPart st]) (String char "")
        else
          splitWordLoop doc st maxW rest'
            (result ++ [mkSegment (String char "") st]) ""
      else splitWordLoop doc st maxW rest' result testPart
  end.

Definition splitWordIfNeeded (word : string) (st : TextStyle) (doc : Doc)
    (maxW : Q) : list TextSegment * Doc :=
  let doc := applyStyle doc st (getFontSize doc) (fontName (getFont doc)) in
  if Qle_bool (measure doc word) maxW
  then ([mkSegment word st], doc)
  else (splitWordLoop doc st maxW word [] "", doc).

(** ** [splitTextToLines] *)

(** The variables the closures of [splitTextToLines] share, and the
    document. *)
Record BreakState := mkBreak {
  lines : list Line;
  currentLine : nat;
  currentLineWidth : Q;
  currentLineSegments : list TextSegment;
  bdoc : Doc
}.

Definition commitLine (b : BreakState) : BreakState :=
  if nonEmptyLine (currentLineSegments b) then
    mkBreak
      (arraySet (arraySet (lines b) (currentLine b) (currentLineSegments b))
                (S (currentLine b)) [])
      (S (currentLine b)) 0 [] (bdoc b)
  else b.

(** One round of [parts.forEach((part, index) => ...)]. *)
Definition placePart (b : BreakState) (index : nat) (part : TextSegment)
    : BreakState :=
  let b := if Nat.ltb 0 index then commitLine b else b in
  mkBreak (lines b) (currentLine b) (measure (bdoc b) (text part))
          (currentLineSegments b ++ [part]) (bdoc b).

Fixpoint placeParts (b : BreakState) (index : nat) (parts : list TextSegment)
    : BreakState :=
  match parts with
  | [] => b
  | part :: parts' => placeParts (placePart b index part) (S index) parts'
  end.

(** The body of [words.forEach(word => ...)]. *)
Definition placeWord (availableWidth spaceWidth : Q) (fnt : string)
    (segment : TextSegment) (b : BreakState) (word : string) : BreakState :=
  if negb (nonEmpty word) then b else
  let doc := applyStyle (bdoc b) (style segment) (getFontSize (bdoc b)) fnt in
  let wordWidth := measure doc word in
  let totalWidth :=
    (currentLineWidth b +
     (if nonEmptyLine (currentLineSegments b) then spaceWidth else 0) +
     wordWidth)%Q in
  if Qle_bool totalWidth availableWidth then
    let segs1 :=
      if nonEmptyLine (currentLineSegments b)
      then currentLineSegments b ++ [mkSegment " " (style segment)]
      else currentLineSegments b in
    let width1 :=
      if nonEmptyLine (currentLineSegments b)
      then (currentLineWidth b + spaceWidth)%Q
      else currentLineWidth b in
    mkBreak (lines b) (currentLine b) (width1 + wordWidth)%Q
            (segs1 ++ [mkSegment word (style segment)]) doc
  else if Qle_bool wordWidth availableWidth then
    let b := commitLine (mkBreak (lines b) (currentLine b)
                           (currentLineWidth b) (currentLineSegments b) doc) in
    mkBreak (lines b) (currentLine b) wordWidth
            (currentLineSegments b ++ [mkSegment word (style segment)])
            (bdoc b)
  else
    let b := mkBreak (lines b) (currentLine b)
               (currentLineWidth b) (currentLineSegments b) doc in
    let b := if nonEmptyLine (currentLineSegments b) then commitLine b else b in
    let '(parts, doc) :=
      splitWordIfNeeded word (style segment) (bdoc b) availableWidth in
    placeParts (mkBreak (lines b) (currentLine b) (currentLineWidth b)
                  (currentLineSegments b) doc) 0 parts.

(** The body of [segments.forEach(segment => ...)]. *)
Definition placeSegment (availableWidth spaceWidth : Q) (fnt : string)
    (b : BreakState) (segment : TextSegment) : BreakState :=
  fold_left (placeWord availableWidth spaceWidth fnt segment)
            (splitSpaces (text segment)) b.

(** The measuring loop of the post-pass. *)
Definition measureRun (fnt : string) (acc : Q * Doc) (segment : TextSegment)
    : Q * Doc :=
  let doc := applyStyle (snd acc) (style segment) (getFontSize (snd acc)) fnt in
  ((fst acc + measure doc (text segment))%Q, doc).

Definition measureLine (fnt : string) (doc : Doc) (line : Line) : Q * Doc :=
  fold_left (measureRun fnt) line (0%Q, doc).

(** The state of the repair loop: [newLine], [currentWidth], the document. *)
Definition keepPart (availableWidth : Q) (doc : Doc)
    (acc : Line * Q) (part : TextSegment) : Line * Q :=
  if Qle_bool (snd acc + measure doc (text part))%Q availableWidth
  then (fst acc ++ [part], (snd acc + measure doc (text part))%Q)
  else acc.

Definition repairRun (availableWidth spaceWidth : Q)
    (acc : Line * Q * Doc) (segment : TextSegment) : Line * Q * Doc :=
  let '(newLine, currentWidth, doc) := acc in
  if isSpaceRun segment then
    if Qle_bool (currentWidth + spaceWidth)%Q availableWidth
    then (newLine ++ [segment], (currentWidth + spaceWidth)%Q, doc)
    else acc
  else
    let '(parts, doc) :=
      splitWordIfNeeded (text segment) (style segment) doc
                        (availableWidth - currentWidth)%Q in
    let '(newLine, currentWidth) :=
      fold_left (keepPart availableWidth doc) parts (newLine, currentWidth) in
    (newLine, currentWidth, doc).

(** The function mapped over the non-empty lines. *)
Definition repairLine (availableWidth spaceWidth : Q) (fnt : string)
    (doc : Doc) (line : Line) : Line * Doc :=
  let '(lineWidth, doc) := measureLine fnt doc line in
  if Qgtb lineWidth availableWidth then
    let '(newLine, _, doc) :=
      fold_left (repairRun availableWidth spaceWidth) line ([], 0%Q, doc) in
    (newLine, doc)
  else (line, doc).

Fixpoint repairLines (availableWidth spaceWidth : Q) (fnt : string)
    (doc : Doc) (ls : list Line) : list Line * Doc :=
  match ls with
  | [] => ([], doc)
  | l :: ls' =>
      let '(l', doc) := repairLine availableWidth spaceWidth fnt doc l in
      let '(ls'', doc) := repairLines availableWidth spaceWidth fnt doc ls' in
      (l' :: ls'', doc)
  end.

(** The lines as the word loop leaves them, before the filter and the
    post-pass. *)
Definition brokenLines (doc : Doc) (segments : list TextSegment)
    (maxW baseIndentation : Q) (fnt : string) : BreakState :=
  let indentationWidth := (baseIndentation * getFontSize doc)%Q in
  let availableWidth := (maxW - indentationWidth)%Q in
  let spaceWidth := measure doc " " in
  let b := fold_left (placeSegment availableWidth spaceWidth fnt) segments
                     (mkBreak [[]] 0 0 [] doc) in
  if nonEmptyLine (currentLineSegments b) then commitLine b else b.

Definition splitTextToLines (doc : Doc) (segments : list TextSegment)
    (maxW baseIndentation : Q) (fnt : string) : list Line * Doc :=
  let indentationWidth := (baseIndentation * getFontSize doc)%Q in
  let availableWidth := (maxW - indentationWidth)%Q in
  let spaceWidth := measure doc " " in
  let b := brokenLines doc segments maxW baseIndentation fnt in
  repairLines availableWidth spaceWidth fnt (bdoc b)
              (filter nonEmptyLine (lines b)).

(** ** [renderJustifiedLine] *)

(** The loop of the branch [isLastLine || segments.length <= 1]; the state
    is [currentX] and the document. *)
Definition drawLastLineRun (y : Q) (acc : Q * Doc) (segment : TextSegment)
    : Q * Doc :=
  let '(currentX, doc) := acc in
  let doc := applyStyle doc (style segment) (getFontSize doc)
                        (fontName (getFont doc)) in
  let doc := docText doc (text segment) currentX y in
  ((currentX +
    measure doc (text segment ++ (if isSpaceRun segment then "" else " ")))%Q,
   doc).

Definition addRunWidth (acc : Q * Doc) (segment : TextSegment) : Q * Doc :=
  let '(totalTextWidth, doc) := acc in
  let doc := applyStyle doc (style segment) (getFontSize doc)
                        (fontName (getFont doc)) in
  ((totalTextWidth + measure doc (text segment))%Q, doc).

(** [Math.max(0, v)] *)
Definition max0 (v : Q) : Q := if Qle_bool v 0 then 0%Q else v.

(** The drawing loop of the justified branch; [index] is the index of the
    head of [segs] in [segments], [n] is [segments.length]. *)
Fixpoint drawJustifiedRuns (y extraSpacePerGap : Q) (n index : nat)
    (segs : list TextSegment) (acc : Q * Doc) : Q * Doc :=
  match segs with
  | [] => acc
  | segment :: segs' =>
      let '(currentX, doc) := acc in
      let doc := applyStyle doc (style segment) (getFontSize doc)
                            (fontName (getFont doc)) in
      let doc := docText doc (text segment) currentX y in
      let segmentWidth := measure doc (text segment) in
      let currentX := (currentX + segmentWidth)%Q in
      let currentX :=
        if isSpaceRun segment && Nat.ltb index (n - 1)
        then (currentX + extraSpacePerGap)%Q else currentX in
      drawJustifiedRuns y extraSpacePerGap n (S index) segs' (currentX, doc)
  end.

Definition extraSpacePerGap (doc : Doc) (segments : list TextSegment)
    (maxW : Q) : Q :=
  let numberOfSpaces := List.length (filter isSpaceRun segments) in
  let totalTextWidth := fst (fold_left addRunWidth segments (0%Q, doc)) in
  let remainingSpace := max0 (maxW - totalTextWidth)%Q in
  if Nat.ltb 0 numberOfSpaces
  then (remainingSpace / inject_Z (Z.of_nat numberOfSpaces))%Q
  else 0%Q.

(** [renderJustifiedLine] with the final value of its local [currentX]. *)
Definition renderJustifiedLineX (doc : Doc) (segments : list TextSegment)
    (x y maxW : Q) (isLastLine : bool) : Q * Doc :=
  if isLastLine || Nat.leb (List.length segments) 1 then
    fold_left (drawLastLineRun y) segments (x, doc)
  else
    let extra := extraSpacePerGap doc segments maxW in
    let doc := snd (fold_left addRunWidth segments (0%Q, doc)) in
    drawJustifiedRuns y extra (List.length segments) 0 segments (x, doc).

Definition renderJustifiedLine (doc : Doc) (segments : list TextSegment)
    (x y maxW : Q) (isLastLine : bool) : Doc :=
  snd (renderJustifiedLineX doc segments x y maxW isLastLine).

(** ** [formatPDFTableOfContents] *)

(** The [for] loop that draws the leader: [count] dots from index [i]. *)
Fixpoint drawDots (doc : Doc) (dotsStart pitch y : Q) (i : Z) (count : nat)
    : Doc :=
  match count with
  | O => doc
  | S count' =>
      drawDots (docText doc "." (dotsStart + inject_Z i * pitch)%Q y)
               dotsStart pitch y (i + 1)%Z count'
  end.

(** The body of [for (const line of lines)]; the state is [currentY] and
    the document.  The dot pitch [dotWidth + dotSpacing] is positive for a
    metric without negative widths. *)
Definition tocLine (options : PDFMarkdownOptions) (x lineHeight pageW : Q)
    (acc : Q * Doc) (line : string) : Q * Doc :=
  let '(currentY, doc) := acc in
  let marginRight := 20%Q in
  let pageNumberWidth := 10%Q in
  let dotSpacing := 2%Q in
  let trimmedLine := trim line in
  if negb (nonEmpty trimmedLine) then ((currentY + lineHeight)%Q, doc) else
  let pageMatch := pageMatchFrom trimmedLine 0 in
  let pageNumber :=
    match pageMatch with Some (_, g) => g | None => "" end in
  let content :=
    match pageMatch with
    | Some (index, _) => trim (substring 0 index trimmedLine)
    | None => trimmedLine
    end in
  let content := trim (stripHalamanTail content) in
  let '(doc, indent, title, prefix) :=
    if startsWithCI "kata pengantar" content then
      (setFont doc (font options) fsBold, 0%Q, content, "")
    else if matchBab content then
      (setFont doc (font options) fsBold, 0%Q,
       trim (joinSpace (tl (splitSeparator content))),
       hd "" (splitSeparator content))
    else if matchSubchapter content then
      (setFont doc (font options) normal, 10%Q,
       trim (joinSpace (tl (splitSeparator content))),
       hd "" (splitSeparator content))
    else (setFont doc (font options) normal, 0%Q, content, "") in
  let startX := (x + indent)%Q in
  let doc :=
    if nonEmpty prefix
    then docText (docText doc prefix startX currentY)
                 title (startX + 15)%Q currentY
    else docText doc title startX currentY in
  let titleWidth :=
    if nonEmpty prefix
    then measure doc (prefix ++ "  " ++ title)
    else measure doc title in
  let dotsStart := (startX + titleWidth + 5)%Q in
  let dotsEnd := (pageW - marginRight - pageNumberWidth)%Q in
  let dotWidth := measure doc "." in
  let numberOfDots :=
    Qfloor ((dotsEnd - dotsStart) / (dotWidth + dotSpacing))%Q in
  let doc := setFont doc (font options) normal in
  let doc := drawDots doc dotsStart (dotWidth + dotSpacing)%Q currentY 0
                      (Z.to_nat numberOfDots) in
  let doc := docTextRight doc pageNumber
               (pageW - marginRight - pageNumberWidth)%Q currentY in
  let currentY := (currentY + lineHeight)%Q in
  let currentY :=
    if matchBab content then (currentY + lineHeight * (5 # 10))%Q
    else currentY in
  (currentY, doc).

Definition optionsLineHeight (options : PDFMarkdownOptions) : Q :=
  (fontSize options * (352778 # 1000000) * lineHeight options)%Q.

Definition formatPDFTableOfContents (doc : Doc) (t : string) (x y : Q)
    (options : PDFMarkdownOptions) : Q * Doc :=
  fold_left (tocLine options x (optionsLineHeight options) (pageWidth doc))
            (splitLines t) (y, doc).

(** ** [parsePDFMarkdown] *)

Definition marginTop : Q := 20.
Definition marginBottom : Q := 20.

(** The closure [addNewPage]: the new page and the [y] to resume at. *)
Definition addNewPage (options : PDFMarkdownOptions) (doc : Doc) : Q * Doc :=
  ((marginTop + fontSize options)%Q, addPage doc).

(** [if (currentY + lineHeight > maxY) currentY = addNewPage()]; the sum
    and the comparison are exact here. *)
Definition breakPageIfNeeded (options : PDFMarkdownOptions) (maxY : Q)
    (acc : Q * Doc) : Q * Doc :=
  if Qgtb (fst acc + optionsLineHeight options)%Q maxY
  then addNewPage options (snd acc)
  else acc.

(** The two loops of the branch [align !== 'justify']. *)
Definition addRunWidthBase (options : PDFMarkdownOptions) (acc : Q * Doc)
    (segment : TextSegment) : Q * Doc :=
  let '(totalWidth, doc) := acc in
  let doc := applyStyle doc (style segment) (fontSize options) (font options) in
  ((totalWidth + measure doc (text segment))%Q, doc).

Definition drawRun (options : PDFMarkdownOptions) (y : Q) (acc : Q * Doc)
    (segment : TextSegment) : Q * Doc :=
  let '(xOffset, doc) := acc in
  let doc := applyStyle doc (style segment) (fontSize options) (font options) in
  let doc := docText doc (text segment) xOffset y in
  ((xOffset + measure doc (text segment))%Q, doc).

(** The horizontal layout of one block of the flow: where its lines start,
    the width they are justified to, and the column they are centred in.
    The four branches of the loop differ in these values only. *)
Record Column := mkColumn {
  colStart : Q;
  colJustify : Q;
  colCentreStart : Q;
  colCentreWidth : Q
}.

(** The body of [lines.forEach((lineSegments, lineIndex) => ...)]; [n] is
    [lines.length]. *)
Definition emitLine (options : PDFMarkdownOptions) (x maxY : Q) (col : Column)
    (n lineIndex : nat) (acc : Q * Doc) (lineSegments : Line) : Q * Doc :=
  let '(currentY, doc) := breakPageIfNeeded options maxY acc in
  let doc :=
    match align options with
    | Some justify =>
        renderJustifiedLine doc lineSegments (colStart col) currentY
                            (colJustify col) (Nat.eqb lineIndex (n - 1))
    | a =>
        let '(totalWidth, doc) :=
          fold_left (addRunWidthBase options) lineSegments (0%Q, doc) in
        let xOffset :=
          match a with
          | Some center =>
              (colCentreStart col + (colCentreWidth col - totalWidth) / 2)%Q
          | Some right => (x + maxWidth options - totalWidth)%Q
          | _ => colStart col
          end in
        snd (fold_left (drawRun options currentY) lineSegments (xOffset, doc))
    end in
  ((currentY + optionsLineHeight options)%Q, doc).

Fixpoint emitLines (options : PDFMarkdownOptions) (x maxY : Q) (col : Column)
    (n lineIndex : nat) (ls : list Line) (acc : Q * Doc) : Q * Doc :=
  match ls with
  | [] => acc
  | l :: ls' =>
      emitLines options x maxY col n (S lineIndex) ls'
                (emitLine options x maxY col n lineIndex acc l)
  end.

Definition flowColumn (options : PDFMarkdownOptions) (x baseIndentation : Q)
    : Column :=
  mkColumn (x + baseIndentation * fontSize options)%Q
           (maxWidth options - baseIndentation * fontSize options)%Q
           x (maxWidth options).

Definition listColumn (options : PDFMarkdownOptions) (x listIndent : Q)
    : Column :=
  mkColumn (x + listIndent + 5)%Q
           (maxWidth options - (listIndent + 5))%Q
           (x + listIndent + 5)%Q
           (maxWidth options - listIndent - 5)%Q.

(** The body of [for (let i = 0; i < textLines.length; i++)]. *)
Definition flowLine (options : PDFMarkdownOptions) (x maxY : Q)
    (acc : Q * Doc) (rawLine : string) : Q * Doc :=
  let lineHeight := optionsLineHeight options in
  let baseIndentation := calculateIndentation rawLine in
  let line := trim rawLine in
  if negb (nonEmpty line) then
    let currentY := (fst acc + lineHeight)%Q in
    if Qgtb currentY maxY then addNewPage options (snd acc)
    else (currentY, snd acc)
  else
  match headerMatch line with
  | Some (level, content) =>
      let '(currentY, doc) := breakPageIfNeeded options maxY acc in
      let doc :=
        setFontSize doc
          (fontSize options *
           ((25 # 10) - inject_Z (Z.of_nat level) * (3 # 10)))%Q in
      let doc := setFont doc (font options) fsBold in
      let segments := parseInlineMarkdown content in
      let '(ls, doc) :=
        splitTextToLines doc segments (maxWidth options) baseIndentation
                         (font options) in
      let '(currentY, doc) :=
        emitLines options x maxY (flowColumn options x baseIndentation)
                  (List.length ls) 0 ls (currentY, doc) in
      let doc := setFontSize doc (fontSize options) in
      (currentY, setFont doc (font options) normal)
  | None =>
  match orderedListMatch line with
  | Some (listNumber, content) =>
      let '(currentY, doc) := breakPageIfNeeded options maxY acc in
      let listIndent := (baseIndentation * fontSize options)%Q in
      let doc := docText doc (listNumber ++ ".") (x + listIndent)%Q currentY in
      let segments := parseInlineMarkdown content in
      let '(ls, doc) :=
        splitTextToLines doc segments (maxWidth options - (listIndent + 5))%Q
                         baseIndentation (font options) in
      emitLines options x maxY (listColumn options x listIndent)
                (List.length ls) 0 ls (currentY, doc)
  | None =>
  match unorderedListMatch line with
  | Some content =>
      let '(currentY, doc) := breakPageIfNeeded options maxY acc in
      let listIndent := (baseIndentation * fontSize options)%Q in
      (* the bullet U+2022, in UTF-8: it is drawn, never measured *)
      let doc := docText doc "•" (x + listIndent)%Q currentY in
      let segments := parseInlineMarkdown content in
      let '(ls, doc) :=
        splitTextToLines doc segments (maxWidth options - (listIndent + 5))%Q
                         baseIndentation (font options) in
      emitLines options x maxY (listColumn options x listIndent)
                (List.length ls) 0 ls (currentY, doc)
  | None =>
      let '(currentY, doc) := breakPageIfNeeded options maxY acc in
      let segments := parseInlineMarkdown line in
      let '(ls, doc) :=
        splitTextToLines doc segments (maxWidth options) baseIndentation
                         (font options) in
      emitLines options x maxY (flowColumn options x baseIndentation)
                (List.length ls) 0 ls (currentY, doc)
  end end end.

(** The page flow: [parsePDFMarkdown] past the table-of-contents test, on
    the normalised text. *)
Definition flowDocument (doc : Doc) (t : string) (x y : Q)
    (options : PDFMarkdownOptions) : Q * Doc :=
  let doc := setFont doc (font options) normal in
  let doc := setFontSize doc (fontSize options) in
  let maxY := (pageHeight doc - marginBottom)%Q in
  fold_left (flowLine options x maxY) (splitLines t) (y, doc).

Definition parsePDFMarkdown (doc : Doc) (t : string) (x y : Q)
    (options : PDFMarkdownOptions) : Q * Doc :=
  if negb (nonEmpty t) then (y, doc) else
  let t := normalize t in
  if isTableOfContents t
  then formatPDFTableOfContents doc t x y options
  else flowDocument doc t x y options.

End Engine.

(** * Vocabulary of the statements *)

(** ** Calls on the surface *)

Definition isAddPage (c : Call) : bool :=
  match c with CallAddPage => true | CallText _ _ _ _ _ => false end.

Definition isTextCall (c : Call) : Prop :=
  match c with CallText _ _ _ _ _ => True | CallAddPage => False end.

(** The number of pages requested. *)
Definition newPages (cs : list Call) : nat := List.length (filter isAddPage cs).

(** The texts, the fonts and the abscissas of the [text] calls; sizes and
    abscissas in lowest terms. *)
Definition drawnTexts (cs : list Call) : list string :=
  flat_map (fun c => match c with
                     | CallText s _ _ _ _ => [s]
                     | CallAddPage => []
                     end) cs.

Definition drawnFonts (cs : list Call) : list (FontStyle * Q) :=
  flat_map (fun c => match c with
                     | CallText _ _ _ f _ => [(fontStyle f, Qred (size f))]
                     | CallAddPage => []
                     end) cs.

Definition textXs (cs : list Call) : list Q :=
  flat_map (fun c => match c with
                     | CallText _ x _ _ _ => [Qred x]
                     | CallAddPage => []
                     end) cs.

(** [d'] is [d] with another font: same page, same calls. *)
Definition sameSurface (d d' : Doc) : Prop :=
  pageWidth d' = pageWidth d /\ pageHeight d' = pageHeight d
  /\ calls d' = calls d.

(** [d'] is [d] after some more [text] calls and nothing else. *)
Definition drawsOnly (d d' : Doc) : Prop :=
  exists new, calls d' = calls d ++ new /\ Forall isTextCall new.

Definition drawnAt (y0 : Q) (c : Call) : Prop :=
  match c with
  | CallText _ _ y _ _ => y = y0
  | CallAddPage => False
  end.

(** [d'] is [d] after some [text] calls at the ordinate [y0]. *)
Definition textsAt (y0 : Q) (d d' : Doc) : Prop :=
  pageHeight d' = pageHeight d
  /\ exists new, calls d' = calls d ++ new /\ Forall (drawnAt y0) new.



(** ** The normalised text *)

Definition noDoubleNewline (s : string) : Prop :=
  includes s (newline ++ newline) = false.

(** All the elements of a list but the last one. *)
Fixpoint allButLast {A : Type} (P : A -> Prop) (l : list A) : Prop :=
  match l with
  | [] => True
  | [_] => True
  | a :: l' => P a /\ allButLast P l'
  end.

Definition startsWithDash (s : string) : bool :=
  match s with String c _ => isDash c | "" => false end.

Definition threeDashes (s : string) : bool :=
  match s with
  | String c (String c2 (String c3 _)) => isDash c && isDash c2 && isDash c3
  | _ => false
  end.

(** A pattern survives the normalisation when neither rewriting can touch
    it. *)
Definition survives (p : string) : Prop :=
  p <> "" /\ startsWithDash p = false
  /\ (forall post, exists post',
        replaceRules (p ++ post) = (p ++ post')%string)
  /\ (forall post, exists post',
        collapseNewlines (p ++ post) = (p ++ post')%string).

Definition noNewline (p : string) : Prop :=
  allChars (fun c => negb (isNewline c)) p = true.

(** ** Runs and their widths *)

Definition noHeading (s : TextSegment) : Prop := heading (style s) = None.

(** The font a run without heading is measured and drawn in, for a font
    name and a font size. *)
Definition runFont (name : string) (sz : Q) (s : TextSegment) : Font :=
  mkFont name (styleFont (style s)) sz.

(** The sum of the widths of the runs of a line, each in its own font. *)
Fixpoint textWidth (w : Font -> string -> Q) (name : string) (sz : Q)
    (segs : list TextSegment) : Q :=
  match segs with
  | [] => 0%Q
  | s :: segs' => (w (runFont name sz s) (text s) + textWidth w name sz segs')%Q
  end.

Definition spaceRuns (segs : list TextSegment) : nat :=
  List.length (filter isSpaceRun segs).

Definition lastIsSpace (segs : list TextSegment) : bool :=
  match rev segs with
  | s :: _ => isSpaceRun s
  | [] => false
  end.

(** The slack of a justified line and the share of one gap. *)
Definition slack (w : Font -> string -> Q) (name : string) (sz maxW : Q)
    (segs : list TextSegment) : Q :=
  max0 (maxW - textWidth w name sz segs)%Q.

Definition gapShare (w : Font -> string -> Q) (name : string) (sz maxW : Q)
    (segs : list TextSegment) : Q :=
  if Nat.ltb 0 (spaceRuns segs)
  then (slack w name sz maxW segs / inject_Z (Z.of_nat (spaceRuns segs)))%Q
  else 0%Q.

(** The gaps that receive their share: the space runs that are not the last
    run of the line. *)
Fixpoint stretchedGaps (n index : nat) (segs : list TextSegment) : nat :=
  match segs with
  | [] => 0
  | s :: segs' =>
      (if isSpaceRun s && Nat.ltb index (n - 1) then 1 else 0)
      + stretchedGaps n (S index) segs'
  end.

(** The calls of the unjustified branch of [renderJustifiedLine], as the
    cursor moves: a run that is not a space advances the cursor by the width
    of its text followed by a space. *)
Fixpoint lastLineCalls (w : Font -> string -> Q) (name : string) (sz y x : Q)
    (segs : list TextSegment) : list Call :=
  match segs with
  | [] => []
  | s :: segs' =>
      CallText (text s) x y (runFont name sz s) false ::
      lastLineCalls w name sz y
        (x + w (runFont name sz s)
               (text s ++ (if isSpaceRun s then "" else " "))%string)%Q segs'
  end.

(** The calls of the justified branch: every run advances the cursor by its
    own width, and a space run that is not the last run by [extra] more. *)
Fixpoint justifiedCalls (w : Font -> string -> Q) (name : string)
    (sz y extra : Q) (n index : nat) (x : Q) (segs : list TextSegment)
    : list Call :=
  match segs with
  | [] => []
  | s :: segs' =>
      CallText (text s) x y (runFont name sz s) false ::
      justifiedCalls w name sz y extra n (S index)
        (if isSpaceRun s && Nat.ltb index (n - 1)
         then (x + w (runFont name sz s) (text s) + extra)%Q
         else (x + w (runFont name sz s) (text s))%Q) segs'
  end.

(** The left-aligned drawing loop of [parsePDFMarkdown]. *)
Definition drawLeftAligned (w : Font -> string -> Q)
    (options : PDFMarkdownOptions) (doc : Doc) (segs : list TextSegment)
    (x y : Q) : Doc :=
  snd (fold_left (drawRun w options y) segs (x, doc)).

(** The font size that [parsePDFMarkdown] sets for a heading of level
    [level]. *)
Definition headingSize (options : PDFMarkdownOptions) (level : nat) : Q :=
  (fontSize options * ((25 # 10) - inject_Z (Z.of_nat level) * (3 # 10)))%Q.

(** ** The line breaker *)

Definition noSpaces (t : string) : Prop :=
  allChars (fun c => negb (isSpace c)) t = true.

(** A run that is a word: a non-empty text without whitespace, no heading. *)
Definition isWord (s : TextSegment) : Prop :=
  noHeading s /\ text s <> "" /\ noSpaces (text s).

(** What [splitWordIfNeeded] returns for a word of style [st]. *)
Definition partOf (st : TextStyle) (p : TextSegment) : Prop :=
  style p = st /\ text p <> "" /\ noSpaces (text p).

(** The space run that the breaker puts before a word. *)
Definition spaceBefore (s : TextSegment) : TextSegment :=
  mkSegment " " (style s).

(** A line as the word loop builds it: words, with one space run before
    every word but the first. *)
Definition lineOfWords (ws : list TextSegment) : Line :=
  match ws with
  | [] => []
  | s :: ws' => s :: flat_map (fun s' => [spaceBefore s'; s']) ws'
  end.

(** The text of the runs that follow the first word of a line. *)
Definition tailText (ws : list TextSegment) : string :=
  lineText (flat_map (fun s' => [spaceBefore s'; s']) ws).

Definition uniformStyle (st : TextStyle) (l : Line) : Prop :=
  Forall (fun s => style s = st) l.

(** The width the word loop keeps for a line: the words in their own font,
    and the space width measured at entry for every space run. *)
Fixpoint trackedWidth (w : Font -> string -> Q) (fnt : string) (sz sw : Q)
    (l : Line) : Q :=
  match l with
  | [] => 0%Q
  | s :: l' =>
      ((if isSpaceRun s then sw else w (runFont fnt sz s) (text s))
       + trackedWidth w fnt sz sw l')%Q
  end.

(** A line of the word loop passed the width test when its last word was
    added, or it is a single run (a part of a split word is not tested). *)
Definition fits (w : Font -> string -> Q) (fnt : string) (sz sw aw : Q)
    (ws : list TextSegment) : Prop :=
  (trackedWidth w fnt sz sw (lineOfWords ws) <= aw)%Q \/ exists s, ws = [s].

Definition goodLine (w : Font -> string -> Q) (fnt : string) (sz sw aw : Q)
    (ws : list TextSegment) : Prop :=
  ws <> [] /\ Forall isWord ws /\ fits w fnt sz sw aw ws.

(** The invariant of the word loop of [splitTextToLines]: the array holds
    the committed lines and the empty placeholder at [currentLine]; the
    committed lines and the current line are lines of words. *)
Definition breakInv (w : Font -> string -> Q) (fnt : string) (sz sw aw : Q)
    (b : BreakState) : Prop :=
  exists committed current,
    lines b = map lineOfWords committed ++ [[]]
    /\ currentLine b = List.length committed
    /\ Forall (goodLine w fnt sz sw aw) committed
    /\ currentLineSegments b = lineOfWords current
    /\ Forall isWord current
    /\ (currentLineWidth b == trackedWidth w fnt sz sw (lineOfWords current))%Q
    /\ (current = [] \/ fits w fnt sz sw aw current)
    /\ getFontSize (bdoc b) = sz.

(** The word loop with one open line: nothing is committed, the current line
    is the line of the words [ws]. *)
Definition openLine (w : Font -> string -> Q) (fnt : string) (sz sw : Q)
    (ws : list TextSegment) (b : BreakState) : Prop :=
  lines b = [[]]
  /\ currentLine b = 0
  /\ currentLineSegments b = lineOfWords ws
  /\ (currentLineWidth b == trackedWidth w fnt sz sw (lineOfWords ws))%Q
  /\ getFontSize (bdoc b) = sz.

(** The state of the repair loop of the post-pass: the width of the new
    line is the running width, and it is within the available width. *)
Definition repairState (w : Font -> string -> Q) (fnt : string) (sz aw : Q)
    (acc : Line * Q * Doc) : Prop :=
  (textWidth w fnt sz (fst (fst acc)) == snd (fst acc))%Q
  /\ (snd (fst acc) <= aw)%Q
  /\ Forall noHeading (fst (fst acc))
  /\ getFontSize (snd acc) = sz
  /\ fontName (getFont (snd acc)) = fnt.

(** The lines that [flowLine] breaks a raw line into; [acc] is the state
    after the first page-break check of the branch. *)
Definition blockLines (w : Font -> string -> Q) (options : PDFMarkdownOptions)
    (x : Q) (acc : Q * Doc) (rawLine : string) : list Line :=
  let baseIndentation := calculateIndentation rawLine in
  let line := trim rawLine in
  let '(currentY, doc) := acc in
  match headerMatch line with
  | Some (level, content) =>
      fst (splitTextToLines w
             (setFont
                (setFontSize doc
                   (fontSize options *
                    ((25 # 10) - inject_Z (Z.of_nat level) * (3 # 10)))%Q)
                (font options) fsBold)
             (parseInlineMarkdown content) (maxWidth options) baseIndentation
             (font options))
  | None =>
  match orderedListMatch line with
  | Some (listNumber, content) =>
      fst (splitTextToLines w
             (docText doc (listNumber ++ ".")
                (x + baseIndentation * fontSize options)%Q currentY)
             (parseInlineMarkdown content)
             (maxWidth options - (baseIndentation * fontSize options + 5))%Q
             baseIndentation (font options))
  | None =>
  match unorderedListMatch line with
  | Some content =>
      fst (splitTextToLines w
             (docText doc "•"
                (x + baseIndentation * fontSize options)%Q currentY)
             (parseInlineMarkdown content)
             (maxWidth options - (baseIndentation * fontSize options + 5))%Q
             baseIndentation (font options))
  | None =>
      fst (splitTextToLines w doc (parseInlineMarkdown line)
             (maxWidth options) baseIndentation (font options))
  end end end.

(** ** Sample metrics, documents and inputs *)

(** A fixed-pitch metric: every glyph is half the font size wide. *)
Definition monoWidth (f : Font) (s : string) : Q :=
  (size f * (1 # 2) * inject_Z (Z.of_nat (String.length s)))%Q.

(** A metric whose bold glyphs are wider: six tenths of the font size,
    against half of it for the other styles. *)
Definition boldWideWidth (f : Font) (s : string) : Q :=
  (size f
   * match fontStyle f with
     | fsBold | bolditalic => 6 # 10
     | _ => 1 # 2
     end
   * inject_Z (Z.of_nat (String.length s)))%Q.

Definition helvetica12 : Font := mkFont "helvetica" normal 12.

(** An A4 page in millimetres. *)
Definition a4 : Doc := mkDoc helvetica12 210 297 [].

Definition a4Options : PDFMarkdownOptions :=
  mkOptions 170 None 12 (15 # 10) "helvetica".

Definition justifyOptions : PDFMarkdownOptions :=
  mkOptions 170 (Some justify) 12 (15 # 10) "helvetica".


Definition wordRun (t : string) : TextSegment := mkSegment t plainStyle.

Definition spaceRun : TextSegment := mkSegment " " plainStyle.

Definition twoWords : list TextSegment :=
  [wordRun "a"; spaceRun; wordRun "b"].

Definition wideCharLine : list TextSegment := [wordRun "a"].

Definition boldWords : list TextSegment := [mkSegment "a b" boldStyle].

Definition longWords : list TextSegment := [wordRun "abcdefghij klm no"].

Definition emptiedLine : Line := [].

Definition threeNewlines : string := (newline ++ newline ++ newline)%string.

Definition twoEntries : string :=
  ("Bab 1 Title - Halaman 5" ++ newline
   ++ "Kata Pengantar - Halaman 2")%string.

Definition longToc : string :=
  ("Kata Pengantar - Halaman 2" ++ newline ++
   "Bab 1 Title - Halaman 5" ++ newline ++
   "1.1 First section - Halaman 6" ++ newline ++
   "Bab 2 Other - Halaman 9")%string.

(** * Vocabulary of the further properties *)

(** ** Runs of the inline parser *)

Definition noMarkers (t : string) : Prop :=
  allChars (fun c => negb (isMarker c)) t = true.

(** A run as [parseInlineMarkdown] produces it: a non-empty text without
    marker, and a style that differs from the initial one by [bold] and
    [italic] only. *)
Definition cleanRun (s : TextSegment) : Prop :=
  text s <> "" /\ noMarkers (text s)
  /\ style s = mkStyle (bold (style s)) (italic (style s)) None false None 0 0.

(** ** Calls of the line renderer *)

(** The call that draws the run [s] at the ordinate [y]. *)
Definition drawsRun (y : Q) (c : Call) (s : TextSegment) : Prop :=
  exists x f, c = CallText (text s) x y f false.

(** ** Parts of a split word *)

Definition concatStrings (l : list string) : string :=
  fold_right append "" l.

(** A part made from the piece [piece] of a word: the piece itself, or the
    piece followed by a hyphen when the piece has two characters or more. *)
Definition partOfPiece (st : TextStyle) (part : TextSegment) (piece : string)
    : Prop :=
  style part = st /\ piece <> ""
  /\ (text part = piece
      \/ (text part = (piece ++ "-")%string /\ 2 <= String.length piece)).

(** A piece of two characters or more passed the width test of the
    character loop when it received its last character. *)
Definition testedPiece (w : Font -> string -> Q) (f : Font) (maxW : Q)
    (piece : string) : Prop :=
  2 <= String.length piece -> (w f piece <= maxW * (95 # 100))%Q.

(** ** Words of the line breaker *)

(** The runs of a line that are not space runs. *)
Definition wordRuns (l : Line) : list TextSegment :=
  filter (fun s => negb (isSpaceRun s)) l.

(** The words of the runs, in order, each with the style of its run: the
    non-empty pieces of [segment.text.split(/\s+/)]. *)
Definition inputWords (segments : list TextSegment) : list TextSegment :=
  flat_map (fun seg => map (fun t => mkSegment t (style seg))
                           (filter nonEmpty (splitSpaces (text seg))))
           segments.

(** The parts that the character loop of [splitWordIfNeeded] cuts a word
    into, for the font name and the font size of the breaker. *)
Definition cutWord (w : Font -> string -> Q) (fnt : string) (sz aw : Q)
    (s : TextSegment) : list TextSegment :=
  splitWordLoop w (mkDoc (runFont fnt sz s) 0 0 []) (style s) aw (text s)
                [] "".

(** How the word loop places a word: whole, or cut into parts when it is
    wider than the available width. *)
Definition placedAs (w : Font -> string -> Q) (fnt : string) (sz aw : Q)
    (word : TextSegment) (ps : list TextSegment) : Prop :=
  ps = [word]
  \/ ((aw < w (runFont fnt sz word) (text word))%Q
      /\ ps = cutWord w fnt sz aw word).

(** The array of lines of the word loop: the committed lines, then the
    empty line at index [currentLine]. *)
Definition lineArray (sz : Q) (b : BreakState) : Prop :=
  (exists committed,
      lines b = committed ++ [[]] /\ currentLine b = List.length committed)
  /\ getFontSize (bdoc b) = sz.

(** The words placed so far: those of the array, then those of the line
    being built. *)
Definition placedWords (b : BreakState) : list TextSegment :=
  flat_map wordRuns (lines b) ++ wordRuns (currentLineSegments b).

(** ** Entries of the table of contents *)

Definition isBlankLine (line : string) : bool := negb (nonEmpty (trim line)).

(** The page number that [formatPDFTableOfContents] reads at the end of a
    line: the group of [pageMatch], or the empty string. *)
Definition tocPageNumber (line : string) : string :=
  match pageMatchFrom (trim line) 0 with
  | Some (_, g) => g
  | None => ""
  end.

(** The [content] of a line: what is left of the page number, without a
    trailing [- Halaman]. *)
Definition tocContent (line : string) : string :=
  trim (stripHalamanTail
          match pageMatchFrom (trim line) 0 with
          | Some (index, _) => trim (substring 0 index (trim line))
          | None => trim line
          end).

Definition isChapterEntry (line : string) : bool :=
  negb (isBlankLine line) && matchBab (tocContent line).

(** The [text] calls that carry [{ align: 'right' }]: their string, their
    abscissa and the style of their font. *)
Definition rightAligned (cs : list Call) : list (string * Q * FontStyle) :=
  flat_map (fun c => match c with
                     | CallText s x _ f true => [(s, x, fontStyle f)]
                     | _ => []
                     end) cs.

(** [d'] is [d] after calls without alignment option. *)
Definition drawsLeft (d d' : Doc) : Prop :=
  exists new, calls d' = calls d ++ new /\ rightAligned new = [].

(** A dot of the leader: drawn at [y] with the font [f], at or after
    [dotsStart], and one pitch at least before [dotsEnd]. *)
Definition leaderDot (f : Font) (dotsStart dotsEnd pitch y : Q) (c : Call)
    : Prop :=
  exists x, c = CallText "." x y f false
            /\ (dotsStart <= x)%Q /\ (x + pitch <= dotsEnd)%Q.

(** * The callers of the engine

    [generatePDF] of [store/useEbookStore.ts] and [generatePdf] of
    [components/Preview.tsx] cut the content of a chapter into paragraphs,
    hand each paragraph to [parsePDFMarkdown], and label the pages of the
    front matter with [romanize]. *)

(** ** [romanize] *)

Definition romanNumerals : list (Z * string) :=
  [(1000, "M"); (900, "CM"); (500, "D"); (400, "CD"); (100, "C"); (90, "XC");
   (50, "L"); (40, "XL"); (10, "X"); (9, "IX"); (5, "V"); (4, "IV");
   (1, "I")]%Z.

(** [while (remaining >= value) { result += numeral; remaining -= value }];
    [fuel] bounds the number of rounds. *)
Fixpoint appendNumeral (fuel : nat) (value : Z) (numeral : string)
    (acc : string * Z) : string * Z :=
  match fuel with
  | O => acc
  | S fuel' =>
      let '(result, remaining) := acc in
      if (value <=? remaining)%Z
      then appendNumeral fuel' value numeral
             ((result ++ numeral)%string, (remaining - value)%Z)
      else acc
  end.

(** The body of [for (const { value, numeral } of romanNumerals)]; a round
    of the inner loop takes at least 1 from [remaining], so [remaining]
    rounds are enough. *)
Definition romanStep (acc : string * Z) (entry : Z * string) : string * Z :=
  appendNumeral (Z.to_nat (snd acc)) (fst entry) (snd entry) acc.

(** [String.prototype.toLowerCase] on ASCII letters *)
Fixpoint toLowerCase (s : string) : string :=
  match s with
  | "" => ""
  | String c r => String (lowerAscii c) (toLowerCase r)
  end.

(** [num] is a page count, an integer. *)
Definition romanize (num : Z) : string :=
  if (num <=? 0)%Z then ""
  else toLowerCase (fst (fold_left romanStep romanNumerals ("", num))).

(** The value of a roman letter, and the usual reading of a numeral: a
    letter counts negatively when a letter of greater value follows it. *)
Definition letterValue (c : ascii) : Z :=
  let l := lowerAscii c in
  if Ascii.eqb l "i" then 1
  else if Ascii.eqb l "v" then 5
  else if Ascii.eqb l "x" then 10
  else if Ascii.eqb l "l" then 50
  else if Ascii.eqb l "c" then 100
  else if Ascii.eqb l "d" then 500
  else if Ascii.eqb l "m" then 1000
  else 0.

Fixpoint romanValue (s : string) : Z :=
  match s with
  | "" => 0
  | String c r =>
      match r with
      | String c2 _ =>
          if (letterValue c <? letterValue c2)%Z
          then (romanValue r - letterValue c)%Z
          else (letterValue c + romanValue r)%Z
      | "" => letterValue c
      end
  end.

Fixpoint repeatString (s : string) (n : nat) : string :=
  match n with
  | O => ""
  | S n' => (s ++ repeatString s n')%string
  end.

(** ** The paragraphs of a chapter *)

(** [content.split('\n\n')] *)
Fixpoint splitBlankLinesLoop (s : string) (piece : string) : list string :=
  match s with
  | "" => [piece]
  | String c r =>
      match r with
      | String c2 r2 =>
          if isNewline c && isNewline c2
          then piece :: splitBlankLinesLoop r2 ""
          else splitBlankLinesLoop r (snoc piece c)
      | "" => splitBlankLinesLoop r (snoc piece c)
      end
  end.

(** [chapter.content.split('\n\n').filter(p => p.trim())] *)
Definition paragraphs (content : string) : list string :=
  filter (fun p => nonEmpty (trim p)) (splitBlankLinesLoop content "").

(** The numeral of a number below 1000: the rounds after the one of [M]. *)
Definition romanTail (r : Z) : string :=
  toLowerCase (fst (fold_left romanStep (tl romanNumerals) ("", r))).

(** * Font and column of the page flow *)

(** The document has the font name [fnt] and the font size [sz]. *)
Definition fontIs (fnt : string) (sz : Q) (d : Doc) : Prop :=
  fontName (getFont d) = fnt /\ getFontSize d = sz.

(** A [text] call lies within the column from [lo] to [hi]: it starts at or
    after [lo], and its text, measured in the font of the call, ends at or
    before [hi]. *)
Definition withinColumn (w : Font -> string -> Q) (lo hi : Q) (c : Call)
    : Prop :=
  match c with
  | CallText s x _ f _ => (lo <= x)%Q /\ (x + w f s <= hi)%Q
  | CallAddPage => True
  end.

(** The calls of the drawing loop of the branches without justification:
    every run is drawn at the cursor, which it advances by its own width. *)
Fixpoint alignedCalls (w : Font -> string -> Q) (name : string) (sz y x : Q)
    (segs : list TextSegment) : list Call :=
  match segs with
  | [] => []
  | s :: segs' =>
      CallText (text s) x y (runFont name sz s) false ::
      alignedCalls w name sz y (x + w (runFont name sz s) (text s))%Q segs'
  end.

(** A raw line that the page flow treats as a plain paragraph, or skips as
    blank. *)
Definition isPlainLine (rawLine : string) : Prop :=
  headerMatch (trim rawLine) = None
  /\ orderedListMatch (trim rawLine) = None
  /\ unorderedListMatch (trim rawLine) = None.

(** * Styles applied again *)

(** [applyStyle] as the renderer and the word splitter call it: with the
    font size and the font name of the document itself. *)
Definition restyle (st : TextStyle) (d : Doc) : Doc :=
  applyStyle d st (getFontSize d) (fontName (getFont d)).

(** The factor of a heading level in the table [headingSizes]. *)
Definition headingFactor (h : HeadingLevel) : Q :=
  headingSizes 1 h.

Fixpoint powerQ (q : Q) (k : nat) : Q :=
  match k with
  | O => 1
  | S k' => (q * powerQ q k')%Q
  end.

(** * Vocabulary of the renderer, the normalisation and the entries *)

(** ** A narrow column *)

(** A column of width 33, justified and left-aligned. *)
Definition narrowJustify : PDFMarkdownOptions :=
  mkOptions 33 (Some justify) 12 (15 # 10) "helvetica".

Definition narrowLeft : PDFMarkdownOptions :=
  mkOptions 33 (Some left) 12 (15 # 10) "helvetica".

(** ** Lines of the normalised text *)

(** A list of lines without its empty lines, the last line apart. *)
Fixpoint dropEmptyButLast (ls : list string) : list string :=
  match ls with
  | [] => []
  | l :: ls' =>
      match ls' with
      | [] => [l]
      | _ :: _ =>
          if nonEmpty l then l :: dropEmptyButLast ls'
          else dropEmptyButLast ls'
      end
  end.

(** The lines that are left of a text when its runs of newlines collapse:
    the first line and the last line, and between them the lines that are
    not empty. *)
Definition keptLines (ls : list string) : list string :=
  match ls with
  | [] => []
  | first :: others => first :: dropEmptyButLast others
  end.

(** ** The layout of an entry of the table of contents *)

(** The four kinds of entry ([Kata Pengantar], chapter, sub-chapter, any
    other): the style of the font that the title is drawn and measured in,
    the indentation, the prefix and the title. *)
Definition entryStyle (content : string) : FontStyle :=
  if startsWithCI "kata pengantar" content then fsBold
  else if matchBab content then fsBold
  else normal.

Definition entryIndent (content : string) : Q :=
  if startsWithCI "kata pengantar" content then 0
  else if matchBab content then 0
  else if matchSubchapter content then 10
  else 0.

Definition entryPrefix (content : string) : string :=
  if startsWithCI "kata pengantar" content then ""
  else if matchBab content || matchSubchapter content
       then hd "" (splitSeparator content)
       else "".

Definition entryTitle (content : string) : string :=
  if startsWithCI "kata pengantar" content then content
  else if matchBab content || matchSubchapter content
       then trim (joinSpace (tl (splitSeparator content)))
       else content.

Definition entryFont (options : PDFMarkdownOptions) (doc : Doc)
    (line : string) : Font :=
  mkFont (font options) (entryStyle (tocContent line)) (getFontSize doc).

(** The font of the leader and of the page number. *)
Definition leaderFont (options : PDFMarkdownOptions) (doc : Doc) : Font :=
  mkFont (font options) normal (getFontSize doc).

(** The calls that draw the title of an entry at the ordinate [y]: the
    title at the start of the entry, or the prefix there and the title 15
    further. *)
Definition titleCalls (options : PDFMarkdownOptions) (x y : Q) (doc : Doc)
    (line : string) : list Call :=
  let content := tocContent line in
  let f := entryFont options doc line in
  let startX := (x + entryIndent content)%Q in
  if nonEmpty (entryPrefix content)
  then [CallText (entryPrefix content) startX y f false;
        CallText (entryTitle content) (startX + 15)%Q y f false]
  else [CallText (entryTitle content) startX y f false].

(** The width that the formatter takes for the title. *)
Definition titleWidth (w : Font -> string -> Q) (options : PDFMarkdownOptions)
    (doc : Doc) (line : string) : Q :=
  let content := tocContent line in
  let f := entryFont options doc line in
  if nonEmpty (entryPrefix content)
  then w f (entryPrefix content ++ "  " ++ entryTitle content)%string
  else w f (entryTitle content).

(** Where the leader starts, the distance between two of its dots (the
    width of a dot in the font of the entry, plus 2), and the number of its
    dots. *)
Definition leaderStart (w : Font -> string -> Q)
    (options : PDFMarkdownOptions) (x : Q) (doc : Doc) (line : string) : Q :=
  (x + entryIndent (tocContent line) + titleWidth w options doc line + 5)%Q.

Definition leaderPitch (w : Font -> string -> Q)
    (options : PDFMarkdownOptions) (doc : Doc) (line : string) : Q :=
  (w (entryFont options doc line) "." + 2)%Q.

Definition leaderCount (w : Font -> string -> Q)
    (options : PDFMarkdownOptions) (x pageW : Q) (doc : Doc) (line : string)
    : nat :=
  Z.to_nat (Qfloor ((pageW - 20 - 10 - leaderStart w options x doc line)
                    / leaderPitch w options doc line)%Q).

(** The calls that draw the leader at the ordinate [y]. *)
Definition leaderCalls (w : Font -> string -> Q)
    (options : PDFMarkdownOptions) (x y pageW : Q) (doc : Doc)
    (line : string) : list Call :=
  map (fun k => CallText "."
                  (leaderStart w options x doc line
                   + inject_Z (Z.of_nat k) * leaderPitch w options doc line)%Q
                  y (leaderFont options doc) false)
      (seq 0 (leaderCount w options x pageW doc line)).

(** ** Lines of the breaker, as the renderer receives them *)

(** A run that the word loop leaves alone on a line: it fits the available
    width, or it is a part cut by the character loop of
    [splitWordIfNeeded], that is a single character, or a piece of two
    characters or more that passed the width test, followed by the
    hyphen. *)
Definition cutPart (w : Font -> string -> Q) (fnt : string) (sz aw : Q)
    (s : TextSegment) : Prop :=
  (w (runFont fnt sz s) (text s) <= aw)%Q
  \/ (exists c, text s = String c "")
  \/ (exists piece,
        text s = (piece ++ "-")%string
        /\ 2 <= String.length piece
        /\ (w (runFont fnt sz s) piece <= aw * (95 # 100))%Q).

Definition singleRun (w : Font -> string -> Q) (fnt : string) (sz aw : Q)
    (l : Line) : Prop :=
  forall s, l = [s] -> cutPart w fnt sz aw s.

(** The invariant of the word loop on the lines of a single run. *)
Definition singleRuns (w : Font -> string -> Q) (fnt : string) (sz aw : Q)
    (b : BreakState) : Prop :=
  Forall (singleRun w fnt sz aw) (lines b)
  /\ singleRun w fnt sz aw (currentLineSegments b).

(** A line of two words or more: the words alternate with single space
    runs, and the line starts and ends with a word. *)
Definition wordsLine (l : Line) : Prop :=
  exists ws, 2 <= List.length ws /\ Forall isWord ws /\ l = lineOfWords ws.

(** The calls of a justified line on which every space run is followed by
    the additional advance [extra]. *)
Fixpoint stretchedCalls (w : Font -> string -> Q) (name : string)
    (sz y extra x : Q) (segs : list TextSegment) : list Call :=
  match segs with
  | [] => []
  | s :: segs' =>
      CallText (text s) x y (runFont name sz s) false ::
      stretchedCalls w name sz y extra
        (if isSpaceRun s
         then (x + w (runFont name sz s) (text s) + extra)%Q
         else (x + w (runFont name sz s) (text s))%Q) segs'
  end.

(** * The model on sample inputs *)

Example calculateIndentation_tiers :
  (calculateIndentation "  - item" == 5 # 10)%Q
  /\ (calculateIndentation "no indent" == 25 # 100)%Q
  /\ (calculateIndentation "" == 0)%Q
  /\ (calculateIndentation "    deep" == 125 # 100)%Q.
Proof. repeat split; reflexivity. Qed.

Example splitSpaces_sample :
  splitSpaces " a  b " = [""; "a"; "b"; ""] /\ splitSpaces "" = [""].
Proof. split; reflexivity. Qed.

Example headerMatch_sample :
  headerMatch "## Hello world" = Some (2, "Hello world")
  /\ headerMatch "####### seven" = None
  /\ headerMatch "#tag" = None.
Proof. repeat split; reflexivity. Qed.

Example listMatch_sample :
  orderedListMatch "12. Hello world" = Some ("12", "Hello world")
  /\ orderedListMatch "12.Hello" = None
  /\ unorderedListMatch "- item" = Some "item"
  /\ unorderedListMatch "*bold*" = None.
Proof. repeat split; reflexivity. Qed.

Example pageMatch_sample :
  pageMatchFrom "Bab 1 Title - Halaman 5" 0 = Some (12, "5")
  /\ pageMatchFrom "Kata Pengantar - Halaman ii" 0 = Some (15, "ii")
  /\ pageMatchFrom "1.1 First section 12" 0 = Some (18, "12")
  /\ pageMatchFrom "No page here." 0 = None.
Proof. repeat split; reflexivity. Qed.

Example splitSeparator_sample :
  splitSeparator "Bab 1 Title" = ["Bab"; "1 Title"; ""]
  /\ splitSeparator "Bab" = ["Bab"].
Proof. split; reflexivity. Qed.

Example normalize_sample :
  normalize ("a---b" ++ newline ++ newline ++ "c")
  = ("a" ++ newline ++ "b" ++ newline ++ "c")%string.
Proof. reflexivity. Qed.

Example splitTextToLines_sample :
  map (map text)
      (fst (splitTextToLines monoWidth a4 longWords 25 0 "helvetica"))
  = [["abc-"]; ["def-"]; ["ghi-"]; ["j"]; ["klm"]; ["no"]].
Proof. reflexivity. Qed.

(** * Strings *)

Lemma append_assoc (a b c : string) :
  ((a ++ b) ++ c)%string = (a ++ (b ++ c))%string.
Proof. induction a; simpl; congruence. Qed.

Lemma append_empty_r (s : string) : (s ++ "")%string = s.
Proof. induction s; simpl; congruence. Qed.

Lemma append_length (a b : string) :
  String.length (a ++ b) = String.length a + String.length b.
Proof. induction a; simpl; congruence. Qed.

(** * The inline parser *)

Lemma lineText_app (l1 l2 : list TextSegment) :
  lineText (l1 ++ l2) = (lineText l1 ++ lineText l2)%string.
Proof.
  induction l1 as [|s l1 IH]; simpl; [reflexivity|].
  now rewrite IH, append_assoc.
Qed.

Lemma lineText_flush (segments : list TextSegment) (cur : string) (st : TextStyle) :
  lineText (flush segments cur st) = (lineText segments ++ cur)%string.
Proof.
  unfold flush. destruct cur; simpl.
  - now rewrite append_empty_r.
  - rewrite lineText_app. simpl. now rewrite append_empty_r.
Qed.

Lemma snoc_append (s : string) (c : ascii) (r : string) :
  (snoc s c ++ r)%string = (s ++ String c r)%string.
Proof. unfold snoc. now rewrite append_assoc. Qed.

(** The loop, on any suffix no longer than [n]. *)
Lemma parseInlineLoop_text (n : nat) :
  forall rest segments cur st,
    String.length rest <= n ->
    lineText (parseInlineLoop rest segments cur st)
    = (lineText segments ++ cur ++ stripMarkers rest)%string.
Proof.
  induction n as [|n IH]; intros rest segments cur st Hlen.
  - destruct rest; [|simpl in Hlen; lia].
    simpl. rewrite lineText_flush. now rewrite append_empty_r.
  - destruct rest as [|c rest1].
    + simpl. rewrite lineText_flush. now rewrite append_empty_r.
    + simpl in Hlen. simpl. destruct (isMarker c) eqn:Hc.
      * destruct rest1 as [|c1 rest2].
        -- rewrite IH by (simpl; lia). rewrite lineText_flush.
           simpl. now rewrite append_assoc.
        -- destruct (Ascii.eqb c1 c) eqn:Hc1.
           ++ apply Ascii.eqb_eq in Hc1. subst c1.
              rewrite IH by (simpl in *; lia).
              rewrite lineText_flush. simpl. rewrite Hc.
              now rewrite append_assoc.
           ++ rewrite IH by (simpl in *; lia).
              rewrite lineText_flush. simpl. now rewrite append_assoc.
      * rewrite IH by lia. now rewrite snoc_append.
Qed.

(** C6, as stated, fails: the parser does not cut runs at whitespace, so
    the text after the last marker is the single run [" c"]. *)
Lemma parseInline_sample_not_five_runs :
  parseInlineMarkdown "**a** *b* c"
  <> [mkSegment "a" boldStyle; mkSegment " " plainStyle;
      mkSegment "b" italicStyle; mkSegment " " plainStyle;
      mkSegment "c" plainStyle].
Proof. vm_compute. discriminate. Qed.

(** C6, amended: [parseInlineMarkdown "**a** *b* c"] is the four runs
    [a] bold, [ ] plain, [b] italic, [ c] plain; and for every input the
    concatenation of the runs' text is the input with the markers [*] and [_]
    removed. *)
Theorem parseInline_sample_and_text :
  parseInlineMarkdown "**a** *b* c"
  = [mkSegment "a" boldStyle; mkSegment " " plainStyle;
     mkSegment "b" italicStyle; mkSegment " c" plainStyle]
  /\ lineText (parseInlineMarkdown "**a** *b* c") = "a b c"
  /\ forall t, lineText (parseInlineMarkdown t) = stripMarkers t.
Proof.
  split; [reflexivity|]. split; [reflexivity|].
  intros t. unfold parseInlineMarkdown.
  now rewrite (parseInlineLoop_text (String.length t)) by lia.
Qed.

(** The runs of the parser carry no heading, which is what the statements
    about the breaker and the renderer ask of their runs. *)
Lemma parseInlineLoop_noHeading (n : nat) :
  forall rest segments cur st,
    String.length rest <= n ->
    Forall noHeading segments -> heading st = None ->
    Forall noHeading (parseInlineLoop rest segments cur st).
Proof.
  assert (Hflush : forall segments cur st,
             Forall noHeading segments -> heading st = None ->
             Forall noHeading (flush segments cur st)).
  { intros segments cur st Hs Hst. unfold flush.
    destruct (nonEmpty cur); [|exact Hs].
    apply Forall_app. split; [exact Hs | now repeat constructor]. }
  induction n as [|n IH]; intros rest segments cur st Hlen Hs Hst.
  - destruct rest; [|simpl in Hlen; lia]. now apply Hflush.
  - destruct rest as [|c rest1]; [now apply Hflush|].
    simpl in Hlen. cbn [parseInlineLoop]. destruct (isMarker c).
    + destruct rest1 as [|c1 rest2].
      * apply IH; [simpl; lia | now apply Hflush | exact Hst].
      * destruct (Ascii.eqb c1 c);
          (apply IH; [simpl in *; lia | now apply Hflush | exact Hst]).
    + apply IH; [lia | exact Hs | exact Hst].
Qed.

Lemma parseInlineMarkdown_noHeading (t : string) :
  Forall noHeading (parseInlineMarkdown t).
Proof.
  apply (parseInlineLoop_noHeading (String.length t));
    [lia | constructor | reflexivity].
Qed.

(** * Normalisation of the input *)

Lemma collapseNewlines_head (s : string) :
  startsWithNewline (collapseNewlines s) = startsWithNewline s.
Proof.
  induction s as [|c r IH]; simpl; [reflexivity|].
  destruct (isNewline c) eqn:Hc; simpl.
  - destruct (startsWithNewline r) eqn:Hr; simpl.
    + now rewrite IH.
    + exact Hc.
  - exact Hc.
Qed.

Lemma collapseNewlines_noDouble (s : string) :
  noDoubleNewline (collapseNewlines s).
Proof.
  unfold noDoubleNewline.
  induction s as [|c r IH]; [reflexivity|].
  simpl collapseNewlines.
  destruct (isNewline c && startsWithNewline r) eqn:H; [exact IH|].
  cbn [includes]. rewrite IH, orb_false_r.
  cbn [startsWith append newline].
  destruct (collapseNewlines r) as [|d r'] eqn:Hr.
  - now rewrite andb_false_r.
  - cbn [startsWith]. rewrite andb_true_r.
    pose proof (collapseNewlines_head r) as Hh. rewrite Hr in Hh. simpl in Hh.
    unfold isNewline in *.
    rewrite (Ascii.eqb_sym "010" c), (Ascii.eqb_sym "010" d), Hh. exact H.
Qed.

Lemma noDouble_tail (c : ascii) (r : string) :
  noDoubleNewline (String c r) -> noDoubleNewline r.
Proof.
  unfold noDoubleNewline. cbn [includes]. intros H.
  apply orb_false_iff in H. tauto.
Qed.

Lemma noDouble_head (c : ascii) (r : string) :
  noDoubleNewline (String c r) -> isNewline c = true ->
  startsWithNewline r = false.
Proof.
  unfold noDoubleNewline. cbn [includes]. intros H Hc.
  apply orb_false_iff in H. destruct H as [H _].
  destruct r as [|d r']; [reflexivity|].
  cbn [startsWith append newline] in H. rewrite andb_true_r in H.
  change (isNewline d = false). unfold isNewline in *.
  rewrite (Ascii.eqb_sym "010" c), Hc in H.
  now rewrite Ascii.eqb_sym.
Qed.

Lemma snoc_nonEmpty (s : string) (c : ascii) : snoc s c <> "".
Proof. destruct s; discriminate. Qed.

Lemma splitLinesLoop_interior (s : string) :
  forall piece,
    noDoubleNewline s ->
    piece <> "" \/ startsWithNewline s = false ->
    allButLast (fun l => l <> "") (splitLinesLoop s piece).
Proof.
  induction s as [|c r IH]; intros piece Hnd Hp; [exact I|].
  cbn [splitLinesLoop]. fold (isNewline c).
  destruct (isNewline c) eqn:Hc.
  - assert (Hr : startsWithNewline r = false) by now apply (noDouble_head c).
    assert (Hpiece : piece <> "").
    { destruct Hp as [Hp|Hp]; [exact Hp|]. simpl in Hp. congruence. }
    specialize (IH "" (noDouble_tail _ _ Hnd) (or_intror Hr)).
    destruct (splitLinesLoop r "") eqn:E.
    + exact I.
    + cbn [allButLast]. split; assumption.
  - apply IH; [now apply (noDouble_tail c)|left; apply snoc_nonEmpty].
Qed.

Lemma splitLinesLoop_cons (s piece : string) :
  exists l ls, splitLinesLoop s piece = l :: ls.
Proof.
  revert piece. induction s as [|c r IH]; intros piece; simpl.
  - eauto.
  - destruct (Ascii.eqb c "010"); eauto.
Qed.

(** C9, as stated, fails: two blank lines between [a] and [b] do not
    collapse to one blank line; no blank line is left at all. *)
Lemma normalize_drops_blank_lines :
  splitLines (normalize ("a" ++ threeNewlines ++ "b")) = ["a"; "b"]
  /\ splitLines (normalize ("a" ++ threeNewlines ++ "b")) <> ["a"; ""; "b"].
Proof. split; [reflexivity | vm_compute; discriminate]. Qed.

(** The normalised text has no two consecutive newlines, so of its lines
    only the first and the last can be empty. *)
Lemma normalize_interior_lines (t : string) :
  noDoubleNewline (normalize t)
  /\ exists first others,
       splitLines (normalize t) = first :: others
       /\ allButLast (fun l => l <> "") others.
Proof.
  split; [apply collapseNewlines_noDouble|].
  unfold splitLines, normalize.
  pose proof (collapseNewlines_noDouble (replaceRules t)) as Hnd.
  destruct (collapseNewlines (replaceRules t)) as [|c r] eqn:E.
  - exists "", []. split; reflexivity.
  - cbn [splitLinesLoop]. fold (isNewline c).
    destruct (isNewline c) eqn:Hc.
    + exists "", (splitLinesLoop r ""). split; [reflexivity|].
      apply splitLinesLoop_interior.
      * now apply (noDouble_tail c).
      * right. now apply (noDouble_head c).
    + destruct (splitLinesLoop_cons r (snoc "" c)) as [l [ls Hl]].
      pose proof (splitLinesLoop_interior r (snoc "" c)
                    (noDouble_tail _ _ Hnd) (or_introl (snoc_nonEmpty _ _)))
        as Hall.
      rewrite Hl in *. exists l, ls. split; [reflexivity|].
      destruct ls as [|l2 ls]; [exact I|]. exact (proj2 Hall).
Qed.

(** * Substrings and the normalisation *)

Lemma startsWith_app (p post : string) : startsWith p (p ++ post) = true.
Proof.
  induction p as [|a p IH]; simpl; [reflexivity|].
  now rewrite Ascii.eqb_refl, IH.
Qed.

Lemma startsWith_elim (p s : string) :
  startsWith p s = true -> exists post, s = (p ++ post)%string.
Proof.
  revert s. induction p as [|a p IH]; intros s H.
  - exists s. reflexivity.
  - destruct s as [|b s]; [discriminate|]. simpl in H.
    apply andb_true_iff in H. destruct H as [Hab Hp].
    apply Ascii.eqb_eq in Hab. subst b.
    destruct (IH _ Hp) as [post ->]. now exists post.
Qed.

Lemma includes_tail (c : ascii) (s p : string) :
  includes s p = true -> includes (String c s) p = true.
Proof. intros H. cbn [includes]. rewrite H. apply orb_true_r. Qed.

Lemma includes_startsWith (s p : string) :
  startsWith p s = true -> includes s p = true.
Proof. intros H. destruct s; cbn [includes]; now rewrite H. Qed.

Lemma includes_intro (pre p post : string) :
  includes (pre ++ p ++ post) p = true.
Proof.
  induction pre as [|c pre IH].
  - change (includes (p ++ post) p = true).
    apply includes_startsWith, startsWith_app.
  - change (includes (String c (pre ++ p ++ post)) p = true).
    now apply includes_tail.
Qed.

Lemma includes_elim (s p : string) :
  includes s p = true -> exists pre post, s = (pre ++ p ++ post)%string.
Proof.
  induction s as [|c s IH]; intros H.
  - simpl in H. rewrite orb_false_r in H.
    destruct (startsWith_elim _ _ H) as [post E]. now exists "", post.
  - cbn [includes] in H. apply orb_true_iff in H. destruct H as [H|H].
    + destruct (startsWith_elim _ _ H) as [post E]. now exists "", post.
    + destruct (IH H) as [pre [post E]]. exists (String c pre), post.
      simpl. now rewrite E.
Qed.

Lemma replaceRules_eq (c : ascii) (r : string) :
  replaceRules (String c r)
  = if threeDashes (String c r)
    then String "010" (replaceRules (dropN 2 r))
    else String c (replaceRules r).
Proof. destruct r as [|c2 [|c3 r3]]; reflexivity. Qed.

Lemma threeDashes_prefix (c : ascii) (r rest : string) :
  threeDashes (String c (r ++ rest)) = true ->
  startsWithDash rest = false ->
  exists c2 c3 r3, r = String c2 (String c3 r3).
Proof.
  intros H Hd. destruct r as [|c2 [|c3 r3]]; [| |eauto].
  - destruct rest as [|d [|d2 rest']]; try discriminate H.
    simpl in H, Hd. rewrite Hd, andb_false_r in H. discriminate H.
  - destruct rest as [|d rest']; try discriminate H.
    simpl in H, Hd. rewrite Hd, andb_false_r in H. discriminate H.
Qed.

(** What [replaceRules] does to a prefix does not reach into a rest that
    does not start with a dash. *)
Lemma replaceRules_prefix (n : nat) :
  forall pre rest,
    String.length pre <= n ->
    startsWithDash rest = false ->
    exists pre', replaceRules (pre ++ rest) = (pre' ++ replaceRules rest)%string.
Proof.
  induction n as [|n IH]; intros pre rest Hlen Hd.
  - destruct pre; [|simpl in Hlen; lia]. now exists "".
  - destruct pre as [|c r]; [now exists ""|].
    simpl in Hlen. change (String c r ++ rest)%string with (String c (r ++ rest)).
    rewrite replaceRules_eq.
    destruct (threeDashes (String c (r ++ rest))) eqn:E.
    + destruct (threeDashes_prefix _ _ _ E Hd) as [c2 [c3 [r3 ->]]].
      destruct (IH r3 rest) as [pre' E']; [simpl in Hlen; lia | exact Hd|].
      exists (String "010" pre'). cbn [dropN append]. now rewrite E'.
    + destruct (IH r rest) as [pre' E']; [lia | exact Hd|].
      exists (String c pre'). now rewrite E'.
Qed.

Lemma collapseNewlines_prefix (pre rest : string) :
  exists pre',
    collapseNewlines (pre ++ rest) = (pre' ++ collapseNewlines rest)%string.
Proof.
  induction pre as [|c pre [pre' IH]]; [now exists ""|].
  simpl append. cbn [collapseNewlines].
  destruct (isNewline c && startsWithNewline (pre ++ rest)).
  - now exists pre'.
  - exists (String c pre'). now rewrite IH.
Qed.

Lemma includes_normalize (p t : string) :
  survives p -> includes t p = true -> includes (normalize t) p = true.
Proof.
  intros [Hne [Hd [Hr Hc]]] H.
  destruct (includes_elim _ _ H) as [pre [post ->]].
  unfold normalize.
  destruct (replaceRules_prefix (String.length pre) pre (p ++ post)) as [pre1 E1];
    [lia | destruct p; [congruence | exact Hd] |].
  rewrite E1. destruct (Hr post) as [post1 ->].
  destruct (collapseNewlines_prefix pre1 (p ++ post1)) as [pre2 ->].
  destruct (Hc post1) as [post2 ->].
  apply includes_intro.
Qed.

Ltac survive :=
  split; [discriminate|]; split; [reflexivity|];
  split; intros post;
  destruct post as [|? [|? ?]]; eexists; cbn; reflexivity.

Lemma survives_chapter_entry : survives "Bab 1 Title - Halaman 5".
Proof. survive. Qed.

Lemma survives_preface_entry : survives "Kata Pengantar - Halaman 2".
Proof. survive. Qed.

Lemma includes_inner (s a q b : string) :
  includes s (a ++ q ++ b) = true -> includes s q = true.
Proof.
  intros H. destruct (includes_elim _ _ H) as [pre [post ->]].
  replace (pre ++ (a ++ q ++ b) ++ post)%string
    with ((pre ++ a) ++ q ++ (b ++ post))%string
    by now rewrite !append_assoc.
  apply includes_intro.
Qed.

Lemma startsWith_newline (p : string) (r : string) :
  noNewline p -> p <> "" -> startsWith p (String "010" r) = false.
Proof.
  unfold noNewline. intros Hp Hne. destruct p as [|a p]; [congruence|].
  cbn [allChars] in Hp. apply andb_true_iff in Hp. destruct Hp as [Ha _].
  cbn [startsWith]. destruct (Ascii.eqb a "010") eqn:E; [|reflexivity].
  apply Ascii.eqb_eq in E. subst a. discriminate Ha.
Qed.

Lemma noNewline_tail (a : ascii) (p : string) :
  noNewline (String a p) -> noNewline p.
Proof.
  unfold noNewline. cbn [allChars]. intros H.
  apply andb_true_iff in H. tauto.
Qed.

Lemma startsWith_replaceRules (p : string) :
  noNewline p ->
  forall s, startsWith p (replaceRules s) = true -> startsWith p s = true.
Proof.
  induction p as [|a p IH]; intros Hp s H; [reflexivity|].
  destruct s as [|c r]; [discriminate H|].
  rewrite replaceRules_eq in H.
  destruct (threeDashes (String c r)).
  - rewrite startsWith_newline in H; [discriminate H | exact Hp | discriminate].
  - cbn [startsWith] in *. apply andb_true_iff in H. destruct H as [H1 H2].
    rewrite H1. simpl. apply IH; [now apply (noNewline_tail a) | exact H2].
Qed.

Lemma includes_replaceRules (p : string) (n : nat) :
  noNewline p -> p <> "" ->
  forall s, String.length s <= n ->
    includes (replaceRules s) p = true -> includes s p = true.
Proof.
  intros Hp Hne. induction n as [|n IH]; intros s Hlen H.
  - destruct s; [|simpl in Hlen; lia]. exact H.
  - destruct s as [|c r]; [exact H|]. simpl in Hlen.
    pose proof (startsWith_replaceRules p Hp (String c r)) as Hs.
    rewrite replaceRules_eq in H, Hs.
    destruct (threeDashes (String c r)) eqn:E.
    + cbn [includes] in H. rewrite startsWith_newline in H by assumption.
      simpl in H.
      destruct r as [|c2 [|c3 r3]]; try discriminate E.
      do 3 apply includes_tail. apply IH; [simpl in Hlen; lia | exact H].
    + cbn [includes] in H. apply orb_true_iff in H. destruct H as [H|H].
      * cbn [includes]. now rewrite (Hs H).
      * apply includes_tail, IH; [lia | exact H].
Qed.

Lemma startsWith_collapseNewlines (p : string) :
  noNewline p ->
  forall s, startsWith p (collapseNewlines s) = true -> startsWith p s = true.
Proof.
  unfold noNewline.
  induction p as [|a p IH]; intros Hp s H; [reflexivity|].
  cbn [allChars] in Hp. apply andb_true_iff in Hp. destruct Hp as [Ha Hp].
  destruct s as [|c r]; [discriminate H|].
  cbn [collapseNewlines] in H.
  destruct (isNewline c && startsWithNewline r) eqn:E.
  - apply andb_true_iff in E. destruct E as [_ Er].
    rewrite <- collapseNewlines_head in Er.
    destruct (collapseNewlines r) as [|d r']; [discriminate H|].
    cbn [startsWith] in H. apply andb_true_iff in H. destruct H as [H _].
    apply Ascii.eqb_eq in H. subst d. simpl in Er.
    rewrite Er in Ha. discriminate Ha.
  - cbn [startsWith] in *. apply andb_true_iff in H. destruct H as [H1 H2].
    rewrite H1. simpl. now apply IH.
Qed.

Lemma includes_collapseNewlines (p : string) :
  noNewline p -> p <> "" ->
  forall s, includes (collapseNewlines s) p = true -> includes s p = true.
Proof.
  intros Hp Hne. induction s as [|c r IH]; intros H; [exact H|].
  cbn [collapseNewlines] in H.
  destruct (isNewline c && startsWithNewline r) eqn:E.
  - now apply includes_tail, IH.
  - cbn [includes] in H. apply orb_true_iff in H. destruct H as [H|H].
    + cbn [includes].
      rewrite (startsWith_collapseNewlines p Hp (String c r)); [reflexivity|].
      cbn [collapseNewlines]. now rewrite E.
    + now apply includes_tail, IH.
Qed.

Lemma includes_normalize_back (p t : string) :
  noNewline p -> p <> "" ->
  includes (normalize t) p = true -> includes t p = true.
Proof.
  intros Hp Hne H. unfold normalize in H.
  apply includes_collapseNewlines in H; try assumption.
  now apply (includes_replaceRules p (String.length t)) in H.
Qed.

Lemma nonEmpty_true (t : string) : t <> "" -> nonEmpty t = true.
Proof. destruct t; [congruence | reflexivity]. Qed.

(** C8: a non-empty document goes to the table-of-contents formatter exactly
    when its normalised text contains [- Halaman] and also [Bab] or
    [Kata Pengantar]; otherwise it goes through the page flow.  A document
    that contains both [Bab 1 Title - Halaman 5] and
    [Kata Pengantar - Halaman 2] goes to the formatter, a document without
    [- Halaman] (such as one that only contains [Bab 1 Title]) goes through
    the page flow. *)
Theorem toc_routing (w : Font -> string -> Q) (doc : Doc) (t : string)
    (x y : Q) (options : PDFMarkdownOptions) :
  t <> "" ->
  (includes (normalize t) "- Halaman" = true
   /\ (includes (normalize t) "Bab" = true
       \/ includes (normalize t) "Kata Pengantar" = true) ->
   parsePDFMarkdown w doc t x y options
   = formatPDFTableOfContents w doc (normalize t) x y options)
  /\ (~ (includes (normalize t) "- Halaman" = true
         /\ (includes (normalize t) "Bab" = true
             \/ includes (normalize t) "Kata Pengantar" = true)) ->
      parsePDFMarkdown w doc t x y options
      = flowDocument w doc (normalize t) x y options)
  /\ (includes t "Bab 1 Title - Halaman 5" = true ->
      includes t "Kata Pengantar - Halaman 2" = true ->
      parsePDFMarkdown w doc t x y options
      = formatPDFTableOfContents w doc (normalize t) x y options)
  /\ (includes t "- Halaman" = false ->
      parsePDFMarkdown w doc t x y options
      = flowDocument w doc (normalize t) x y options).
Proof.
  intros Ht. unfold parsePDFMarkdown, isTableOfContents.
  rewrite (nonEmpty_true t Ht). cbn [negb].
  repeat split.
  - intros [H1 [H2|H2]]; rewrite H1, H2; simpl;
      [reflexivity | now rewrite orb_true_r].
  - intros H.
    destruct (includes (normalize t) "- Halaman") eqn:H1; [|reflexivity].
    destruct (includes (normalize t) "Bab") eqn:H2; [exfalso; tauto|].
    destruct (includes (normalize t) "Kata Pengantar") eqn:H3;
      [exfalso; tauto | reflexivity].
  - intros H1 H2.
    apply (includes_normalize _ _ survives_chapter_entry) in H1.
    rewrite (includes_inner _ "Bab 1 Title " "- Halaman" " 5" H1).
    now rewrite (includes_inner _ "" "Bab" " 1 Title - Halaman 5" H1).
  - intros H.
    destruct (includes (normalize t) "- Halaman") eqn:H1; [|reflexivity].
    apply includes_normalize_back in H1; [congruence | reflexivity | discriminate].
Qed.

(** * The table-of-contents formatter *)

Lemma drawsOnly_refl (d : Doc) : drawsOnly d d.
Proof. exists []. split; [now rewrite app_nil_r | constructor]. Qed.

Lemma drawsOnly_trans (d1 d2 d3 : Doc) :
  drawsOnly d1 d2 -> drawsOnly d2 d3 -> drawsOnly d1 d3.
Proof.
  intros [n1 [E1 F1]] [n2 [E2 F2]]. exists (n1 ++ n2). split.
  - now rewrite E2, E1, app_assoc.
  - apply Forall_app. now split.
Qed.

Lemma drawsOnly_setFont (d d' : Doc) (name : string) (fs : FontStyle) :
  drawsOnly d d' -> drawsOnly d (setFont d' name fs).
Proof. intros H. exact H. Qed.

Lemma drawsOnly_setFontSize (d d' : Doc) (sz : Q) :
  drawsOnly d d' -> drawsOnly d (setFontSize d' sz).
Proof. intros H. exact H. Qed.

Lemma drawsOnly_docText (d d' : Doc) (s : string) (x y : Q) :
  drawsOnly d d' -> drawsOnly d (docText d' s x y).
Proof.
  intros H. apply (drawsOnly_trans _ _ _ H).
  eexists. split; [reflexivity|]. repeat constructor.
Qed.

Lemma drawsOnly_docTextRight (d d' : Doc) (s : string) (x y : Q) :
  drawsOnly d d' -> drawsOnly d (docTextRight d' s x y).
Proof.
  intros H. apply (drawsOnly_trans _ _ _ H).
  eexists. split; [reflexivity|]. repeat constructor.
Qed.

Lemma drawsOnly_drawDots (count : nat) :
  forall d d' dotsStart pitch y i,
    drawsOnly d d' -> drawsOnly d (drawDots d' dotsStart pitch y i count).
Proof.
  induction count as [|count IH]; intros d d' dotsStart pitch y i H.
  - exact H.
  - simpl. apply IH. now apply drawsOnly_docText.
Qed.

Ltac draws_only :=
  repeat first
    [ assumption
    | apply drawsOnly_docTextRight
    | apply drawsOnly_drawDots
    | apply drawsOnly_docText
    | apply drawsOnly_setFont
    | apply drawsOnly_setFontSize
    | apply drawsOnly_refl ].

Lemma tocLine_drawsOnly (w : Font -> string -> Q) (options : PDFMarkdownOptions)
    (x lh pageW : Q) (d : Doc) (acc : Q * Doc) (line : string) :
  drawsOnly d (snd acc) ->
  drawsOnly d (snd (tocLine w options x lh pageW acc line)).
Proof.
  intros H. unfold tocLine. destruct acc as [currentY doc]. cbn [snd] in H.
  destruct (negb (nonEmpty (trim line))); [exact H|].
  repeat match goal with
         | |- context [if ?b then _ else _] => destruct b
         end; cbn [snd]; draws_only.
Qed.

Lemma tocLine_advances (w : Font -> string -> Q) (options : PDFMarkdownOptions)
    (x lh pageW : Q) (acc : Q * Doc) (line : string) :
  (0 <= lh)%Q ->
  (fst acc + lh <= fst (tocLine w options x lh pageW acc line))%Q.
Proof.
  intros Hlh. unfold tocLine. destruct acc as [currentY doc]. cbn [fst].
  destruct (negb (nonEmpty (trim line))); [cbn [fst]; lra|].
  repeat match goal with
         | |- context [if ?b then _ else _] => destruct b
         end; cbn [fst]; lra.
Qed.

Lemma toc_fold (w : Font -> string -> Q) (options : PDFMarkdownOptions)
    (x lh pageW : Q) (d : Doc) (ls : list string) :
  forall acc,
    drawsOnly d (snd acc) ->
    drawsOnly d (snd (fold_left (tocLine w options x lh pageW) ls acc))
    /\ ((0 <= lh)%Q ->
        (fst acc + inject_Z (Z.of_nat (List.length ls)) * lh
         <= fst (fold_left (tocLine w options x lh pageW) ls acc))%Q).
Proof.
  induction ls as [|l ls IH]; intros acc H.
  - split; [exact H|]. intros _. cbn [fold_left List.length].
    change (inject_Z (Z.of_nat 0)) with 0%Q. lra.
  - cbn [fold_left].
    destruct (IH (tocLine w options x lh pageW acc l)
                 (tocLine_drawsOnly w options x lh pageW d acc l H)) as [H1 H2].
    split; [exact H1|]. intros Hlh.
    pose proof (tocLine_advances w options x lh pageW acc l Hlh) as Ha.
    specialize (H2 Hlh).
    change (List.length (l :: ls)) with (S (List.length ls)).
    rewrite Nat2Z.inj_succ. unfold Z.succ. rewrite inject_Z_plus.
    change (inject_Z 1) with 1%Q. lra.
Qed.

(** C10: the table-of-contents formatter never requests a new page,
    however many lines the document has: the calls it adds are all [text]
    calls, and so are those of [parsePDFMarkdown] on a document routed to
    it.  The cursor it returns advances by at least one line height per
    line, so it can exceed [pageHeight - bottomMargin]: it does for a
    four-line table that starts at [y = 270] on an A4 page. *)
Theorem toc_never_requests_page (w : Font -> string -> Q) (doc : Doc)
    (t : string) (x y : Q) (options : PDFMarkdownOptions) :
  drawsOnly doc (snd (formatPDFTableOfContents w doc t x y options))
  /\ newPages (calls (snd (formatPDFTableOfContents w doc t x y options)))
     = newPages (calls doc)
  /\ (isTableOfContents (normalize t) = true ->
      drawsOnly doc (snd (parsePDFMarkdown w doc t x y options)))
  /\ ((0 <= optionsLineHeight options)%Q ->
      (y + inject_Z (Z.of_nat (List.length (splitLines t)))
           * optionsLineHeight options
       <= fst (formatPDFTableOfContents w doc t x y options))%Q)
  /\ (pageHeight a4 - marginBottom
      < fst (parsePDFMarkdown monoWidth a4 longToc 20 270 a4Options))%Q.
Proof.
  unfold formatPDFTableOfContents.
  destruct (toc_fold w options x (optionsLineHeight options) (pageWidth doc)
              doc (splitLines t) (y, doc) (drawsOnly_refl doc)) as [H1 H2].
  split; [exact H1|]. split.
  { destruct H1 as [new [E F]]. cbn [snd] in E. rewrite E. unfold newPages.
    rewrite filter_app, length_app.
    assert (Hz : filter isAddPage new = []).
    { clear E. induction F as [|c new Hc F IH]; [reflexivity|].
      destruct c; [exact IH | destruct Hc]. }
    rewrite Hz. simpl. lia. }
  split.
  { intros Hr. unfold parsePDFMarkdown.
    destruct (negb (nonEmpty t)); [apply drawsOnly_refl|].
    rewrite Hr. unfold formatPDFTableOfContents.
    apply (toc_fold w options x (optionsLineHeight options) (pageWidth doc)
             doc (splitLines (normalize t)) (y, doc) (drawsOnly_refl doc)). }
  split; [exact H2|].
  vm_compute. reflexivity.
Qed.

(** * The line renderer *)

Lemma applyStyle_noHeading (doc : Doc) (st : TextStyle) (sz : Q) (name : string) :
  heading st = None ->
  applyStyle doc st sz name
  = mkDoc (mkFont name (styleFont st) sz) (pageWidth doc) (pageHeight doc)
          (calls doc).
Proof. intros H. unfold applyStyle. now rewrite H. Qed.

Lemma lastLine_fold (w : Font -> string -> Q) (y : Q)
    (segs : list TextSegment) :
  Forall noHeading segs ->
  forall x doc,
    calls (snd (fold_left (drawLastLineRun w y) segs (x, doc)))
    = calls doc
      ++ lastLineCalls w (fontName (getFont doc)) (getFontSize doc) y x segs.
Proof.
  induction 1 as [|s segs Hs _ IH]; intros x doc.
  - simpl. now rewrite app_nil_r.
  - cbn [fold_left lastLineCalls]. unfold drawLastLineRun at 2.
    rewrite (applyStyle_noHeading _ _ _ _ Hs). rewrite IH.
    cbn [calls docText getFont fontName getFontSize size].
    rewrite <- app_assoc. reflexivity.
Qed.

Lemma addRunWidth_step (w : Font -> string -> Q) (acc : Q) (doc : Doc)
    (s : TextSegment) :
  noHeading s ->
  addRunWidth w (acc, doc) s
  = ((acc + w (runFont (fontName (getFont doc)) (getFontSize doc) s) (text s))%Q,
     mkDoc (runFont (fontName (getFont doc)) (getFontSize doc) s)
           (pageWidth doc) (pageHeight doc) (calls doc)).
Proof.
  intros Hs. unfold addRunWidth. now rewrite (applyStyle_noHeading _ _ _ _ Hs).
Qed.

Lemma addRunWidth_fold (w : Font -> string -> Q) (segs : list TextSegment) :
  Forall noHeading segs ->
  forall acc doc,
    (fst (fold_left (addRunWidth w) segs (acc, doc))
     == acc + textWidth w (fontName (getFont doc)) (getFontSize doc) segs)%Q
    /\ calls (snd (fold_left (addRunWidth w) segs (acc, doc))) = calls doc
    /\ fontName (getFont (snd (fold_left (addRunWidth w) segs (acc, doc))))
       = fontName (getFont doc)
    /\ getFontSize (snd (fold_left (addRunWidth w) segs (acc, doc)))
       = getFontSize doc.
Proof.
  induction 1 as [|s segs Hs _ IH]; intros acc doc.
  - simpl. repeat split; try reflexivity. lra.
  - cbn [fold_left textWidth]. rewrite (addRunWidth_step _ _ _ _ Hs).
    match goal with
    | |- context [fold_left _ segs (?a, ?d)] =>
        destruct (IH a d) as [H1 [H2 [H3 H4]]]
    end.
    rewrite H1, H2, H3, H4.
    cbn [calls getFont fontName getFontSize size runFont].
    repeat split; try reflexivity. unfold runFont. lra.
Qed.

Lemma justified_fold (w : Font -> string -> Q) (y extra : Q) (n : nat)
    (segs : list TextSegment) :
  Forall noHeading segs ->
  forall index x doc,
    calls (snd (drawJustifiedRuns w y extra n index segs (x, doc)))
    = calls doc
      ++ justifiedCalls w (fontName (getFont doc)) (getFontSize doc) y extra
                        n index x segs.
Proof.
  induction 1 as [|s segs Hs _ IH]; intros index x doc.
  - simpl. now rewrite app_nil_r.
  - cbn [drawJustifiedRuns justifiedCalls].
    rewrite (applyStyle_noHeading _ _ _ _ Hs). rewrite IH.
    cbn [calls docText getFont fontName getFontSize size measure].
    rewrite <- app_assoc. cbn [app]. unfold runFont.
    destruct (isSpaceRun s && Nat.ltb index (n - 1)); reflexivity.
Qed.

Lemma justified_advance (w : Font -> string -> Q) (y extra : Q) (n : nat)
    (segs : list TextSegment) :
  Forall noHeading segs ->
  forall index x doc,
    (fst (drawJustifiedRuns w y extra n index segs (x, doc))
     == x + textWidth w (fontName (getFont doc)) (getFontSize doc) segs
        + extra * inject_Z (Z.of_nat (stretchedGaps n index segs)))%Q.
Proof.
  induction 1 as [|s segs Hs _ IH]; intros index x doc.
  - cbn [drawJustifiedRuns fst textWidth stretchedGaps].
    change (inject_Z (Z.of_nat 0)) with 0%Q. lra.
  - cbn [drawJustifiedRuns textWidth stretchedGaps].
    rewrite (applyStyle_noHeading _ _ _ _ Hs). rewrite IH.
    unfold measure, docText, runFont.
    cbn [calls getFont fontName getFontSize size].
    rewrite Nat2Z.inj_add, inject_Z_plus.
    destruct (isSpaceRun s && Nat.ltb index (n - 1)).
    + change (inject_Z (Z.of_nat 1)) with 1%Q. ring.
    + change (inject_Z (Z.of_nat 0)) with 0%Q. ring.
Qed.

Lemma lastIsSpace_cons (s s' : TextSegment) (segs : list TextSegment) :
  lastIsSpace (s :: s' :: segs) = lastIsSpace (s' :: segs).
Proof.
  unfold lastIsSpace. cbn [rev].
  destruct (rev segs ++ [s']) eqn:E; [|reflexivity].
  apply app_eq_nil in E. destruct E. discriminate.
Qed.

Lemma stretchedGaps_all (segs : list TextSegment) :
  forall n index,
    n = index + List.length segs ->
    lastIsSpace segs = false ->
    stretchedGaps n index segs = spaceRuns segs.
Proof.
  unfold spaceRuns.
  induction segs as [|s segs IH]; intros n index Hn Hlast; [reflexivity|].
  cbn [stretchedGaps filter]. destruct segs as [|s' segs].
  - unfold lastIsSpace in Hlast. simpl in Hlast. rewrite Hlast. reflexivity.
  - rewrite lastIsSpace_cons in Hlast.
    rewrite (IH n (S index)); [|simpl in *; lia | exact Hlast].
    assert (Hlt : Nat.ltb index (n - 1) = true)
      by (apply Nat.ltb_lt; simpl in Hn; lia).
    rewrite Hlt, andb_true_r. destruct (isSpaceRun s); reflexivity.
Qed.

Lemma max0_of_nonneg (v : Q) : (0 <= v)%Q -> (max0 v == v)%Q.
Proof.
  intros H. unfold max0. destruct (Qle_bool v 0) eqn:E; [|reflexivity].
  apply Qle_bool_iff in E. lra.
Qed.

Lemma max0_compat (a b : Q) : (a == b)%Q -> (max0 a == max0 b)%Q.
Proof.
  intros H. unfold max0.
  destruct (Qle_bool a 0) eqn:Ea, (Qle_bool b 0) eqn:Eb; try reflexivity;
    try exact H.
  - apply Qle_bool_iff in Ea.
    assert (Hb : ~ (b <= 0)%Q) by (rewrite <- Qle_bool_iff; congruence). lra.
  - apply Qle_bool_iff in Eb.
    assert (Ha : ~ (a <= 0)%Q) by (rewrite <- Qle_bool_iff; congruence). lra.
Qed.

Lemma extraSpacePerGap_share (w : Font -> string -> Q) (doc : Doc)
    (segs : list TextSegment) (maxW : Q) :
  Forall noHeading segs ->
  (extraSpacePerGap w doc segs maxW
   == gapShare w (fontName (getFont doc)) (getFontSize doc) maxW segs)%Q.
Proof.
  intros H. unfold extraSpacePerGap, gapShare, slack, spaceRuns.
  destruct (addRunWidth_fold w segs H 0%Q doc) as [H1 _].
  destruct (Nat.ltb 0 (List.length (filter isSpaceRun segs))); [|reflexivity].
  apply Qmult_comp; [|reflexivity].
  apply max0_compat. rewrite H1. ring.
Qed.

(** At the level of the function: on the last line a word advances the
    cursor by the width of its text followed by a space, so the runs are not
    where the left-aligned loop of [parsePDFMarkdown] draws them. *)
Lemma last_line_not_left_aligned :
  textXs (calls (renderJustifiedLine monoWidth a4 twoWords 20 40 170 true))
  = [20; 32; 38]%Q
  /\ textXs (calls (drawLeftAligned monoWidth a4Options a4 twoWords 20 40))
     = [20; 26; 32]%Q
  /\ calls (renderJustifiedLine monoWidth a4 twoWords 20 40 170 true)
     <> calls (drawLeftAligned monoWidth a4Options a4 twoWords 20 40).
Proof.
  split; [reflexivity|]. split; [reflexivity|].
  vm_compute. discriminate.
Qed.

(** The calls of the branch [isLastLine || segments.length <= 1], as the
    code has them: each run is drawn at the cursor in its own font, and the
    cursor advances by the width that [lastLineCalls] spells out. *)
Lemma lastLine_calls (w : Font -> string -> Q) (doc : Doc)
    (segs : list TextSegment) (x y maxW : Q) (isLastLine : bool) :
  isLastLine = true \/ List.length segs <= 1 ->
  Forall noHeading segs ->
  calls (renderJustifiedLine w doc segs x y maxW isLastLine)
  = calls doc
    ++ lastLineCalls w (fontName (getFont doc)) (getFontSize doc) y x segs.
Proof.
  intros Hlast Hsegs. unfold renderJustifiedLine, renderJustifiedLineX.
  assert (E : isLastLine || Nat.leb (List.length segs) 1 = true).
  { destruct Hlast as [-> | Hlen]; [reflexivity|].
    apply Nat.leb_le in Hlen. rewrite Hlen. apply orb_true_r. }
  rewrite E. now apply lastLine_fold.
Qed.

(** C4 is what the code sets out to do and misses.  The branch for the last
    line measures [segment.text + ' '] for every run that is not a space,
    although the line already holds its spaces as runs of their own: a word
    advances the cursor by its own width and by the width of one more
    space.  The paragraph [aa bb cc dd], justified in a column of width 33
    at [x = 20] with every glyph 6 wide, is indented by 3 and broken into
    [aa bb] and [cc dd].  The last line [cc dd] is drawn at 23, 41 and 47
    and ends at 59, past the end of the column at 53; left-aligned, the same
    line is drawn at 23, 35 and 41 and ends at 53.  The first line is drawn
    at 23, 35 and 41 in both alignments: the left-aligned loop and the
    justified branch advance by the width of the run alone. *)
Theorem last_line_overruns_column :
  drawnTexts (calls (snd (parsePDFMarkdown monoWidth a4 "aa bb cc dd" 20 40
                            narrowJustify)))
  = ["aa"; " "; "bb"; "cc"; " "; "dd"]
  /\ textXs (calls (snd (parsePDFMarkdown monoWidth a4 "aa bb cc dd" 20 40
                           narrowJustify)))
     = [23; 35; 41; 23; 41; 47]%Q
  /\ textXs (calls (snd (parsePDFMarkdown monoWidth a4 "aa bb cc dd" 20 40
                           narrowLeft)))
     = [23; 35; 41; 23; 35; 41]%Q
  /\ (20 + maxWidth narrowJustify < 47 + monoWidth helvetica12 "dd")%Q
  /\ (41 + monoWidth helvetica12 "dd" <= 20 + maxWidth narrowLeft)%Q.
Proof.
  split; [vm_compute; reflexivity|].
  split; [vm_compute; reflexivity|].
  split; [vm_compute; reflexivity|].
  split; [reflexivity | vm_compute; discriminate].
Qed.

(** The justified branch on any line of more than one run (runs without
    heading level): every run advances the cursor by its own width, and a
    space run that is not the last run of the line by the share of a gap
    more; the share is the slack divided by the number of space runs; on a
    line with a space run that does not end with one and is not wider than
    [maxWidth], the advances add up to [maxWidth]. *)
Lemma justified_line_advances (w : Font -> string -> Q) (doc : Doc)
    (segs : list TextSegment) (x y maxW : Q) :
  2 <= List.length segs ->
  Forall noHeading segs ->
  calls (renderJustifiedLine w doc segs x y maxW false)
  = calls doc
    ++ justifiedCalls w (fontName (getFont doc)) (getFontSize doc) y
         (extraSpacePerGap w doc segs maxW) (List.length segs) 0 x segs
  /\ (0 < spaceRuns segs ->
      (extraSpacePerGap w doc segs maxW
       == slack w (fontName (getFont doc)) (getFontSize doc) maxW segs
          / inject_Z (Z.of_nat (spaceRuns segs)))%Q)
  /\ (0 < spaceRuns segs ->
      lastIsSpace segs = false ->
      (textWidth w (fontName (getFont doc)) (getFontSize doc) segs <= maxW)%Q ->
      (fst (renderJustifiedLineX w doc segs x y maxW false) == x + maxW)%Q).
Proof.
  intros Hlen Hsegs. unfold renderJustifiedLine, renderJustifiedLineX.
  assert (E : false || Nat.leb (List.length segs) 1 = false).
  { apply Nat.leb_gt. lia. }
  rewrite E.
  destruct (addRunWidth_fold w segs Hsegs 0%Q doc) as [_ [Hc [Hn Hz]]].
  pose proof (extraSpacePerGap_share w doc segs maxW Hsegs) as Hshare.
  unfold gapShare in Hshare.
  split; [|split].
  - rewrite justified_fold by assumption. now rewrite Hc, Hn, Hz.
  - intros HN. apply Nat.ltb_lt in HN. now rewrite HN in Hshare.
  - intros HN Hl Hfit.
    rewrite justified_advance by assumption. rewrite Hn, Hz.
    rewrite (stretchedGaps_all segs (List.length segs) 0) by (lia || assumption).
    assert (HN' := HN). apply Nat.ltb_lt in HN'. rewrite HN' in Hshare.
    rewrite Hshare. unfold slack.
    rewrite max0_of_nonneg by lra.
    assert (Hnz : ~ (inject_Z (Z.of_nat (spaceRuns segs)) == 0)%Q).
    { change 0%Q with (inject_Z 0). rewrite inject_Z_injective. lia. }
    field. exact Hnz.
Qed.

(** * The surface is only drawn on by the renderer *)

Lemma sameSurface_refl (d : Doc) : sameSurface d d.
Proof. repeat split. Qed.

Lemma sameSurface_trans (d1 d2 d3 : Doc) :
  sameSurface d1 d2 -> sameSurface d2 d3 -> sameSurface d1 d3.
Proof. unfold sameSurface. intuition congruence. Qed.

Lemma applyStyle_surface (d : Doc) (st : TextStyle) (sz : Q) (name : string) :
  sameSurface d (applyStyle d st sz name).
Proof. unfold applyStyle. destruct (heading st); repeat split. Qed.

Lemma splitWordIfNeeded_surface (w : Font -> string -> Q) (word : string)
    (st : TextStyle) (d : Doc) (maxW : Q) :
  sameSurface d (snd (splitWordIfNeeded w word st d maxW)).
Proof.
  unfold splitWordIfNeeded.
  destruct (Qle_bool _ _); apply applyStyle_surface.
Qed.

Lemma commitLine_doc (b : BreakState) : bdoc (commitLine b) = bdoc b.
Proof. unfold commitLine. now destruct (nonEmptyLine _). Qed.

Lemma placeParts_doc (w : Font -> string -> Q) (parts : list TextSegment) :
  forall b index, bdoc (placeParts w b index parts) = bdoc b.
Proof.
  induction parts as [|p parts IH]; intros b index; [reflexivity|].
  cbn [placeParts]. rewrite IH. unfold placePart. cbn [bdoc].
  destruct (Nat.ltb 0 index); [apply commitLine_doc | reflexivity].
Qed.

Lemma placeWord_surface (w : Font -> string -> Q) (aw sw : Q) (fnt : string)
    (segment : TextSegment) (b : BreakState) (word : string) :
  sameSurface (bdoc b) (bdoc (placeWord w aw sw fnt segment b word)).
Proof.
  unfold placeWord.
  destruct (negb (nonEmpty word)); [apply sameSurface_refl|].
  destruct (Qle_bool _ aw); [apply applyStyle_surface|].
  destruct (Qle_bool _ aw).
  - cbn [bdoc]. rewrite commitLine_doc. apply applyStyle_surface.
  - cbn [currentLineSegments bdoc].
    match goal with
    | |- context [splitWordIfNeeded w word ?st ?d aw] =>
        pose proof (splitWordIfNeeded_surface w word st d aw) as Hs;
        destruct (splitWordIfNeeded w word st d aw) as [parts d'] eqn:E
    end.
    rewrite placeParts_doc. cbn [bdoc snd] in *.
    eapply sameSurface_trans; [|exact Hs].
    destruct (nonEmptyLine (currentLineSegments b)).
    + rewrite commitLine_doc. apply applyStyle_surface.
    + apply applyStyle_surface.
Qed.

Lemma fold_surface {A : Type} (f : BreakState -> A -> BreakState) (l : list A) :
  (forall b a, sameSurface (bdoc b) (bdoc (f b a))) ->
  forall b, sameSurface (bdoc b) (bdoc (fold_left f l b)).
Proof.
  intros Hf. induction l as [|a l IH]; intros b; [apply sameSurface_refl|].
  cbn [fold_left]. eapply sameSurface_trans; [apply Hf | apply IH].
Qed.

Lemma placeSegment_surface (w : Font -> string -> Q) (aw sw : Q) (fnt : string)
    (b : BreakState) (segment : TextSegment) :
  sameSurface (bdoc b) (bdoc (placeSegment w aw sw fnt b segment)).
Proof.
  unfold placeSegment. apply fold_surface. intros b' a.
  apply placeWord_surface.
Qed.

Lemma brokenLines_surface (w : Font -> string -> Q) (d : Doc)
    (segments : list TextSegment) (maxW bi : Q) (fnt : string) :
  sameSurface d (bdoc (brokenLines w d segments maxW bi fnt)).
Proof.
  unfold brokenLines.
  match goal with
  | |- context [fold_left ?f segments ?b0] =>
      pose proof (fold_surface f segments
                    (fun b a => placeSegment_surface w _ _ fnt b a) b0) as H
  end.
  cbn [bdoc] in H.
  destruct (nonEmptyLine _); [rewrite commitLine_doc|]; exact H.
Qed.

Lemma measureLine_surface (w : Font -> string -> Q) (fnt : string)
    (line : Line) :
  forall acc d, sameSurface d (snd (fold_left (measureRun w fnt) line (acc, d))).
Proof.
  induction line as [|s line IH]; intros acc d; [apply sameSurface_refl|].
  cbn [fold_left]. unfold measureRun at 2. cbn [fst snd].
  eapply sameSurface_trans; [|apply IH]. apply applyStyle_surface.
Qed.

Lemma repairRun_surface (w : Font -> string -> Q) (aw sw : Q)
    (acc : Line * Q * Doc) (segment : TextSegment) :
  sameSurface (snd acc) (snd (repairRun w aw sw acc segment)).
Proof.
  unfold repairRun. destruct acc as [[newLine cw] d]. cbn [snd].
  destruct (isSpaceRun segment).
  - destruct (Qle_bool _ _); apply sameSurface_refl.
  - pose proof (splitWordIfNeeded_surface w (text segment) (style segment) d
                  (aw - cw)%Q) as Hs.
    destruct (splitWordIfNeeded _ _ _ _ _) as [parts d'].
    destruct (fold_left _ parts _). exact Hs.
Qed.

Lemma repairRuns_surface (w : Font -> string -> Q) (aw sw : Q) (line : Line) :
  forall acc,
    sameSurface (snd acc) (snd (fold_left (repairRun w aw sw) line acc)).
Proof.
  induction line as [|s line IH]; intros acc; [apply sameSurface_refl|].
  cbn [fold_left]. eapply sameSurface_trans; [|apply IH].
  apply repairRun_surface.
Qed.

Lemma repairLine_surface (w : Font -> string -> Q) (aw sw : Q) (fnt : string)
    (d : Doc) (line : Line) :
  sameSurface d (snd (repairLine w aw sw fnt d line)).
Proof.
  unfold repairLine, measureLine.
  pose proof (measureLine_surface w fnt line 0%Q d) as Hm.
  destruct (fold_left (measureRun w fnt) line (0%Q, d)) as [lw d1].
  cbn [snd] in Hm. destruct (Qgtb lw aw); [|exact Hm].
  pose proof (repairRuns_surface w aw sw line ([], 0%Q, d1)) as Hr.
  destruct (fold_left _ line _) as [[nl' cw] d2]. cbn [snd] in *.
  eapply sameSurface_trans; eassumption.
Qed.

Lemma repairLines_surface (w : Font -> string -> Q) (aw sw : Q) (fnt : string)
    (ls : list Line) :
  forall d, sameSurface d (snd (repairLines w aw sw fnt d ls)).
Proof.
  induction ls as [|l ls IH]; intros d; [apply sameSurface_refl|].
  cbn [repairLines].
  pose proof (repairLine_surface w aw sw fnt d l) as Hl.
  destruct (repairLine w aw sw fnt d l) as [l' d1].
  specialize (IH d1). destruct (repairLines w aw sw fnt d1 ls) as [ls' d2].
  cbn [snd] in *. eapply sameSurface_trans; eassumption.
Qed.

Lemma splitTextToLines_surface (w : Font -> string -> Q) (d : Doc)
    (segments : list TextSegment) (maxW bi : Q) (fnt : string) :
  sameSurface d (snd (splitTextToLines w d segments maxW bi fnt)).
Proof.
  unfold splitTextToLines.
  eapply sameSurface_trans; [apply brokenLines_surface|].
  apply repairLines_surface.
Qed.

(** * The page flow *)

Lemma textsAt_refl (y : Q) (d : Doc) : textsAt y d d.
Proof. split; [reflexivity|]. exists []. now rewrite app_nil_r. Qed.

Lemma textsAt_trans (y : Q) (d1 d2 d3 : Doc) :
  textsAt y d1 d2 -> textsAt y d2 d3 -> textsAt y d1 d3.
Proof.
  intros [P1 [n1 [E1 F1]]] [P2 [n2 [E2 F2]]]. split; [congruence|].
  exists (n1 ++ n2). split.
  - now rewrite E2, E1, app_assoc.
  - apply Forall_app. now split.
Qed.

Lemma textsAt_surface (y : Q) (d d' : Doc) : sameSurface d d' -> textsAt y d d'.
Proof.
  intros [_ [P C]]. split; [exact P|]. exists []. now rewrite app_nil_r.
Qed.

Lemma textsAt_docText (y : Q) (d : Doc) (s : string) (x : Q) :
  textsAt y d (docText d s x y).
Proof.
  split; [reflexivity|]. eexists. split; [reflexivity|].
  repeat constructor.
Qed.

Lemma textsAt_fold {A : Type} (y : Q) (f : Q * Doc -> A -> Q * Doc)
    (l : list A) :
  (forall acc a, textsAt y (snd acc) (snd (f acc a))) ->
  forall acc, textsAt y (snd acc) (snd (fold_left f l acc)).
Proof.
  intros Hf. induction l as [|a l IH]; intros acc; [apply textsAt_refl|].
  cbn [fold_left]. eapply textsAt_trans; [apply Hf | apply IH].
Qed.

Lemma drawLastLineRun_textsAt (w : Font -> string -> Q) (y : Q)
    (acc : Q * Doc) (s : TextSegment) :
  textsAt y (snd acc) (snd (drawLastLineRun w y acc s)).
Proof.
  destruct acc as [cx d]. unfold drawLastLineRun. cbn [snd].
  eapply textsAt_trans; [|apply textsAt_docText].
  apply textsAt_surface, applyStyle_surface.
Qed.

Lemma addRunWidth_surface (w : Font -> string -> Q) (acc : Q * Doc)
    (s : TextSegment) :
  sameSurface (snd acc) (snd (addRunWidth w acc s)).
Proof.
  destruct acc as [t d]. unfold addRunWidth. cbn [snd].
  apply applyStyle_surface.
Qed.

Lemma drawJustifiedRuns_textsAt (w : Font -> string -> Q) (y extra : Q)
    (n : nat) (segs : list TextSegment) :
  forall index acc,
    textsAt y (snd acc) (snd (drawJustifiedRuns w y extra n index segs acc)).
Proof.
  induction segs as [|s segs IH]; intros index [cx d]; [apply textsAt_refl|].
  cbn [drawJustifiedRuns].
  eapply textsAt_trans; [|apply IH]. cbn [snd].
  eapply textsAt_trans; [|apply textsAt_docText].
  apply textsAt_surface, applyStyle_surface.
Qed.

Lemma renderJustifiedLine_textsAt (w : Font -> string -> Q) (d : Doc)
    (segs : list TextSegment) (x y maxW : Q) (isLastLine : bool) :
  textsAt y d (renderJustifiedLine w d segs x y maxW isLastLine).
Proof.
  unfold renderJustifiedLine, renderJustifiedLineX.
  destruct (isLastLine || Nat.leb (List.length segs) 1).
  - apply (textsAt_fold y (drawLastLineRun w y) segs
             (drawLastLineRun_textsAt w y) (x, d)).
  - eapply textsAt_trans; [|apply drawJustifiedRuns_textsAt]. cbn [snd].
    apply (textsAt_fold y (addRunWidth w) segs
             (fun acc a => textsAt_surface y _ _ (addRunWidth_surface w acc a))
             (0%Q, d)).
Qed.

Lemma addRunWidthBase_surface (w : Font -> string -> Q)
    (options : PDFMarkdownOptions) (acc : Q * Doc) (s : TextSegment) :
  sameSurface (snd acc) (snd (addRunWidthBase w options acc s)).
Proof.
  destruct acc as [t d]. unfold addRunWidthBase. cbn [snd].
  apply applyStyle_surface.
Qed.

Lemma drawRun_textsAt (w : Font -> string -> Q) (options : PDFMarkdownOptions)
    (y : Q) (acc : Q * Doc) (s : TextSegment) :
  textsAt y (snd acc) (snd (drawRun w options y acc s)).
Proof.
  destruct acc as [cx d]. unfold drawRun. cbn [snd].
  eapply textsAt_trans; [|apply textsAt_docText].
  apply textsAt_surface, applyStyle_surface.
Qed.

(** [emitLine] checks the page, draws one line at the ordinate the check
    leaves, and moves the cursor one line down. *)
Lemma emitLine_spec (w : Font -> string -> Q) (options : PDFMarkdownOptions)
    (x maxY : Q) (col : Column) (n i : nat) (acc : Q * Doc) (l : Line) :
  fst (emitLine w options x maxY col n i acc l)
  = (fst (breakPageIfNeeded options maxY acc) + optionsLineHeight options)%Q
  /\ textsAt (fst (breakPageIfNeeded options maxY acc))
             (snd (breakPageIfNeeded options maxY acc))
             (snd (emitLine w options x maxY col n i acc l)).
Proof.
  unfold emitLine.
  destruct (breakPageIfNeeded options maxY acc) as [cy d]. cbn [fst snd].
  split; [reflexivity|].
  destruct (align options) as [[| | |]|];
    try apply renderJustifiedLine_textsAt;
    (pose proof (textsAt_fold cy (addRunWidthBase w options) l
                   (fun acc a => textsAt_surface cy _ _
                                   (addRunWidthBase_surface w options acc a))
                   (0%Q, d)) as Hm;
     destruct (fold_left (addRunWidthBase w options) l (0%Q, d)) as [tw d1];
     cbn [snd] in Hm;
     eapply textsAt_trans; [exact Hm|];
     match goal with
     | |- context [fold_left _ l (?x0, d1)] =>
         apply (textsAt_fold cy (drawRun w options cy) l
                  (drawRun_textsAt w options cy) (x0, d1))
     end).
Qed.

Lemma Qgtb_true (a b : Q) : Qgtb a b = true <-> (b < a)%Q.
Proof.
  unfold Qgtb. rewrite negb_true_iff. split; intros H.
  - apply Qnot_le_lt. intros Hle. apply Qle_bool_iff in Hle. congruence.
  - destruct (Qle_bool a b) eqn:E; [|reflexivity].
    apply Qle_bool_iff in E. lra.
Qed.

Lemma Qgtb_false (a b : Q) : Qgtb a b = false <-> (a <= b)%Q.
Proof.
  unfold Qgtb. rewrite negb_false_iff. apply Qle_bool_iff.
Qed.



















(** * The word loop of the line breaker *)

Lemma allChars_app (f : ascii -> bool) (a b : string) :
  allChars f (a ++ b) = allChars f a && allChars f b.
Proof.
  induction a as [|c a IH]; simpl; [reflexivity|].
  now rewrite IH, andb_assoc.
Qed.

Lemma noSpaces_snoc (cur : string) (c : ascii) :
  noSpaces cur -> isSpace c = false -> noSpaces (snoc cur c).
Proof.
  unfold noSpaces, snoc. intros H Hc. rewrite allChars_app, H. simpl.
  now rewrite Hc.
Qed.

Lemma splitSpacesLoop_noSpaces (s : string) :
  forall piece inSep,
    noSpaces piece -> Forall noSpaces (splitSpacesLoop s piece inSep).
Proof.
  induction s as [|c s IH]; intros piece inSep Hp; cbn [splitSpacesLoop].
  - now constructor.
  - destruct (isSpace c) eqn:Hc.
    + destruct inSep; [now apply IH|]. constructor; [exact Hp|].
      now apply IH.
    + apply IH. now apply noSpaces_snoc.
Qed.

Lemma arraySet_end {A : Type} (a : list A) (v : A) :
  arraySet a (List.length a) v = a ++ [v].
Proof. induction a as [|h a IH]; simpl; [reflexivity | now rewrite IH]. Qed.

Lemma arraySet_last {A : Type} (a : list A) (x v : A) :
  arraySet (a ++ [x]) (List.length a) v = a ++ [v].
Proof. induction a as [|h a IH]; simpl; [reflexivity | now rewrite IH]. Qed.

Lemma lineOfWords_snoc (ws : list TextSegment) (s : TextSegment) :
  ws <> [] ->
  lineOfWords (ws ++ [s]) = lineOfWords ws ++ [spaceBefore s; s].
Proof.
  destruct ws as [|s0 ws]; [congruence|]. intros _.
  cbn [lineOfWords app]. rewrite flat_map_app. reflexivity.
Qed.

Lemma lineOfWords_nil (ws : list TextSegment) :
  lineOfWords ws = [] -> ws = [].
Proof. destruct ws; [reflexivity | discriminate]. Qed.

Lemma nonEmptyLine_words (ws : list TextSegment) :
  ws <> [] -> nonEmptyLine (lineOfWords ws) = true.
Proof. destruct ws; [congruence | reflexivity]. Qed.

Lemma isWord_notSpaceRun (s : TextSegment) : isWord s -> isSpaceRun s = false.
Proof.
  intros [_ [_ H]]. unfold isSpaceRun. destruct (String.eqb_spec (text s) " ") as [E|E];
    [|reflexivity].
  rewrite E in H. discriminate H.
Qed.

Lemma isWord_noHeading (s : TextSegment) : isWord s -> noHeading s.
Proof. now intros [H _]. Qed.

Ltac splits := repeat match goal with |- _ /\ _ => split end.

Section WordLoop.

Variable w : Font -> string -> Q.
Variable fnt : string.
Variables sz sw aw : Q.

Local Abbreviation tracked := (trackedWidth w fnt sz sw).
Local Abbreviation inv := (breakInv w fnt sz sw aw).

Lemma trackedWidth_app (l1 l2 : Line) :
  (tracked (l1 ++ l2) == tracked l1 + tracked l2)%Q.
Proof.
  induction l1 as [|s l1 IH]; cbn [app trackedWidth]; [ring|].
  rewrite IH. ring.
Qed.

Lemma trackedWidth_word (s : TextSegment) :
  isWord s -> (tracked [s] == w (runFont fnt sz s) (text s))%Q.
Proof.
  intros H. cbn [trackedWidth]. rewrite (isWord_notSpaceRun s H). ring.
Qed.

Lemma trackedWidth_snoc (ws : list TextSegment) (s : TextSegment) :
  ws <> [] -> isWord s ->
  (tracked (lineOfWords (ws ++ [s]))
   == tracked (lineOfWords ws) + sw + w (runFont fnt sz s) (text s))%Q.
Proof.
  intros Hws Hs. rewrite lineOfWords_snoc by exact Hws.
  rewrite trackedWidth_app. cbn [trackedWidth].
  rewrite (isWord_notSpaceRun s Hs).
  change (isSpaceRun (spaceBefore s)) with true. cbv iota. ring.
Qed.

Lemma inv_setDoc (b : BreakState) (d : Doc) :
  inv b -> getFontSize d = sz ->
  inv (mkBreak (lines b) (currentLine b) (currentLineWidth b)
               (currentLineSegments b) d).
Proof.
  intros (committed & current & H1 & H2 & H3 & H4 & H5 & H6 & H7 & _) Hd.
  exists committed, current. cbn. splits; assumption.
Qed.

Lemma inv_commitLine (b : BreakState) :
  inv b ->
  inv (commitLine b) /\ currentLineSegments (commitLine b) = [].
Proof.
  intros (committed & current & H1 & H2 & H3 & H4 & H5 & H6 & H7 & H8).
  unfold commitLine. destruct current as [|s current].
  - rewrite H4. cbn [lineOfWords nonEmptyLine]. split; [|exact H4].
    exists committed, []. splits; assumption.
  - rewrite H4. rewrite nonEmptyLine_words by discriminate.
    split; [|reflexivity].
    exists (committed ++ [s :: current]), []. cbn.
    rewrite H1, H2, <- (length_map lineOfWords committed).
    rewrite arraySet_last.
    replace (S (List.length (map lineOfWords committed)))
      with (List.length (map lineOfWords committed ++ [lineOfWords (s :: current)]))
      by (rewrite length_app; simpl; lia).
    rewrite arraySet_end.
    splits.
    + rewrite map_app. reflexivity.
    + rewrite !length_app, length_map. simpl. lia.
    + apply Forall_app. split; [exact H3|]. constructor; [|constructor].
      repeat split; [discriminate | exact H5 |].
      destruct H7 as [H7|H7]; [discriminate | exact H7].
    + reflexivity.
    + constructor.
    + reflexivity.
    + now left.
    + exact H8.
Qed.

(** The parts of a split word are placed one per line. *)
Lemma inv_placePart (b : BreakState) (index : nat) (part : TextSegment) :
  inv b ->
  (index = 0 -> currentLineSegments b = []) ->
  isWord part ->
  getFont (bdoc b) = runFont fnt sz part ->
  inv (placePart w b index part).
Proof.
  intros Hb H0 Hp Hf. unfold placePart.
  assert (Hb' : inv (if Nat.ltb 0 index then commitLine b else b)
                /\ currentLineSegments
                     (if Nat.ltb 0 index then commitLine b else b) = []
                /\ bdoc (if Nat.ltb 0 index then commitLine b else b) = bdoc b).
  { destruct index as [|index]; cbn [Nat.ltb Nat.leb].
    - splits; auto.
    - destruct (inv_commitLine b Hb) as [Hc Hn].
      splits; auto using commitLine_doc. }
  destruct Hb' as [Hb' [Hn Hd]].
  set (b' := if Nat.ltb 0 index then commitLine b else b) in *.
  destruct Hb' as (committed & current & H1 & H2 & H3 & H4 & H5 & H6 & H7 & H8).
  exists committed, [part]. cbn. rewrite Hn. cbn [app].
  splits; try assumption.
  - reflexivity.
  - constructor; [exact Hp | constructor].
  - unfold measure. rewrite Hd, Hf. rewrite (isWord_notSpaceRun part Hp). ring.
  - right. right. now exists part.
Qed.

Lemma inv_placeParts (parts : list TextSegment) :
  forall b index,
    inv b ->
    (index = 0 -> currentLineSegments b = []) ->
    Forall isWord parts ->
    Forall (fun p => getFont (bdoc b) = runFont fnt sz p) parts ->
    inv (placeParts w b index parts).
Proof.
  induction parts as [|p parts IH]; intros b index Hb H0 Hw Hf; [exact Hb|].
  cbn [placeParts]. inversion Hw; subst. inversion Hf; subst.
  apply IH; try assumption.
  - now apply inv_placePart.
  - discriminate.
  - assert (Hd : bdoc (placePart w b index p) = bdoc b).
    { unfold placePart. cbn [bdoc].
      destruct (Nat.ltb 0 index); [apply commitLine_doc | reflexivity]. }
    now rewrite Hd.
Qed.

End WordLoop.

Lemma nonEmpty_neq (t : string) : nonEmpty t = true -> t <> "".
Proof. destruct t; [discriminate | discriminate]. Qed.

Lemma append_neq_empty (a b : string) : b <> "" -> (a ++ b)%string <> "".
Proof. destruct a; simpl; [auto | discriminate]. Qed.

Lemma noSpaces_tail (c : ascii) (r : string) :
  noSpaces (String c r) -> isSpace c = false /\ noSpaces r.
Proof.
  unfold noSpaces. cbn [allChars]. intros H.
  apply andb_true_iff in H. destruct H as [H1 H2].
  apply negb_true_iff in H1. now split.
Qed.

Lemma partOf_intro (st : TextStyle) (t : string) :
  t <> "" -> noSpaces t -> partOf st (mkSegment t st).
Proof. intros H1 H2. unfold partOf. cbn [text style]. auto. Qed.

Lemma splitWordLoop_parts (w : Font -> string -> Q) (doc : Doc)
    (st : TextStyle) (maxW : Q) (rest : string) :
  forall result cur,
    noSpaces rest -> noSpaces cur -> Forall (partOf st) result ->
    Forall (partOf st) (splitWordLoop w doc st maxW rest result cur).
Proof.
  induction rest as [|c rest IH]; intros result cur Hr Hc Hres;
    cbn [splitWordLoop].
  - destruct (nonEmpty cur) eqn:E; [|exact Hres].
    apply Forall_app. split; [exact Hres|]. constructor; [|constructor].
    apply partOf_intro; [now apply nonEmpty_neq | exact Hc].
  - destruct (noSpaces_tail _ _ Hr) as [Hc1 Hr1].
    assert (Hone : noSpaces (String c "")).
    { unfold noSpaces. simpl. now rewrite Hc1. }
    destruct (Qgtb _ _).
    + destruct (Nat.leb 2 (String.length cur)).
      * apply IH; try assumption.
        apply Forall_app. split; [exact Hres|]. constructor; [|constructor].
        apply partOf_intro; [apply append_neq_empty; discriminate|].
        unfold noSpaces in *. now rewrite allChars_app, Hc.
      * destruct (nonEmpty cur) eqn:E.
        -- apply IH; try assumption.
           apply Forall_app. split; [exact Hres|]. constructor; [|constructor].
           apply partOf_intro; [now apply nonEmpty_neq | exact Hc].
        -- apply IH; try assumption; [reflexivity|].
           apply Forall_app. split; [exact Hres|]. constructor; [|constructor].
           apply partOf_intro; [discriminate | exact Hone].
    + apply IH; try assumption. now apply noSpaces_snoc.
Qed.

Lemma splitWordIfNeeded_parts (w : Font -> string -> Q) (word : string)
    (st : TextStyle) (d : Doc) (maxW : Q) :
  noSpaces word -> word <> "" -> heading st = None ->
  Forall (partOf st) (fst (splitWordIfNeeded w word st d maxW))
  /\ snd (splitWordIfNeeded w word st d maxW)
     = mkDoc (mkFont (fontName (getFont d)) (styleFont st) (getFontSize d))
             (pageWidth d) (pageHeight d) (calls d).
Proof.
  intros Hw Hne Hst. unfold splitWordIfNeeded.
  rewrite (applyStyle_noHeading _ _ _ _ Hst).
  destruct (Qle_bool _ _); cbn [fst snd]; (split; [|reflexivity]).
  - constructor; [|constructor]. now apply partOf_intro.
  - apply splitWordLoop_parts; [exact Hw | reflexivity | constructor].
Qed.

Lemma partOf_isWord (st : TextStyle) (p : TextSegment) :
  heading st = None -> partOf st p -> isWord p.
Proof.
  intros Hst [H1 [H2 H3]]. unfold isWord, noHeading. rewrite H1. auto.
Qed.

Section PlaceWord.

Variable w : Font -> string -> Q.
Variable fnt : string.
Variables sz sw aw : Q.

Local Abbreviation tracked := (trackedWidth w fnt sz sw).
Local Abbreviation inv := (breakInv w fnt sz sw aw).

Lemma inv_placeWord (segment : TextSegment) (b : BreakState) (word : string) :
  noHeading segment -> noSpaces word -> inv b ->
  inv (placeWord w aw sw fnt segment b word).
Proof.
  intros Hst Hw Hb. unfold placeWord.
  destruct (nonEmpty word) eqn:Hne; cbn [negb]; [|exact Hb].
  apply nonEmpty_neq in Hne.
  set (s := mkSegment word (style segment)).
  assert (Hs : isWord s) by (unfold isWord; auto).
  assert (Hsz : getFontSize (bdoc b) = sz)
    by (destruct Hb as (? & ? & ? & ? & ? & ? & ? & ? & ? & H); exact H).
  rewrite (applyStyle_noHeading _ _ _ _ Hst). rewrite Hsz.
  set (d := mkDoc (mkFont fnt (styleFont (style segment)) sz)
                  (pageWidth (bdoc b)) (pageHeight (bdoc b))
                  (calls (bdoc b))).
  assert (Hd : getFontSize d = sz) by reflexivity.
  change (measure w d word) with (w (runFont fnt sz s) (text s)).
  pose proof (inv_setDoc w fnt sz sw aw b d Hb Hd) as Hbd.
  destruct (Qle_bool _ aw) eqn:E1.
  { (* the word fits on the current line *)
    apply Qle_bool_iff in E1.
    destruct Hb as (committed & current & H1 & H2 & H3 & H4 & H5 & H6 & H7 & H8).
    destruct current as [|s0 current].
    - rewrite H4 in *. cbn [lineOfWords nonEmptyLine app] in *.
      exists committed, [s]. cbn. splits; try assumption; try reflexivity.
      + constructor; [exact Hs | constructor].
      + change (word =? " ")%string with (isSpaceRun s).
        rewrite (isWord_notSpaceRun s Hs). cbn [trackedWidth] in H6.
        rewrite H6. ring.
      + right. right. now exists s.
    - rewrite H4 in *. rewrite nonEmptyLine_words in * by discriminate.
      exists committed, ((s0 :: current) ++ [s]). cbn [lines currentLine
        currentLineWidth currentLineSegments bdoc].
      splits; try assumption.
      + rewrite lineOfWords_snoc by discriminate. rewrite <- app_assoc.
        reflexivity.
      + apply Forall_app. split; [exact H5|]. now constructor.
      + rewrite trackedWidth_snoc by (discriminate || assumption).
        rewrite H6. ring.
      + right. left.
        rewrite trackedWidth_snoc by (discriminate || assumption).
        rewrite <- H6. exact E1. }
  destruct (Qle_bool (w (runFont fnt sz s) (text s)) aw) eqn:E2.
  { (* the word starts a new line *)
    destruct (inv_commitLine w fnt sz sw aw _ Hbd) as [Hc Hn].
    destruct Hc as (committed & current & H1 & H2 & H3 & H4 & H5 & H6 & H7 & H8).
    exists committed, [s]. cbn [lines currentLine currentLineWidth
      currentLineSegments bdoc]. rewrite Hn.
    splits; try assumption; try reflexivity.
    - constructor; [exact Hs | constructor].
    - cbn [lineOfWords flat_map]. now rewrite trackedWidth_word.
    - right. right. now exists s. }
  (* the word is split *)
  cbn [currentLineSegments bdoc lines currentLine currentLineWidth].
  set (b1 := mkBreak (lines b) (currentLine b) (currentLineWidth b)
                     (currentLineSegments b) d) in *.
  assert (Hb2 : inv (if nonEmptyLine (currentLineSegments b)
                     then commitLine b1 else b1)
                /\ currentLineSegments
                     (if nonEmptyLine (currentLineSegments b)
                      then commitLine b1 else b1) = []
                /\ bdoc (if nonEmptyLine (currentLineSegments b)
                         then commitLine b1 else b1) = d).
  { destruct (nonEmptyLine (currentLineSegments b)) eqn:En.
    - destruct (inv_commitLine w fnt sz sw aw _ Hbd) as [Hc Hn].
      splits; try assumption. apply commitLine_doc.
    - splits; try assumption; [|reflexivity].
      unfold b1. cbn. destruct (currentLineSegments b); [reflexivity|discriminate]. }
  destruct Hb2 as [Hb2 [Hn2 Hd2]].
  set (b2 := if nonEmptyLine (currentLineSegments b) then commitLine b1 else b1)
    in *.
  rewrite Hd2.
  destruct (splitWordIfNeeded_parts w word (style segment) d aw Hw Hne Hst)
    as [Hparts Hdoc].
  destruct (splitWordIfNeeded w word (style segment) d aw) as [parts d']
    eqn:Esplit.
  cbn [fst snd] in Hparts, Hdoc.
  apply inv_placeParts.
  - apply inv_setDoc; [exact Hb2 | now rewrite Hdoc].
  - intros _. exact Hn2.
  - eapply Forall_impl; [|exact Hparts]. intros p. now apply partOf_isWord.
  - cbn [bdoc]. eapply Forall_impl; [|exact Hparts].
    intros p [Hp _]. rewrite Hdoc. unfold runFont, d. cbn. now rewrite Hp.
Qed.

Lemma inv_placeSegment (b : BreakState) (segment : TextSegment) :
  noHeading segment -> inv b -> inv (placeSegment w aw sw fnt b segment).
Proof.
  intros Hst Hb. unfold placeSegment.
  pose proof (splitSpacesLoop_noSpaces (text segment) "" false eq_refl) as Hw.
  fold (splitSpaces (text segment)) in Hw.
  revert b Hb. induction Hw as [|word ws Hword _ IH]; intros b Hb; [exact Hb|].
  cbn [fold_left]. apply IH. now apply inv_placeWord.
Qed.

Lemma inv_placeSegments (segments : list TextSegment) :
  Forall noHeading segments ->
  forall b, inv b -> inv (fold_left (placeSegment w aw sw fnt) segments b).
Proof.
  induction 1 as [|s segments Hs _ IH]; intros b Hb; [exact Hb|].
  cbn [fold_left]. apply IH. now apply inv_placeSegment.
Qed.

End PlaceWord.

(** The lines that the word loop leaves: each is a line of words that fits
    or a single run. *)
Lemma brokenLines_good (w : Font -> string -> Q) (doc : Doc)
    (segments : list TextSegment) (maxW bi : Q) (fnt : string) :
  Forall noHeading segments ->
  exists committed,
    filter nonEmptyLine (lines (brokenLines w doc segments maxW bi fnt))
    = map lineOfWords committed
    /\ Forall (goodLine w fnt (getFontSize doc) (measure w doc " ")
                        (maxW - bi * getFontSize doc)%Q) committed
    /\ getFontSize (bdoc (brokenLines w doc segments maxW bi fnt))
       = getFontSize doc.
Proof.
  intros Hsegs. unfold brokenLines.
  set (aw := (maxW - bi * getFontSize doc)%Q).
  set (sw := measure w doc " ").
  assert (H0 : breakInv w fnt (getFontSize doc) sw aw (mkBreak [[]] 0 0 [] doc)).
  { exists [], []. cbn. splits; try reflexivity; [constructor.. | now left]. }
  pose proof (inv_placeSegments w fnt (getFontSize doc) sw aw segments Hsegs
                _ H0) as Hb.
  set (b := fold_left (placeSegment w aw sw fnt) segments
                      (mkBreak [[]] 0 0 [] doc)) in *.
  assert (Hfin : breakInv w fnt (getFontSize doc) sw aw
                   (if nonEmptyLine (currentLineSegments b)
                    then commitLine b else b)
                 /\ currentLineSegments
                      (if nonEmptyLine (currentLineSegments b)
                       then commitLine b else b) = []).
  { destruct (nonEmptyLine (currentLineSegments b)) eqn:En.
    - now apply inv_commitLine.
    - split; [exact Hb|]. destruct (currentLineSegments b);
        [reflexivity | discriminate]. }
  destruct Hfin as [(committed & current & H1 & H2 & H3 & H4 & H5 & H6 & H7 & H8) _].
  exists committed. splits; [|exact H3 | exact H8].
  rewrite H1, filter_app. cbn [filter nonEmptyLine]. rewrite app_nil_r.
  clear H1 H2. induction H3 as [|ws committed [Hne _] _ IH]; [reflexivity|].
  cbn [map filter]. rewrite nonEmptyLine_words by exact Hne. now rewrite IH.
Qed.

(** * The post-pass of the line breaker *)

Lemma measureRun_fold (w : Font -> string -> Q) (fnt : string) (sz : Q)
    (l : Line) :
  Forall noHeading l ->
  forall acc d,
    getFontSize d = sz ->
    (fst (fold_left (measureRun w fnt) l (acc, d))
     == acc + textWidth w fnt sz l)%Q
    /\ getFontSize (snd (fold_left (measureRun w fnt) l (acc, d))) = sz
    /\ (l <> [] ->
        fontName (getFont (snd (fold_left (measureRun w fnt) l (acc, d))))
        = fnt).
Proof.
  induction 1 as [|s l Hs _ IH]; intros acc d Hd.
  - cbn [fold_left fst snd textWidth]. splits; [ring | exact Hd | congruence].
  - cbn [fold_left textWidth]. unfold measureRun at 2 4 6. cbn [fst snd].
    rewrite (applyStyle_noHeading _ _ _ _ Hs). rewrite Hd.
    match goal with
    | |- context [fold_left _ l (?a, ?d1)] =>
        destruct (IH a d1 eq_refl) as [H1 [H2 H3]]
    end.
    splits.
    + rewrite H1. unfold measure, runFont. cbn [getFont]. ring.
    + exact H2.
    + intros _. destruct l as [|s' l]; [reflexivity|].
      apply H3. discriminate.
Qed.

Lemma textWidth_app (w : Font -> string -> Q) (fnt : string) (sz : Q)
    (l1 l2 : Line) :
  (textWidth w fnt sz (l1 ++ l2)
   == textWidth w fnt sz l1 + textWidth w fnt sz l2)%Q.
Proof.
  induction l1 as [|s l1 IH]; cbn [app textWidth]; [ring|].
  rewrite IH. ring.
Qed.

Lemma splitWordLoop_style (w : Font -> string -> Q) (doc : Doc)
    (st : TextStyle) (maxW : Q) (rest : string) :
  forall result cur,
    Forall (fun p => style p = st) result ->
    Forall (fun p => style p = st) (splitWordLoop w doc st maxW rest result cur).
Proof.
  induction rest as [|c rest IH]; intros result cur Hres; cbn [splitWordLoop].
  - destruct (nonEmpty cur); [|exact Hres].
    apply Forall_app. split; [exact Hres | now repeat constructor].
  - destruct (Qgtb _ _); [|now apply IH].
    destruct (Nat.leb 2 (String.length cur)); [|destruct (nonEmpty cur)];
      apply IH; apply Forall_app; (split; [exact Hres | now repeat constructor]).
Qed.

Lemma splitWordIfNeeded_style (w : Font -> string -> Q) (word : string)
    (st : TextStyle) (d : Doc) (maxW : Q) :
  heading st = None ->
  Forall (fun p => style p = st) (fst (splitWordIfNeeded w word st d maxW))
  /\ snd (splitWordIfNeeded w word st d maxW)
     = mkDoc (mkFont (fontName (getFont d)) (styleFont st) (getFontSize d))
             (pageWidth d) (pageHeight d) (calls d).
Proof.
  intros Hst. unfold splitWordIfNeeded.
  rewrite (applyStyle_noHeading _ _ _ _ Hst).
  destruct (Qle_bool _ _); cbn [fst snd]; (split; [|reflexivity]).
  - now repeat constructor.
  - apply splitWordLoop_style. constructor.
Qed.

Section Repair.

Variable w : Font -> string -> Q.
Variable fnt : string.
Variables sz sw aw : Q.

(** A space run measures [sw] in every style. *)
Hypothesis space_width :
  forall fs, (w (mkFont fnt fs sz) " " == sw)%Q.

Local Abbreviation repaired := (repairState w fnt sz aw).

Lemma keepPart_fold (st : TextStyle) (d : Doc) (parts : list TextSegment) :
  heading st = None ->
  getFont d = mkFont fnt (styleFont st) sz ->
  Forall (fun p => style p = st) parts ->
  forall acc,
    (textWidth w fnt sz (fst acc) == snd acc)%Q ->
    (snd acc <= aw)%Q ->
    Forall noHeading (fst acc) ->
    (textWidth w fnt sz (fst (fold_left (keepPart w aw d) parts acc))
     == snd (fold_left (keepPart w aw d) parts acc))%Q
    /\ (snd (fold_left (keepPart w aw d) parts acc) <= aw)%Q
    /\ Forall noHeading (fst (fold_left (keepPart w aw d) parts acc)).
Proof.
  intros Hst Hd.
  induction 1 as [|p parts Hp _ IH]; intros [newLine cw] H1 H2 H3.
  - cbn [fold_left]. auto.
  - cbn [fst snd] in H1, H2, H3.
    cbn [fold_left]. apply IH; unfold keepPart; cbn [fst snd];
      destruct (Qle_bool _ aw) eqn:E; cbn [fst snd]; try assumption.
    + rewrite textWidth_app. cbn [textWidth]. rewrite H1.
      unfold measure, runFont. rewrite Hd, Hp. lra.
    + now apply Qle_bool_iff in E.
    + apply Forall_app. split; [exact H3|]. constructor; [|constructor].
      unfold noHeading. now rewrite Hp.
Qed.

Lemma isSpaceRun_text (s : TextSegment) : isSpaceRun s = true -> text s = " ".
Proof. unfold isSpaceRun. apply String.eqb_eq. Qed.

Lemma repairRun_repaired (acc : Line * Q * Doc) (segment : TextSegment) :
  noHeading segment -> repaired acc ->
  repaired (repairRun w aw sw acc segment).
Proof.
  intros Hs. destruct acc as [[newLine cw] d]. unfold repairState.
  cbn [fst snd]. intros (H1 & H2 & H3 & H4 & H5).
  unfold repairRun. destruct (isSpaceRun segment) eqn:Esp.
  - destruct (Qle_bool _ aw) eqn:E; cbn [fst snd]; [|auto].
    apply Qle_bool_iff in E. splits; try assumption.
    + rewrite textWidth_app. cbn [textWidth]. rewrite H1.
      rewrite (isSpaceRun_text _ Esp). unfold runFont.
      rewrite space_width. lra.
    + apply Forall_app. split; [exact H3 | now repeat constructor].
  - destruct (splitWordIfNeeded_style w (text segment) (style segment) d
                (aw - cw)%Q Hs) as [Hparts Hdoc].
    destruct (splitWordIfNeeded w (text segment) (style segment) d
                (aw - cw)%Q) as [parts d'].
    cbn [fst snd] in Hparts, Hdoc.
    assert (Hd' : getFont d' = mkFont fnt (styleFont (style segment)) sz).
    { rewrite Hdoc. cbn [getFont]. now rewrite H4, H5. }
    pose proof (keepPart_fold (style segment) d' parts Hs Hd' Hparts
                  (newLine, cw) H1 H2 H3) as (K1 & K2 & K3).
    destruct (fold_left (keepPart w aw d') parts (newLine, cw))
      as [newLine' cw'].
    cbn [fst snd] in *. splits; try assumption.
    + unfold getFontSize. now rewrite Hd'.
    + now rewrite Hd'.
Qed.

Lemma repairRuns_repaired (line : Line) :
  Forall noHeading line ->
  forall acc, repaired acc ->
    repaired (fold_left (repairRun w aw sw) line acc).
Proof.
  induction 1 as [|s line Hs _ IH]; intros acc Hacc; [exact Hacc|].
  cbn [fold_left]. apply IH. now apply repairRun_repaired.
Qed.

Lemma repairLine_bound (d : Doc) (line : Line) :
  (0 <= aw)%Q ->
  Forall noHeading line ->
  getFontSize d = sz ->
  (textWidth w fnt sz (fst (repairLine w aw sw fnt d line)) <= aw)%Q
  /\ Forall noHeading (fst (repairLine w aw sw fnt d line))
  /\ getFontSize (snd (repairLine w aw sw fnt d line)) = sz.
Proof.
  intros Haw Hline Hd. unfold repairLine, measureLine.
  destruct (measureRun_fold w fnt sz line Hline 0%Q d Hd) as [M1 [M2 M3]].
  destruct (fold_left (measureRun w fnt) line (0%Q, d)) as [lineWidth d1].
  cbn [fst snd] in M1, M2, M3.
  destruct (Qgtb lineWidth aw) eqn:E.
  - destruct line as [|s line].
    + cbn [fold_left fst snd textWidth]. splits; auto.
    + assert (R0 : repaired ([], 0%Q, d1)).
      { unfold repairState. cbn [fst snd textWidth]. splits; try assumption.
        - reflexivity.
        - constructor.
        - apply M3. discriminate. }
      pose proof (repairRuns_repaired (s :: line) Hline _ R0) as R.
      destruct (fold_left (repairRun w aw sw) (s :: line) ([], 0%Q, d1))
        as [[newLine cw] d2].
      unfold repairState in R. cbn [fst snd] in *.
      destruct R as (R1 & R2 & R3 & R4 & _). splits; [|exact R3 | exact R4].
      rewrite R1. exact R2.
  - cbn [fst snd]. splits; [|exact Hline | exact M2].
    apply Qgtb_false in E. rewrite M1 in E. lra.
Qed.

Lemma repairLines_bound (ls : list Line) :
  (0 <= aw)%Q ->
  Forall (Forall noHeading) ls ->
  forall d, getFontSize d = sz ->
    Forall (fun l => (textWidth w fnt sz l <= aw)%Q /\ Forall noHeading l)
           (fst (repairLines w aw sw fnt d ls)).
Proof.
  intros Haw. induction 1 as [|l ls Hl _ IH]; intros d Hd;
    cbn [repairLines]; [constructor|].
  destruct (repairLine_bound d l Haw Hl Hd) as [B1 [B2 B3]].
  destruct (repairLine w aw sw fnt d l) as [l' d1].
  cbn [fst snd] in B1, B2, B3.
  specialize (IH d1 B3). destruct (repairLines w aw sw fnt d1 ls) as [ls' d2].
  cbn [fst snd] in *. now constructor.
Qed.

End Repair.

Lemma lineOfWords_noHeading (ws : list TextSegment) :
  Forall isWord ws -> Forall noHeading (lineOfWords ws).
Proof.
  destruct 1 as [|s ws Hs Hws]; [constructor|].
  cbn [lineOfWords]. constructor; [now apply isWord_noHeading|].
  induction Hws as [|s' ws Hs' _ IH]; [constructor|].
  cbn [flat_map app]. constructor; [exact (isWord_noHeading _ Hs')|].
  constructor; [exact (isWord_noHeading _ Hs') | exact IH].
Qed.

(** C1, as stated, fails.  When the indentation exceeds [maxWidth] the
    available width is negative, the post-pass drops the only character and
    returns an empty line, wider than the available width.  And when the
    space of a style is wider than the space measured at entry, the
    post-pass keeps a line of three runs that it measures wider than the
    available width. *)
Lemma width_bound_fails :
  (fst (splitTextToLines monoWidth a4 wideCharLine 5 1 "helvetica") = [[]]
   /\ (5 - 1 * getFontSize a4 < textWidth monoWidth "helvetica" 12 [])%Q)
  /\ (fst (splitTextToLines boldWideWidth a4 boldWords 21 0 "helvetica")
      = [[mkSegment "a" boldStyle; mkSegment " " boldStyle;
          mkSegment "b" boldStyle]]
      /\ (21 - 0 * getFontSize a4
          < textWidth boldWideWidth "helvetica" 12
              [mkSegment "a" boldStyle; mkSegment " " boldStyle;
               mkSegment "b" boldStyle])%Q).
Proof. repeat split; reflexivity. Qed.

(** C1, amended: when the available width
    [maxWidth - baseIndentation * fontSize] is not negative, the runs carry
    no heading, and a space measures in every style what it measures at
    entry, every line returned by [splitTextToLines] has a measured width of
    at most the available width; a single character wider than that is
    dropped by the post-pass. *)
Theorem width_bound (w : Font -> string -> Q) (doc : Doc)
    (segments : list TextSegment) (maxW bi : Q) (fnt : string) :
  (0 <= maxW - bi * getFontSize doc)%Q ->
  Forall noHeading segments ->
  (forall fs, (w (mkFont fnt fs (getFontSize doc)) " " == measure w doc " ")%Q) ->
  Forall (fun l => (fst (measureLine w fnt doc l)
                    <= maxW - bi * getFontSize doc)%Q
                   /\ (textWidth w fnt (getFontSize doc) l
                       <= maxW - bi * getFontSize doc)%Q)
         (fst (splitTextToLines w doc segments maxW bi fnt)).
Proof.
  intros Haw Hsegs Hspace. unfold splitTextToLines.
  destruct (brokenLines_good w doc segments maxW bi fnt Hsegs)
    as (committed & Hlines & Hgood & Hsz).
  rewrite Hlines.
  assert (Hnh : Forall (Forall noHeading) (map lineOfWords committed)).
  { clear Hlines. induction Hgood as [|ws committed [_ [Hws _]] _ IH];
      cbn [map]; constructor; [now apply lineOfWords_noHeading | exact IH]. }
  pose proof (repairLines_bound w fnt (getFontSize doc) (measure w doc " ")
                (maxW - bi * getFontSize doc)%Q Hspace _ Haw Hnh _ Hsz) as Hb.
  eapply Forall_impl; [|exact Hb]. intros l [Hl Hn]. split; [|exact Hl].
  unfold measureLine.
  destruct (measureRun_fold w fnt (getFontSize doc) l Hn 0%Q doc eq_refl)
    as [M _].
  rewrite M. lra.
Qed.

(** * Breaking a line again *)

Lemma splitSpacesLoop_word (t : string) :
  forall rest piece inSep,
    noSpaces t ->
    splitSpacesLoop (t ++ rest) piece inSep
    = splitSpacesLoop rest (piece ++ t)
        (match t with "" => inSep | _ => false end).
Proof.
  induction t as [|c t IH]; intros rest piece inSep Ht.
  - cbn [append]. now rewrite append_empty_r.
  - destruct (noSpaces_tail _ _ Ht) as [Hc Ht'].
    cbn [append splitSpacesLoop]. rewrite Hc, (IH _ _ _ Ht').
    rewrite snoc_append. now destruct t.
Qed.

Lemma splitSpaces_word (s : TextSegment) :
  isWord s -> splitSpaces (text s) = [text s].
Proof.
  intros (_ & Hne & Hns). unfold splitSpaces.
  rewrite <- (append_empty_r (text s)) at 1.
  rewrite splitSpacesLoop_word by exact Hns. reflexivity.
Qed.

Lemma splitSpacesLoop_tail (ws : list TextSegment) :
  Forall isWord ws ->
  forall piece,
    splitSpacesLoop (tailText ws) piece false = piece :: map text ws.
Proof.
  unfold tailText.
  induction 1 as [|s ws Hs _ IH]; intros piece; [reflexivity|].
  cbn [flat_map app lineText fold_right text spaceBefore map].
  change (" " ++ ?a)%string with (String " " a).
  cbn [splitSpacesLoop]. change (isSpace " ") with true. cbv iota.
  destruct Hs as (_ & Hne & Hns).
  rewrite splitSpacesLoop_word by exact Hns.
  destruct (text s) eqn:E; [congruence|]. rewrite <- E.
  fold (lineText (flat_map (fun s' => [spaceBefore s'; s']) ws)).
  now rewrite IH.
Qed.

Lemma splitSpaces_lineText (ws : list TextSegment) :
  ws <> [] -> Forall isWord ws ->
  splitSpaces (lineText (lineOfWords ws)) = map text ws.
Proof.
  intros Hne Hws. destruct Hws as [|s ws Hs Hws]; [congruence|].
  cbn [lineOfWords lineText fold_right map]. unfold splitSpaces.
  fold (lineText (flat_map (fun s' => [spaceBefore s'; s']) ws)).
  fold (tailText ws).
  destruct Hs as (_ & Hne' & Hns).
  rewrite splitSpacesLoop_word by exact Hns.
  destruct (text s) eqn:E; [congruence|]. rewrite <- E.
  now apply splitSpacesLoop_tail.
Qed.

Lemma placeWord_style (w : Font -> string -> Q) (aw sw : Q) (fnt : string)
    (seg seg' : TextSegment) (b : BreakState) (word : string) :
  style seg = style seg' ->
  placeWord w aw sw fnt seg b word = placeWord w aw sw fnt seg' b word.
Proof. intros H. unfold placeWord. now rewrite H. Qed.

Lemma placeSegment_word (w : Font -> string -> Q) (aw sw : Q) (fnt : string)
    (b : BreakState) (s : TextSegment) :
  isWord s ->
  placeSegment w aw sw fnt b s = placeWord w aw sw fnt s b (text s).
Proof.
  intros Hs. unfold placeSegment. now rewrite (splitSpaces_word s Hs).
Qed.

Lemma placeSegment_space (w : Font -> string -> Q) (aw sw : Q) (fnt : string)
    (b : BreakState) (s : TextSegment) :
  placeSegment w aw sw fnt b (spaceBefore s) = b.
Proof. reflexivity. Qed.

(** Feeding a line of words to the word loop is feeding it the words. *)
Lemma placeSegments_words (w : Font -> string -> Q) (aw sw : Q) (fnt : string)
    (ws : list TextSegment) :
  Forall isWord ws ->
  forall b,
    fold_left (placeSegment w aw sw fnt) (lineOfWords ws) b
    = fold_left (fun b s => placeWord w aw sw fnt s b (text s)) ws b.
Proof.
  destruct 1 as [|s ws Hs Hws]; intros b; [reflexivity|].
  cbn [lineOfWords fold_left]. rewrite (placeSegment_word _ _ _ _ _ _ Hs).
  generalize (placeWord w aw sw fnt s b (text s)). clear b.
  induction Hws as [|s' ws Hs' _ IH]; intros b; [reflexivity|].
  cbn [flat_map app fold_left]. rewrite placeSegment_space.
  rewrite (placeSegment_word _ _ _ _ _ _ Hs'). apply IH.
Qed.

Section Rebreak.

Variable w : Font -> string -> Q.
Variable fnt : string.
Variables sz sw aw : Q.

Hypothesis nonneg : forall fs t, (0 <= w (mkFont fnt fs sz) t)%Q.
Hypothesis sw_nonneg : (0 <= sw)%Q.

Local Abbreviation tracked := (trackedWidth w fnt sz sw).

Lemma tracked_words_nonneg (ws : list TextSegment) :
  (0 <= tracked (lineOfWords ws))%Q.
Proof.
  generalize (lineOfWords ws). intros l.
  induction l as [|s l IH]; cbn [trackedWidth]; [lra|].
  destruct (isSpaceRun s); [lra|].
  pose proof (nonneg (styleFont (style s)) (text s)). unfold runFont. lra.
Qed.

Lemma tracked_prefix (ws : list TextSegment) (s : TextSegment) :
  isWord s ->
  (tracked (lineOfWords ws) <= tracked (lineOfWords (ws ++ [s])))%Q.
Proof.
  intros Hs. destruct ws as [|s0 ws].
  - cbn [app lineOfWords flat_map trackedWidth].
    rewrite (isWord_notSpaceRun s Hs).
    pose proof (nonneg (styleFont (style s)) (text s)). unfold runFont. lra.
  - rewrite trackedWidth_snoc by (discriminate || assumption).
    pose proof (nonneg (styleFont (style s)) (text s)). unfold runFont. lra.
Qed.

Lemma segment_eta (s : TextSegment) : mkSegment (text s) (style s) = s.
Proof. now destruct s. Qed.

(** A word that still fits is appended to the open line. *)
Lemma openLine_placeWord (ws : list TextSegment) (b : BreakState)
    (seg s : TextSegment) :
  openLine w fnt sz sw ws b ->
  isWord s -> style seg = style s ->
  (tracked (lineOfWords (ws ++ [s])) <= aw)%Q ->
  openLine w fnt sz sw (ws ++ [s]) (placeWord w aw sw fnt seg b (text s)).
Proof.
  intros (H1 & H2 & H3 & H4 & H5) Hs Hst Hfit.
  rewrite (placeWord_style w aw sw fnt seg s b (text s) Hst).
  unfold placeWord. destruct Hs as (Hh & Hne & Hns).
  rewrite (nonEmpty_true _ Hne). cbn [negb].
  rewrite (applyStyle_noHeading _ _ _ _ Hh). rewrite H5.
  unfold measure. cbn [getFont]. fold (runFont fnt sz s).
  assert (Hs : isWord s) by (unfold isWord; auto).
  rewrite H3.
  destruct ws as [|s0 ws].
  - cbn [lineOfWords nonEmptyLine app flat_map] in *.
    cbn [trackedWidth] in H4, Hfit. rewrite (isWord_notSpaceRun s Hs) in Hfit.
    assert (E : Qle_bool (currentLineWidth b + 0 + w (runFont fnt sz s) (text s))
                         aw = true) by (apply Qle_bool_iff; lra).
    rewrite E. unfold openLine. cbn. rewrite segment_eta.
    splits; try assumption; try reflexivity.
    change (text s =? " ")%string with (isSpaceRun s).
    rewrite (isWord_notSpaceRun s Hs). lra.
  - rewrite nonEmptyLine_words by discriminate.
    pose proof (trackedWidth_snoc w fnt sz sw (s0 :: ws) s
                  ltac:(discriminate) Hs) as Hsn.
    assert (E : Qle_bool (currentLineWidth b + sw
                          + w (runFont fnt sz s) (text s)) aw = true)
      by (apply Qle_bool_iff; lra).
    rewrite E. unfold openLine.
    cbn [lines currentLine currentLineSegments currentLineWidth bdoc getFontSize
         getFont size].
    rewrite segment_eta.
    splits; try assumption; try reflexivity.
    + rewrite lineOfWords_snoc by discriminate. rewrite <- app_assoc.
      reflexivity.
    + lra.
Qed.

Lemma openLine_words (segOf : TextSegment -> TextSegment) (d : Doc)
    (ws : list TextSegment) :
  getFontSize d = sz ->
  Forall isWord ws ->
  Forall (fun s => style (segOf s) = style s) ws ->
  (tracked (lineOfWords ws) <= aw)%Q ->
  openLine w fnt sz sw ws
    (fold_left (fun b s => placeWord w aw sw fnt (segOf s) b (text s)) ws
               (mkBreak [[]] 0 0 [] d)).
Proof.
  induction ws as [|s ws IH] using rev_ind; intros Hd Hws Hseg Hfit.
  - unfold openLine. cbn. splits; try reflexivity. exact Hd.
  - apply Forall_app in Hws. destruct Hws as [Hws Hs].
    apply Forall_app in Hseg. destruct Hseg as [Hseg Hss].
    apply Forall_inv in Hs. apply Forall_inv in Hss.
    rewrite fold_left_app. cbn [fold_left].
    apply openLine_placeWord; try assumption.
    apply IH; try assumption.
    pose proof (tracked_prefix ws s Hs). lra.
Qed.

End Rebreak.

Lemma repairRun_size (w : Font -> string -> Q) (aw sw sz : Q)
    (acc : Line * Q * Doc) (segment : TextSegment) :
  noHeading segment -> getFontSize (snd acc) = sz ->
  getFontSize (snd (repairRun w aw sw acc segment)) = sz.
Proof.
  intros Hs. destruct acc as [[newLine cw] d]. cbn [snd]. intros Hd.
  unfold repairRun. destruct (isSpaceRun segment).
  - destruct (Qle_bool _ aw); exact Hd.
  - destruct (splitWordIfNeeded_style w (text segment) (style segment) d
                (aw - cw)%Q Hs) as [_ Hdoc].
    destruct (splitWordIfNeeded w (text segment) (style segment) d
                (aw - cw)%Q) as [parts d'].
    destruct (fold_left _ parts _). cbn [snd] in *. now rewrite Hdoc.
Qed.

Lemma repairLine_size (w : Font -> string -> Q) (aw sw sz : Q) (fnt : string)
    (d : Doc) (line : Line) :
  Forall noHeading line -> getFontSize d = sz ->
  getFontSize (snd (repairLine w aw sw fnt d line)) = sz.
Proof.
  intros Hline Hd. unfold repairLine, measureLine.
  destruct (measureRun_fold w fnt sz line Hline 0%Q d Hd) as [_ [M2 _]].
  destruct (fold_left (measureRun w fnt) line (0%Q, d)) as [lineWidth d1].
  cbn [snd] in M2. destruct (Qgtb lineWidth aw); [|exact M2].
  assert (H : forall acc, getFontSize (snd acc) = sz ->
              getFontSize (snd (fold_left (repairRun w aw sw) line acc)) = sz).
  { clear d Hd M2. induction Hline as [|s line Hs _ IH]; intros acc Hacc;
      [exact Hacc|].
    cbn [fold_left]. apply IH. now apply repairRun_size. }
  specialize (H ([], 0%Q, d1) M2).
  destruct (fold_left (repairRun w aw sw) line ([], 0%Q, d1)) as [[nl0 cw] d2].
  exact H.
Qed.

(** The post-pass returns a line that is not too wide as it is. *)
Lemma repairLine_fitting (w : Font -> string -> Q) (aw sw sz : Q) (fnt : string)
    (d : Doc) (line : Line) :
  Forall noHeading line -> getFontSize d = sz ->
  (textWidth w fnt sz line <= aw)%Q ->
  fst (repairLine w aw sw fnt d line) = line.
Proof.
  intros Hline Hd Hfit. unfold repairLine, measureLine.
  destruct (measureRun_fold w fnt sz line Hline 0%Q d Hd) as [M1 _].
  destruct (fold_left (measureRun w fnt) line (0%Q, d)) as [lineWidth d1].
  cbn [fst] in M1.
  assert (E : Qgtb lineWidth aw = false) by (apply Qgtb_false; lra).
  now rewrite E.
Qed.

Lemma repairLines_keeps (w : Font -> string -> Q) (aw sw sz : Q) (fnt : string)
    (l : Line) (ls : list Line) :
  Forall (Forall noHeading) ls ->
  (textWidth w fnt sz l <= aw)%Q ->
  In l ls ->
  forall d, getFontSize d = sz ->
    In l (fst (repairLines w aw sw fnt d ls)).
Proof.
  intros Hls Hfit. induction Hls as [|l0 ls Hl0 _ IH]; intros Hin d Hd;
    [destruct Hin|].
  cbn [repairLines].
  pose proof (repairLine_size w aw sw sz fnt d l0 Hl0 Hd) as Hsz.
  pose proof (repairLine_fitting w aw sw sz fnt d l0 Hl0 Hd) as Hid.
  destruct (repairLine w aw sw fnt d l0) as [l0' d1]. cbn [fst snd] in *.
  destruct (repairLines w aw sw fnt d1 ls) as [ls' d2] eqn:E.
  cbn [fst]. destruct Hin as [<- | Hin].
  - left. now apply Hid.
  - right. specialize (IH Hin d1 Hsz). now rewrite E in IH.
Qed.

(** Breaking the words of a line that fits gives that line back. *)
Lemma splitTextToLines_of_words (w : Font -> string -> Q) (doc : Doc)
    (maxW bi : Q) (fnt : string) (segments ws : list TextSegment) :
  ws <> [] -> Forall isWord ws ->
  (trackedWidth w fnt (getFontSize doc) (measure w doc " ") (lineOfWords ws)
   <= maxW - bi * getFontSize doc)%Q ->
  (textWidth w fnt (getFontSize doc) (lineOfWords ws)
   <= maxW - bi * getFontSize doc)%Q ->
  openLine w fnt (getFontSize doc) (measure w doc " ") ws
    (fold_left (placeSegment w (maxW - bi * getFontSize doc)%Q
                  (measure w doc " ") fnt)
               segments (mkBreak [[]] 0 0 [] doc)) ->
  fst (splitTextToLines w doc segments maxW bi fnt) = [lineOfWords ws].
Proof.
  intros Hne Hws Htr Hfit Hopen.
  unfold splitTextToLines, brokenLines.
  set (b := fold_left _ segments _) in *.
  destruct Hopen as (H1 & H2 & H3 & H4 & H5).
  rewrite H3, nonEmptyLine_words by exact Hne.
  unfold commitLine. rewrite H3, nonEmptyLine_words by exact Hne.
  cbn [lines bdoc]. rewrite H1, H2.
  cbn [arraySet filter]. rewrite nonEmptyLine_words by exact Hne.
  cbn [nonEmptyLine repairLines].
  pose proof (repairLine_fitting w (maxW - bi * getFontSize doc)%Q
                (measure w doc " ") (getFontSize doc) fnt (bdoc b)
                (lineOfWords ws) (lineOfWords_noHeading ws Hws) H5 Hfit) as Hid.
  destruct (repairLine _ _ _ _ (bdoc b) (lineOfWords ws)) as [l' d1].
  cbn [fst] in *. now rewrite Hid.
Qed.

Lemma uniformStyle_words (st : TextStyle) (ws : list TextSegment) :
  uniformStyle st (lineOfWords ws) -> Forall (fun s => style s = st) ws.
Proof.
  unfold uniformStyle. destruct ws as [|s ws]; [constructor|].
  cbn [lineOfWords]. intros H.
  constructor; [exact (Forall_inv H)|]. apply Forall_inv_tail in H.
  induction ws as [|s' ws IH]; [constructor|].
  cbn [flat_map app] in H. apply Forall_inv_tail in H.
  constructor; [exact (Forall_inv H) | apply IH; exact (Forall_inv_tail H)].
Qed.

Lemma fold_left_map {A B C : Type} (f : A -> C -> A) (g : B -> C)
    (l : list B) :
  forall a, fold_left f (map g l) a = fold_left (fun a b => f a (g b)) l a.
Proof. induction l as [|b l IH]; intros a; [reflexivity | apply IH]. Qed.

(** C7, as stated, fails: the line that the post-pass empties because its
    only character is wider than the available width breaks again into no
    line at all. *)
Lemma rebreak_emptied_line :
  fst (splitTextToLines monoWidth a4 wideCharLine 5 0 "helvetica")
  = [emptiedLine]
  /\ fst (splitTextToLines monoWidth a4
            [mkSegment (lineText emptiedLine) plainStyle] 5 0 "helvetica")
     = []
  /\ fst (splitTextToLines monoWidth a4
            [mkSegment (lineText emptiedLine) plainStyle] 5 0 "helvetica")
     <> [emptiedLine].
Proof. split; [reflexivity|]. split; [reflexivity | discriminate]. Qed.

(** C7, amended: with text widths that are not negative and runs without
    heading, every line that the word loop of [splitTextToLines] builds and
    that is not wider than the available width is returned as it is, and
    breaking it again with the same document and width gives exactly that
    line: when its runs are fed back, and, when its runs share one style,
    when its concatenated text is fed back as one run of that style. *)
Theorem rebreak_idempotent (w : Font -> string -> Q) (doc : Doc)
    (segments : list TextSegment) (maxW bi : Q) (fnt : string) (l : Line) :
  (forall fs t, (0 <= w (mkFont fnt fs (getFontSize doc)) t)%Q) ->
  (0 <= measure w doc " ")%Q ->
  Forall noHeading segments ->
  In l (filter nonEmptyLine (lines (brokenLines w doc segments maxW bi fnt))) ->
  (textWidth w fnt (getFontSize doc) l <= maxW - bi * getFontSize doc)%Q ->
  In l (fst (splitTextToLines w doc segments maxW bi fnt))
  /\ fst (splitTextToLines w doc l maxW bi fnt) = [l]
  /\ (forall st,
        uniformStyle st l ->
        fst (splitTextToLines w doc [mkSegment (lineText l) st] maxW bi fnt)
        = [l]).
Proof.
  intros Hnn Hsw Hsegs Hin Hfit.
  destruct (brokenLines_good w doc segments maxW bi fnt Hsegs)
    as (committed & Hlines & Hgood & Hsz).
  set (sz := getFontSize doc) in *. set (sw := measure w doc " ") in *.
  set (aw := (maxW - bi * sz)%Q) in *.
  assert (Hnh : Forall (Forall noHeading) (map lineOfWords committed)).
  { clear Hlines Hin. induction Hgood as [|ws committed' [_ [Hws _]] _ IH];
      cbn [map]; constructor; [now apply lineOfWords_noHeading | exact IH]. }
  split.
  { unfold splitTextToLines. fold sz sw aw. rewrite Hlines in *.
    now apply (repairLines_keeps w aw sw sz fnt l). }
  rewrite Hlines in Hin. apply in_map_iff in Hin.
  destruct Hin as (ws & <- & Hws).
  rewrite Forall_forall in Hgood. destruct (Hgood ws Hws) as (Hne & Hwords & Hf).
  assert (Htr : (trackedWidth w fnt sz sw (lineOfWords ws) <= aw)%Q).
  { destruct Hf as [Hf | [s ->]]; [exact Hf|].
    apply Forall_inv in Hwords. cbn [lineOfWords flat_map] in *.
    rewrite trackedWidth_word by exact Hwords.
    cbn [textWidth] in Hfit. lra. }
  split.
  - apply splitTextToLines_of_words; try assumption. fold sz sw aw.
    rewrite placeSegments_words by exact Hwords.
    apply (openLine_words w fnt sz sw aw Hnn Hsw (fun s => s)); try assumption.
    + reflexivity.
    + apply Forall_forall. reflexivity.
  - intros st Hst. apply uniformStyle_words in Hst.
    apply splitTextToLines_of_words; try assumption. fold sz sw aw.
    cbn [fold_left]. unfold placeSegment. cbn [text].
    rewrite splitSpaces_lineText by assumption. rewrite fold_left_map.
    apply (openLine_words w fnt sz sw aw Hnn Hsw
             (fun _ => mkSegment (lineText (lineOfWords ws)) st));
      try assumption; [reflexivity|].
    eapply Forall_impl; [|exact Hst]. intros s Hs. cbn [style]. now rewrite Hs.
Qed.

(** * The heading font *)

(** C5 fails on the code: [parsePDFMarkdown] sets the heading size and the
    bold style, but [applyStyle] resets the font before every run is
    measured and drawn.  A level 1 heading [# Title] with base size 12
    should be drawn in bold at 26.4; left-aligned it is drawn in the normal
    style at the base size 12, justified in the normal style at 26.4. *)
Theorem heading_font_reset :
  (headingSize a4Options 1 == 264 # 10)%Q
  /\ drawnTexts (calls (snd (parsePDFMarkdown monoWidth a4 "# Title" 20 40
                               a4Options))) = ["Title"]
  /\ drawnFonts (calls (snd (parsePDFMarkdown monoWidth a4 "# Title" 20 40
                               a4Options))) = [(normal, 12%Q)]
  /\ drawnFonts (calls (snd (parsePDFMarkdown monoWidth a4 "# Title" 20 40
                               justifyOptions))) = [(normal, Qred (264 # 10))].
Proof. split; [reflexivity|]. repeat split; vm_compute; reflexivity. Qed.

(** * Instances *)

Lemma width_bound_witness :
  Forall (fun l => (fst (measureLine monoWidth "helvetica" a4 l)
                    <= 25 - 0 * getFontSize a4)%Q
                   /\ (textWidth monoWidth "helvetica" (getFontSize a4) l
                       <= 25 - 0 * getFontSize a4)%Q)
         (fst (splitTextToLines monoWidth a4 longWords 25 0 "helvetica")).
Proof.
  apply (width_bound monoWidth a4 longWords 25 0 "helvetica").
  - vm_compute. discriminate.
  - repeat constructor.
  - intros fs. vm_compute. reflexivity.
Defined.


Lemma rebreak_idempotent_witness :
  In [wordRun "klm"]
     (fst (splitTextToLines monoWidth a4 longWords 25 0 "helvetica"))
  /\ fst (splitTextToLines monoWidth a4 [wordRun "klm"] 25 0 "helvetica")
     = [[wordRun "klm"]]
  /\ (forall st,
        uniformStyle st [wordRun "klm"] ->
        fst (splitTextToLines monoWidth a4
               [mkSegment (lineText [wordRun "klm"]) st] 25 0 "helvetica")
        = [[wordRun "klm"]]).
Proof.
  apply (rebreak_idempotent monoWidth a4 longWords 25 0 "helvetica").
  - intros fs t. unfold monoWidth. cbn [size getFontSize getFont a4 helvetica12].
    apply Qmult_le_0_compat; [vm_compute; discriminate|].
    change 0%Q with (inject_Z 0). rewrite <- Zle_Qle. lia.
  - vm_compute. discriminate.
  - repeat constructor.
  - vm_compute. tauto.
  - vm_compute. discriminate.
Defined.

Lemma toc_routing_witness :
  parsePDFMarkdown monoWidth a4 twoEntries 20 40 a4Options
  = formatPDFTableOfContents monoWidth a4 (normalize twoEntries) 20 40 a4Options
  /\ parsePDFMarkdown monoWidth a4 "Bab 1 Title" 20 40 a4Options
     = flowDocument monoWidth a4 (normalize "Bab 1 Title") 20 40 a4Options.
Proof.
  split.
  - assert (Ht : twoEntries <> "") by discriminate.
    apply (proj1 (proj2 (proj2 (toc_routing monoWidth a4 twoEntries 20 40
                                  a4Options Ht)))); reflexivity.
  - assert (Ht : "Bab 1 Title" <> "") by discriminate.
    apply (proj2 (proj2 (proj2 (toc_routing monoWidth a4 "Bab 1 Title" 20 40
                                  a4Options Ht)))). reflexivity.
Defined.

Lemma toc_never_requests_page_witness :
  drawsOnly a4 (snd (parsePDFMarkdown monoWidth a4 longToc 20 270 a4Options))
  /\ (270 + inject_Z (Z.of_nat (List.length (splitLines longToc)))
            * optionsLineHeight a4Options
      <= fst (formatPDFTableOfContents monoWidth a4 longToc 20 270 a4Options))%Q.
Proof.
  split.
  - apply (proj1 (proj2 (proj2 (toc_never_requests_page monoWidth a4 longToc
                                  20 270 a4Options)))). reflexivity.
  - apply (proj1 (proj2 (proj2 (proj2 (toc_never_requests_page monoWidth a4
                                         longToc 20 270 a4Options))))).
    vm_compute. discriminate.
Defined.

(** * Further properties of the inline parser *)

Lemma flush_clean (segments : list TextSegment) (cur : string)
    (st : TextStyle) :
  Forall cleanRun segments -> noMarkers cur ->
  st = mkStyle (bold st) (italic st) None false None 0 0 ->
  Forall cleanRun (flush segments cur st).
Proof.
  intros Hs Hc Hst. unfold flush. destruct (nonEmpty cur) eqn:E; [|exact Hs].
  apply Forall_app. split; [exact Hs|]. constructor; [|constructor].
  split; [now apply nonEmpty_neq|]. split; [exact Hc | exact Hst].
Qed.

Lemma noMarkers_snoc (cur : string) (c : ascii) :
  noMarkers cur -> isMarker c = false -> noMarkers (snoc cur c).
Proof.
  intros Hc Hm. unfold noMarkers, snoc. rewrite allChars_app, Hc.
  simpl. now rewrite Hm.
Qed.

Lemma parseInlineLoop_clean (n : nat) :
  forall rest segments cur st,
    String.length rest <= n ->
    Forall cleanRun segments -> noMarkers cur ->
    st = mkStyle (bold st) (italic st) None false None 0 0 ->
    Forall cleanRun (parseInlineLoop rest segments cur st).
Proof.
  induction n as [|n IH]; intros rest segments cur st Hlen Hs Hc Hst.
  - destruct rest; [|simpl in Hlen; lia]. now apply flush_clean.
  - destruct rest as [|c rest1]; [now apply flush_clean|].
    simpl in Hlen. cbn [parseInlineLoop]. destruct (isMarker c) eqn:Em.
    + assert (Hf : Forall cleanRun (flush segments cur st))
        by now apply flush_clean.
      assert (Hb : toggleBold st
                   = mkStyle (bold (toggleBold st)) (italic (toggleBold st))
                             None false None 0 0)
        by (rewrite Hst; reflexivity).
      assert (Hi : toggleItalic st
                   = mkStyle (bold (toggleItalic st)) (italic (toggleItalic st))
                             None false None 0 0)
        by (rewrite Hst; reflexivity).
      destruct rest1 as [|c1 rest2].
      * apply IH; [simpl; lia | exact Hf | reflexivity | exact Hi].
      * destruct (Ascii.eqb c1 c);
          (apply IH; [simpl in *; lia | exact Hf | reflexivity | assumption]).
    + apply IH; [lia | exact Hs | now apply noMarkers_snoc | exact Hst].
Qed.

(** X1 ([parseInlineMarkdown]): whatever the input, every run returned has a
    non-empty text that contains neither [*] nor [_], and a style in which
    only [bold] and [italic] can differ from the initial style: no heading,
    no list, level and indentation zero. *)
Theorem parseInlineMarkdown_clean_runs (t : string) :
  Forall cleanRun (parseInlineMarkdown t).
Proof.
  apply (parseInlineLoop_clean (String.length t));
    [lia | constructor | reflexivity | reflexivity].
Qed.

Lemma parseInlineLoop_plain (a : string) :
  forall rest segments cur st,
    noMarkers a ->
    parseInlineLoop (a ++ rest) segments cur st
    = parseInlineLoop rest segments (cur ++ a) st.
Proof.
  induction a as [|c a IH]; intros rest segments cur st Ha.
  - now rewrite append_empty_r.
  - unfold noMarkers in Ha. simpl in Ha. apply andb_prop in Ha.
    destruct Ha as [Hc Ha]. apply negb_true_iff in Hc.
    change (String c a ++ rest)%string with (String c (a ++ rest)).
    cbn [parseInlineLoop]. rewrite Hc, IH by exact Ha.
    now rewrite snoc_append.
Qed.

(** X2 ([parseInlineMarkdown]): a text without marker is returned as one
    run in the initial style, whitespace and all; the empty text gives no
    run. *)
Theorem parseInlineMarkdown_plain_text (t : string) :
  noMarkers t ->
  parseInlineMarkdown t
  = if nonEmpty t then [mkSegment t plainStyle] else [].
Proof.
  intros Ht. unfold parseInlineMarkdown.
  rewrite <- (append_empty_r t) at 1.
  rewrite parseInlineLoop_plain by exact Ht.
  cbn [parseInlineLoop append]. unfold flush. reflexivity.
Qed.

Lemma parseInlineMarkdown_plain_text_witness :
  noMarkers "a b" /\ parseInlineMarkdown "a b" = [mkSegment "a b" plainStyle].
Proof.
  split; [reflexivity|].
  exact (parseInlineMarkdown_plain_text "a b" eq_refl).
Defined.

Lemma noMarkers_head (a : string) (m : ascii) (rest : string) :
  noMarkers a -> a <> "" -> isMarker m = true ->
  exists c r, (a ++ rest)%string = String c r /\ Ascii.eqb c m = false.
Proof.
  intros Ha Hne Hm. destruct a as [|c a]; [contradiction|].
  exists c, (a ++ rest)%string. split; [reflexivity|].
  unfold noMarkers in Ha. simpl in Ha. apply andb_prop in Ha.
  destruct Ha as [Hc _]. apply negb_true_iff in Hc.
  destruct (Ascii.eqb c m) eqn:E; [|reflexivity].
  apply Ascii.eqb_eq in E. subst c. congruence.
Qed.

(** X3 ([parseInlineMarkdown]): emphasis is a pair of toggles, and the two
    marker characters are interchangeable.  For a non-empty text [a]
    without marker and any markers [m1], [m2] (each [*] or [_]): [m1 a m2]
    is the single italic run [a]; [m1 m1 a m2 m2] is the single bold run
    [a]; an emphasis that is never closed runs to the end of the text; and
    the text after the closing marker is back in the initial style. *)
Theorem parseInlineMarkdown_emphasis (m1 m2 : ascii) (a b : string) :
  isMarker m1 = true -> isMarker m2 = true ->
  noMarkers a -> a <> "" -> noMarkers b -> b <> "" ->
  parseInlineMarkdown (String m1 (a ++ String m2 ""))
  = [mkSegment a italicStyle]
  /\ parseInlineMarkdown (String m1 (String m1 (a ++ String m2 (String m2 ""))))
     = [mkSegment a boldStyle]
  /\ parseInlineMarkdown (String m1 a) = [mkSegment a italicStyle]
  /\ parseInlineMarkdown (String m1 (String m1 a)) = [mkSegment a boldStyle]
  /\ parseInlineMarkdown (String m1 (a ++ String m2 b))
     = [mkSegment a italicStyle; mkSegment b plainStyle]
  /\ parseInlineMarkdown (String m1 (String m1 (a ++ String m2 (String m2 b))))
     = [mkSegment a boldStyle; mkSegment b plainStyle].
Proof.
  intros Hm1 Hm2 Ha Hane Hb Hbne.
  assert (Hna : nonEmpty a = true) by now apply nonEmpty_true.
  assert (Hnb : nonEmpty b = true) by now apply nonEmpty_true.
  assert (Hopen1 : forall rest,
             parseInlineMarkdown (String m1 (a ++ rest))
             = parseInlineLoop rest [] a italicStyle).
  { intros rest. unfold parseInlineMarkdown. cbn [parseInlineLoop].
    rewrite Hm1.
    destruct (noMarkers_head a m1 rest Ha Hane Hm1) as (c & r & Hcr & Hc).
    rewrite Hcr, Hc, <- Hcr. unfold flush. cbn [nonEmpty].
    now rewrite parseInlineLoop_plain by exact Ha. }
  assert (Hopen2 : forall rest,
             parseInlineMarkdown (String m1 (String m1 (a ++ rest)))
             = parseInlineLoop rest [] a boldStyle).
  { intros rest. unfold parseInlineMarkdown. cbn [parseInlineLoop].
    rewrite Hm1, Ascii.eqb_refl. unfold flush. cbn [nonEmpty].
    now rewrite parseInlineLoop_plain by exact Ha. }
  assert (Hb0 : forall segments st,
             parseInlineLoop b segments "" st
             = segments ++ [mkSegment b st]).
  { intros segments st. rewrite <- (append_empty_r b) at 1.
    rewrite parseInlineLoop_plain by exact Hb.
    cbn [parseInlineLoop append]. unfold flush. now rewrite Hnb. }
  destruct (noMarkers_head b m2 "" Hb Hbne Hm2) as (cb & rb & Hcb & Hcb').
  rewrite append_empty_r in Hcb.
  splits.
  - rewrite Hopen1. cbn [parseInlineLoop]. rewrite Hm2. unfold flush.
    now rewrite Hna.
  - rewrite Hopen2. cbn [parseInlineLoop]. rewrite Hm2, Ascii.eqb_refl.
    unfold flush. now rewrite Hna.
  - rewrite <- (append_empty_r a) at 1. rewrite Hopen1.
    cbn [parseInlineLoop]. unfold flush. now rewrite Hna.
  - rewrite <- (append_empty_r a) at 1. rewrite Hopen2.
    cbn [parseInlineLoop]. unfold flush. now rewrite Hna.
  - rewrite Hopen1. cbn [parseInlineLoop]. rewrite Hm2. unfold flush.
    rewrite Hna.
    transitivity (parseInlineLoop b [mkSegment a italicStyle] "" plainStyle);
      [|now rewrite Hb0].
    rewrite Hcb. now rewrite Hcb'.
  - rewrite Hopen2. cbn [parseInlineLoop]. rewrite Hm2, Ascii.eqb_refl.
    unfold flush. rewrite Hna. now rewrite Hb0.
Qed.

Lemma parseInlineMarkdown_emphasis_witness :
  parseInlineMarkdown "*a_" = [mkSegment "a" italicStyle]
  /\ parseInlineMarkdown "**a__" = [mkSegment "a" boldStyle]
  /\ parseInlineMarkdown "*a" = [mkSegment "a" italicStyle]
  /\ parseInlineMarkdown "**a" = [mkSegment "a" boldStyle]
  /\ parseInlineMarkdown "*a_b" = [mkSegment "a" italicStyle; mkSegment "b" plainStyle]
  /\ parseInlineMarkdown "**a__b" = [mkSegment "a" boldStyle; mkSegment "b" plainStyle].
Proof.
  apply (parseInlineMarkdown_emphasis "*" "_" "a" "b");
    first [reflexivity | discriminate].
Defined.

(** * Further properties of the indentation and of the block patterns *)

Lemma stringRev_app (a b : string) :
  stringRev (a ++ b) = (stringRev b ++ stringRev a)%string.
Proof.
  induction a as [|c a IH]; simpl.
  - now rewrite append_empty_r.
  - unfold snoc. now rewrite IH, append_assoc.
Qed.

Lemma stringRev_involutive (s : string) : stringRev (stringRev s) = s.
Proof.
  induction s as [|c s IH]; [reflexivity|].
  simpl. unfold snoc. rewrite stringRev_app, IH. reflexivity.
Qed.

Lemma stringRev_empty (s : string) : stringRev s = "" -> s = "".
Proof.
  intros H. rewrite <- (stringRev_involutive s), H. reflexivity.
Qed.

Lemma allChars_rev (f : ascii -> bool) (s : string) :
  allChars f (stringRev s) = allChars f s.
Proof.
  induction s as [|c s IH]; [reflexivity|].
  simpl. unfold snoc. rewrite allChars_app, IH. simpl.
  rewrite andb_true_r. apply andb_comm.
Qed.

Lemma dropSpaces_split (s : string) :
  exists sp, s = (sp ++ dropSpaces s)%string /\ allChars isSpace sp = true.
Proof.
  induction s as [|c s (sp & Hs & Hsp)]; [now exists ""|].
  simpl. destruct (isSpace c) eqn:E.
  - exists (String c sp). simpl. rewrite E, Hsp. split; [now f_equal|reflexivity].
  - now exists "".
Qed.

Lemma dropSpaces_head (s : string) (c : ascii) (r : string) :
  dropSpaces s = String c r -> isSpace c = false.
Proof.
  induction s as [|a s IH]; [discriminate|].
  simpl. destruct (isSpace a) eqn:E; [exact IH|].
  intros H. injection H as <- _. exact E.
Qed.

Lemma dropSpaces_empty (s : string) :
  dropSpaces s = "" <-> allChars isSpace s = true.
Proof.
  induction s as [|c s IH]; [now split|].
  simpl. destruct (isSpace c); [exact IH|]. split; discriminate.
Qed.

Lemma trim_empty (t : string) : trim t = "" <-> allChars isSpace t = true.
Proof.
  unfold trim. rewrite <- dropSpaces_empty. split.
  - intros H. apply stringRev_empty in H.
    apply dropSpaces_empty in H. rewrite allChars_rev in H.
    destruct (dropSpaces t) as [|c r] eqn:E; [reflexivity|].
    apply dropSpaces_head in E. simpl in H. now rewrite E in H.
  - intros H. now rewrite H.
Qed.

(** What [trim] removes at the end is whitespace that follows the result. *)
Lemma trim_prefix (t : string) :
  exists ws, dropSpaces t = (trim t ++ ws)%string.
Proof.
  unfold trim.
  destruct (dropSpaces_split (stringRev (dropSpaces t))) as (sp & Hs & _).
  exists (stringRev sp).
  rewrite <- stringRev_app, <- Hs. now rewrite stringRev_involutive.
Qed.

Lemma countSpaces_all (t : string) :
  allChars isSpace t = true -> countSpaces t = String.length t.
Proof.
  induction t as [|c t IH]; [reflexivity|].
  simpl. destruct (isSpace c); [|discriminate].
  intros H. now rewrite IH.
Qed.

Lemma countSpaces_length (t : string) : countSpaces t <= String.length t.
Proof.
  induction t as [|c t IH]; [apply Nat.le_refl|].
  simpl. destruct (isSpace c); lia.
Qed.

Lemma listMatch_nonblank (t : string) :
  listMatch t = true -> allChars isSpace t = false.
Proof.
  unfold listMatch. intros H.
  destruct (allChars isSpace t) eqn:E; [|reflexivity].
  apply dropSpaces_empty in E. rewrite E in H. discriminate.
Qed.

Lemma baseIndent_zero (k : nat) :
  Qle_bool (inject_Z (Z.of_nat k) * (25 # 100))%Q 0 = true <-> k = 0.
Proof.
  rewrite Qle_bool_iff. unfold Qle, Qmult, inject_Z. simpl. lia.
Qed.

(** X4 ([calculateIndentation]): the result is a natural multiple of a
    quarter; it is zero exactly for the empty line and for a line made of a
    single whitespace character, and at least a quarter for every line with
    visible text; a line that is not a list item and starts with two
    whitespace characters or more gets at least 1, while a list item gets
    a quarter more than the quarter per pair of leading whitespace. *)
Theorem calculateIndentation_values (t : string) :
  (exists k : nat,
      (calculateIndentation t == inject_Z (Z.of_nat k) * (1 # 4))%Q)
  /\ ((calculateIndentation t == 0)%Q
      <-> String.length t <= 1 /\ allChars isSpace t = true)
  /\ (nonEmpty (trim t) = true -> (1 # 4 <= calculateIndentation t)%Q)
  /\ (listMatch t = false -> 2 <= countSpaces t ->
      (1 <= calculateIndentation t)%Q)
  /\ (listMatch t = true ->
      (calculateIndentation t
       == inject_Z (Z.of_nat (Nat.div (countSpaces t) 2)) * (1 # 4) + (1 # 4))%Q).
Proof.
  unfold calculateIndentation.
  set (k := Nat.div (countSpaces t) 2).
  assert (Hk : (0 <= inject_Z (Z.of_nat k))%Q).
  { change 0%Q with (inject_Z 0). rewrite <- Zle_Qle. lia. }
  assert (Hk1 : k <> 0 -> (1 <= inject_Z (Z.of_nat k))%Q).
  { intros H. change 1%Q with (inject_Z 1). rewrite <- Zle_Qle. lia. }
  assert (Hdiv : k = 0 <-> countSpaces t <= 1).
  { unfold k. split; intros H.
    - destruct (Nat.le_gt_cases (countSpaces t) 1) as [|Hgt]; [assumption|].
      assert (1 <= countSpaces t / 2)
        by (apply Nat.div_le_lower_bound; lia). lia.
    - apply Nat.div_small. lia. }
  clearbody k.
  destruct (listMatch t) eqn:El.
  - pose proof (listMatch_nonblank t El) as Hb. splits.
    + exists (k + 1). rewrite Nat2Z.inj_add, inject_Z_plus.
      change (inject_Z (Z.of_nat 1)) with 1%Q. lra.
    + split; [intros H; lra | intros [_ H]; congruence].
    + intros _. lra.
    + discriminate.
    + intros _. lra.
  - destruct (Qle_bool (inject_Z (Z.of_nat k) * (25 # 100)) 0) eqn:Eb; simpl.
    + apply baseIndent_zero in Eb. rewrite Eb.
      change (inject_Z (Z.of_nat 0)) with 0%Q.
      destruct (nonEmpty (trim t)) eqn:Et; splits.
      * exists 1. change (inject_Z (Z.of_nat 1)) with 1%Q. lra.
      * split; [intros H; lra|]. intros [_ H]. apply trim_empty in H.
        rewrite H in Et. discriminate.
      * intros _. lra.
      * intros _ H. apply Hdiv in Eb. lia.
      * discriminate.
      * exists 0. change (inject_Z (Z.of_nat 0)) with 0%Q. lra.
      * split; [intros _ | intros _; lra].
        assert (Ha : allChars isSpace t = true).
        { apply trim_empty. destruct (trim t); [reflexivity|discriminate]. }
        split; [|exact Ha]. rewrite <- (countSpaces_all t Ha).
        now apply Hdiv.
      * discriminate.
      * intros _ H. apply Hdiv in Eb. lia.
      * discriminate.
    + assert (Hk0 : k <> 0).
      { intros H. apply baseIndent_zero in H. congruence. }
      specialize (Hk1 Hk0). splits.
      * exists (k + 3). rewrite Nat2Z.inj_add, inject_Z_plus.
        change (inject_Z (Z.of_nat 3)) with 3%Q. lra.
      * split; [intros H; lra|]. intros [H Ha]. exfalso. apply Hk0.
        apply Hdiv. pose proof (countSpaces_length t). lia.
      * intros _. lra.
      * intros _ _. lra.
      * discriminate.
Qed.

Lemma spacesThenRest_some (r c : string) :
  spacesThenRest r = Some c -> startsWithSpace r = true /\ c <> "".
Proof.
  unfold spacesThenRest. destruct (Nat.eqb (countSpaces r) 0) eqn:E;
    [discriminate|].
  intros H. split.
  - destruct r as [|a r]; [discriminate|]. simpl in *.
    destruct (isSpace a); [reflexivity|discriminate].
  - destruct (dropN (countSpaces r) r) as [|a rest].
    + destruct (lastChar r); [|discriminate].
      destruct (_ && _); [|discriminate]. injection H as <-. discriminate.
    + destruct (allChars _ _); [|discriminate]. injection H as <-.
      discriminate.
Qed.

Lemma startsWithSpace_app (r ws : string) :
  startsWithSpace r = true -> startsWithSpace (r ++ ws) = true.
Proof. destruct r; [discriminate|exact (fun H => H)]. Qed.

Lemma dropN_countDigits (s : string) : dropN (countDigits s) s = dropDigits s.
Proof.
  induction s as [|c s IH]; [reflexivity|].
  simpl. destruct (isDigit c); [exact IH|reflexivity].
Qed.

Lemma dropDigits_app (s ws : string) (d : ascii) (r : string) :
  dropDigits s = String d r -> dropDigits (s ++ ws) = String d (r ++ ws).
Proof.
  induction s as [|c s IH]; [discriminate|].
  simpl. destruct (isDigit c); [exact IH|].
  intros H. injection H as -> ->. reflexivity.
Qed.

Lemma digit_not_bullet (c : ascii) :
  isDigit c = true -> Ascii.eqb c "-" || Ascii.eqb c "*" = false.
Proof.
  intros H. destruct (Ascii.eqb c "-") eqn:E1.
  - apply Ascii.eqb_eq in E1. subst c. discriminate.
  - destruct (Ascii.eqb c "*") eqn:E2; [|reflexivity].
    apply Ascii.eqb_eq in E2. subst c. discriminate.
Qed.

Lemma listMatch_of_trimmed (l : string) :
  orderedListMatch (trim l) <> None \/ unorderedListMatch (trim l) <> None ->
  listMatch l = true.
Proof.
  destruct (trim_prefix l) as (ws & Hd). unfold listMatch. rewrite Hd.
  intros [H|H].
  - unfold orderedListMatch in H.
    destruct (Nat.leb 1 (countDigits (trim l))) eqn:En; [|contradiction].
    rewrite dropN_countDigits in H.
    destruct (dropDigits (trim l)) as [|d r] eqn:Ed; [contradiction|].
    destruct (Ascii.eqb d ".") eqn:Edot; [|contradiction].
    destruct (spacesThenRest r) as [c|] eqn:Er; [|contradiction].
    apply spacesThenRest_some in Er. destruct Er as [Er _].
    destruct (trim l) as [|c0 x] eqn:Ex; [discriminate|].
    change (String c0 x ++ ws)%string with (String c0 (x ++ ws)).
    cbv beta iota.
    assert (Hc0 : isDigit c0 = true).
    { simpl in En. destruct (isDigit c0); [reflexivity|discriminate]. }
    rewrite (digit_not_bullet c0 Hc0).
    change (String c0 (x ++ ws)) with (String c0 x ++ ws)%string.
    rewrite (dropDigits_app _ ws d r Ed), Edot.
    rewrite (startsWithSpace_app r ws Er).
    simpl. now rewrite Hc0.
  - unfold unorderedListMatch in H.
    destruct (trim l) as [|c0 r]; [contradiction|].
    change (String c0 r ++ ws)%string with (String c0 (r ++ ws)).
    cbv beta iota.
    destruct (Ascii.eqb c0 "-" || Ascii.eqb c0 "*"); [|contradiction].
    destruct (spacesThenRest r) as [c|] eqn:Er; [|contradiction].
    apply spacesThenRest_some in Er. destruct Er as [Er _].
    now apply startsWithSpace_app.
Qed.

(** X5 ([calculateIndentation] under [parsePDFMarkdown]): a line that the
    page flow treats as a list item (its trimmed text matches the ordered
    or the unordered pattern) is also a list item for
    [calculateIndentation], whose pattern is applied to the raw line: its
    indentation is a quarter per pair of leading whitespace characters,
    plus a quarter. *)
Theorem list_item_indentation (l : string) :
  orderedListMatch (trim l) <> None \/ unorderedListMatch (trim l) <> None ->
  listMatch l = true
  /\ (calculateIndentation l
      == inject_Z (Z.of_nat (Nat.div (countSpaces l) 2)) * (1 # 4) + (1 # 4))%Q.
Proof.
  intros H. pose proof (listMatch_of_trimmed l H) as Hl.
  split; [exact Hl|]. unfold calculateIndentation. rewrite Hl. lra.
Qed.

Lemma list_item_indentation_witness :
  listMatch "  - item" = true
  /\ (calculateIndentation "  - item"
      == inject_Z (Z.of_nat (Nat.div (countSpaces "  - item") 2)) * (1 # 4)
         + (1 # 4))%Q.
Proof.
  apply (list_item_indentation "  - item"). right. vm_compute. discriminate.
Defined.

Lemma countHashes_head (s : string) :
  1 <= countHashes s -> exists r, s = String "#" r.
Proof.
  destruct s as [|c r]; simpl; [lia|].
  destruct (Ascii.eqb c "#") eqn:E; [|lia].
  apply Ascii.eqb_eq in E. subst c. now exists r.
Qed.

Lemma takeDigits_all (s : string) :
  allChars isDigit (substring 0 (countDigits s) s) = true
  /\ String.length (substring 0 (countDigits s) s) = countDigits s.
Proof.
  induction s as [|c s [IH1 IH2]]; [now split|].
  simpl. destruct (isDigit c) eqn:E; [|now split].
  simpl. rewrite E, IH1, IH2. now split.
Qed.

(** X6 (the block patterns of [parsePDFMarkdown]): a trimmed line matches
    at most one of the heading, ordered-list and unordered-list patterns, so
    the order in which the flow tries them does not matter; a heading has
    level 1 to 6, the number of an ordered item is a non-empty string of
    digits, and the content captured by each pattern is never empty. *)
Theorem block_patterns_exclusive (s : string) :
  (forall n c, headerMatch s = Some (n, c) ->
     1 <= n <= 6 /\ c <> ""
     /\ orderedListMatch s = None /\ unorderedListMatch s = None)
  /\ (forall num c, orderedListMatch s = Some (num, c) ->
        num <> "" /\ allChars isDigit num = true /\ c <> ""
        /\ unorderedListMatch s = None)
  /\ (forall c, unorderedListMatch s = Some c -> c <> "").
Proof.
  splits.
  - intros n c H. unfold headerMatch in H.
    destruct (Nat.leb 1 (countHashes s) && Nat.leb (countHashes s) 6) eqn:En;
      [|discriminate].
    apply andb_prop in En. destruct En as [E1 E6].
    apply Nat.leb_le in E1, E6.
    destruct (spacesThenRest (dropN (countHashes s) s)) as [c'|] eqn:Er;
      [|discriminate].
    injection H as <- <-. apply spacesThenRest_some in Er.
    destruct (countHashes_head s E1) as (r & ->).
    splits; [exact E1 | exact E6 | exact (proj2 Er) | reflexivity | reflexivity].
  - intros num c H. unfold orderedListMatch in H.
    destruct (Nat.leb 1 (countDigits s)) eqn:En; [|discriminate].
    apply Nat.leb_le in En.
    destruct (dropN (countDigits s) s) as [|d r]; [discriminate|].
    destruct (Ascii.eqb d "."); [|discriminate].
    destruct (spacesThenRest r) as [c'|] eqn:Er; [|discriminate].
    injection H as <- <-. apply spacesThenRest_some in Er.
    destruct (takeDigits_all s) as [Hd Hl].
    splits; [| exact Hd | exact (proj2 Er) |].
    + intros H. rewrite H in Hl. simpl in Hl. lia.
    + destruct s as [|c0 x]; [reflexivity|]. simpl in En.
      destruct (isDigit c0) eqn:Ec; [|lia].
      unfold unorderedListMatch. now rewrite (digit_not_bullet c0 Ec).
  - intros c H. unfold unorderedListMatch in H.
    destruct s as [|c0 r]; [discriminate|].
    destruct (_ || _); [|discriminate].
    now apply spacesThenRest_some in H.
Qed.

Lemma calculateIndentation_values_witness :
  (1 # 4 <= calculateIndentation "no indent")%Q.
Proof.
  apply (proj1 (proj2 (proj2 (calculateIndentation_values "no indent")))).
  reflexivity.
Defined.

Lemma block_patterns_exclusive_witness :
  1 <= 2 <= 6 /\ "Hello world" <> ""
  /\ orderedListMatch "## Hello world" = None
  /\ unorderedListMatch "## Hello world" = None.
Proof.
  apply (proj1 (block_patterns_exclusive "## Hello world") 2 "Hello world").
  reflexivity.
Defined.

(** * Further properties of the line renderer *)

Lemma applyStyle_calls (d : Doc) (st : TextStyle) (sz : Q) (name : string) :
  calls (applyStyle d st sz name) = calls d.
Proof. exact (proj2 (proj2 (applyStyle_surface d st sz name))). Qed.

Lemma lastLine_draws (w : Font -> string -> Q) (y : Q)
    (segs : list TextSegment) :
  forall acc,
    exists new,
      calls (snd (fold_left (drawLastLineRun w y) segs acc))
      = calls (snd acc) ++ new
      /\ Forall2 (drawsRun y) new segs.
Proof.
  induction segs as [|s segs IH]; intros [x d].
  - exists []. simpl. now rewrite app_nil_r.
  - cbn [fold_left].
    destruct (IH (drawLastLineRun w y (x, d) s)) as (new & Hc & Hn).
    exists (CallText (text s) x y
              (getFont (applyStyle d (style s) (getFontSize d)
                          (fontName (getFont d)))) false :: new).
    split.
    + rewrite Hc. cbn [drawLastLineRun snd docText calls].
      rewrite applyStyle_calls, <- app_assoc. reflexivity.
    + constructor; [|exact Hn]. now eexists _, _.
Qed.

Lemma justified_draws (w : Font -> string -> Q) (y extra : Q) (n : nat)
    (segs : list TextSegment) :
  forall index acc,
    exists new,
      calls (snd (drawJustifiedRuns w y extra n index segs acc))
      = calls (snd acc) ++ new
      /\ Forall2 (drawsRun y) new segs.
Proof.
  induction segs as [|s segs IH]; intros index [x d].
  - exists []. simpl. now rewrite app_nil_r.
  - cbn [drawJustifiedRuns].
    match goal with
    | |- context [drawJustifiedRuns w y extra n (S index) segs ?a] =>
        destruct (IH (S index) a) as (new & Hc & Hn)
    end.
    exists (CallText (text s) x y
              (getFont (applyStyle d (style s) (getFontSize d)
                          (fontName (getFont d)))) false :: new).
    split.
    + rewrite Hc. cbn [snd docText calls].
      rewrite applyStyle_calls, <- app_assoc. reflexivity.
    + constructor; [|exact Hn]. now eexists _, _.
Qed.

Lemma addRunWidth_calls (w : Font -> string -> Q) (segs : list TextSegment) :
  forall acc,
    calls (snd (fold_left (addRunWidth w) segs acc)) = calls (snd acc).
Proof.
  induction segs as [|s segs IH]; intros acc; [reflexivity|].
  cbn [fold_left]. rewrite IH.
  exact (proj2 (proj2 (addRunWidth_surface w acc s))).
Qed.

(** X7 ([renderJustifiedLine]): in both branches, and whatever the styles,
    the function issues exactly one [text] call per run, in the order of the
    runs, each with the text of its run, at the ordinate [y] and without
    alignment option; it requests no page. *)
Theorem renderJustifiedLine_one_call_per_run (w : Font -> string -> Q)
    (doc : Doc) (segs : list TextSegment) (x y maxW : Q) (isLastLine : bool) :
  exists new,
    calls (renderJustifiedLine w doc segs x y maxW isLastLine)
    = calls doc ++ new
    /\ Forall2 (drawsRun y) new segs
    /\ newPages new = 0.
Proof.
  assert (Hp : forall new, Forall2 (drawsRun y) new segs -> newPages new = 0).
  { intros new H. induction H as [|c s new segs' (x0 & f & ->) _ IH];
      [reflexivity|exact IH]. }
  unfold renderJustifiedLine, renderJustifiedLineX.
  destruct (isLastLine || Nat.leb (List.length segs) 1).
  - destruct (lastLine_draws w y segs (x, doc)) as (new & Hc & Hn).
    exists new. splits; [exact Hc | exact Hn | now apply Hp].
  - match goal with
    | |- context [drawJustifiedRuns w y ?e ?n 0 segs ?a] =>
        destruct (justified_draws w y e n segs 0 a) as (new & Hc & Hn)
    end.
    exists new. splits; [|exact Hn | now apply Hp].
    rewrite Hc. cbn [snd]. now rewrite addRunWidth_calls.
Qed.

Lemma max0_nonneg (v : Q) : (0 <= max0 v)%Q.
Proof.
  unfold max0. destruct (Qle_bool v 0) eqn:E; [apply Qle_refl|].
  apply Qlt_le_weak. apply Qnot_le_lt. intros H.
  apply Qle_bool_iff in H. congruence.
Qed.

(** X8 ([renderJustifiedLine]): the extra space given to a gap of a
    justified line is never negative, so a line is never compressed; for a
    line whose runs (without heading level) already measure [maxWidth] or
    more it is zero, and the line is laid out at its natural width. *)
Theorem justified_gap_never_negative (w : Font -> string -> Q) (doc : Doc)
    (segs : list TextSegment) (maxW : Q) :
  (0 <= extraSpacePerGap w doc segs maxW)%Q
  /\ (Forall noHeading segs ->
      (maxW <= textWidth w (fontName (getFont doc)) (getFontSize doc) segs)%Q ->
      (extraSpacePerGap w doc segs maxW == 0)%Q).
Proof.
  split.
  - unfold extraSpacePerGap.
    destruct (Nat.ltb 0 (List.length (filter isSpaceRun segs))) eqn:E;
      [|apply Qle_refl].
    apply Nat.ltb_lt in E. unfold Qdiv.
    apply Qmult_le_0_compat; [apply max0_nonneg|].
    apply Qinv_le_0_compat. change 0%Q with (inject_Z 0).
    rewrite <- Zle_Qle. lia.
  - intros Hh Hw. rewrite extraSpacePerGap_share by exact Hh.
    unfold gapShare. destruct (Nat.ltb 0 (spaceRuns segs)); [|reflexivity].
    unfold slack, max0.
    destruct (Qle_bool _ 0) eqn:E.
    + unfold Qdiv. ring.
    + exfalso. assert (H : Qle_bool
        (maxW - textWidth w (fontName (getFont doc)) (getFontSize doc) segs) 0
        = true) by (apply Qle_bool_iff; lra).
      congruence.
Qed.

Lemma justified_gap_never_negative_witness :
  (extraSpacePerGap monoWidth a4 twoWords 5 == 0)%Q.
Proof.
  apply (proj2 (justified_gap_never_negative monoWidth a4 twoWords 5)).
  - repeat constructor.
  - vm_compute. discriminate.
Defined.

(** * Further properties of the word splitter *)

Lemma concatStrings_app (l1 l2 : list string) :
  concatStrings (l1 ++ l2) = (concatStrings l1 ++ concatStrings l2)%string.
Proof.
  induction l1 as [|a l1 IH]; [reflexivity|].
  simpl. now rewrite IH, append_assoc.
Qed.

Lemma concatStrings_snoc (l : list string) (p : string) :
  concatStrings (l ++ [p]) = (concatStrings l ++ p)%string.
Proof. rewrite concatStrings_app. simpl. now rewrite append_empty_r. Qed.

Lemma snoc_length (s : string) (c : ascii) :
  String.length (snoc s c) = S (String.length s).
Proof. unfold snoc. rewrite append_length. simpl. lia. Qed.

Lemma splitWordLoop_pieces (w : Font -> string -> Q) (doc : Doc)
    (st : TextStyle) (maxW : Q) (rest : string) :
  forall result cur pieces0,
    Forall2 (partOfPiece st) result pieces0 ->
    Forall (testedPiece w (getFont doc) maxW) pieces0 ->
    testedPiece w (getFont doc) maxW cur ->
    exists pieces,
      Forall2 (partOfPiece st) (splitWordLoop w doc st maxW rest result cur)
              pieces
      /\ concatStrings pieces = (concatStrings pieces0 ++ cur ++ rest)%string
      /\ Forall (testedPiece w (getFont doc) maxW) pieces.
Proof.
  assert (Hpush : forall result pieces0 part piece,
             Forall2 (partOfPiece st) result pieces0 ->
             partOfPiece st part piece ->
             Forall2 (partOfPiece st) (result ++ [part]) (pieces0 ++ [piece])).
  { intros. apply Forall2_app; [assumption|].
    constructor; [assumption | constructor]. }
  assert (Htested : forall pieces0 piece,
             Forall (testedPiece w (getFont doc) maxW) pieces0 ->
             testedPiece w (getFont doc) maxW piece ->
             Forall (testedPiece w (getFont doc) maxW) (pieces0 ++ [piece])).
  { intros. apply Forall_app. split; [assumption|].
    constructor; [assumption | constructor]. }
  assert (Hone : forall c, testedPiece w (getFont doc) maxW (String c "")).
  { intros c H. simpl in H. lia. }
  induction rest as [|c rest IH]; intros result cur pieces0 Hr Hp Hc.
  - cbn [splitWordLoop]. destruct (nonEmpty cur) eqn:E.
    + exists (pieces0 ++ [cur]). splits.
      * apply Hpush; [exact Hr|]. split; [reflexivity|].
        split; [now apply nonEmpty_neq | now left].
      * now rewrite concatStrings_snoc, append_empty_r.
      * now apply Htested.
    + exists pieces0. destruct cur; [|discriminate].
      splits; [exact Hr | now rewrite append_empty_r | exact Hp].
  - cbn [splitWordLoop].
    destruct (Qgtb (measure w doc (snoc cur c)) (maxW * (95 # 100))) eqn:Eg.
    + destruct (Nat.leb 2 (String.length cur)) eqn:E2;
        [|destruct (nonEmpty cur) eqn:E1].
      * apply Nat.leb_le in E2.
        destruct (IH (result ++ [mkSegment (cur ++ "-") st]) (String c "")
                     (pieces0 ++ [cur])) as (pieces & H1 & H2 & H3).
        -- apply Hpush; [exact Hr|]. split; [reflexivity|]. split.
           ++ intros ->. simpl in E2. lia.
           ++ right. now split.
        -- now apply Htested.
        -- apply Hone.
        -- exists pieces. splits; [exact H1 | | exact H3].
           rewrite H2, concatStrings_snoc, append_assoc. reflexivity.
      * destruct (IH (result ++ [mkSegment cur st]) (String c "")
                     (pieces0 ++ [cur])) as (pieces & H1 & H2 & H3).
        -- apply Hpush; [exact Hr|]. split; [reflexivity|].
           split; [now apply nonEmpty_neq | now left].
        -- now apply Htested.
        -- apply Hone.
        -- exists pieces. splits; [exact H1 | | exact H3].
           rewrite H2, concatStrings_snoc, append_assoc. reflexivity.
      * destruct cur; [|discriminate].
        destruct (IH (result ++ [mkSegment (String c "") st]) ""
                     (pieces0 ++ [String c ""])) as (pieces & H1 & H2 & H3).
        -- apply Hpush; [exact Hr|]. split; [reflexivity|].
           split; [discriminate | now left].
        -- apply Htested; [exact Hp | apply Hone].
        -- intros H. simpl in H. lia.
        -- exists pieces. splits; [exact H1 | | exact H3].
           rewrite H2, concatStrings_snoc, append_assoc. reflexivity.
    + apply Qgtb_false in Eg.
      destruct (IH result (snoc cur c) pieces0) as (pieces & H1 & H2 & H3).
      * exact Hr.
      * exact Hp.
      * intros _. exact Eg.
      * exists pieces. splits; [exact H1 | | exact H3].
        rewrite H2. now rewrite snoc_append.
Qed.

(** X9 ([splitWordIfNeeded]): the parts returned are, in order, pieces of
    the word that put together give back the word: no character is lost,
    added or moved, except that a hyphen is appended to a part, and then
    only to a piece of two characters or more; every part has the style of
    the word and no part is empty. *)
Theorem splitWordIfNeeded_pieces (w : Font -> string -> Q) (word : string)
    (st : TextStyle) (d : Doc) (maxW : Q) :
  word <> "" ->
  exists pieces,
    Forall2 (partOfPiece st) (fst (splitWordIfNeeded w word st d maxW)) pieces
    /\ concatStrings pieces = word.
Proof.
  intros Hne. unfold splitWordIfNeeded.
  destruct (Qle_bool _ maxW).
  - exists [word]. split; [|apply append_empty_r].
    constructor; [|constructor].
    split; [reflexivity|]. split; [exact Hne | now left].
  - cbn [fst].
    match goal with
    | |- context [splitWordLoop w ?d' st maxW word [] ""] =>
        destruct (splitWordLoop_pieces w d' st maxW word [] "" [])
          as (pieces & H1 & H2 & _)
    end.
    + constructor.
    + constructor.
    + intros H. simpl in H. lia.
    + exists pieces. split; [exact H1 | exact H2].
Qed.

Lemma splitWordIfNeeded_pieces_witness :
  exists pieces,
    Forall2 (partOfPiece plainStyle)
            (fst (splitWordIfNeeded monoWidth "abcdefghij" plainStyle a4 25))
            pieces
    /\ concatStrings pieces = "abcdefghij".
Proof.
  apply (splitWordIfNeeded_pieces monoWidth "abcdefghij" plainStyle a4 25).
  discriminate.
Defined.

(** X10 ([splitWordIfNeeded]): when the word is wider than [maxWidth] in
    the font of its style, every piece of two characters or more measures at
    most 95 percent of [maxWidth] in that font; the hyphen is appended after
    the test and is not counted, and a piece of a single character is not
    tested. *)
Theorem splitWordIfNeeded_tested_pieces (w : Font -> string -> Q)
    (word : string) (st : TextStyle) (d : Doc) (maxW : Q) :
  (maxW < measure w (applyStyle d st (getFontSize d) (fontName (getFont d)))
                  word)%Q ->
  exists pieces,
    Forall2 (partOfPiece st) (fst (splitWordIfNeeded w word st d maxW)) pieces
    /\ concatStrings pieces = word
    /\ Forall (testedPiece w
                 (getFont (applyStyle d st (getFontSize d)
                             (fontName (getFont d)))) maxW) pieces.
Proof.
  intros Hwide. unfold splitWordIfNeeded.
  destruct (Qle_bool _ maxW) eqn:E.
  - apply Qle_bool_iff in E. lra.
  - cbn [fst].
    match goal with
    | |- context [splitWordLoop w ?d' st maxW word [] ""] =>
        destruct (splitWordLoop_pieces w d' st maxW word [] "" [])
          as (pieces & H1 & H2 & H3)
    end.
    + constructor.
    + constructor.
    + intros H. simpl in H. lia.
    + exists pieces. splits; [exact H1 | exact H2 | exact H3].
Qed.

Lemma splitWordIfNeeded_tested_pieces_witness :
  exists pieces,
    Forall2 (partOfPiece plainStyle)
            (fst (splitWordIfNeeded monoWidth "abcdefghij" plainStyle a4 25))
            pieces
    /\ concatStrings pieces = "abcdefghij"
    /\ Forall (testedPiece monoWidth
                 (getFont (applyStyle a4 plainStyle (getFontSize a4)
                             (fontName (getFont a4)))) 25) pieces.
Proof.
  apply (splitWordIfNeeded_tested_pieces monoWidth "abcdefghij" plainStyle
           a4 25).
  vm_compute. reflexivity.
Defined.

(** * Further properties of the line breaker *)

Lemma splitWordLoop_font (w : Font -> string -> Q) (d1 d2 : Doc)
    (st : TextStyle) (maxW : Q) (rest : string) :
  getFont d1 = getFont d2 ->
  forall result cur,
    splitWordLoop w d1 st maxW rest result cur
    = splitWordLoop w d2 st maxW rest result cur.
Proof.
  intros Hf. induction rest as [|c rest IH]; intros result cur; [reflexivity|].
  cbn [splitWordLoop]. unfold measure. rewrite Hf, !IH. reflexivity.
Qed.

Lemma noSpaces_notSpace (t : string) (st : TextStyle) :
  noSpaces t -> isSpaceRun (mkSegment t st) = false.
Proof.
  intros H. unfold isSpaceRun. cbn [text].
  destruct (String.eqb t " ") eqn:E; [|reflexivity].
  apply String.eqb_eq in E. subst t. discriminate.
Qed.

Lemma wordRuns_app (l1 l2 : Line) :
  wordRuns (l1 ++ l2) = wordRuns l1 ++ wordRuns l2.
Proof. apply filter_app. Qed.

Section Placed.

Variable w : Font -> string -> Q.
Variable fnt : string.
Variables sz sw aw : Q.

Lemma lineArray_commitLine (b : BreakState) :
  lineArray sz b ->
  lineArray sz (commitLine b)
  /\ placedWords (commitLine b) = placedWords b
  /\ currentLineSegments (commitLine b) = [].
Proof.
  intros [(committed & H1 & H2) H3]. unfold commitLine.
  destruct (currentLineSegments b) as [|s l] eqn:E; cbn [nonEmptyLine].
  - splits; [split; [now exists committed | exact H3] | reflexivity | exact E].
  - rewrite H1, H2, arraySet_last.
    replace (S (List.length committed))
      with (List.length (committed ++ [s :: l]))
      by (rewrite length_app; simpl; lia).
    rewrite arraySet_end. splits.
    + split; [|exact H3]. exists (committed ++ [s :: l]). now split.
    + unfold placedWords. cbn [lines currentLineSegments].
      rewrite H1, E, !flat_map_app. cbn [flat_map wordRuns filter].
      now rewrite !app_nil_r.
    + reflexivity.
Qed.

Lemma lineArray_placeParts (parts : list TextSegment) :
  forall b index,
    lineArray sz b ->
    Forall (fun p => isSpaceRun p = false) parts ->
    lineArray sz (placeParts w b index parts)
    /\ placedWords (placeParts w b index parts) = placedWords b ++ parts.
Proof.
  induction parts as [|p parts IH]; intros b index Hb Hp.
  - split; [exact Hb | now rewrite app_nil_r].
  - cbn [placeParts]. inversion Hp as [|? ? Hp1 Hp2]; subst.
    assert (H : lineArray sz (placePart w b index p)
                /\ placedWords (placePart w b index p) = placedWords b ++ [p]).
    { unfold placePart.
      assert (Hb' : lineArray sz (if Nat.ltb 0 index then commitLine b else b)
                    /\ placedWords (if Nat.ltb 0 index then commitLine b else b)
                       = placedWords b).
      { destruct (Nat.ltb 0 index); [|now split].
        destruct (lineArray_commitLine b Hb) as (? & ? & _). now split. }
      destruct Hb' as [[Ha Hs] Hw].
      set (b' := if Nat.ltb 0 index then commitLine b else b) in *.
      split; [split; [exact Ha | exact Hs]|].
      rewrite <- Hw. unfold placedWords. cbn [lines currentLineSegments].
      rewrite wordRuns_app, app_assoc. f_equal.
      unfold wordRuns. cbn [filter]. now rewrite Hp1. }
    destruct H as [Hb1 Hw1].
    destruct (IH _ (S index) Hb1 Hp2) as [Hb2 Hw2].
    split; [exact Hb2|]. rewrite Hw2, Hw1, <- app_assoc. reflexivity.
Qed.

Lemma lineArray_placeWord (segment : TextSegment) (b : BreakState)
    (word : string) :
  noHeading segment -> noSpaces word -> lineArray sz b ->
  exists ps,
    lineArray sz (placeWord w aw sw fnt segment b word)
    /\ placedWords (placeWord w aw sw fnt segment b word) = placedWords b ++ ps
    /\ (if nonEmpty word
        then placedAs w fnt sz aw (mkSegment word (style segment)) ps
        else ps = []).
Proof.
  intros Hst Hw Hb. unfold placeWord.
  destruct (nonEmpty word) eqn:Hne; cbn [negb].
  2:{ exists []. splits; [exact Hb | now rewrite app_nil_r | reflexivity]. }
  apply nonEmpty_neq in Hne.
  set (s := mkSegment word (style segment)).
  assert (Hs : isSpaceRun s = false) by now apply noSpaces_notSpace.
  assert (Hs1 : wordRuns [s] = [s])
    by (unfold wordRuns; cbn [filter]; now rewrite Hs).
  assert (Hsp : wordRuns [mkSegment " " (style segment)] = [])
    by reflexivity.
  pose proof Hb as [Harr Hsz].
  rewrite (applyStyle_noHeading _ _ _ _ Hst). rewrite Hsz.
  set (d := mkDoc (mkFont fnt (styleFont (style segment)) sz)
                  (pageWidth (bdoc b)) (pageHeight (bdoc b))
                  (calls (bdoc b))).
  change (measure w d word) with (w (runFont fnt sz s) (text s)).
  set (b1 := mkBreak (lines b) (currentLine b) (currentLineWidth b)
                     (currentLineSegments b) d).
  assert (Hb1 : lineArray sz b1 /\ placedWords b1 = placedWords b)
    by (split; [split; [exact Harr | reflexivity] | reflexivity]).
  destruct Hb1 as [Hb1 Hw1].
  destruct (Qle_bool _ aw) eqn:E1.
  { exists [s]. splits; [split; [exact Harr | reflexivity] | | now left].
    unfold placedWords. cbn [lines currentLineSegments].
    rewrite <- app_assoc. f_equal.
    destruct (nonEmptyLine (currentLineSegments b));
      rewrite !wordRuns_app, ?Hsp, ?app_nil_r; now rewrite Hs1. }
  destruct (Qle_bool (w (runFont fnt sz s) (text s)) aw) eqn:E2.
  { fold b1. destruct (lineArray_commitLine b1 Hb1) as ([Ha Hz] & Hc & Hn).
    exists [s]. splits; [split; [exact Ha | exact Hz] | | now left].
    rewrite <- Hw1, <- Hc. unfold placedWords.
    cbn [lines currentLineSegments]. rewrite Hn.
    change (wordRuns []) with (@nil TextSegment).
    rewrite app_nil_r. cbn [app]. now rewrite Hs1. }
  cbn [currentLineSegments bdoc lines currentLine currentLineWidth].
  fold b1.
  assert (Hb2 : lineArray sz (if nonEmptyLine (currentLineSegments b1)
                              then commitLine b1 else b1)
                /\ placedWords (if nonEmptyLine (currentLineSegments b1)
                                then commitLine b1 else b1) = placedWords b
                /\ bdoc (if nonEmptyLine (currentLineSegments b1)
                         then commitLine b1 else b1) = d).
  { destruct (nonEmptyLine (currentLineSegments b1)).
    - destruct (lineArray_commitLine b1 Hb1) as (? & Hc & _).
      splits; [assumption | now rewrite Hc | apply commitLine_doc].
    - now splits. }
  destruct Hb2 as (Hb2 & Hw2 & Hd2).
  set (b2 := if nonEmptyLine (currentLineSegments b1) then commitLine b1 else b1)
    in *.
  rewrite Hd2.
  destruct (splitWordIfNeeded_parts w word (style segment) d aw Hw Hne Hst)
    as [Hparts Hdoc].
  assert (Hcut : fst (splitWordIfNeeded w word (style segment) d aw)
                 = cutWord w fnt sz aw s).
  { unfold splitWordIfNeeded.
    rewrite (applyStyle_noHeading _ _ _ _ Hst).
    change (measure w _ word) with (w (runFont fnt sz s) (text s)).
    rewrite E2. cbn [fst]. now apply splitWordLoop_font. }
  destruct (splitWordIfNeeded w word (style segment) d aw) as [parts d']
    eqn:Esplit.
  cbn [fst snd] in Hparts, Hdoc, Hcut.
  destruct (lineArray_placeParts parts
              (mkBreak (lines b2) (currentLine b2) (currentLineWidth b2)
                       (currentLineSegments b2) d') 0) as [Ha Hc].
  - destruct Hb2 as [Harr2 _]. split; [exact Harr2|]. now rewrite Hdoc.
  - eapply Forall_impl; [|exact Hparts].
    intros p (_ & _ & Hp). destruct p as [t st]. now apply noSpaces_notSpace.
  - exists parts. splits; [exact Ha | |].
    + rewrite Hc. f_equal. now rewrite <- Hw2.
    + right. split; [|exact Hcut].
      apply Qnot_le_lt. intros H. apply Qle_bool_iff in H. congruence.
Qed.

Lemma lineArray_placeSegment (b : BreakState) (segment : TextSegment) :
  noHeading segment -> lineArray sz b ->
  exists pieces,
    lineArray sz (placeSegment w aw sw fnt b segment)
    /\ placedWords (placeSegment w aw sw fnt b segment)
       = placedWords b ++ List.concat pieces
    /\ Forall2 (placedAs w fnt sz aw) (inputWords [segment]) pieces.
Proof.
  intros Hst Hb. unfold placeSegment, inputWords. cbn [flat_map].
  rewrite app_nil_r.
  pose proof (splitSpacesLoop_noSpaces (text segment) "" false eq_refl) as Hw.
  fold (splitSpaces (text segment)) in Hw.
  revert b Hb. induction Hw as [|word ws Hword _ IH]; intros b Hb.
  - exists []. splits; [exact Hb | now rewrite app_nil_r | constructor].
  - cbn [fold_left filter].
    destruct (lineArray_placeWord segment b word Hst Hword Hb)
      as (ps & Hb1 & Hw1 & Hps).
    destruct (IH _ Hb1) as (pieces & Hb2 & Hw2 & Hall).
    destruct (nonEmpty word).
    + exists (ps :: pieces). splits; [exact Hb2 | |].
      * rewrite Hw2, Hw1, <- app_assoc. reflexivity.
      * cbn [map]. now constructor.
    + subst ps. exists pieces. splits; [exact Hb2 | | exact Hall].
      rewrite Hw2, Hw1, app_nil_r. reflexivity.
Qed.

Lemma lineArray_placeSegments (segments : list TextSegment) :
  Forall noHeading segments ->
  forall b,
    lineArray sz b ->
    exists pieces,
      lineArray sz (fold_left (placeSegment w aw sw fnt) segments b)
      /\ placedWords (fold_left (placeSegment w aw sw fnt) segments b)
         = placedWords b ++ List.concat pieces
      /\ Forall2 (placedAs w fnt sz aw) (inputWords segments) pieces.
Proof.
  induction 1 as [|s segments Hs _ IH]; intros b Hb.
  - exists []. splits; [exact Hb | now rewrite app_nil_r | constructor].
  - cbn [fold_left].
    destruct (lineArray_placeSegment b s Hs Hb) as (p1 & Hb1 & Hw1 & H1).
    destruct (IH _ Hb1) as (p2 & Hb2 & Hw2 & H2).
    exists (p1 ++ p2). splits; [exact Hb2 | |].
    + rewrite Hw2, Hw1, List.concat_app, <- app_assoc. reflexivity.
    + replace (inputWords (s :: segments))
        with (inputWords [s] ++ inputWords segments)
        by (unfold inputWords; cbn [flat_map]; now rewrite app_nil_r).
      now apply Forall2_app.
Qed.

End Placed.

Lemma wordRuns_nonEmptyLines (ls : list Line) :
  flat_map wordRuns (filter nonEmptyLine ls) = flat_map wordRuns ls.
Proof.
  induction ls as [|l ls IH]; [reflexivity|].
  destruct l as [|s l]; cbn [filter nonEmptyLine flat_map]; [exact IH|].
  now rewrite IH.
Qed.

Lemma brokenLines_words (w : Font -> string -> Q) (doc : Doc)
    (segments : list TextSegment) (maxW bi : Q) (fnt : string) :
  Forall noHeading segments ->
  exists pieces,
    Forall2 (placedAs w fnt (getFontSize doc) (maxW - bi * getFontSize doc)%Q)
            (inputWords segments) pieces
    /\ flat_map wordRuns
         (filter nonEmptyLine (lines (brokenLines w doc segments maxW bi fnt)))
       = List.concat pieces.
Proof.
  intros Hsegs. unfold brokenLines.
  set (aw := (maxW - bi * getFontSize doc)%Q).
  set (sw := measure w doc " ").
  assert (H0 : lineArray (getFontSize doc) (mkBreak [[]] 0 0 [] doc)).
  { split; [|reflexivity]. now exists []. }
  destruct (lineArray_placeSegments w fnt (getFontSize doc) sw aw segments
              Hsegs _ H0) as (pieces & Hb & Hw & Hall).
  set (b := fold_left (placeSegment w aw sw fnt) segments
                      (mkBreak [[]] 0 0 [] doc)) in *.
  exists pieces. split; [exact Hall|].
  rewrite wordRuns_nonEmptyLines.
  change (placedWords (mkBreak [[]] 0 0 [] doc)) with (@nil TextSegment) in Hw.
  cbn [app] in Hw. rewrite <- Hw.
  destruct (nonEmptyLine (currentLineSegments b)) eqn:En.
  - destruct (lineArray_commitLine (getFontSize doc) b Hb) as (_ & Hc & Hn).
    rewrite <- Hc. unfold placedWords. rewrite Hn. cbn [wordRuns filter].
    now rewrite app_nil_r.
  - unfold placedWords. destruct (currentLineSegments b); [|discriminate].
    cbn [wordRuns filter]. now rewrite app_nil_r.
Qed.

Lemma repairLines_length (w : Font -> string -> Q) (aw sw : Q) (fnt : string)
    (ls : list Line) :
  forall d,
    List.length (fst (repairLines w aw sw fnt d ls)) = List.length ls.
Proof.
  induction ls as [|l ls IH]; intros d; [reflexivity|].
  cbn [repairLines]. destruct (repairLine w aw sw fnt d l) as [l' d1].
  specialize (IH d1). destruct (repairLines w aw sw fnt d1 ls) as [ls' d2].
  cbn [fst List.length] in *. now rewrite IH.
Qed.

Lemma repairLines_size (w : Font -> string -> Q) (aw sw sz : Q) (fnt : string)
    (ls : list Line) :
  Forall (Forall noHeading) ls ->
  forall d,
    getFontSize d = sz ->
    getFontSize (snd (repairLines w aw sw fnt d ls)) = sz.
Proof.
  induction 1 as [|l ls Hl _ IH]; intros d Hd; [exact Hd|].
  cbn [repairLines].
  pose proof (repairLine_size w aw sw sz fnt d l Hl Hd) as H1.
  destruct (repairLine w aw sw fnt d l) as [l' d1]. cbn [snd] in H1.
  specialize (IH d1 H1). destruct (repairLines w aw sw fnt d1 ls) as [ls' d2].
  exact IH.
Qed.

(** X11 ([splitTextToLines], the word loop): for runs without heading
    level, the runs other than spaces of the lines that the word loop
    builds are, in order, the words of the input runs (the non-empty pieces
    between whitespace, in the style of their run), each one whole or, when
    it is wider than the available width, replaced by the parts that the
    character loop of [splitWordIfNeeded] cuts it into.  No word is lost,
    repeated or moved, and the post-pass returns one line for each of these
    lines. *)
Theorem word_loop_keeps_words (w : Font -> string -> Q) (doc : Doc)
    (segments : list TextSegment) (maxW bi : Q) (fnt : string) :
  Forall noHeading segments ->
  exists pieces,
    Forall2 (placedAs w fnt (getFontSize doc) (maxW - bi * getFontSize doc)%Q)
            (inputWords segments) pieces
    /\ flat_map wordRuns
         (filter nonEmptyLine (lines (brokenLines w doc segments maxW bi fnt)))
       = List.concat pieces
    /\ List.length (fst (splitTextToLines w doc segments maxW bi fnt))
       = List.length
           (filter nonEmptyLine
                   (lines (brokenLines w doc segments maxW bi fnt))).
Proof.
  intros Hsegs.
  destruct (brokenLines_words w doc segments maxW bi fnt Hsegs)
    as (pieces & H1 & H2).
  exists pieces. splits; [exact H1 | exact H2|].
  unfold splitTextToLines. apply repairLines_length.
Qed.

Lemma word_loop_keeps_words_witness :
  exists pieces,
    Forall2 (placedAs monoWidth "helvetica" (getFontSize a4)
                      (25 - 0 * getFontSize a4)%Q)
            (inputWords longWords) pieces
    /\ flat_map wordRuns
         (filter nonEmptyLine
                 (lines (brokenLines monoWidth a4 longWords 25 0 "helvetica")))
       = List.concat pieces
    /\ List.length (fst (splitTextToLines monoWidth a4 longWords 25 0
                           "helvetica"))
       = List.length
           (filter nonEmptyLine
                   (lines (brokenLines monoWidth a4 longWords 25 0
                             "helvetica"))).
Proof.
  apply (word_loop_keeps_words monoWidth a4 longWords 25 0 "helvetica").
  repeat constructor.
Defined.

Lemma inputWords_nonEmpty (segments : list TextSegment) :
  Forall (fun s => text s <> "") (inputWords segments).
Proof.
  unfold inputWords. apply Forall_flat_map. apply Forall_forall.
  intros seg _. apply Forall_map. apply Forall_forall.
  intros t Ht. apply filter_In in Ht. cbn [text]. now apply nonEmpty_neq.
Qed.

Lemma placedAs_nonEmpty (w : Font -> string -> Q) (fnt : string) (sz aw : Q)
    (word : TextSegment) (ps : list TextSegment) :
  text word <> "" -> placedAs w fnt sz aw word ps -> ps <> [].
Proof.
  intros Hne [->|[_ ->]]; [discriminate|]. unfold cutWord.
  destruct (splitWordLoop_pieces w (mkDoc (runFont fnt sz word) 0 0 [])
              (style word) aw (text word) [] "" [])
    as (pieces & H1 & H2 & _).
  - constructor.
  - constructor.
  - intros H. simpl in H. lia.
  - intros H. rewrite H in H1. inversion H1; subst.
    cbn in H2. now symmetry in H2.
Qed.

Lemma splitTextToLines_no_word (w : Font -> string -> Q) (doc : Doc)
    (segments : list TextSegment) (maxW bi : Q) (fnt : string) :
  Forall noHeading segments ->
  inputWords segments = [] ->
  fst (splitTextToLines w doc segments maxW bi fnt) = [].
Proof.
  intros Hsegs H.
  destruct (brokenLines_words w doc segments maxW bi fnt Hsegs)
    as (pieces & H1 & H2).
  destruct (brokenLines_good w doc segments maxW bi fnt Hsegs)
    as (committed & H3 & H4 & _).
  rewrite H in H1. inversion H1; subst. cbn in H2.
  destruct committed as [|ws committed].
  - unfold splitTextToLines. rewrite H3. reflexivity.
  - exfalso. inversion H4 as [|? ? (Hne & Hws & _) _]; subst.
    rewrite H3 in H2. destruct ws as [|s ws]; [now apply Hne|].
    inversion Hws; subst. cbn in H2.
    rewrite (isWord_notSpaceRun s) in H2 by assumption. discriminate.
Qed.

(** X12 ([splitTextToLines]): for runs without heading level, the result
    has no line exactly when the runs contain no word, that is when every
    run is empty or made of whitespace only; as soon as there is a word
    there is a line. *)
Theorem no_line_without_word (w : Font -> string -> Q) (doc : Doc)
    (segments : list TextSegment) (maxW bi : Q) (fnt : string) :
  Forall noHeading segments ->
  (fst (splitTextToLines w doc segments maxW bi fnt) = []
   <-> inputWords segments = []).
Proof.
  intros Hsegs.
  destruct (brokenLines_words w doc segments maxW bi fnt Hsegs)
    as (pieces & H1 & H2).
  destruct (brokenLines_good w doc segments maxW bi fnt Hsegs)
    as (committed & H3 & H4 & _).
  pose proof (repairLines_length w (maxW - bi * getFontSize doc)%Q
                (measure w doc " ") fnt
                (filter nonEmptyLine
                   (lines (brokenLines w doc segments maxW bi fnt)))
                (bdoc (brokenLines w doc segments maxW bi fnt))) as Hlen.
  fold (splitTextToLines w doc segments maxW bi fnt) in Hlen.
  split; intros H.
  - rewrite H in Hlen. cbn in Hlen. symmetry in Hlen.
    apply length_zero_iff_nil in Hlen. rewrite Hlen in H2. cbn in H2.
    pose proof (inputWords_nonEmpty segments) as Hne.
    destruct H1 as [|word ps ws pieces' Hp _]; [reflexivity|].
    exfalso. inversion Hne as [|? ? Hword _]; subst.
    apply (placedAs_nonEmpty _ _ _ _ _ _ Hword) in Hp.
    destruct ps; [now apply Hp | discriminate].
  - now apply splitTextToLines_no_word.
Qed.

Lemma no_line_without_word_witness :
  fst (splitTextToLines monoWidth a4 [mkSegment "   " plainStyle] 25 0
         "helvetica") = []
  <-> inputWords [mkSegment "   " plainStyle] = [].
Proof.
  apply (no_line_without_word monoWidth a4 [mkSegment "   " plainStyle] 25 0
           "helvetica").
  repeat constructor.
Defined.

(** X13 ([splitTextToLines]): the breaker only measures.  It issues no
    [text] call, requests no page and leaves the page size alone; for runs
    without heading level it also leaves the font size as it found it, so
    that what it changes in the document is the font name and style. *)
Theorem splitTextToLines_only_measures (w : Font -> string -> Q) (doc : Doc)
    (segments : list TextSegment) (maxW bi : Q) (fnt : string) :
  sameSurface doc (snd (splitTextToLines w doc segments maxW bi fnt))
  /\ (Forall noHeading segments ->
      getFontSize (snd (splitTextToLines w doc segments maxW bi fnt))
      = getFontSize doc).
Proof.
  split; [apply splitTextToLines_surface|].
  intros Hsegs.
  destruct (brokenLines_good w doc segments maxW bi fnt Hsegs)
    as (committed & H3 & H4 & H5).
  unfold splitTextToLines. apply repairLines_size; [|exact H5].
  rewrite H3. apply Forall_map. eapply Forall_impl; [|exact H4].
  intros ws (_ & Hws & _). now apply lineOfWords_noHeading.
Qed.

Lemma splitTextToLines_only_measures_witness :
  getFontSize (snd (splitTextToLines monoWidth a4 longWords 25 0 "helvetica"))
  = getFontSize a4.
Proof.
  apply (proj2 (splitTextToLines_only_measures monoWidth a4 longWords 25 0
                  "helvetica")).
  repeat constructor.
Defined.

(** * Further properties of the table-of-contents formatter *)

Lemma tocLine_cursor (w : Font -> string -> Q) (options : PDFMarkdownOptions)
    (x lh pageW : Q) (acc : Q * Doc) (line : string) :
  (fst (tocLine w options x lh pageW acc line)
   == fst acc + lh + (if isChapterEntry line then lh * (5 # 10) else 0))%Q.
Proof.
  unfold tocLine, isChapterEntry, isBlankLine, tocContent.
  destruct acc as [currentY doc]. cbn [fst].
  destruct (nonEmpty (trim line)); cbn [negb andb fst]; [|ring].
  match goal with
  | |- context [matchBab ?c] => destruct (matchBab c)
  end;
  repeat match goal with
         | |- context [if ?b then _ else _] => destruct b
         end; cbn [fst]; ring.
Qed.

Lemma toc_cursor_fold (w : Font -> string -> Q) (options : PDFMarkdownOptions)
    (x lh pageW : Q) (ls : list string) :
  forall acc,
    (fst (fold_left (tocLine w options x lh pageW) ls acc)
     == fst acc + inject_Z (Z.of_nat (List.length ls)) * lh
        + inject_Z (Z.of_nat (List.length (filter isChapterEntry ls)))
          * (lh * (5 # 10)))%Q.
Proof.
  induction ls as [|l ls IH]; intros acc.
  - cbn [fold_left List.length filter].
    change (inject_Z (Z.of_nat 0)) with 0%Q. ring.
  - cbn [fold_left filter]. rewrite IH, tocLine_cursor.
    change (List.length (l :: ls)) with (S (List.length ls)).
    rewrite Nat2Z.inj_succ. unfold Z.succ. rewrite inject_Z_plus.
    change (inject_Z 1) with 1%Q.
    destruct (isChapterEntry l).
    + change (List.length (l :: filter isChapterEntry ls))
        with (S (List.length (filter isChapterEntry ls))).
      rewrite Nat2Z.inj_succ. unfold Z.succ. rewrite inject_Z_plus.
      change (inject_Z 1) with 1%Q. ring.
    + ring.
Qed.

(** X14 ([formatPDFTableOfContents]): the ordinate returned is the one
    received plus one line height for every line of the text, blank lines
    included, plus half a line height for every line whose content starts
    with [Bab], whitespace and a digit (any case). *)
Theorem toc_cursor (w : Font -> string -> Q) (doc : Doc) (t : string)
    (x y : Q) (options : PDFMarkdownOptions) :
  (fst (formatPDFTableOfContents w doc t x y options)
   == y + inject_Z (Z.of_nat (List.length (splitLines t)))
          * optionsLineHeight options
      + inject_Z (Z.of_nat (List.length (filter isChapterEntry (splitLines t))))
        * (optionsLineHeight options * (5 # 10)))%Q.
Proof. unfold formatPDFTableOfContents. now rewrite toc_cursor_fold. Qed.

Lemma rightAligned_app (cs1 cs2 : list Call) :
  rightAligned (cs1 ++ cs2) = rightAligned cs1 ++ rightAligned cs2.
Proof. apply flat_map_app. Qed.

Lemma drawsLeft_refl (d : Doc) : drawsLeft d d.
Proof. exists []. now rewrite app_nil_r. Qed.

Lemma drawsLeft_setFont (d d' : Doc) (name : string) (fs : FontStyle) :
  drawsLeft d d' -> drawsLeft d (setFont d' name fs).
Proof. exact (fun H => H). Qed.

Lemma drawsLeft_docText (d d' : Doc) (s : string) (x y : Q) :
  drawsLeft d d' -> drawsLeft d (docText d' s x y).
Proof.
  intros (new & Hc & Hn). exists (new ++ [CallText s x y (getFont d') false]).
  cbn [docText calls]. rewrite Hc, app_assoc. split; [reflexivity|].
  rewrite rightAligned_app, Hn. reflexivity.
Qed.

Lemma drawsLeft_drawDots (count : nat) :
  forall d d' dotsStart pitch y i,
    drawsLeft d d' -> drawsLeft d (drawDots d' dotsStart pitch y i count).
Proof.
  induction count as [|count IH]; intros d d' dotsStart pitch y i H;
    [exact H|].
  cbn [drawDots]. apply IH. now apply drawsLeft_docText.
Qed.

Lemma tocLine_pageNumber (w : Font -> string -> Q)
    (options : PDFMarkdownOptions) (x lh pageW : Q) (acc : Q * Doc)
    (line : string) :
  exists new,
    calls (snd (tocLine w options x lh pageW acc line))
    = calls (snd acc) ++ new
    /\ rightAligned new
       = if isBlankLine line then []
         else [(tocPageNumber line, (pageW - 20 - 10)%Q, normal)].
Proof.
  unfold tocLine, isBlankLine, tocPageNumber.
  destruct acc as [currentY doc]. cbn [snd].
  destruct (nonEmpty (trim line)); cbn [negb snd].
  2:{ exists []. now rewrite app_nil_r. }
  assert (Hstep : forall d' s,
             drawsLeft doc d' ->
             fontStyle (getFont d') = normal ->
             exists new,
               calls (docTextRight d' s (pageW - 20 - 10)%Q currentY)
               = calls doc ++ new
               /\ rightAligned new = [(s, (pageW - 20 - 10)%Q, normal)]).
  { intros d' s (new & Hc & Hn) Hf.
    exists (new ++ [CallText s (pageW - 20 - 10)%Q currentY (getFont d') true]).
    cbn [docTextRight calls]. rewrite Hc, app_assoc. split; [reflexivity|].
    rewrite rightAligned_app, Hn. cbn. now rewrite Hf. }
  assert (Hdots : forall count d' dotsStart pitch y i,
             fontStyle (getFont (drawDots d' dotsStart pitch y i count))
             = fontStyle (getFont d')).
  { induction count as [|count IH]; intros; [reflexivity|].
    cbn [drawDots]. now rewrite IH. }
  repeat match goal with
         | |- context [if ?b then _ else _] => destruct b
         end; cbn [snd];
    (apply Hstep;
     [ apply drawsLeft_drawDots; apply drawsLeft_setFont;
       repeat apply drawsLeft_docText; apply drawsLeft_setFont;
       apply drawsLeft_refl
     | now rewrite Hdots ]).
Qed.

Lemma toc_pageNumber_fold (w : Font -> string -> Q)
    (options : PDFMarkdownOptions) (x lh pageW : Q) (ls : list string) :
  forall acc,
    exists new,
      calls (snd (fold_left (tocLine w options x lh pageW) ls acc))
      = calls (snd acc) ++ new
      /\ rightAligned new
         = map (fun l => (tocPageNumber l, (pageW - 20 - 10)%Q, normal))
               (filter (fun l => negb (isBlankLine l)) ls).
Proof.
  induction ls as [|l ls IH]; intros acc.
  - exists []. now rewrite app_nil_r.
  - cbn [fold_left filter].
    destruct (tocLine_pageNumber w options x lh pageW acc l) as (n1 & H1 & R1).
    destruct (IH (tocLine w options x lh pageW acc l)) as (n2 & H2 & R2).
    exists (n1 ++ n2). rewrite H2, H1, app_assoc. split; [reflexivity|].
    rewrite rightAligned_app, R1, R2.
    now destruct (isBlankLine l).
Qed.

(** X15 ([formatPDFTableOfContents]): the calls with the option
    [align: 'right'] are exactly one per non-blank line, in the order of the
    lines: the page number read at the end of the line (the empty string
    when the line has none, which is drawn all the same), at the abscissa
    [pageWidth - 30] and in normal style.  Every other call is without
    alignment option. *)
Theorem toc_page_numbers (w : Font -> string -> Q) (doc : Doc) (t : string)
    (x y : Q) (options : PDFMarkdownOptions) :
  exists new,
    calls (snd (formatPDFTableOfContents w doc t x y options))
    = calls doc ++ new
    /\ rightAligned new
       = map (fun l => (tocPageNumber l, (pageWidth doc - 20 - 10)%Q, normal))
             (filter (fun l => negb (isBlankLine l)) (splitLines t)).
Proof.
  unfold formatPDFTableOfContents.
  exact (toc_pageNumber_fold w options x (optionsLineHeight options)
           (pageWidth doc) (splitLines t) (y, doc)).
Qed.

Lemma drawDots_calls (count : nat) :
  forall d dotsStart pitch y i,
    calls (drawDots d dotsStart pitch y i count)
    = calls d
      ++ map (fun k => CallText "."
                         (dotsStart + inject_Z (i + Z.of_nat k) * pitch)%Q y
                         (getFont d) false)
             (seq 0 count).
Proof.
  induction count as [|count IH]; intros d dotsStart pitch y i.
  - cbn. now rewrite app_nil_r.
  - cbn [drawDots]. rewrite IH. cbn [docText calls getFont].
    rewrite <- app_assoc. f_equal. cbn [seq map app].
    rewrite Z.add_0_r. f_equal.
    rewrite <- seq_shift, map_map. apply map_ext. intros k.
    replace (i + 1 + Z.of_nat k)%Z with (i + Z.of_nat (S k))%Z by lia.
    reflexivity.
Qed.

Lemma drawDots_font (count : nat) :
  forall d dotsStart pitch y i,
    getFont (drawDots d dotsStart pitch y i count) = getFont d.
Proof.
  induction count as [|count IH]; intros; [reflexivity|].
  cbn [drawDots]. now rewrite IH.
Qed.

(** The dots of a leader, by their index: with a positive pitch each is at
    or after the start and a full pitch before the end, and there is none
    when less than one pitch of room is left. *)
Lemma leader_dots (f : Font) (dotsStart dotsEnd pitch y : Q) :
  (0 < pitch)%Q ->
  Forall (leaderDot f dotsStart dotsEnd pitch y)
         (map (fun k => CallText "."
                          (dotsStart + inject_Z (Z.of_nat k) * pitch)%Q y f
                          false)
              (seq 0 (Z.to_nat (Qfloor ((dotsEnd - dotsStart) / pitch)))))
  /\ ((dotsEnd < dotsStart + pitch)%Q ->
      Z.to_nat (Qfloor ((dotsEnd - dotsStart) / pitch)) = 0).
Proof.
  intros Hp.
  set (q := ((dotsEnd - dotsStart) / pitch)%Q).
  assert (Hq : (q * pitch == dotsEnd - dotsStart)%Q)
    by (unfold q; field; lra).
  split.
  - apply Forall_map. apply Forall_forall. intros k Hk.
    apply in_seq in Hk. eexists. split; [reflexivity|].
    assert (Hk0 : (0 <= inject_Z (Z.of_nat k))%Q).
    { change 0%Q with (inject_Z 0). rewrite <- Zle_Qle. lia. }
    assert (Hk1 : (inject_Z (Z.of_nat k) + 1 <= q)%Q).
    { apply Qle_trans with (inject_Z (Qfloor q)); [|apply Qfloor_le].
      change 1%Q with (inject_Z 1). rewrite <- inject_Z_plus, <- Zle_Qle.
      lia. }
    assert (H1 : (0 <= inject_Z (Z.of_nat k) * pitch)%Q)
      by (apply Qmult_le_0_compat; lra).
    assert (H2 : ((inject_Z (Z.of_nat k) + 1) * pitch <= q * pitch)%Q)
      by (apply Qmult_le_compat_r; lra).
    split; lra.
  - intros Hlt.
    assert (Hz : (Qfloor q <= 0)%Z).
    { destruct (Z.le_gt_cases (Qfloor q) 0) as [|Hgt]; [assumption|].
      exfalso. assert (H : (1 <= inject_Z (Qfloor q))%Q).
      { change 1%Q with (inject_Z 1). rewrite <- Zle_Qle. lia. }
      pose proof (Qfloor_le q) as Hf.
      assert (H2 : (1 * pitch <= q * pitch)%Q)
        by (apply Qmult_le_compat_r; lra).
      lra. }
    destruct (Qfloor q); try reflexivity. lia.
Qed.

(** The four cases of an entry, as the formatter tells them apart. *)
Lemma entry_cases (options : PDFMarkdownOptions) (doc : Doc)
    (content : string) :
  (if startsWithCI "kata pengantar" content then
     (setFont doc (font options) fsBold, 0%Q, content, "")
   else if matchBab content then
     (setFont doc (font options) fsBold, 0%Q,
      trim (joinSpace (tl (splitSeparator content))),
      hd "" (splitSeparator content))
   else if matchSubchapter content then
     (setFont doc (font options) normal, 10%Q,
      trim (joinSpace (tl (splitSeparator content))),
      hd "" (splitSeparator content))
   else (setFont doc (font options) normal, 0%Q, content, ""))
  = (setFont doc (font options) (entryStyle content), entryIndent content,
     entryTitle content, entryPrefix content).
Proof.
  unfold entryStyle, entryIndent, entryTitle, entryPrefix.
  destruct (startsWithCI "kata pengantar" content); [reflexivity|].
  destruct (matchBab content); [reflexivity|].
  destruct (matchSubchapter content); reflexivity.
Qed.

(** X16 ([formatPDFTableOfContents], one entry): the calls of a line that
    is not blank are, in this order: the title in the font of the entry
    (bold for [Kata Pengantar] and for a chapter, normal otherwise), as one
    call at [x + indent] or as two, the prefix there and the title 15
    further; the dots of the leader in normal style, the [k]-th at
    [dotsStart + k * pitch], where [dotsStart] is 5 past the end of the
    title as the formatter measures it, [pitch] is the width of a dot in the
    font of the entry plus 2, and their number is
    [floor ((pageWidth - 30 - dotsStart) / pitch)]; and the page number,
    right-aligned at [pageWidth - 30] in normal style.  When a dot has no
    negative width, every dot is at or after [dotsStart] and a full pitch
    before [pageWidth - 30], and there is no dot when less than one pitch
    of room is left. *)
Theorem toc_entry_layout (w : Font -> string -> Q)
    (options : PDFMarkdownOptions) (x lh pageW currentY : Q) (doc : Doc)
    (line : string) :
  isBlankLine line = false ->
  (0 <= w (entryFont options doc line) ".")%Q ->
  calls (snd (tocLine w options x lh pageW (currentY, doc) line))
  = calls doc
    ++ titleCalls options x currentY doc line
    ++ leaderCalls w options x currentY pageW doc line
    ++ [CallText (tocPageNumber line) (pageW - 20 - 10)%Q currentY
          (leaderFont options doc) true]
  /\ Forall (leaderDot (leaderFont options doc)
                       (leaderStart w options x doc line)
                       (pageW - 20 - 10)%Q
                       (leaderPitch w options doc line) currentY)
            (leaderCalls w options x currentY pageW doc line)
  /\ ((pageW - 20 - 10
       < leaderStart w options x doc line + leaderPitch w options doc line)%Q
      -> leaderCalls w options x currentY pageW doc line = []).
Proof.
  intros Hblank Hdot. unfold isBlankLine in Hblank.
  assert (Hp : (0 < leaderPitch w options doc line)%Q)
    by (unfold leaderPitch; lra).
  destruct (leader_dots (leaderFont options doc)
              (leaderStart w options x doc line) (pageW - 20 - 10)%Q
              (leaderPitch w options doc line) currentY Hp) as [Hin Hnone].
  split; [|split].
  - unfold tocLine, tocPageNumber. rewrite Hblank. cbv zeta.
    fold (tocContent line). rewrite entry_cases. cbv beta iota.
    cbn [snd docTextRight calls]. rewrite drawDots_calls, drawDots_font.
    unfold leaderCalls, leaderCount, leaderStart, leaderPitch, titleWidth,
      titleCalls, entryFont, leaderFont, measure, getFontSize.
    destruct (nonEmpty (entryPrefix (tocContent line)));
      cbn [docText setFont calls getFont fontName fontStyle size];
      rewrite <- !app_assoc; reflexivity.
  - exact Hin.
  - intros Hlt. unfold leaderCalls, leaderCount. now rewrite (Hnone Hlt).
Qed.

Lemma toc_entry_layout_witness :
  calls (snd (tocLine monoWidth a4Options 20 (optionsLineHeight a4Options)
                210 (40%Q, a4) "Bab 1 Title - Halaman 5"))
  = calls a4
    ++ titleCalls a4Options 20 40 a4 "Bab 1 Title - Halaman 5"
    ++ leaderCalls monoWidth a4Options 20 40 210 a4 "Bab 1 Title - Halaman 5"
    ++ [CallText (tocPageNumber "Bab 1 Title - Halaman 5") (210 - 20 - 10)%Q
          40 (leaderFont a4Options a4) true]
  /\ Forall (leaderDot (leaderFont a4Options a4)
                       (leaderStart monoWidth a4Options 20 a4
                                    "Bab 1 Title - Halaman 5")
                       (210 - 20 - 10)%Q
                       (leaderPitch monoWidth a4Options a4
                                    "Bab 1 Title - Halaman 5") 40)
            (leaderCalls monoWidth a4Options 20 40 210 a4
                         "Bab 1 Title - Halaman 5")
  /\ ((210 - 20 - 10
       < leaderStart monoWidth a4Options 20 a4 "Bab 1 Title - Halaman 5"
         + leaderPitch monoWidth a4Options a4 "Bab 1 Title - Halaman 5")%Q
      -> leaderCalls monoWidth a4Options 20 40 210 a4
                     "Bab 1 Title - Halaman 5" = []).
Proof.
  apply (toc_entry_layout monoWidth a4Options 20 (optionsLineHeight a4Options)
           210 40 a4 "Bab 1 Title - Halaman 5").
  - reflexivity.
  - vm_compute. discriminate.
Defined.

Lemma digit_or_roman_not_space (c : ascii) :
  isDigit c || isRoman c = true -> isSpace c = false.
Proof.
  destruct c as [[] [] [] [] [] [] [] []]; vm_compute;
    intros H; first [reflexivity | discriminate H].
Qed.

Lemma numberToEnd_no_space (g : string) :
  numberToEnd g = true ->
  g <> "" /\ allChars (fun c => negb (isSpace c)) g = true.
Proof.
  unfold numberToEnd. intros H. apply andb_prop in H. destruct H as [Hne H].
  split; [now apply nonEmpty_neq|]. clear Hne.
  assert (Ha : allChars (fun c => isDigit c || isRoman c) g = true).
  { apply orb_prop in H. destruct H as [H|H]; induction g as [|c g IH];
      try reflexivity; cbn in *; apply andb_prop in H; destruct H as [Hc H];
      rewrite Hc, ?orb_true_r; cbn; now apply IH. }
  clear H. induction g as [|c g IH]; [reflexivity|].
  cbn in *. apply andb_prop in Ha. destruct Ha as [Hc Ha].
  rewrite (digit_or_roman_not_space c Hc). cbn. now apply IH.
Qed.

Lemma numberToEnd_dash (a b : string) :
  numberToEnd (a ++ String "-" b) = false.
Proof.
  unfold numberToEnd. rewrite !allChars_app. cbn [allChars].
  change (isDigit "-") with false. change (isRoman "-") with false.
  cbn [andb]. now rewrite !andb_false_r.
Qed.

Lemma dropSpaces_dash (a b : string) :
  exists a', dropSpaces (a ++ String "-" b) = (a' ++ String "-" b)%string.
Proof.
  induction a as [|c a (a' & IH)]; [now exists ""|].
  cbn [append dropSpaces]. destruct (isSpace c).
  - now exists a'.
  - now exists (String c a).
Qed.

Lemma dropSpaces_app (t rest : string) :
  startsWithSpace rest = false ->
  dropSpaces (t ++ rest) = (dropSpaces t ++ rest)%string.
Proof.
  intros Hr. induction t as [|c t IH].
  - destruct rest as [|c r]; [reflexivity|]. cbn in *. now rewrite Hr.
  - cbn [append dropSpaces]. now destruct (isSpace c).
Qed.

Lemma dropSpaces_all (ws rest : string) :
  allChars isSpace ws = true -> dropSpaces (ws ++ rest) = dropSpaces rest.
Proof.
  induction ws as [|c ws IH]; [reflexivity|].
  cbn. destruct (isSpace c); [exact IH | discriminate].
Qed.

Lemma dropSpaces_nonspace (g : string) :
  allChars (fun c => negb (isSpace c)) g = true -> dropSpaces g = g.
Proof.
  destruct g as [|c g]; [reflexivity|]. cbn.
  now destruct (isSpace c).
Qed.

Lemma pageMatchFrom_head (s : string) (index : nat) (g : string) :
  pageMatchAt s = Some g -> pageMatchFrom s index = Some (index, g).
Proof. intros H. destruct s; cbn [pageMatchFrom]; now rewrite H. Qed.

Section Entry.

(** The whitespace between [- Halaman] and the page number, and the page
    number. *)
Variables ws g : string.
Hypothesis ws_spaces : allChars isSpace ws = true.
Hypothesis g_number : numberToEnd g = true.

Local Abbreviation mark := ("- Halaman" ++ ws ++ g)%string.

Lemma pageMatchAt_mark : pageMatchAt mark = Some g.
Proof.
  destruct (numberToEnd_no_space g g_number) as [_ Hg].
  unfold pageMatchAt.
  change (dropN 9 mark) with (ws ++ g)%string.
  rewrite (dropSpaces_all ws g ws_spaces), (dropSpaces_nonspace g Hg).
  now rewrite g_number.
Qed.

Lemma pageMatchAt_before (a : string) :
  a <> "" -> pageMatchAt (a ++ mark) = None.
Proof.
  intros Hne. unfold pageMatchAt.
  assert (Hend : numberToEnd (a ++ mark) = false)
    by apply (numberToEnd_dash a (" Halaman" ++ ws ++ g)).
  rewrite Hend.
  assert (Hfirst : startsWithCI "- Halaman" (a ++ mark)
                   && numberToEnd (dropSpaces (dropN 9 (a ++ mark))) = false).
  { destruct a as [|a0 [|a1 [|a2 [|a3 [|a4 [|a5 [|a6 [|a7 [|a8 a']]]]]]]]];
      [contradiction|..];
      try (cbn [append startsWithCI];
           repeat match goal with
                  | |- context [Ascii.eqb (lowerAscii ?c) (lowerAscii "-")] =>
                      lazymatch c with
                      | "-"%char => fail
                      | _ => change (Ascii.eqb (lowerAscii c) (lowerAscii "-"))
                               with false
                      end
                  end;
           cbn [andb]; now rewrite ?andb_false_r).
    cbn [append dropN].
    match goal with
    | |- context [dropSpaces (a' ++ String "-" ?b)] =>
        destruct (dropSpaces_dash a' b) as (a'' & ->)
    end.
    rewrite numberToEnd_dash. apply andb_false_r. }
  now rewrite Hfirst.
Qed.

Lemma pageMatchFrom_mark (a : string) :
  forall index,
    pageMatchFrom (a ++ mark) index = Some (index + String.length a, g).
Proof.
  induction a as [|c a IH]; intros index.
  - change ("" ++ mark)%string with mark.
    rewrite (pageMatchFrom_head mark index g pageMatchAt_mark).
    cbn [String.length]. now rewrite Nat.add_0_r.
  - change (String c a ++ mark)%string with (String c (a ++ mark)).
    cbn [pageMatchFrom].
    change (String c (a ++ mark)) with (String c a ++ mark)%string.
    rewrite pageMatchAt_before by discriminate.
    rewrite IH. cbn [String.length]. f_equal. f_equal. lia.
Qed.

Lemma trim_entry (title : string) :
  trim (title ++ mark) = (dropSpaces title ++ mark)%string.
Proof.
  destruct (numberToEnd_no_space g g_number) as [Hne Hg].
  unfold trim. rewrite (dropSpaces_app title mark eq_refl).
  rewrite <- !append_assoc.
  set (front := ((dropSpaces title ++ "- Halaman") ++ ws)%string).
  rewrite stringRev_app.
  rewrite <- allChars_rev in Hg.
  destruct (stringRev g) as [|c r] eqn:E.
  - apply stringRev_empty in E. contradiction.
  - cbn in Hg. apply andb_prop in Hg. destruct Hg as [Hc _].
    apply negb_true_iff in Hc.
    change (String c r ++ stringRev front)%string
      with (String c (r ++ stringRev front)).
    cbn [dropSpaces]. rewrite Hc.
    change (String c (r ++ stringRev front))
      with (String c r ++ stringRev front)%string.
    rewrite <- E, <- stringRev_app. apply stringRev_involutive.
Qed.

End Entry.

Lemma tocPageNumber_entry (title ws g : string) :
  allChars isSpace ws = true -> numberToEnd g = true ->
  trim (title ++ "- Halaman" ++ ws ++ g)
  = (dropSpaces title ++ "- Halaman" ++ ws ++ g)%string
  /\ pageMatchFrom (trim (title ++ "- Halaman" ++ ws ++ g)) 0
     = Some (String.length (dropSpaces title), g).
Proof.
  intros Hws Hg. rewrite (trim_entry ws g Hg title).
  split; [reflexivity|]. now rewrite (pageMatchFrom_mark ws g Hws Hg).
Qed.

Lemma substring_prefix (a rest : string) :
  substring 0 (String.length a) (a ++ rest) = a.
Proof.
  induction a as [|c a IH]; [now destruct rest|]. cbn. now rewrite IH.
Qed.

Lemma dropSpaces_idempotent (t : string) :
  dropSpaces (dropSpaces t) = dropSpaces t.
Proof.
  induction t as [|c t IH]; [reflexivity|].
  cbn [dropSpaces]. destruct (isSpace c) eqn:E; [exact IH|].
  cbn [dropSpaces]. now rewrite E.
Qed.

Lemma dropSpaces_fixed (s : string) :
  startsWithSpace s = false -> dropSpaces s = s.
Proof. destruct s as [|c r]; [reflexivity|]. cbn. now intros ->. Qed.

Lemma dropSpaces_starts (s : string) : startsWithSpace (dropSpaces s) = false.
Proof.
  destruct (dropSpaces s) as [|c r] eqn:E; [reflexivity|].
  exact (dropSpaces_head s c r E).
Qed.

Lemma trim_idempotent (t : string) : trim (trim t) = trim t.
Proof.
  assert (Hhead : startsWithSpace (trim t) = false).
  { destruct (trim_prefix t) as (wsx & Hp).
    pose proof (dropSpaces_starts t) as Hs. rewrite Hp in Hs.
    destruct (trim t); [reflexivity | exact Hs]. }
  unfold trim at 1. rewrite (dropSpaces_fixed _ Hhead).
  unfold trim. rewrite stringRev_involutive, dropSpaces_idempotent.
  reflexivity.
Qed.

Lemma trim_dropSpaces (t : string) : trim (dropSpaces t) = trim t.
Proof. unfold trim. now rewrite dropSpaces_idempotent. Qed.

Lemma stripHalamanTail_fixed (s : string) :
  includes s "- Halaman" = false -> stripHalamanTail s = s.
Proof.
  induction s as [|c r IH]; [reflexivity|].
  intros H.
  change (includes (String c r) "- Halaman")
    with (startsWith "- Halaman" (String c r) || includes r "- Halaman") in H.
  apply orb_false_elim in H. destruct H as [H1 H2].
  cbn [stripHalamanTail]. rewrite H1. cbn [andb]. now rewrite IH.
Qed.

(** X17 ([formatPDFTableOfContents], reading an entry): for a line written
    as a title, [- Halaman], any whitespace and a page number (digits, or
    roman letters in either case), the page number read is that number,
    whatever the title contains; and when the trimmed title does not itself
    contain [- Halaman], the content of the entry is the trimmed title. *)
Theorem toc_entry_reading (title ws g : string) :
  allChars isSpace ws = true -> numberToEnd g = true ->
  isBlankLine (title ++ "- Halaman" ++ ws ++ g) = false
  /\ tocPageNumber (title ++ "- Halaman" ++ ws ++ g) = g
  /\ (includes (trim title) "- Halaman" = false ->
      tocContent (title ++ "- Halaman" ++ ws ++ g) = trim title).
Proof.
  intros Hws Hg.
  destruct (tocPageNumber_entry title ws g Hws Hg) as [Ht Hm].
  unfold isBlankLine, tocPageNumber, tocContent. rewrite Hm, Ht.
  splits.
  - destruct (dropSpaces title); reflexivity.
  - reflexivity.
  - intros Hno. rewrite substring_prefix, trim_dropSpaces.
    rewrite (stripHalamanTail_fixed _ Hno). apply trim_idempotent.
Qed.

Lemma toc_entry_reading_witness :
  isBlankLine ("Bab 1 Title " ++ "- Halaman" ++ " " ++ "5") = false
  /\ tocPageNumber ("Bab 1 Title " ++ "- Halaman" ++ " " ++ "5") = "5"
  /\ (includes (trim "Bab 1 Title ") "- Halaman" = false ->
      tocContent ("Bab 1 Title " ++ "- Halaman" ++ " " ++ "5")
      = trim "Bab 1 Title ").
Proof.
  apply (toc_entry_reading "Bab 1 Title " " " "5"); reflexivity.
Defined.

(** * Further properties of the page flow *)

Section FlowCursor.

Variable w : Font -> string -> Q.
Variable options : PDFMarkdownOptions.
Variables x maxY : Q.

Local Abbreviation lh := (optionsLineHeight options).
Local Abbreviation top := (marginTop + fontSize options)%Q.

Hypothesis lh_nonneg : (0 <= lh)%Q.
Hypothesis page_holds_line : (top + lh <= maxY)%Q.

Lemma breakPage_room (acc : Q * Doc) :
  (fst (breakPageIfNeeded options maxY acc) + lh <= maxY)%Q.
Proof.
  unfold breakPageIfNeeded. destruct (Qgtb _ maxY) eqn:E.
  - exact page_holds_line.
  - now apply Qgtb_false in E.
Qed.

Lemma emitLines_above_margin (col : Column) (n : nat) (ls : list Line) :
  forall i acc,
    (fst acc <= maxY)%Q ->
    (fst (emitLines w options x maxY col n i ls acc) <= maxY)%Q.
Proof.
  induction ls as [|l ls IH]; intros i acc Hacc; [exact Hacc|].
  cbn [emitLines]. apply IH.
  rewrite (proj1 (emitLine_spec w options x maxY col n i acc l)).
  apply breakPage_room.
Qed.

Lemma flowLine_above_margin (acc : Q * Doc) (rawLine : string) :
  (fst (flowLine w options x maxY acc rawLine) <= maxY)%Q.
Proof.
  unfold flowLine.
  destruct (negb (nonEmpty (trim rawLine))).
  { destruct (Qgtb _ maxY) eqn:E.
    - cbn [addNewPage fst]. lra.
    - now apply Qgtb_false in E. }
  pose proof (breakPage_room acc) as Hroom.
  destruct (breakPageIfNeeded options maxY acc) as [cy d].
  cbn [fst] in Hroom.
  assert (Hcy : (cy <= maxY)%Q) by lra.
  destruct (headerMatch (trim rawLine)) as [[level content]|].
  { match goal with
    | |- context [splitTextToLines w ?d0 ?segs ?mw ?bi ?f] =>
        destruct (splitTextToLines w d0 segs mw bi f) as [ls d1]
    end.
    match goal with
    | |- context [emitLines w options x maxY ?c ?n 0 ls (cy, d1)] =>
        pose proof (emitLines_above_margin c n ls 0 (cy, d1) Hcy) as He;
        destruct (emitLines w options x maxY c n 0 ls (cy, d1)) as [cy2 d2]
    end.
    exact He. }
  destruct (orderedListMatch (trim rawLine)) as [[listNumber content]|];
    [|destruct (unorderedListMatch (trim rawLine)) as [content|]];
    match goal with
    | |- context [splitTextToLines w ?d0 ?segs ?mw ?bi ?f] =>
        destruct (splitTextToLines w d0 segs mw bi f) as [ls d1]
    end;
    now apply emitLines_above_margin.
Qed.

Lemma flowLines_above_margin (ls : list string) (acc : Q * Doc) :
  ls <> [] ->
  (fst (fold_left (flowLine w options x maxY) ls acc) <= maxY)%Q.
Proof.
  intros Hne. destruct (exists_last Hne) as (ls' & l & ->).
  rewrite fold_left_app. cbn [fold_left]. apply flowLine_above_margin.
Qed.

End FlowCursor.

(** X18 ([parsePDFMarkdown], the page flow): when the line height is not
    negative and a fresh page holds one line
    ([marginTop + fontSize + lineHeight <= pageHeight - marginBottom]), the
    ordinate returned for a document that is not empty and not routed to the
    table-of-contents formatter is at most [pageHeight - marginBottom],
    wherever the flow started. *)
Theorem flow_cursor_within_page (w : Font -> string -> Q) (doc : Doc)
    (t : string) (x y : Q) (options : PDFMarkdownOptions) :
  t <> "" ->
  isTableOfContents (normalize t) = false ->
  (0 <= optionsLineHeight options)%Q ->
  (marginTop + fontSize options + optionsLineHeight options
   <= pageHeight doc - marginBottom)%Q ->
  (fst (parsePDFMarkdown w doc t x y options)
   <= pageHeight doc - marginBottom)%Q.
Proof.
  intros Hne Htoc Hlh Hroom. unfold parsePDFMarkdown.
  rewrite (nonEmpty_true t Hne), Htoc. cbn [negb].
  unfold flowDocument. cbn [pageHeight setFontSize setFont].
  apply flowLines_above_margin; [exact Hlh | exact Hroom |].
  destruct (splitLinesLoop_cons (normalize t) "") as (l & ls & H).
  unfold splitLines. rewrite H. discriminate.
Qed.

Lemma flow_cursor_within_page_witness :
  (fst (parsePDFMarkdown monoWidth a4 "hello" 20 290 a4Options)
   <= pageHeight a4 - marginBottom)%Q.
Proof.
  apply (flow_cursor_within_page monoWidth a4 "hello" 20 290 a4Options).
  - discriminate.
  - reflexivity.
  - vm_compute. discriminate.
  - vm_compute. discriminate.
Defined.

Lemma bullet_not_header (s c : string) :
  unorderedListMatch s = Some c ->
  nonEmpty s = true /\ headerMatch s = None /\ orderedListMatch s = None.
Proof.
  unfold unorderedListMatch. destruct s as [|c0 r]; [discriminate|].
  destruct (Ascii.eqb c0 "-" || Ascii.eqb c0 "*") eqn:E; [|discriminate].
  intros _. split; [reflexivity|].
  assert (Hh : Ascii.eqb c0 "#" = false /\ isDigit c0 = false).
  { apply orb_prop in E. destruct E as [E|E]; apply Ascii.eqb_eq in E;
      subst c0; now split. }
  destruct Hh as [Hh Hd]. split.
  - unfold headerMatch. cbn [countHashes]. now rewrite Hh.
  - unfold orderedListMatch. cbn [countDigits]. now rewrite Hd.
Qed.

Lemma number_not_header (s num c : string) :
  orderedListMatch s = Some (num, c) ->
  nonEmpty s = true /\ headerMatch s = None.
Proof.
  unfold orderedListMatch. destruct s as [|c0 r]; [discriminate|].
  cbn [countDigits]. destruct (isDigit c0) eqn:Ed; [|discriminate].
  intros _. split; [reflexivity|].
  unfold headerMatch. cbn [countHashes].
  destruct (Ascii.eqb c0 "#") eqn:E; [|reflexivity].
  apply Ascii.eqb_eq in E. subst c0. discriminate.
Qed.

(** X19 ([parsePDFMarkdown], list items): a list item whose content has no
    word (only emphasis markers, as in [- **]) draws its bullet or its
    number, after the page-break check, and nothing else; since it has no
    line, the ordinate is not advanced, and the next block is drawn at the
    ordinate of the marker. *)
Theorem wordless_list_item (w : Font -> string -> Q)
    (options : PDFMarkdownOptions) (x maxY : Q) (acc : Q * Doc) (l : string) :
  (forall c,
      unorderedListMatch (trim l) = Some c ->
      inputWords (parseInlineMarkdown c) = [] ->
      fst (flowLine w options x maxY acc l)
      = fst (breakPageIfNeeded options maxY acc)
      /\ calls (snd (flowLine w options x maxY acc l))
         = calls (snd (breakPageIfNeeded options maxY acc))
           ++ [CallText "•"
                 (x + calculateIndentation l * fontSize options)%Q
                 (fst (breakPageIfNeeded options maxY acc))
                 (getFont (snd (breakPageIfNeeded options maxY acc))) false])
  /\ (forall num c,
        orderedListMatch (trim l) = Some (num, c) ->
        inputWords (parseInlineMarkdown c) = [] ->
        fst (flowLine w options x maxY acc l)
        = fst (breakPageIfNeeded options maxY acc)
        /\ calls (snd (flowLine w options x maxY acc l))
           = calls (snd (breakPageIfNeeded options maxY acc))
             ++ [CallText (num ++ ".")
                   (x + calculateIndentation l * fontSize options)%Q
                   (fst (breakPageIfNeeded options maxY acc))
                   (getFont (snd (breakPageIfNeeded options maxY acc)))
                   false]).
Proof.
  split.
  - intros c Hm Hw.
    destruct (bullet_not_header _ _ Hm) as (Hne & Hh & Ho).
    unfold flowLine. rewrite Hne, Hh, Ho, Hm. cbn [negb].
    destruct (breakPageIfNeeded options maxY acc) as [cy d]. cbn [fst snd].
    match goal with
    | |- context [splitTextToLines w ?d0 ?segs ?mw ?bi ?f] =>
        pose proof (splitTextToLines_surface w d0 segs mw bi f) as Hs;
        pose proof (splitTextToLines_no_word w d0 segs mw bi f
                      (parseInlineMarkdown_noHeading c) Hw) as Hn;
        destruct (splitTextToLines w d0 segs mw bi f) as [ls d1]
    end.
    cbn [fst snd] in Hs, Hn. subst ls. cbn [emitLines fst snd].
    split; [reflexivity|]. now rewrite (proj2 (proj2 Hs)).
  - intros num c Hm Hw.
    destruct (number_not_header _ _ _ Hm) as (Hne & Hh).
    unfold flowLine. rewrite Hne, Hh, Hm. cbn [negb].
    destruct (breakPageIfNeeded options maxY acc) as [cy d]. cbn [fst snd].
    match goal with
    | |- context [splitTextToLines w ?d0 ?segs ?mw ?bi ?f] =>
        pose proof (splitTextToLines_surface w d0 segs mw bi f) as Hs;
        pose proof (splitTextToLines_no_word w d0 segs mw bi f
                      (parseInlineMarkdown_noHeading c) Hw) as Hn;
        destruct (splitTextToLines w d0 segs mw bi f) as [ls d1]
    end.
    cbn [fst snd] in Hs, Hn. subst ls. cbn [emitLines fst snd].
    split; [reflexivity|]. now rewrite (proj2 (proj2 Hs)).
Qed.

Lemma wordless_list_item_witness :
  fst (flowLine monoWidth a4Options 20 277 (40%Q, a4) "- **")
  = fst (breakPageIfNeeded a4Options 277 (40%Q, a4))
  /\ calls (snd (flowLine monoWidth a4Options 20 277 (40%Q, a4) "- **"))
     = calls (snd (breakPageIfNeeded a4Options 277 (40%Q, a4)))
       ++ [CallText "•"
             (20 + calculateIndentation "- **" * fontSize a4Options)%Q
             (fst (breakPageIfNeeded a4Options 277 (40%Q, a4)))
             (getFont (snd (breakPageIfNeeded a4Options 277 (40%Q, a4))))
             false].
Proof.
  apply (proj1 (wordless_list_item monoWidth a4Options 20 277 (40%Q, a4)
                  "- **") "**"); reflexivity.
Defined.

(** * Further properties of the normalisation *)

Lemma threeDashes_startsWith (s : string) :
  threeDashes s = startsWith "---" s.
Proof.
  destruct s as [|c [|c2 [|c3 r]]]; cbn [threeDashes startsWith];
    unfold isDash; rewrite ?(Ascii.eqb_sym "-"%char).
  - reflexivity.
  - now rewrite andb_false_r.
  - now rewrite !andb_false_r.
  - now rewrite andb_true_r, andb_assoc.
Qed.

Lemma replaceRules_no_rule (n : nat) :
  forall s, String.length s <= n -> includes (replaceRules s) "---" = false.
Proof.
  induction n as [|n IH]; intros s Hlen.
  - destruct s; [reflexivity | simpl in Hlen; lia].
  - destruct s as [|c r]; [reflexivity|].
    simpl in Hlen. rewrite replaceRules_eq.
    destruct (threeDashes (String c r)) eqn:E.
    + cbn [includes startsWith Ascii.eqb Bool.eqb]. cbn [andb orb].
      apply IH.
      destruct r as [|c2 [|c3 r3]]; simpl in *; lia.
    + change (includes (String c (replaceRules r)) "---")
        with (startsWith "---" (String c (replaceRules r))
              || includes (replaceRules r) "---").
      rewrite IH by lia. rewrite orb_false_r.
      destruct (startsWith "---" (String c (replaceRules r))) eqn:Es;
        [|reflexivity].
      exfalso. rewrite threeDashes_startsWith in E.
      change (startsWith "---" (String c (replaceRules r)))
        with (Ascii.eqb "-" c && startsWith "--" (replaceRules r)) in Es.
      change (startsWith "---" (String c r))
        with (Ascii.eqb "-" c && startsWith "--" r) in E.
      apply andb_prop in Es.
      destruct Es as [Ec Es]. rewrite Ec in E. cbn [andb] in E.
      apply (startsWith_replaceRules "--" eq_refl) in Es. congruence.
Qed.

Lemma replaceRules_fixed (s : string) :
  includes s "---" = false -> replaceRules s = s.
Proof.
  induction s as [|c r IH]; [reflexivity|].
  intros H. change (includes (String c r) "---")
    with (startsWith "---" (String c r) || includes r "---") in H.
  apply orb_false_elim in H. destruct H as [H1 H2].
  rewrite replaceRules_eq, threeDashes_startsWith, H1, IH by exact H2.
  reflexivity.
Qed.

Lemma collapseNewlines_fixed (s : string) :
  noDoubleNewline s -> collapseNewlines s = s.
Proof.
  induction s as [|c r IH]; [reflexivity|].
  intros H. cbn [collapseNewlines].
  rewrite IH by (eapply noDouble_tail; exact H).
  destruct (isNewline c) eqn:E; [|reflexivity].
  now rewrite (noDouble_head c r H E).
Qed.

(** X20 (the normalisation of [parsePDFMarkdown]): the normalised text
    contains no [---] and no two consecutive newlines, and normalising it
    again changes nothing: the two rewritings leave no work for a second
    pass. *)
Theorem normalize_idempotent (t : string) :
  includes (normalize t) "---" = false
  /\ noDoubleNewline (normalize t)
  /\ normalize (normalize t) = normalize t.
Proof.
  assert (H1 : includes (normalize t) "---" = false).
  { destruct (includes (normalize t) "---") eqn:E; [|reflexivity].
    unfold normalize in E.
    apply (includes_collapseNewlines "---" eq_refl) in E; [|discriminate].
    now rewrite (replaceRules_no_rule (String.length t)) in E. }
  assert (H2 : noDoubleNewline (normalize t))
    by apply collapseNewlines_noDouble.
  splits; [exact H1 | exact H2 |].
  unfold normalize at 1.
  rewrite (replaceRules_fixed _ H1). now apply collapseNewlines_fixed.
Qed.

(** * Properties of the callers *)

Example romanize_sample :
  romanize 4 = "iv" /\ romanize 1994 = "mcmxciv" /\ romanize 0 = ""
  /\ paragraphs ("a" ++ newline ++ newline ++ newline ++ "b" ++ newline
                 ++ newline ++ "  " ++ newline ++ newline)
     = ["a"; (newline ++ "b")%string].
Proof. repeat split; reflexivity. Qed.

Lemma appendNumeral_rounds (value : Z) (numeral : string) (fuel : nat) :
  forall result remaining,
    (0 < value)%Z -> (0 <= remaining)%Z -> Z.to_nat remaining <= fuel ->
    appendNumeral fuel value numeral (result, remaining)
    = ((result ++ repeatString numeral (Z.to_nat (remaining / value)))%string,
       (remaining mod value)%Z).
Proof.
  induction fuel as [|fuel IH]; intros result remaining Hv Hr Hf.
  - assert (remaining = 0%Z) by lia. subst remaining.
    cbn [appendNumeral]. rewrite Z.div_0_l, Z.mod_0_l by lia.
    cbn. now rewrite append_empty_r.
  - cbn [appendNumeral]. destruct (Z.leb_spec value remaining) as [Hle|Hlt].
    + assert (Hdiv : (remaining / value = (remaining - value) / value + 1)%Z).
      { replace remaining with ((remaining - value) + 1 * value)%Z at 1
          by lia.
        apply Z.div_add. lia. }
      assert (Hmod : (remaining mod value = (remaining - value) mod value)%Z).
      { replace remaining with ((remaining - value) + 1 * value)%Z at 1
          by lia.
        apply Z.mod_add. lia. }
      assert (Hq : (0 <= (remaining - value) / value)%Z)
        by (apply Z.div_pos; lia).
      rewrite IH, Hdiv, Hmod by lia.
      rewrite Z2Nat.inj_add by lia.
      change (Z.to_nat 1) with 1. rewrite Nat.add_1_r. cbn [repeatString].
      now rewrite append_assoc.
    + rewrite Z.div_small, Z.mod_small by lia. cbn.
      now rewrite append_empty_r.
Qed.

Lemma appendNumeral_prefix (value : Z) (numeral : string) (fuel : nat) :
  forall p result remaining,
    appendNumeral fuel value numeral ((p ++ result)%string, remaining)
    = ((p ++ fst (appendNumeral fuel value numeral (result, remaining)))%string,
       snd (appendNumeral fuel value numeral (result, remaining))).
Proof.
  induction fuel as [|fuel IH]; intros p result remaining; [reflexivity|].
  cbn [appendNumeral]. destruct (value <=? remaining)%Z; [|reflexivity].
  now rewrite append_assoc, IH.
Qed.

Lemma romanSteps_prefix (l : list (Z * string)) :
  forall p result remaining,
    fold_left romanStep l ((p ++ result)%string, remaining)
    = ((p ++ fst (fold_left romanStep l (result, remaining)))%string,
       snd (fold_left romanStep l (result, remaining))).
Proof.
  induction l as [|[value numeral] l IH]; intros p result remaining;
    [reflexivity|].
  cbn [fold_left]. unfold romanStep at 2 4 6. cbn [fst snd].
  rewrite appendNumeral_prefix.
  destruct (appendNumeral (Z.to_nat remaining) value numeral
              (result, remaining)) as [result' remaining'].
  cbn [fst snd]. apply IH.
Qed.

Lemma toLowerCase_app (a b : string) :
  toLowerCase (a ++ b) = (toLowerCase a ++ toLowerCase b)%string.
Proof. induction a as [|c a IH]; [reflexivity|]. cbn. now rewrite IH. Qed.

Lemma toLowerCase_thousands (n : nat) :
  toLowerCase (repeatString "M" n) = repeatString "m" n.
Proof. induction n as [|n IH]; [reflexivity|]. cbn. now rewrite IH. Qed.

(** The numeral is the thousands, then the numeral of the rest. *)
Lemma romanize_thousands (num : Z) :
  (0 < num)%Z ->
  romanize num
  = (repeatString "m" (Z.to_nat (num / 1000)) ++ romanTail (num mod 1000))%string.
Proof.
  intros Hn. unfold romanize, romanTail.
  destruct (Z.leb_spec num 0) as [|_]; [lia|].
  change romanNumerals with ((1000%Z, "M") :: tl romanNumerals).
  cbn [fold_left]. unfold romanStep at 2. cbn [fst snd].
  rewrite appendNumeral_rounds by lia. cbn [append].
  rewrite <- (append_empty_r (repeatString "M" _)).
  rewrite romanSteps_prefix. cbn [fst].
  now rewrite toLowerCase_app, toLowerCase_thousands.
Qed.

Lemma romanTail_checked :
  forallb (fun k => Z.eqb (romanValue (romanTail (Z.of_nat k))) (Z.of_nat k)
                    && allChars isRoman (romanTail (Z.of_nat k)))
          (seq 0 1000) = true.
Proof. vm_compute. reflexivity. Qed.

Lemma romanTail_below (r : Z) :
  (0 <= r < 1000)%Z ->
  romanValue (romanTail r) = r /\ allChars isRoman (romanTail r) = true.
Proof.
  intros Hr. pose proof romanTail_checked as H.
  rewrite forallb_forall in H. specialize (H (Z.to_nat r)).
  rewrite Z2Nat.id in H by lia.
  assert (Hin : In (Z.to_nat r) (seq 0 1000)) by (apply in_seq; lia).
  apply H in Hin. apply andb_prop in Hin. destruct Hin as [H1 H2].
  apply Z.eqb_eq in H1. split; [exact H1 | exact H2].
Qed.

Lemma letterValue_max (c : ascii) : (letterValue c <= 1000)%Z.
Proof.
  unfold letterValue.
  repeat match goal with
         | |- context [if ?b then _ else _] => destruct b
         end; lia.
Qed.

Lemma romanValue_thousands (n : nat) (s : string) :
  romanValue (repeatString "m" n ++ s)
  = (1000 * Z.of_nat n + romanValue s)%Z.
Proof.
  induction n as [|n IH]; [reflexivity|].
  change (repeatString "m" (S n) ++ s)%string
    with (String "m" (repeatString "m" n ++ s)).
  cbn [romanValue]. change (letterValue "m") with 1000%Z.
  destruct (repeatString "m" n ++ s)%string as [|c2 r] eqn:E.
  - cbn [romanValue] in IH. lia.
  - pose proof (letterValue_max c2) as Hm.
    destruct (Z.ltb_spec 1000 (letterValue c2)); lia.
Qed.

Lemma romanize_reads (num : Z) :
  (0 < num)%Z -> romanValue (romanize num) = num.
Proof.
  intros Hn. rewrite romanize_thousands by exact Hn.
  rewrite romanValue_thousands.
  assert (Hr : (0 <= num mod 1000 < 1000)%Z) by (apply Z.mod_pos_bound; lia).
  rewrite (proj1 (romanTail_below _ Hr)).
  rewrite Z2Nat.id by (apply Z.div_pos; lia).
  pose proof (Z.div_mod num 1000). lia.
Qed.

(** X21 ([romanize]): for a positive page count the function returns a
    roman numeral whose usual reading (a letter counts negatively before a
    letter of greater value) is the page count, so that no two page counts
    share a label; the inner loops end by their test, whatever the count. *)
Theorem romanize_value (num : Z) :
  (0 < num)%Z ->
  romanValue (romanize num) = num
  /\ forall num', (0 < num')%Z -> romanize num' = romanize num -> num' = num.
Proof.
  intros Hn. split; [now apply romanize_reads|].
  intros num' Hn' H. rewrite <- (romanize_reads num' Hn'), H.
  now apply romanize_reads.
Qed.

Lemma romanize_value_witness :
  romanValue (romanize 2024) = 2024%Z
  /\ forall num', (0 < num')%Z -> romanize num' = romanize 2024 -> num' = 2024%Z.
Proof. apply (romanize_value 2024). reflexivity. Defined.

Lemma allChars_thousands (n : nat) :
  allChars isRoman (repeatString "m" n) = true.
Proof. induction n as [|n IH]; [reflexivity|]. cbn. exact IH. Qed.


Lemma romanize_nonEmpty (num : Z) : (0 < num)%Z -> romanize num <> "".
Proof.
  intros Hn H. pose proof (romanize_reads num Hn) as Hv.
  rewrite H in Hv. cbn in Hv. lia.
Qed.

Lemma romanize_letters (num : Z) :
  (0 < num)%Z -> numberToEnd (romanize num) = true.
Proof.
  intros Hn. unfold numberToEnd.
  rewrite (nonEmpty_true _ (romanize_nonEmpty num Hn)). cbn [andb].
  rewrite romanize_thousands by exact Hn.
  rewrite (allChars_app isRoman), allChars_thousands.
  assert (Hr : (0 <= num mod 1000 < 1000)%Z) by (apply Z.mod_pos_bound; lia).
  rewrite (proj2 (romanTail_below _ Hr)). apply orb_true_r.
Qed.

(** X22 ([romanize] and [formatPDFTableOfContents]): the label of a
    positive page count is a non-empty string of the letters [ivxlcdm], the
    letters that the page-number pattern of the table of contents accepts;
    an entry that ends with [- Halaman] and such a label is read back with
    that label as its page number.  A count that is zero or negative has
    the empty label. *)
Theorem romanize_label_is_read (num : Z) (title : string) :
  ((0 < num)%Z ->
   romanize num <> ""
   /\ allChars isRoman (romanize num) = true
   /\ tocPageNumber (title ++ "- Halaman " ++ romanize num) = romanize num)
  /\ ((num <= 0)%Z -> romanize num = "").
Proof.
  split.
  - intros Hn. pose proof (romanize_letters num Hn) as Hl.
    splits.
    + now apply romanize_nonEmpty.
    + rewrite romanize_thousands by exact Hn.
      rewrite (allChars_app isRoman), allChars_thousands.
      assert (Hr : (0 <= num mod 1000 < 1000)%Z)
        by (apply Z.mod_pos_bound; lia).
      now rewrite (proj2 (romanTail_below _ Hr)).
    + destruct (tocPageNumber_entry title " " (romanize num) eq_refl Hl)
        as [_ Hm].
      unfold tocPageNumber.
      change (title ++ "- Halaman " ++ romanize num)%string
        with (title ++ "- Halaman" ++ " " ++ romanize num)%string.
      now rewrite Hm.
  - intros Hn. unfold romanize.
    destruct (Z.leb_spec num 0); [reflexivity | lia].
Qed.

Lemma romanize_label_is_read_witness :
  romanize 4 <> ""
  /\ allChars isRoman (romanize 4) = true
  /\ tocPageNumber ("Kata Pengantar " ++ "- Halaman " ++ romanize 4)
     = romanize 4.
Proof.
  apply (proj1 (romanize_label_is_read 4 "Kata Pengantar ")). reflexivity.
Defined.

Lemma noDouble_snoc (piece : string) (c : ascii) :
  noDoubleNewline piece ->
  (lastChar piece = Some "010"%char -> isNewline c = false) ->
  noDoubleNewline (snoc piece c).
Proof.
  induction piece as [|a p IH]; intros Hp Hlast.
  - unfold noDoubleNewline. cbn. now rewrite !andb_false_r.
  - pose proof (noDouble_tail a p Hp) as Hp'.
    unfold noDoubleNewline in *.
    change (snoc (String a p) c) with (String a (snoc p c)).
    change (includes (String a (snoc p c)) (newline ++ newline))
      with (startsWith (newline ++ newline) (String a (snoc p c))
            || includes (snoc p c) (newline ++ newline)).
    change (includes (String a p) (newline ++ newline))
      with (startsWith (newline ++ newline) (String a p)
            || includes p (newline ++ newline)) in Hp.
    apply orb_false_elim in Hp. destruct Hp as [Hs _].
    rewrite IH; [rewrite orb_false_r | exact Hp' |].
    + destruct p as [|b p'].
      * change (startsWith (newline ++ newline) (String a (snoc "" c)))
          with (Ascii.eqb "010" a && (Ascii.eqb "010" c && true)).
        destruct (Ascii.eqb "010" a) eqn:Ea; [|reflexivity].
        apply Ascii.eqb_eq in Ea. subst a.
        specialize (Hlast eq_refl). unfold isNewline in Hlast.
        rewrite Ascii.eqb_sym, Hlast. reflexivity.
      * exact Hs.
    + destruct p as [|b p']; [discriminate|]. exact Hlast.
Qed.

Lemma lastChar_snoc (piece : string) (c : ascii) :
  lastChar (snoc piece c) = Some c.
Proof.
  induction piece as [|a p IH]; [reflexivity|].
  change (snoc (String a p) c) with (String a (snoc p c)).
  cbn [lastChar]. rewrite IH.
  destruct (snoc p c) eqn:E; [|reflexivity].
  destruct p; discriminate.
Qed.

Lemma splitBlankLines_noDouble (n : nat) :
  forall s piece,
    String.length s <= n ->
    noDoubleNewline piece ->
    (lastChar piece = Some "010"%char -> startsWithNewline s = false) ->
    Forall noDoubleNewline (splitBlankLinesLoop s piece).
Proof.
  induction n as [|n IH]; intros s piece Hlen Hp Hlast.
  - destruct s; [|simpl in Hlen; lia]. now repeat constructor.
  - destruct s as [|c r]; [now repeat constructor|].
    simpl in Hlen. cbn [splitBlankLinesLoop].
    assert (Hstep : forall r', String.length r' <= n ->
               startsWithNewline r' = false \/ isNewline c = false ->
               Forall noDoubleNewline (splitBlankLinesLoop r' (snoc piece c))).
    { intros r' Hr' Hc. apply IH; [exact Hr' | |].
      - apply noDouble_snoc; [exact Hp|].
        intros Hl. exact (Hlast Hl).
      - rewrite lastChar_snoc. intros H. injection H as ->.
        destruct Hc as [Hc|Hc]; [exact Hc | discriminate]. }
    destruct r as [|c2 r2].
    + apply Hstep; [simpl; lia | now left].
    + destruct (isNewline c && isNewline c2) eqn:E.
      * constructor; [exact Hp|].
        apply IH; [simpl in *; lia | reflexivity | discriminate].
      * apply Hstep; [lia|]. cbn [startsWithNewline].
        destruct (isNewline c); [left; exact E | now right].
Qed.

(** X23 (the paragraphs handed to [parsePDFMarkdown] by the callers): the
    pieces that [content.split('\n\n').filter(p => p.trim())] keeps are not
    blank and contain no two consecutive newlines; so [parsePDFMarkdown]
    never returns through its test for an empty text on them, and a
    paragraph without [---] is its own normalised text. *)
Theorem paragraphs_wellformed (w : Font -> string -> Q) (doc : Doc)
    (x y : Q) (options : PDFMarkdownOptions) (content : string) :
  Forall (fun p =>
            nonEmpty (trim p) = true
            /\ noDoubleNewline p
            /\ (includes p "---" = false -> normalize p = p)
            /\ parsePDFMarkdown w doc p x y options
               = if isTableOfContents (normalize p)
                 then formatPDFTableOfContents w doc (normalize p) x y options
                 else flowDocument w doc (normalize p) x y options)
         (paragraphs content).
Proof.
  unfold paragraphs. apply Forall_forall. intros p Hp.
  apply filter_In in Hp. destruct Hp as [Hin Htrim].
  pose proof (splitBlankLines_noDouble (String.length content) content ""
                (Nat.le_refl _) eq_refl ltac:(discriminate)) as Hall.
  rewrite Forall_forall in Hall. specialize (Hall p Hin).
  splits; [exact Htrim | exact Hall | |].
  - intros Hno. unfold normalize. rewrite (replaceRules_fixed p Hno).
    now apply collapseNewlines_fixed.
  - unfold parsePDFMarkdown. destruct p; [discriminate|]. reflexivity.
Qed.

(** * The font that the page flow leaves *)

Lemma fontIs_applyStyle (d : Doc) (st : TextStyle) (sz : Q) (fnt : string) :
  heading st = None -> fontIs fnt sz (applyStyle d st sz fnt).
Proof. intros H. rewrite applyStyle_noHeading by exact H. now split. Qed.

Lemma fontIs_restyle (d : Doc) (st : TextStyle) (sz : Q) (fnt : string) :
  heading st = None -> fontIs fnt sz d ->
  fontIs fnt sz (applyStyle d st (getFontSize d) (fontName (getFont d))).
Proof. intros H [H1 H2]. rewrite H1, H2. now apply fontIs_applyStyle. Qed.

Lemma fontIs_splitWord (w : Font -> string -> Q) (word : string)
    (st : TextStyle) (d : Doc) (maxW sz : Q) (fnt : string) :
  heading st = None -> fontIs fnt sz d ->
  fontIs fnt sz (snd (splitWordIfNeeded w word st d maxW)).
Proof.
  intros H Hd. unfold splitWordIfNeeded.
  destruct (Qle_bool _ _); now apply fontIs_restyle.
Qed.

Section BreakerFont.

Variable w : Font -> string -> Q.
Variable fnt : string.
Variables sz sw aw : Q.

Lemma fontIs_placeWord (segment : TextSegment) (b : BreakState)
    (word : string) :
  noHeading segment -> fontIs fnt sz (bdoc b) ->
  fontIs fnt sz (bdoc (placeWord w aw sw fnt segment b word)).
Proof.
  intros Hst Hb. unfold placeWord.
  destruct (negb (nonEmpty word)); [exact Hb|].
  assert (Hd : fontIs fnt sz (applyStyle (bdoc b) (style segment)
                                (getFontSize (bdoc b)) fnt)).
  { rewrite (proj2 Hb). now apply fontIs_applyStyle. }
  destruct (Qle_bool _ aw); [exact Hd|].
  destruct (Qle_bool _ aw).
  - cbn [bdoc]. now rewrite commitLine_doc.
  - cbn [currentLineSegments bdoc].
    match goal with
    | |- context [splitWordIfNeeded w word ?st ?d aw] =>
        assert (Hs : fontIs fnt sz (snd (splitWordIfNeeded w word st d aw)));
        [|destruct (splitWordIfNeeded w word st d aw) as [parts d']]
    end.
    + apply fontIs_splitWord; [exact Hst|].
      destruct (nonEmptyLine (currentLineSegments b));
        [now rewrite commitLine_doc | exact Hd].
    + now rewrite placeParts_doc.
Qed.

Lemma fontIs_placeSegments (segments : list TextSegment) :
  Forall noHeading segments ->
  forall b,
    fontIs fnt sz (bdoc b) ->
    fontIs fnt sz (bdoc (fold_left (placeSegment w aw sw fnt) segments b)).
Proof.
  induction 1 as [|s segments Hs _ IH]; intros b Hb; [exact Hb|].
  cbn [fold_left]. apply IH. unfold placeSegment.
  generalize (splitSpaces (text s)). intros ws. revert b Hb.
  induction ws as [|word ws IHw]; intros b Hb; [exact Hb|].
  cbn [fold_left]. apply IHw. now apply fontIs_placeWord.
Qed.

Lemma fontIs_measureLine (line : Line) :
  Forall noHeading line ->
  forall acc d,
    fontIs fnt sz d ->
    fontIs fnt sz (snd (fold_left (measureRun w fnt) line (acc, d))).
Proof.
  induction 1 as [|s line Hs _ IH]; intros acc d Hd; [exact Hd|].
  cbn [fold_left]. unfold measureRun at 2. cbn [fst snd]. apply IH.
  rewrite (proj2 Hd). now apply fontIs_applyStyle.
Qed.

Lemma repairRun_font (acc : Line * Q * Doc) (segment : TextSegment) :
  noHeading segment ->
  Forall noHeading (fst (fst acc)) -> fontIs fnt sz (snd acc) ->
  Forall noHeading (fst (fst (repairRun w aw sw acc segment)))
  /\ fontIs fnt sz (snd (repairRun w aw sw acc segment)).
Proof.
  intros Hst Hl Hd. unfold repairRun. destruct acc as [[newLine cw] d].
  cbn [fst snd] in *.
  destruct (isSpaceRun segment).
  - destruct (Qle_bool _ _); cbn [fst snd]; split; try assumption.
    apply Forall_app. split; [exact Hl | now repeat constructor].
  - pose proof (fontIs_splitWord w (text segment) (style segment) d
                  (aw - cw)%Q sz fnt Hst Hd) as Hs.
    destruct (splitWordIfNeeded_style w (text segment) (style segment) d
                (aw - cw)%Q Hst) as [Hparts _].
    destruct (splitWordIfNeeded _ _ _ _ _) as [parts d'].
    cbn [fst snd] in *.
    assert (Hk : Forall noHeading
                   (fst (fold_left (keepPart w aw d') parts (newLine, cw)))).
    { clear Hs. revert newLine cw Hl.
      induction Hparts as [|p parts Hp _ IH]; intros newLine cw Hl;
        [exact Hl|].
      cbn [fold_left]. unfold keepPart at 2. cbn [fst snd].
      destruct (Qle_bool _ _); [|now apply IH].
      apply IH. apply Forall_app. split; [exact Hl|].
      constructor; [|constructor]. unfold noHeading. now rewrite Hp. }
    destruct (fold_left _ parts _) as [nl cw']. cbn [fst snd] in *.
    now split.
Qed.

Lemma repairLine_font (d : Doc) (line : Line) :
  Forall noHeading line -> fontIs fnt sz d ->
  Forall noHeading (fst (repairLine w aw sw fnt d line))
  /\ fontIs fnt sz (snd (repairLine w aw sw fnt d line)).
Proof.
  intros Hl Hd. unfold repairLine, measureLine.
  pose proof (fontIs_measureLine line Hl 0%Q d Hd) as Hm.
  destruct (fold_left (measureRun w fnt) line (0%Q, d)) as [lw d1].
  cbn [snd] in Hm. destruct (Qgtb lw aw); [|now split].
  assert (Hr : forall acc,
             Forall noHeading (fst (fst acc)) -> fontIs fnt sz (snd acc) ->
             Forall noHeading
               (fst (fst (fold_left (repairRun w aw sw) line acc)))
             /\ fontIs fnt sz (snd (fold_left (repairRun w aw sw) line acc))).
  { clear Hm. induction Hl as [|s line Hs _ IH]; intros acc Ha Hf;
      [now split|].
    cbn [fold_left].
    destruct (repairRun_font acc s Hs Ha Hf) as [H1 H2]. now apply IH. }
  destruct (Hr ([], 0%Q, d1)) as [H1 H2]; [constructor | exact Hm |].
  destruct (fold_left _ line _) as [[nl' cw] d2]. now split.
Qed.

Lemma repairLines_font (ls : list Line) :
  Forall (Forall noHeading) ls ->
  forall d,
    fontIs fnt sz d ->
    Forall (Forall noHeading) (fst (repairLines w aw sw fnt d ls))
    /\ fontIs fnt sz (snd (repairLines w aw sw fnt d ls)).
Proof.
  induction 1 as [|l ls Hl _ IH]; intros d Hd; [now split|].
  cbn [repairLines].
  destruct (repairLine_font d l Hl Hd) as [H1 H2].
  destruct (repairLine w aw sw fnt d l) as [l' d1]. cbn [fst snd] in *.
  destruct (IH d1 H2) as [H3 H4].
  destruct (repairLines w aw sw fnt d1 ls) as [ls' d2]. cbn [fst snd] in *.
  split; [now constructor | exact H4].
Qed.

End BreakerFont.

Lemma splitTextToLines_font (w : Font -> string -> Q) (d : Doc)
    (segments : list TextSegment) (maxW bi : Q) (fnt : string) :
  Forall noHeading segments ->
  fontName (getFont d) = fnt ->
  Forall (Forall noHeading) (fst (splitTextToLines w d segments maxW bi fnt))
  /\ fontIs fnt (getFontSize d) (snd (splitTextToLines w d segments maxW bi fnt)).
Proof.
  intros Hsegs Hname.
  destruct (brokenLines_good w d segments maxW bi fnt Hsegs)
    as (committed & H3 & H4 & _).
  unfold splitTextToLines. apply repairLines_font.
  - rewrite H3. apply Forall_map. eapply Forall_impl; [|exact H4].
    intros ws (_ & Hws & _). now apply lineOfWords_noHeading.
  - unfold brokenLines.
    match goal with
    | |- context [fold_left (placeSegment w ?aw ?sw fnt) segments ?b0] =>
        pose proof (fontIs_placeSegments w fnt (getFontSize d) sw aw segments
                      Hsegs b0 (conj Hname eq_refl)) as H
    end.
    destruct (nonEmptyLine _); [rewrite commitLine_doc|]; exact H.
Qed.

Section RendererFont.

Variable w : Font -> string -> Q.
Variable fnt : string.
Variable sz : Q.

Lemma fontIs_lastLine (y : Q) (segs : list TextSegment) :
  Forall noHeading segs ->
  forall acc,
    fontIs fnt sz (snd acc) ->
    fontIs fnt sz (snd (fold_left (drawLastLineRun w y) segs acc)).
Proof.
  induction 1 as [|s segs Hs _ IH]; intros [x d] Hd; [exact Hd|].
  cbn [fold_left]. apply IH. cbn [drawLastLineRun snd].
  exact (fontIs_restyle d (style s) sz fnt Hs Hd).
Qed.

Lemma fontIs_addRunWidth (segs : list TextSegment) :
  Forall noHeading segs ->
  forall acc,
    fontIs fnt sz (snd acc) ->
    fontIs fnt sz (snd (fold_left (addRunWidth w) segs acc)).
Proof.
  induction 1 as [|s segs Hs _ IH]; intros [x d] Hd; [exact Hd|].
  cbn [fold_left]. apply IH. cbn [addRunWidth snd].
  exact (fontIs_restyle d (style s) sz fnt Hs Hd).
Qed.

Lemma fontIs_justified (y extra : Q) (n : nat) (segs : list TextSegment) :
  Forall noHeading segs ->
  forall index acc,
    fontIs fnt sz (snd acc) ->
    fontIs fnt sz (snd (drawJustifiedRuns w y extra n index segs acc)).
Proof.
  induction 1 as [|s segs Hs _ IH]; intros index [x d] Hd; [exact Hd|].
  cbn [drawJustifiedRuns]. apply IH. cbn [snd].
  exact (fontIs_restyle d (style s) sz fnt Hs Hd).
Qed.

Lemma fontIs_renderJustifiedLine (d : Doc) (segs : list TextSegment)
    (x y maxW : Q) (isLastLine : bool) :
  Forall noHeading segs -> fontIs fnt sz d ->
  fontIs fnt sz (renderJustifiedLine w d segs x y maxW isLastLine).
Proof.
  intros Hs Hd. unfold renderJustifiedLine, renderJustifiedLineX.
  destruct (isLastLine || Nat.leb (List.length segs) 1).
  - now apply fontIs_lastLine.
  - apply fontIs_justified; [exact Hs|]. cbn [snd].
    now apply fontIs_addRunWidth.
Qed.

End RendererFont.

Section FlowFont.

Variable w : Font -> string -> Q.
Variable options : PDFMarkdownOptions.
Variables x maxY : Q.

Local Abbreviation flowFont := (fontIs (font options) (fontSize options)).

Lemma flowFont_measure (segs : list TextSegment) :
  Forall noHeading segs ->
  forall acc,
    flowFont (snd acc) ->
    flowFont (snd (fold_left (addRunWidthBase w options) segs acc)).
Proof.
  induction 1 as [|s segs Hs _ IH]; intros [t d] Hd; [exact Hd|].
  cbn [fold_left]. apply IH. cbn [addRunWidthBase snd].
  now apply fontIs_applyStyle.
Qed.

Lemma flowFont_draw (y : Q) (segs : list TextSegment) :
  Forall noHeading segs ->
  forall acc,
    flowFont (snd acc) ->
    flowFont (snd (fold_left (drawRun w options y) segs acc)).
Proof.
  induction 1 as [|s segs Hs _ IH]; intros [t d] Hd; [exact Hd|].
  cbn [fold_left]. apply IH. cbn [drawRun snd].
  exact (fontIs_applyStyle d (style s) (fontSize options) (font options) Hs).
Qed.

Lemma flowFont_breakPage (acc : Q * Doc) :
  flowFont (snd acc) -> flowFont (snd (breakPageIfNeeded options maxY acc)).
Proof.
  intros H. unfold breakPageIfNeeded. now destruct (Qgtb _ maxY).
Qed.

Lemma flowFont_emitLine (col : Column) (n i : nat) (acc : Q * Doc)
    (l : Line) :
  Forall noHeading l -> flowFont (snd acc) ->
  flowFont (snd (emitLine w options x maxY col n i acc l)).
Proof.
  intros Hl Hacc. unfold emitLine.
  pose proof (flowFont_breakPage acc Hacc) as Hb.
  destruct (breakPageIfNeeded options maxY acc) as [cy d]. cbn [snd] in *.
  assert (Hplain : forall xOffsetOf,
             flowFont
               (let '(totalWidth, doc) :=
                  fold_left (addRunWidthBase w options) l (0%Q, d) in
                snd (fold_left (drawRun w options cy) l
                       (xOffsetOf totalWidth, doc)))).
  { intros xOffsetOf.
    pose proof (flowFont_measure l Hl (0%Q, d) Hb) as Hm.
    destruct (fold_left (addRunWidthBase w options) l (0%Q, d)) as [tw d1].
    now apply flowFont_draw. }
  destruct (align options) as [[| | |]|].
  - exact (Hplain (fun _ => colStart col)).
  - exact (Hplain (fun tw => (colCentreStart col
                              + (colCentreWidth col - tw) / 2)%Q)).
  - exact (Hplain (fun tw => (x + maxWidth options - tw)%Q)).
  - now apply fontIs_renderJustifiedLine.
  - exact (Hplain (fun _ => colStart col)).
Qed.

Lemma flowFont_emitLines (col : Column) (n : nat) (ls : list Line) :
  Forall (Forall noHeading) ls ->
  forall i acc,
    flowFont (snd acc) ->
    flowFont (snd (emitLines w options x maxY col n i ls acc)).
Proof.
  induction 1 as [|l ls Hl _ IH]; intros i acc Hacc; [exact Hacc|].
  cbn [emitLines]. apply IH. now apply flowFont_emitLine.
Qed.

Lemma flowFont_flowLine (acc : Q * Doc) (rawLine : string) :
  flowFont (snd acc) ->
  flowFont (snd (flowLine w options x maxY acc rawLine)).
Proof.
  intros Hacc. unfold flowLine.
  destruct (negb (nonEmpty (trim rawLine))).
  { now destruct (Qgtb _ maxY). }
  pose proof (flowFont_breakPage acc Hacc) as Hb.
  destruct (breakPageIfNeeded options maxY acc) as [cy d]. cbn [snd] in Hb.
  destruct (headerMatch (trim rawLine)) as [[level content]|].
  { match goal with
    | |- context [splitTextToLines w ?d0 ?segs ?mw ?bi ?f] =>
        destruct (splitTextToLines w d0 segs mw bi f) as [ls d1]
    end.
    match goal with
    | |- context [emitLines w options x maxY ?c ?n 0 ls (cy, d1)] =>
        destruct (emitLines w options x maxY c n 0 ls (cy, d1)) as [cy2 d2]
    end.
    now split. }
  assert (Hblock : forall d0 content mw bi col,
             flowFont d0 ->
             flowFont
               (snd (let '(ls, doc) :=
                       splitTextToLines w d0 (parseInlineMarkdown content)
                                        mw bi (font options) in
                     emitLines w options x maxY col (List.length ls) 0 ls
                               (cy, doc)))).
  { intros d0 content mw bi col Hd0.
    destruct (splitTextToLines_font w d0 (parseInlineMarkdown content) mw bi
                (font options) (parseInlineMarkdown_noHeading content)
                (proj1 Hd0)) as [Hls Hf].
    rewrite (proj2 Hd0) in Hf.
    destruct (splitTextToLines w d0 _ mw bi (font options)) as [ls d1].
    now apply flowFont_emitLines. }
  destruct (orderedListMatch (trim rawLine)) as [[listNumber content]|];
    [|destruct (unorderedListMatch (trim rawLine)) as [content|]];
    now apply Hblock.
Qed.

End FlowFont.

(** X24 ([parsePDFMarkdown], the page flow): for a text that is not empty
    and not routed to the table-of-contents formatter, the document is left
    with the font name [options.font] and the font size [options.fontSize],
    whatever the blocks of the text; the font style is left as the last run
    drawn or measured set it. *)
Theorem flow_leaves_font (w : Font -> string -> Q) (doc : Doc) (t : string)
    (x y : Q) (options : PDFMarkdownOptions) :
  t <> "" ->
  isTableOfContents (normalize t) = false ->
  fontIs (font options) (fontSize options)
         (snd (parsePDFMarkdown w doc t x y options)).
Proof.
  intros Hne Htoc. unfold parsePDFMarkdown.
  rewrite (nonEmpty_true t Hne), Htoc. cbn [negb].
  unfold flowDocument.
  generalize (splitLines (normalize t)). intros ls.
  match goal with
  | |- context [fold_left ?f ls (y, ?d0)] =>
      assert (H0 : fontIs (font options) (fontSize options) (snd (y, d0)))
        by (now split);
      generalize dependent (y, d0)
  end.
  induction ls as [|l ls IH]; intros acc Hacc; [exact Hacc|].
  cbn [fold_left]. apply IH. now apply flowFont_flowLine.
Qed.

Lemma flow_leaves_font_witness :
  fontIs (font justifyOptions) (fontSize justifyOptions)
         (snd (parsePDFMarkdown monoWidth a4 "# Title" 20 40 justifyOptions)).
Proof.
  apply (flow_leaves_font monoWidth a4 "# Title" 20 40 justifyOptions).
  - discriminate.
  - reflexivity.
Defined.

(** * The column of plain paragraphs *)

Lemma calculateIndentation_nonneg (t : string) :
  (0 <= calculateIndentation t)%Q.
Proof.
  unfold calculateIndentation.
  set (k := Nat.div (countSpaces t) 2).
  assert (Hk : (0 <= inject_Z (Z.of_nat k))%Q).
  { change 0%Q with (inject_Z 0). rewrite <- Zle_Qle. lia. }
  clearbody k.
  destruct (listMatch t); [lra|].
  destruct (negb _); [lra|].
  destruct (nonEmpty _); lra.
Qed.

Section Column.

Variable w : Font -> string -> Q.
Variable options : PDFMarkdownOptions.
Variables x maxY : Q.

Local Abbreviation fnt := (font options).
Local Abbreviation fs := (fontSize options).
Local Abbreviation width := (textWidth w (font options) (fontSize options)).
Local Abbreviation within := (withinColumn w x (x + maxWidth options)%Q).

Hypothesis nonneg : forall st t, (0 <= w (mkFont fnt st fs) t)%Q.
Hypothesis space_style :
  forall st st', (w (mkFont fnt st fs) " " == w (mkFont fnt st' fs) " ")%Q.
Hypothesis size_nonneg : (0 <= fs)%Q.
Hypothesis not_justified : align options <> Some justify.

Lemma width_nonneg (segs : list TextSegment) : (0 <= width segs)%Q.
Proof.
  induction segs as [|s segs IH]; cbn [textWidth]; [lra|].
  pose proof (nonneg (styleFont (style s)) (text s)) as H.
  unfold runFont. lra.
Qed.

Lemma measured_width (segs : list TextSegment) :
  Forall noHeading segs ->
  forall acc d,
    (fst (fold_left (addRunWidthBase w options) segs (acc, d))
     == acc + width segs)%Q
    /\ calls (snd (fold_left (addRunWidthBase w options) segs (acc, d)))
       = calls d.
Proof.
  induction 1 as [|s segs Hs _ IH]; intros acc d.
  - cbn. split; [lra | reflexivity].
  - cbn [fold_left textWidth]. unfold addRunWidthBase at 2 4.
    rewrite (applyStyle_noHeading _ _ _ _ Hs).
    match goal with
    | |- context [fold_left _ segs (?a, ?d1)] =>
        destruct (IH a d1) as [H1 H2]
    end.
    rewrite H1, H2. cbn [calls]. split; [|reflexivity].
    unfold measure, runFont. cbn [getFont]. lra.
Qed.

Lemma drawn_runs (y : Q) (segs : list TextSegment) :
  Forall noHeading segs ->
  forall xOffset d,
    calls (snd (fold_left (drawRun w options y) segs (xOffset, d)))
    = calls d ++ alignedCalls w fnt fs y xOffset segs.
Proof.
  induction 1 as [|s segs Hs _ IH]; intros xOffset d.
  - cbn. now rewrite app_nil_r.
  - cbn [fold_left alignedCalls]. unfold drawRun at 2.
    rewrite (applyStyle_noHeading _ _ _ _ Hs). rewrite IH.
    cbn [docText calls getFont]. rewrite <- app_assoc. reflexivity.
Qed.

Lemma alignedCalls_between (lo hi y : Q) (segs : list TextSegment) :
  forall x0,
    (lo <= x0)%Q -> (x0 + width segs <= hi)%Q ->
    Forall (withinColumn w lo hi) (alignedCalls w fnt fs y x0 segs).
Proof.
  induction segs as [|s segs IH]; intros x0 Hlo Hhi; [constructor|].
  cbn [alignedCalls textWidth] in *.
  pose proof (nonneg (styleFont (style s)) (text s)) as Hs.
  pose proof (width_nonneg segs) as Hr.
  fold (runFont fnt fs s) in Hs.
  constructor.
  - split; [exact Hlo | lra].
  - apply IH; lra.
Qed.

Lemma emitLine_within (bi : Q) (n i : nat) (acc : Q * Doc) (l : Line) :
  (0 <= bi)%Q -> (bi * fs <= maxWidth options)%Q ->
  Forall noHeading l ->
  (width l <= maxWidth options - bi * fs)%Q ->
  exists new,
    calls (snd (emitLine w options x maxY (flowColumn options x bi) n i acc l))
    = calls (snd acc) ++ new
    /\ Forall within new.
Proof.
  intros Hbi Hind Hl Hw.
  assert (Hpos : (0 <= bi * fs)%Q) by now apply Qmult_le_0_compat.
  unfold emitLine, flowColumn.
  cbn [colStart colCentreStart colCentreWidth colJustify].
  set (ind := (bi * fs)%Q) in *. clearbody ind.
  assert (Hb : exists pg,
             calls (snd (breakPageIfNeeded options maxY acc))
             = calls (snd acc) ++ pg /\ Forall within pg).
  { unfold breakPageIfNeeded. destruct (Qgtb _ maxY).
    - exists [CallAddPage]. split; [reflexivity | now repeat constructor].
    - exists []. now rewrite app_nil_r. }
  destruct Hb as (pg & Hpg & Hin).
  destruct (breakPageIfNeeded options maxY acc) as [cy d]. cbn [snd] in *.
  assert (Hplain : forall xOffsetOf,
             (forall tw, (tw == width l)%Q ->
                (x <= xOffsetOf tw)%Q
                /\ (xOffsetOf tw + width l <= x + maxWidth options)%Q) ->
             exists new,
               calls (let '(totalWidth, doc) :=
                        fold_left (addRunWidthBase w options) l (0%Q, d) in
                      snd (fold_left (drawRun w options cy) l
                             (xOffsetOf totalWidth, doc)))
               = calls (snd acc) ++ new
               /\ Forall within new).
  { intros xOffsetOf Hx.
    destruct (measured_width l Hl 0%Q d) as [Hm Hc].
    destruct (fold_left (addRunWidthBase w options) l (0%Q, d)) as [tw d1].
    cbn [fst snd] in Hm, Hc.
    destruct (Hx tw) as [Hlo Hhi]; [lra|].
    exists (pg ++ alignedCalls w fnt fs cy (xOffsetOf tw) l).
    rewrite drawn_runs by exact Hl. rewrite Hc, Hpg, app_assoc.
    split; [reflexivity|]. apply Forall_app. split; [exact Hin|].
    now apply alignedCalls_between. }
  cbn [snd].
  destruct (align options) as [[| | |]|].
  - apply (Hplain (fun _ => (x + ind)%Q)). intros tw Htw. lra.
  - apply (Hplain (fun tw => (x + (maxWidth options - tw) / 2)%Q)).
    intros tw Htw.
    assert (H2 : ((maxWidth options - tw) / 2
                  == (maxWidth options - tw) * (1 # 2))%Q)
      by (unfold Qdiv; reflexivity).
    rewrite H2. lra.
  - apply (Hplain (fun tw => (x + maxWidth options - tw)%Q)).
    intros tw Htw. lra.
  - contradiction.
  - apply (Hplain (fun _ => (x + ind)%Q)). intros tw Htw. lra.
Qed.

Lemma emitLines_within (bi : Q) (n : nat) (ls : list Line) :
  (0 <= bi)%Q -> (bi * fs <= maxWidth options)%Q ->
  Forall (fun l => (width l <= maxWidth options - bi * fs)%Q
                   /\ Forall noHeading l) ls ->
  forall i acc,
    exists new,
      calls (snd (emitLines w options x maxY (flowColumn options x bi) n i ls
                    acc))
      = calls (snd acc) ++ new
      /\ Forall within new.
Proof.
  intros Hbi Hind Hls.
  induction Hls as [|l ls [Hw Hl] _ IH]; intros i acc.
  - exists []. cbn. now rewrite app_nil_r.
  - cbn [emitLines].
    destruct (emitLine_within bi n i acc l Hbi Hind Hl Hw) as (n1 & H1 & W1).
    destruct (IH (S i) (emitLine w options x maxY (flowColumn options x bi)
                          n i acc l)) as (n2 & H2 & W2).
    exists (n1 ++ n2). rewrite H2, H1, app_assoc. split; [reflexivity|].
    now apply Forall_app.
Qed.

Lemma block_lines_bounded (d : Doc) (content : string) (mw bi : Q) :
  fontIs fnt fs d ->
  (bi * fs <= mw)%Q ->
  Forall (fun l => (width l <= mw - bi * fs)%Q
                   /\ Forall noHeading l)
         (fst (splitTextToLines w d (parseInlineMarkdown content)
                 mw bi fnt)).
Proof.
  intros [Hname Hsize] Hind. unfold splitTextToLines.
  pose proof (parseInlineMarkdown_noHeading content) as Hsegs.
  destruct (brokenLines_good w d (parseInlineMarkdown content)
              mw bi fnt Hsegs)
    as (committed & Hlines & Hgood & Hsz).
  rewrite Hlines.
  assert (Hnh : Forall (Forall noHeading) (map lineOfWords committed)).
  { clear Hlines. induction Hgood as [|ws committed [_ [Hws _]] _ IH];
      cbn [map]; constructor; [now apply lineOfWords_noHeading | exact IH]. }
  assert (Hspace : forall st,
             (w (mkFont fnt st (getFontSize d)) " " == measure w d " ")%Q).
  { intros st. unfold measure. rewrite Hsize.
    assert (E : getFont d = mkFont fnt (fontStyle (getFont d)) fs).
    { unfold getFontSize in Hsize. destruct (getFont d) as [name st0 sz0].
      cbn in *. now subst. }
    rewrite E. apply space_style. }
  assert (Haw : (0 <= mw - bi * getFontSize d)%Q)
    by (rewrite Hsize; lra).
  pose proof (repairLines_bound w fnt (getFontSize d) (measure w d " ")
                (mw - bi * getFontSize d)%Q Hspace _ Haw Hnh
                _ Hsz) as Hb.
  rewrite Hsize in Hb |- *. exact Hb.
Qed.

Lemma flowLine_within (acc : Q * Doc) (rawLine : string) :
  isPlainLine rawLine ->
  (calculateIndentation rawLine * fs <= maxWidth options)%Q ->
  fontIs fnt fs (snd acc) ->
  exists new,
    calls (snd (flowLine w options x maxY acc rawLine))
    = calls (snd acc) ++ new
    /\ Forall within new.
Proof.
  intros (Hh & Ho & Hu) Hind Hacc. unfold flowLine.
  destruct (negb (nonEmpty (trim rawLine))).
  { destruct (Qgtb _ maxY).
    - exists [CallAddPage]. split; [reflexivity | now repeat constructor].
    - exists []. cbn. now rewrite app_nil_r. }
  rewrite Hh, Ho, Hu.
  assert (Hb : exists pg,
             calls (snd (breakPageIfNeeded options maxY acc))
             = calls (snd acc) ++ pg /\ Forall within pg).
  { unfold breakPageIfNeeded. destruct (Qgtb _ maxY).
    - exists [CallAddPage]. split; [reflexivity | now repeat constructor].
    - exists []. now rewrite app_nil_r. }
  destruct Hb as (pg & Hpg & Hin).
  pose proof (flowFont_breakPage options maxY acc Hacc) as Hf.
  destruct (breakPageIfNeeded options maxY acc) as [cy d]. cbn [snd] in *.
  pose proof (block_lines_bounded d (trim rawLine) (maxWidth options)
                (calculateIndentation rawLine) Hf Hind) as Hls.
  pose proof (splitTextToLines_surface w d (parseInlineMarkdown (trim rawLine))
                (maxWidth options) (calculateIndentation rawLine) fnt) as Hs.
  destruct (splitTextToLines w d _ (maxWidth options) _ fnt) as [ls d1].
  cbn [fst snd] in Hls, Hs.
  destruct (emitLines_within (calculateIndentation rawLine) (List.length ls)
              ls (calculateIndentation_nonneg rawLine) Hind Hls 0 (cy, d1))
    as (new & Hc & Hw).
  exists (pg ++ new). rewrite Hc. cbn [snd].
  rewrite (proj2 (proj2 Hs)), Hpg, app_assoc. split; [reflexivity|].
  now apply Forall_app.
Qed.

Lemma flowLines_within (ls : list string) :
  Forall (fun l => isPlainLine l
                   /\ (calculateIndentation l * fs <= maxWidth options)%Q)
         ls ->
  forall acc,
    fontIs fnt fs (snd acc) ->
    exists new,
      calls (snd (fold_left (flowLine w options x maxY) ls acc))
      = calls (snd acc) ++ new
      /\ Forall within new.
Proof.
  induction 1 as [|l ls [Hp Hi] _ IH]; intros acc Hacc.
  - exists []. cbn. now rewrite app_nil_r.
  - cbn [fold_left].
    destruct (flowLine_within acc l Hp Hi Hacc) as (n1 & H1 & W1).
    destruct (IH (flowLine w options x maxY acc l)
                 (flowFont_flowLine w options x maxY acc l Hacc))
      as (n2 & H2 & W2).
    exists (n1 ++ n2). rewrite H2, H1, app_assoc. split; [reflexivity|].
    now apply Forall_app.
Qed.

End Column.

(** X25 ([parsePDFMarkdown] with [splitTextToLines], plain paragraphs):
    for an alignment other than [justify], a metric without negative width
    in which a space is as wide in every style, a font size that is not
    negative, and a text whose lines are plain paragraphs or blank (no
    heading, no list item) with an indentation of at most [maxWidth], every
    [text] call of [parsePDFMarkdown] starts at or after [x] and ends, its
    text measured in the font of the call, at or before [x + maxWidth]: the
    lines that the breaker returns are drawn inside the column. *)
Theorem plain_text_within_column (w : Font -> string -> Q) (doc : Doc)
    (t : string) (x y : Q) (options : PDFMarkdownOptions) :
  t <> "" ->
  isTableOfContents (normalize t) = false ->
  align options <> Some justify ->
  (forall st s, (0 <= w (mkFont (font options) st (fontSize options)) s)%Q) ->
  (forall st st',
      (w (mkFont (font options) st (fontSize options)) " "
       == w (mkFont (font options) st' (fontSize options)) " ")%Q) ->
  (0 <= fontSize options)%Q ->
  Forall (fun l => isPlainLine l
                   /\ (calculateIndentation l * fontSize options
                       <= maxWidth options)%Q)
         (splitLines (normalize t)) ->
  exists new,
    calls (snd (parsePDFMarkdown w doc t x y options)) = calls doc ++ new
    /\ Forall (withinColumn w x (x + maxWidth options)%Q) new.
Proof.
  intros Hne Htoc Halign Hnonneg Hspace Hsize Hlines.
  unfold parsePDFMarkdown.
  rewrite (nonEmpty_true t Hne), Htoc. cbn [negb].
  unfold flowDocument.
  match goal with
  | |- context [fold_left (flowLine w options x ?maxY) _ (y, ?d0)] =>
      destruct (flowLines_within w options x maxY Hnonneg Hspace Hsize Halign
                  (splitLines (normalize t)) Hlines (y, d0))
        as (new & Hc & Hw); [now split|]
  end.
  exists new. split; [exact Hc | exact Hw].
Qed.

Lemma plain_text_within_column_witness :
  exists new,
    calls (snd (parsePDFMarkdown monoWidth a4 "hello **big** world" 20 40
                  a4Options))
    = calls a4 ++ new
    /\ Forall (withinColumn monoWidth 20 (20 + maxWidth a4Options)%Q) new.
Proof.
  apply (plain_text_within_column monoWidth a4 "hello **big** world" 20 40
           a4Options).
  - discriminate.
  - reflexivity.
  - discriminate.
  - intros st s. unfold monoWidth. cbn [size a4Options font fontSize].
    apply Qmult_le_0_compat; [vm_compute; discriminate|].
    change 0%Q with (inject_Z 0). rewrite <- Zle_Qle. lia.
  - intros st st'. reflexivity.
  - vm_compute. discriminate.
  - repeat constructor; vm_compute; discriminate.
Defined.

Section ListColumn.

Variable w : Font -> string -> Q.
Variable options : PDFMarkdownOptions.
Variables x maxY : Q.

Local Abbreviation fnt := (font options).
Local Abbreviation fs := (fontSize options).
Local Abbreviation width := (textWidth w (font options) (fontSize options)).

Hypothesis nonneg : forall st t, (0 <= w (mkFont fnt st fs) t)%Q.
Hypothesis space_style :
  forall st st', (w (mkFont fnt st fs) " " == w (mkFont fnt st' fs) " ")%Q.
Hypothesis left_aligned : align options = None \/ align options = Some left.



End ListColumn.



(** * Position and advance of the lines of a block *)

(** X27 ([parsePDFMarkdown], the branches without justification): a line
    of runs without heading level is drawn, after the page-break check, run
    after run from a starting abscissa, each run in its own style at the base
    size and advancing the cursor by its own width.  The starting abscissa
    is the start of the column for the left alignment (and when no
    alignment is given); for [center] the middle of the line is the middle
    of the column; for [right] the line ends at [x + maxWidth]. *)
Theorem aligned_line_position (w : Font -> string -> Q)
    (options : PDFMarkdownOptions) (x maxY : Q) (col : Column) (n i : nat)
    (acc : Q * Doc) (l : Line) :
  Forall noHeading l ->
  align options <> Some justify ->
  exists x0,
    calls (snd (emitLine w options x maxY col n i acc l))
    = calls (snd (breakPageIfNeeded options maxY acc))
      ++ alignedCalls w (font options) (fontSize options)
           (fst (breakPageIfNeeded options maxY acc)) x0 l
    /\ match align options with
       | Some center =>
           (x0 + textWidth w (font options) (fontSize options) l / 2
            == colCentreStart col + colCentreWidth col / 2)%Q
       | Some right =>
           (x0 + textWidth w (font options) (fontSize options) l
            == x + maxWidth options)%Q
       | _ => x0 = colStart col
       end.
Proof.
  intros Hl Halign. unfold emitLine.
  destruct (breakPageIfNeeded options maxY acc) as [cy d]. cbn [fst snd].
  destruct (measured_width w options l Hl 0%Q d) as [Hm Hc].
  destruct (align options) as [[| | |]|]; try contradiction;
    destruct (fold_left (addRunWidthBase w options) l (0%Q, d)) as [tw d1];
    cbn [fst snd] in Hm, Hc; eexists;
    (split; [rewrite (drawn_runs w options cy l Hl), Hc; reflexivity|]).
  - reflexivity.
  - assert (Hm' : (tw == textWidth w (font options) (fontSize options) l)%Q)
      by lra.
    rewrite Hm'. unfold Qdiv. ring.
  - lra.
  - reflexivity.
Qed.

Lemma aligned_line_position_witness :
  exists x0,
    calls (snd (emitLine monoWidth
                  (mkOptions 170 (Some right) 12 (15 # 10) "helvetica")
                  20 277 (flowColumn a4Options 20 0) 1 0 (40%Q, a4)
                  twoWords))
    = calls (snd (breakPageIfNeeded
                    (mkOptions 170 (Some right) 12 (15 # 10) "helvetica")
                    277 (40%Q, a4)))
      ++ alignedCalls monoWidth "helvetica" 12
           (fst (breakPageIfNeeded
                   (mkOptions 170 (Some right) 12 (15 # 10) "helvetica")
                   277 (40%Q, a4))) x0 twoWords
    /\ (x0 + textWidth monoWidth "helvetica" 12 twoWords == 20 + 170)%Q.
Proof.
  apply (aligned_line_position monoWidth
           (mkOptions 170 (Some right) 12 (15 # 10) "helvetica")
           20 277 (flowColumn a4Options 20 0) 1 0 (40%Q, a4) twoWords).
  - repeat constructor.
  - discriminate.
Defined.

Lemma newPages_app (a b : list Call) :
  newPages (a ++ b) = newPages a + newPages b.
Proof. unfold newPages. now rewrite filter_app, length_app. Qed.

Lemma newPages_texts (y : Q) (new : list Call) :
  Forall (drawnAt y) new -> newPages new = 0.
Proof.
  induction 1 as [|c new Hc _ IH]; [reflexivity|].
  destruct c; [exact IH | destruct Hc].
Qed.

Section Advance.

Variable w : Font -> string -> Q.
Variable options : PDFMarkdownOptions.
Variables x maxY : Q.

Local Abbreviation lh := (optionsLineHeight options).

(** The lines of a block: the calls are appended, and when no page is among
    them every line moved the cursor one line height down. *)
Lemma emitLines_no_page (col : Column) (n : nat) (ls : list Line) :
  forall i cy d,
    exists new,
      calls (snd (emitLines w options x maxY col n i ls (cy, d)))
      = calls d ++ new
      /\ (newPages new = 0 ->
          (fst (emitLines w options x maxY col n i ls (cy, d))
           == cy + lh * inject_Z (Z.of_nat (List.length ls)))%Q).
Proof.
  induction ls as [|l ls IH]; intros i cy d.
  - exists []. cbn [emitLines List.length fst snd].
    split; [now rewrite app_nil_r|]. intros _.
    change (inject_Z (Z.of_nat 0)) with 0%Q. ring.
  - cbn [emitLines].
    pose proof (emitLine_spec w options x maxY col n i (cy, d) l) as [H1 H2].
    unfold breakPageIfNeeded in H1, H2. cbn [fst snd] in H1, H2.
    destruct (emitLine w options x maxY col n i (cy, d) l) as [cy1 d1].
    cbn [fst snd] in H1, H2.
    destruct (IH (S i) cy1 d1) as (new & Hn & Hy).
    destruct (Qgtb (cy + lh) maxY).
    + destruct H2 as (_ & texts & Hc & _).
      exists (CallAddPage :: texts ++ new). split.
      * rewrite Hn, Hc. cbn [addNewPage snd addPage calls].
        rewrite <- !app_assoc. reflexivity.
      * intros H. discriminate H.
    + cbn [fst snd] in H1, H2. destruct H2 as (_ & texts & Hc & Ht).
      exists (texts ++ new). split.
      * rewrite Hn, Hc, <- app_assoc. reflexivity.
      * intros H. rewrite newPages_app, (newPages_texts _ _ Ht) in H.
        rewrite (Hy H), H1.
        change (List.length (l :: ls)) with (S (List.length ls)).
        rewrite Nat2Z.inj_succ. unfold Z.succ.
        rewrite inject_Z_plus. change (inject_Z 1) with 1%Q. ring.
Qed.

Lemma block_no_page (d0 : Doc) (segs : list TextSegment) (mw bi cy : Q)
    (col : Column) :
  exists new,
    calls (snd (let '(ls, doc) :=
                  splitTextToLines w d0 segs mw bi (font options) in
                emitLines w options x maxY col (List.length ls) 0 ls
                          (cy, doc)))
    = calls d0 ++ new
    /\ (newPages new = 0 ->
        (fst (let '(ls, doc) :=
                splitTextToLines w d0 segs mw bi (font options) in
              emitLines w options x maxY col (List.length ls) 0 ls (cy, doc))
         == cy + lh * inject_Z (Z.of_nat (List.length
                  (fst (splitTextToLines w d0 segs mw bi (font options))))))%Q).
Proof.
  pose proof (splitTextToLines_surface w d0 segs mw bi (font options))
    as (_ & _ & Hs).
  destruct (splitTextToLines w d0 segs mw bi (font options)) as [ls d1].
  cbn [fst snd] in *.
  destruct (emitLines_no_page col (List.length ls) ls 0 cy d1)
    as (new & Hc & Hy).
  exists new. split; [now rewrite Hc, Hs | exact Hy].
Qed.

End Advance.

(** X28 ([parsePDFMarkdown], one block): a block (heading, list item or
    paragraph) that requests no page returns the ordinate it received plus
    one line height for every line it breaks into; the line height is the
    base one of the options, also for a heading, whatever its level, and
    the marker of a list item adds nothing. *)
Theorem block_advance (w : Font -> string -> Q)
    (options : PDFMarkdownOptions) (x maxY cy : Q) (d : Doc) (l : string) :
  nonEmpty (trim l) = true ->
  newPages (calls (snd (flowLine w options x maxY (cy, d) l)))
  = newPages (calls d) ->
  (fst (flowLine w options x maxY (cy, d) l)
   == cy + optionsLineHeight options
           * inject_Z (Z.of_nat
               (List.length (blockLines w options x (cy, d) l))))%Q.
Proof.
  intros Hne.
  assert (H : exists new,
             calls (snd (flowLine w options x maxY (cy, d) l))
             = calls d ++ new
             /\ (newPages new = 0 ->
                 (fst (flowLine w options x maxY (cy, d) l)
                  == cy + optionsLineHeight options
                          * inject_Z (Z.of_nat
                              (List.length
                                 (blockLines w options x (cy, d) l))))%Q)).
  2:{ destruct H as (new & Hc & Hy). intros Hp. apply Hy.
      rewrite Hc, newPages_app in Hp. lia. }
  unfold flowLine, blockLines. rewrite Hne. cbn [negb].
  unfold breakPageIfNeeded. cbn [fst snd].
  destruct (Qgtb (cy + optionsLineHeight options) maxY).
  - (* the block starts on a new page *)
    cbn [addNewPage].
    match goal with
    | |- exists new, calls ?r = _ /\ _ =>
        assert (Hr : exists new, calls r = calls (addPage d) ++ new)
    end.
    { destruct (headerMatch (trim l)) as [[level content]|];
        [|destruct (orderedListMatch (trim l)) as [[listNumber content]|];
          [|destruct (unorderedListMatch (trim l)) as [content|]]];
        match goal with
        | |- context [splitTextToLines w ?d0 ?segs ?mw ?bi ?f] =>
            match goal with
            | |- context [emitLines w options x maxY ?col _ 0 _ (?cy0, _)] =>
                destruct (block_no_page w options x maxY d0 segs mw bi cy0 col)
                  as (new & Hc & _);
                destruct (splitTextToLines w d0 segs mw bi f) as [ls d1]
            end
        end;
        match goal with
        | |- context [emitLines w options x maxY ?col ?n 0 ?l0 ?acc] =>
            destruct (emitLines w options x maxY col n 0 l0 acc) as [cy2 d2]
        end;
        cbn [fst snd setFont setFontSize docText calls] in *;
        rewrite Hc, <- ?app_assoc; eexists; reflexivity. }
    destruct Hr as (new & Hc). exists (CallAddPage :: new). split.
    + rewrite Hc. cbn [addPage calls]. now rewrite <- app_assoc.
    + intros H. discriminate H.
  - destruct (headerMatch (trim l)) as [[level content]|];
      [|destruct (orderedListMatch (trim l)) as [[listNumber content]|];
        [|destruct (unorderedListMatch (trim l)) as [content|]]];
      match goal with
      | |- context [splitTextToLines w ?d0 ?segs ?mw ?bi ?f] =>
          match goal with
          | |- context [emitLines w options x maxY ?col _ 0 _ (?cy0, _)] =>
              destruct (block_no_page w options x maxY d0 segs mw bi cy0 col)
                as (new & Hc & Hy);
              destruct (splitTextToLines w d0 segs mw bi f) as [ls d1]
          end
      end;
      match goal with
      | |- context [emitLines w options x maxY ?col ?n 0 ?l0 ?acc] =>
          destruct (emitLines w options x maxY col n 0 l0 acc) as [cy2 d2]
      end;
      cbn [fst snd setFont setFontSize docText calls] in *.
    + exists new. split; [exact Hc | exact Hy].
    + exists (CallText (listNumber ++ ".") (x + calculateIndentation l * fontSize options)%Q cy (getFont d) false :: new).
      split; [rewrite Hc, <- app_assoc; reflexivity|].
      intros H. apply Hy. exact H.
    + eexists (_ :: new).
      split; [rewrite Hc, <- app_assoc; reflexivity|].
      intros H. apply Hy. exact H.
    + exists new. split; [exact Hc | exact Hy].
Qed.

Lemma block_advance_witness :
  newPages (calls (snd (flowLine monoWidth a4Options 20 277 (40%Q, a4)
                          "# Title")))
  = newPages (calls a4)
  /\ (fst (flowLine monoWidth a4Options 20 277 (40%Q, a4) "# Title")
      == 40 + optionsLineHeight a4Options
              * inject_Z (Z.of_nat
                  (List.length
                     (blockLines monoWidth a4Options 20 (40%Q, a4)
                                 "# Title"))))%Q.
Proof.
  split; [reflexivity|].
  apply (block_advance monoWidth a4Options 20 277 40 a4 "# Title");
    reflexivity.
Defined.

(** * Styles applied again *)

Lemma headingSizes_factor (sz : Q) (h : HeadingLevel) :
  (headingSizes sz h == sz * headingFactor h)%Q.
Proof. destruct h; unfold headingFactor; cbn [headingSizes]; ring. Qed.

Lemma restyle_size (st : TextStyle) (d : Doc) (h : HeadingLevel) :
  heading st = Some h ->
  (getFontSize (restyle st d) == getFontSize d * headingFactor h)%Q.
Proof.
  intros Hst. unfold restyle, applyStyle. rewrite Hst.
  unfold getFontSize at 1. cbn [setFontSize getFont size].
  apply headingSizes_factor.
Qed.

(** X29 ([applyStyle] with the document's own size and font name, as
    [renderJustifiedLine] and [splitWordIfNeeded] call it): for a style
    without heading level the call sets the font style and nothing else, and
    calling again changes nothing; for a style with a heading level every
    call multiplies the font size by the factor of the level, so that [k]
    calls multiply it [k] times. *)
Theorem applyStyle_repeated (st : TextStyle) (d : Doc) (k : nat) :
  (heading st = None ->
   restyle st d
   = mkDoc (mkFont (fontName (getFont d)) (styleFont st) (getFontSize d))
           (pageWidth d) (pageHeight d) (calls d)
   /\ Nat.iter (S k) (restyle st) d = restyle st d)
  /\ (forall h, heading st = Some h ->
        (getFontSize (Nat.iter k (restyle st) d)
         == getFontSize d * powerQ (headingFactor h) k)%Q).
Proof.
  split.
  - intros Hst. unfold restyle at 1.
    split; [now apply applyStyle_noHeading|].
    induction k as [|k IH]; [reflexivity|].
    change (Nat.iter (S (S k)) (restyle st) d)
      with (restyle st (Nat.iter (S k) (restyle st) d)).
    rewrite IH. unfold restyle.
    rewrite !(applyStyle_noHeading _ _ _ _ Hst). reflexivity.
  - intros h Hst. induction k as [|k IH].
    + change (Nat.iter 0 (restyle st) d) with d. cbn [powerQ]. ring.
    + change (Nat.iter (S k) (restyle st) d)
        with (restyle st (Nat.iter k (restyle st) d)).
      rewrite (restyle_size st _ h Hst), IH. cbn [powerQ]. ring.
Qed.

Lemma applyStyle_repeated_witness :
  (getFontSize (Nat.iter 2 (restyle (mkStyle false false (Some H1) false None
                                             0 0)) a4)
   == getFontSize a4 * powerQ (headingFactor H1) 2)%Q.
Proof.
  apply (proj2 (applyStyle_repeated (mkStyle false false (Some H1) false None
                                             0 0) a4 2) H1).
  reflexivity.
Defined.

(** * Prefix and title of an entry of the table of contents *)

Lemma countSpaces_app (sp r : string) :
  allChars isSpace sp = true -> startsWithSpace r = false ->
  countSpaces (sp ++ r) = String.length sp
  /\ dropN (String.length sp) (sp ++ r) = r.
Proof.
  intros Hsp Hr. induction sp as [|c sp IH].
  - cbn. split; [|reflexivity].
    destruct r as [|c r]; [reflexivity|]. cbn in *. now rewrite Hr.
  - cbn in *. destruct (isSpace c); [|discriminate].
    destruct (IH Hsp) as [H1 H2]. now rewrite H1, H2.
Qed.

Lemma takeNonTerminators_all (r : string) :
  allChars (fun c => negb (isLineTerminator c)) r = true ->
  takeNonTerminators r = r.
Proof.
  induction r as [|c r IH]; [reflexivity|].
  cbn. destruct (isLineTerminator c); [discriminate|].
  cbn. intros H. now rewrite IH.
Qed.

Lemma dropN_all (s : string) : dropN (String.length s) s = "".
Proof. induction s as [|c s IH]; [reflexivity | exact IH]. Qed.

Lemma dropN_app (a b : string) : dropN (String.length a) (a ++ b) = b.
Proof. induction a as [|c a IH]; [reflexivity | exact IH]. Qed.

Lemma separatorAt_spaces (sp r : string) :
  sp <> "" -> allChars isSpace sp = true ->
  r <> "" -> startsWithSpace r = false ->
  allChars (fun c => negb (isLineTerminator c)) r = true ->
  separatorAt (sp ++ r)
  = Some (String.length sp + String.length r, r).
Proof.
  intros Hne Hsp Hr Hstart Hterm. unfold separatorAt.
  destruct (countSpaces_app sp r Hsp Hstart) as [Hk Hd].
  rewrite Hk, Hd.
  destruct sp as [|c sp]; [contradiction|]. cbn [String.length Nat.eqb].
  destruct r as [|c0 r]; [contradiction|].
  now rewrite (takeNonTerminators_all _ Hterm).
Qed.

Lemma separatorAt_word (s : string) :
  startsWithSpace s = false -> separatorAt s = None.
Proof.
  intros H. unfold separatorAt.
  destruct s as [|c s]; [reflexivity|]. cbn in *. now rewrite H.
Qed.

Lemma splitSeparatorLoop_word (p : string) :
  forall fuel piece rest,
    noSpaces p -> String.length p < fuel ->
    (p = "" -> rest <> "") ->
    splitSeparatorLoop fuel (p ++ rest) piece
    = splitSeparatorLoop (fuel - String.length p) rest (piece ++ p).
Proof.
  induction p as [|c p IH]; intros fuel piece rest Hp Hfuel Hrest.
  - cbn [append String.length]. now rewrite Nat.sub_0_r, append_empty_r.
  - destruct fuel as [|fuel]; [simpl in Hfuel; lia|].
    apply noSpaces_tail in Hp. destruct Hp as [Hc Hp].
    change (String c p ++ rest)%string with (String c (p ++ rest)).
    cbn [splitSeparatorLoop].
    rewrite separatorAt_word by exact Hc.
    cbn [String.length Nat.sub].
    destruct p as [|c' p'].
    + cbn [append String.length]. rewrite Nat.sub_0_r. unfold snoc.
      reflexivity.
    + rewrite IH; [| exact Hp | simpl in *; lia | discriminate].
      unfold snoc. now rewrite append_assoc.
Qed.

Lemma trim_trailing_space (r : string) :
  r <> "" -> startsWithSpace r = false -> trim (r ++ " ") = trim r.
Proof.
  intros Hne Hstart. unfold trim.
  rewrite (dropSpaces_fixed r Hstart).
  assert (H : dropSpaces (r ++ " ") = (r ++ " ")%string).
  { apply dropSpaces_fixed. destruct r; [contradiction | exact Hstart]. }
  rewrite H, stringRev_app. reflexivity.
Qed.

Lemma splitSeparator_entry (p sp r : string) :
  p <> "" -> noSpaces p ->
  sp <> "" -> allChars isSpace sp = true ->
  r <> "" -> startsWithSpace r = false ->
  allChars (fun c => negb (isLineTerminator c)) r = true ->
  splitSeparator (p ++ sp ++ r) = [p; r; ""].
Proof.
  intros Hp Hpn Hsp Hspn Hr Hstart Hterm. unfold splitSeparator.
  rewrite splitSeparatorLoop_word;
    [| exact Hpn | rewrite append_length; lia | contradiction].
  rewrite !append_length.
  replace (S (String.length p + (String.length sp + String.length r))
           - String.length p)
    with (S (String.length sp + String.length r)) by lia.
  cbn [splitSeparatorLoop append].
  destruct (sp ++ r)%string as [|c0 s0] eqn:E.
  - destruct sp; [contradiction | discriminate].
  - rewrite <- E, (separatorAt_spaces sp r Hsp Hspn Hr Hstart Hterm).
    rewrite <- append_length, dropN_all.
    f_equal. f_equal. now destruct (String.length (sp ++ r)).
Qed.

(** X30 ([formatPDFTableOfContents], prefix and title): the content of a
    chapter or sub-chapter entry, made of a first word, whitespace and a
    rest on one line, is cut by [content.split(/\s+(.+)/)] into the first
    word, which is drawn as the prefix, and the rest, which is drawn as the
    title after trimming: for [Bab 1 Title] the prefix is [Bab] and the
    title is [1 Title], the chapter number being part of the title. *)
Theorem toc_prefix_and_title (p sp r : string) :
  p <> "" -> noSpaces p ->
  sp <> "" -> allChars isSpace sp = true ->
  r <> "" -> startsWithSpace r = false ->
  allChars (fun c => negb (isLineTerminator c)) r = true ->
  hd "" (splitSeparator (p ++ sp ++ r)) = p
  /\ trim (joinSpace (tl (splitSeparator (p ++ sp ++ r)))) = trim r.
Proof.
  intros Hp Hpn Hsp Hspn Hr Hstart Hterm.
  rewrite (splitSeparator_entry p sp r Hp Hpn Hsp Hspn Hr Hstart Hterm).
  split; [reflexivity|]. cbn [tl joinSpace].
  now apply trim_trailing_space.
Qed.

Lemma toc_prefix_and_title_witness :
  hd "" (splitSeparator ("Bab" ++ " " ++ "1 Title")) = "Bab"
  /\ trim (joinSpace (tl (splitSeparator ("Bab" ++ " " ++ "1 Title"))))
     = trim "1 Title".
Proof.
  apply (toc_prefix_and_title "Bab" " " "1 Title");
    first [discriminate | reflexivity].
Defined.

(** * The lines of the normalised text *)

Lemma splitLinesLoop_head (s : string) :
  forall piece,
    piece <> "" ->
    exists l ls, splitLinesLoop s piece = l :: ls /\ nonEmpty l = true.
Proof.
  induction s as [|c r IH]; intros piece Hp; cbn [splitLinesLoop].
  - exists piece, []. split; [reflexivity | now apply nonEmpty_true].
  - destruct (Ascii.eqb c "010").
    + exists piece, (splitLinesLoop r ""). split; [reflexivity|].
      now apply nonEmpty_true.
    + apply IH. apply snoc_nonEmpty.
Qed.

Lemma dropEmptyButLast_cons (l : string) (ls : list string) :
  ls <> [] ->
  dropEmptyButLast (l :: ls)
  = if nonEmpty l then l :: dropEmptyButLast ls else dropEmptyButLast ls.
Proof. destruct ls; [congruence | reflexivity]. Qed.

(** Splitting after the collapse gives the lines of the text without its
    empty lines, the first and the last apart. *)
Lemma splitLinesLoop_collapse (s : string) :
  forall piece,
    splitLinesLoop (collapseNewlines s) piece
    = keptLines (splitLinesLoop s piece).
Proof.
  induction s as [|c r IH]; intros piece; [reflexivity|].
  cbn [collapseNewlines]. destruct (isNewline c) eqn:Hc.
  - destruct (startsWithNewline r) eqn:Hr; cbn [andb].
    + rewrite IH. destruct r as [|c' r']; [discriminate|].
      cbn [startsWithNewline] in Hr.
      cbn [splitLinesLoop]. unfold isNewline in Hc, Hr. rewrite Hc, Hr.
      cbn [keptLines].
      destruct (splitLinesLoop_cons r' "") as (l & ls & E).
      rewrite dropEmptyButLast_cons by (rewrite E; discriminate).
      reflexivity.
    + cbn [splitLinesLoop]. unfold isNewline in Hc. rewrite Hc.
      cbn [keptLines]. f_equal. rewrite IH.
      destruct r as [|c' r']; [reflexivity|].
      cbn [startsWithNewline] in Hr. unfold isNewline in Hr.
      cbn [splitLinesLoop]. rewrite Hr.
      destruct (splitLinesLoop_head r' (snoc "" c') (snoc_nonEmpty _ _))
        as (l & ls & E & Hl).
      rewrite E. cbn [keptLines]. destruct ls as [|l2 ls]; [reflexivity|].
      rewrite (dropEmptyButLast_cons l (l2 :: ls)) by discriminate.
      now rewrite Hl.
  - cbn [andb splitLinesLoop]. unfold isNewline in Hc. rewrite Hc.
    apply IH.
Qed.

Lemma dropEmptyButLast_nonEmpty (ls : list string) :
  filter nonEmpty (dropEmptyButLast ls) = filter nonEmpty ls.
Proof.
  induction ls as [|l ls IH]; [reflexivity|].
  destruct ls as [|l2 ls]; [reflexivity|].
  rewrite (dropEmptyButLast_cons l (l2 :: ls)) by discriminate.
  change (filter nonEmpty (l :: l2 :: ls))
    with (if nonEmpty l then l :: filter nonEmpty (l2 :: ls)
          else filter nonEmpty (l2 :: ls)).
  destruct (nonEmpty l) eqn:E; [|exact IH].
  change (filter nonEmpty (l :: dropEmptyButLast (l2 :: ls)))
    with (if nonEmpty l then l :: filter nonEmpty (dropEmptyButLast (l2 :: ls))
          else filter nonEmpty (dropEmptyButLast (l2 :: ls))).
  now rewrite E, IH.
Qed.

Lemma keptLines_nonEmpty (ls : list string) :
  filter nonEmpty (keptLines ls) = filter nonEmpty ls.
Proof.
  destruct ls as [|l ls]; [reflexivity|].
  cbn [keptLines filter]. now rewrite dropEmptyButLast_nonEmpty.
Qed.

(** The first rewriting does not reach across a character that is not a
    dash. *)
Lemma replaceRules_app (n : nat) :
  forall pre rest,
    String.length pre <= n ->
    startsWithDash rest = false ->
    replaceRules (pre ++ rest) = (replaceRules pre ++ replaceRules rest)%string.
Proof.
  induction n as [|n IH]; intros pre rest Hlen Hd.
  - destruct pre; [reflexivity | simpl in Hlen; lia].
  - destruct pre as [|c r]; [reflexivity|]. simpl in Hlen.
    change (String c r ++ rest)%string with (String c (r ++ rest)).
    rewrite !replaceRules_eq.
    destruct (threeDashes (String c (r ++ rest))) eqn:E.
    + destruct (threeDashes_prefix _ _ _ E Hd) as (c2 & c3 & r3 & ->).
      cbn [append threeDashes] in E. cbn [threeDashes]. rewrite E.
      cbn [dropN append]. rewrite IH by (simpl in Hlen; lia || exact Hd).
      reflexivity.
    + assert (E' : threeDashes (String c r) = false).
      { destruct r as [|c2 [|c3 r3]]; try reflexivity. exact E. }
      rewrite E'. cbn [append]. now rewrite IH by (lia || exact Hd).
Qed.

Lemma replaceRules_newlines (k : nat) (b : string) :
  replaceRules (repeatString newline k ++ b)
  = (repeatString newline k ++ replaceRules b)%string.
Proof.
  induction k as [|k IH]; [reflexivity|].
  change (repeatString newline (S k) ++ b)%string
    with (String "010" (repeatString newline k ++ b)).
  rewrite replaceRules_eq.
  replace (threeDashes (String "010" (repeatString newline k ++ b)))
    with false
    by (destruct (repeatString newline k ++ b)%string as [|c2 [|c3 r3]];
        reflexivity).
  now rewrite IH.
Qed.

Lemma startsWithNewline_app (a rest : string) :
  a <> "" -> startsWithNewline (a ++ rest) = startsWithNewline a.
Proof. destruct a; [congruence | reflexivity]. Qed.

(** The second rewriting on a run of newlines between two texts: one
    newline is left. *)
Lemma collapseNewlines_newlines (k : nat) (b : string) :
  startsWithNewline b = false ->
  collapseNewlines (repeatString newline (S k) ++ b)
  = (newline ++ collapseNewlines b)%string.
Proof.
  intros Hb. induction k as [|k IH].
  - change (repeatString newline 1 ++ b)%string with (String "010" b).
    cbn [collapseNewlines]. rewrite Hb, andb_false_r. reflexivity.
  - change (repeatString newline (S (S k)) ++ b)%string
      with (String "010" (repeatString newline (S k) ++ b)).
    cbn [collapseNewlines].
    change (repeatString newline (S k) ++ b)%string
      with (String "010" (repeatString newline k ++ b)) at 1.
    change (isNewline "010" && startsWithNewline (String "010" _)) with true.
    cbv iota. exact IH.
Qed.

Lemma collapseNewlines_run (a b : string) (k : nat) :
  lastChar a <> Some "010"%char ->
  startsWithNewline b = false ->
  collapseNewlines (a ++ repeatString newline (S k) ++ b)
  = (collapseNewlines a ++ newline ++ collapseNewlines b)%string.
Proof.
  intros Ha Hb. induction a as [|c a IH].
  - now apply collapseNewlines_newlines.
  - change (String c a ++ repeatString newline (S k) ++ b)%string
      with (String c (a ++ repeatString newline (S k) ++ b)).
    cbn [collapseNewlines].
    destruct a as [|c2 a2].
    + assert (Hc : isNewline c = false).
      { destruct (isNewline c) eqn:E; [|reflexivity].
        apply Ascii.eqb_eq in E. subst c. now elim Ha. }
      rewrite Hc. cbn [andb append]. f_equal.
      now apply collapseNewlines_newlines.
    + assert (Ha' : lastChar (String c2 a2) <> Some "010"%char) by exact Ha.
      rewrite startsWithNewline_app by discriminate.
      destruct (isNewline c && startsWithNewline (String c2 a2)).
      * now apply IH.
      * cbn [append]. f_equal. now apply IH.
Qed.

(** C9, amended: after the pre-normalisation ([---] replaced by a newline,
    then every run of two or more newlines by one newline) the text has no
    two consecutive newlines.  Its lines are the lines of the text after the
    first replacement without the empty ones, the first and the last apart:
    runs of blank lines are removed altogether, only the first and the last
    line can be empty, and the lines that are not empty, those made of
    whitespace among them, are kept as they are and in their order.  A run
    of newlines between a text that does not end with a newline and a text
    that does not start with one (both without [---]) becomes one
    newline. *)
Theorem normalize_collapses_newline_runs (t : string) :
  noDoubleNewline (normalize t)
  /\ (exists first others,
        splitLines (normalize t) = first :: others
        /\ allButLast (fun l => l <> "") others)
  /\ splitLines (normalize t) = keptLines (splitLines (replaceRules t))
  /\ filter nonEmpty (splitLines (normalize t))
     = filter nonEmpty (splitLines (replaceRules t))
  /\ (forall a b k,
        t = (a ++ repeatString newline (S k) ++ b)%string ->
        includes a "---" = false -> includes b "---" = false ->
        lastChar a <> Some "010"%char -> startsWithNewline b = false ->
        normalize t = (normalize a ++ newline ++ normalize b)%string).
Proof.
  destruct (normalize_interior_lines t) as [H1 H2].
  assert (H3 : splitLines (normalize t)
               = keptLines (splitLines (replaceRules t)))
    by apply splitLinesLoop_collapse.
  splits; [exact H1 | exact H2 | exact H3 | |].
  - rewrite H3. apply keptLines_nonEmpty.
  - intros a b k -> Ha Hb Hlast Hstart. unfold normalize.
    rewrite (replaceRules_app (String.length a)) by (lia || reflexivity).
    rewrite replaceRules_newlines.
    rewrite (replaceRules_fixed a Ha), (replaceRules_fixed b Hb).
    now apply collapseNewlines_run.
Qed.

(** * The lines that the renderer receives *)

Lemma Forall_arraySet {A : Type} (P : A -> Prop) (a : list A) :
  forall i v, Forall P a -> P v -> Forall P (arraySet a i v).
Proof.
  induction a as [|h t IH]; intros i v Ha Hv.
  - destruct i; now repeat constructor.
  - destruct i as [|i]; cbn [arraySet]; inversion Ha; subst;
      constructor; auto.
Qed.

Lemma singleRun_nil (w : Font -> string -> Q) (fnt : string) (sz aw : Q) :
  singleRun w fnt sz aw [].
Proof. intros s H. discriminate H. Qed.

Lemma singleRun_snoc (w : Font -> string -> Q) (fnt : string) (sz aw : Q)
    (l : Line) (s : TextSegment) :
  cutPart w fnt sz aw s -> singleRun w fnt sz aw (l ++ [s]).
Proof.
  intros Hs s' E. destruct l as [|a l].
  - injection E as <-. exact Hs.
  - destruct l; discriminate E.
Qed.

Lemma singleRun_long (w : Font -> string -> Q) (fnt : string) (sz aw : Q)
    (l : Line) :
  2 <= List.length l -> singleRun w fnt sz aw l.
Proof. intros H s E. subst l. simpl in H. lia. Qed.

Section Singles.

Variable w : Font -> string -> Q.
Variable fnt : string.
Variables sz sw aw : Q.

Hypothesis aw_nonneg : (0 <= aw)%Q.

Local Abbreviation single := (singleRun w fnt sz aw).
Local Abbreviation singles := (singleRuns w fnt sz aw).
Local Abbreviation cut := (cutPart w fnt sz aw).

Lemma singles_commitLine (b : BreakState) :
  singles b -> singles (commitLine b).
Proof.
  intros [H1 H2]. unfold commitLine.
  destruct (nonEmptyLine (currentLineSegments b)); [|now split].
  split; cbn [lines currentLineSegments].
  - apply Forall_arraySet; [|apply singleRun_nil].
    now apply Forall_arraySet.
  - apply singleRun_nil.
Qed.

Lemma singles_placeParts (parts : list TextSegment) :
  forall b index,
    singles b -> Forall cut parts -> singles (placeParts w b index parts).
Proof.
  induction parts as [|p parts IH]; intros b index Hb Hp; [exact Hb|].
  cbn [placeParts]. inversion Hp as [|? ? Hp1 Hp2]; subst.
  apply IH; [|exact Hp2]. unfold placePart.
  assert (Hb' : singles (if Nat.ltb 0 index then commitLine b else b))
    by (destruct (Nat.ltb 0 index); [now apply singles_commitLine | exact Hb]).
  destruct Hb' as [H1 _]. split; cbn [lines currentLineSegments].
  - exact H1.
  - now apply singleRun_snoc.
Qed.

(** The parts of a word are cut parts. *)
Lemma splitWordIfNeeded_cut (word : string) (st : TextStyle) (d : Doc) :
  heading st = None ->
  fontName (getFont d) = fnt -> getFontSize d = sz ->
  Forall cut (fst (splitWordIfNeeded w word st d aw)).
Proof.
  intros Hst Hn Hz. unfold splitWordIfNeeded.
  rewrite (applyStyle_noHeading _ _ _ _ Hst), Hn, Hz.
  set (d' := mkDoc (mkFont fnt (styleFont st) sz) (pageWidth d)
                   (pageHeight d) (calls d)).
  destruct (Qle_bool (measure w d' word) aw) eqn:E; cbn [fst].
  - constructor; [|constructor]. left. now apply Qle_bool_iff in E.
  - destruct (splitWordLoop_pieces w d' st aw word [] "" [])
      as (pieces & H1 & _ & H3).
    + constructor.
    + constructor.
    + intros H. simpl in H. lia.
    + clear E Hn Hz. induction H1 as [|part piece parts pieces Hp _ IH];
        [constructor|].
      pose proof (Forall_inv H3) as Ht. apply Forall_inv_tail in H3.
      constructor; [|now apply IH].
      destruct Hp as (Hs & Hne & Htext). unfold cutPart, runFont.
      rewrite Hs. change (getFont d') with (mkFont fnt (styleFont st) sz) in Ht.
      destruct Htext as [Ht1 | [Ht1 Hl]].
      * destruct (Nat.leb 2 (String.length piece)) eqn:El.
        -- apply Nat.leb_le in El. left. rewrite Ht1.
           specialize (Ht El). lra.
        -- apply Nat.leb_gt in El. right. left. rewrite Ht1.
           destruct piece as [|c [|c2 r]]; [congruence | now exists c |].
           simpl in El. lia.
      * right. right. exists piece. splits; [exact Ht1 | exact Hl |].
        now apply Ht.
Qed.

Lemma singles_placeWord (segment : TextSegment) (b : BreakState)
    (word : string) :
  noHeading segment -> noSpaces word ->
  breakInv w fnt sz sw aw b -> singles b ->
  singles (placeWord w aw sw fnt segment b word).
Proof.
  intros Hst Hw Hb Hs. unfold placeWord.
  destruct (nonEmpty word) eqn:Hne; cbn [negb]; [|exact Hs].
  destruct Hb as (committed & current & _ & _ & _ & H4 & _ & H6 & _ & H8).
  rewrite (applyStyle_noHeading _ _ _ _ Hst). rewrite H8.
  set (d := mkDoc (mkFont fnt (styleFont (style segment)) sz)
                  (pageWidth (bdoc b)) (pageHeight (bdoc b))
                  (calls (bdoc b))).
  set (s := mkSegment word (style segment)).
  change (measure w d word) with (w (runFont fnt sz s) (text s)).
  destruct Hs as [Hs1 Hs2].
  destruct (Qle_bool _ aw) eqn:E1.
  { apply Qle_bool_iff in E1. split; cbn [lines currentLineSegments];
      [exact Hs1|].
    destruct (currentLineSegments b) as [|s0 l0] eqn:Ec;
      cbn [nonEmptyLine] in *.
    - cbn [app]. intros s' E. injection E as <-. left.
      destruct current as [|s1 current]; [|discriminate H4].
      cbn [lineOfWords trackedWidth] in H6. lra.
    - apply singleRun_long. rewrite !length_app. simpl. lia. }
  destruct (Qle_bool (w (runFont fnt sz s) (text s)) aw) eqn:E2.
  { apply Qle_bool_iff in E2.
    set (b1 := mkBreak (lines b) (currentLine b) (currentLineWidth b)
                       (currentLineSegments b) d).
    assert (Hb1 : singles b1) by (split; assumption).
    destruct (singles_commitLine b1 Hb1) as [Hc1 _].
    split; cbn [lines currentLineSegments]; [exact Hc1|].
    apply singleRun_snoc. now left. }
  cbn [currentLineSegments bdoc lines currentLine currentLineWidth].
  set (b1 := mkBreak (lines b) (currentLine b) (currentLineWidth b)
                     (currentLineSegments b) d).
  assert (Hb1 : singles b1) by (split; assumption).
  assert (Hb2 : singles (if nonEmptyLine (currentLineSegments b)
                         then commitLine b1 else b1)
                /\ bdoc (if nonEmptyLine (currentLineSegments b)
                         then commitLine b1 else b1) = d).
  { destruct (nonEmptyLine (currentLineSegments b)).
    - split; [now apply singles_commitLine | apply commitLine_doc].
    - now split. }
  destruct Hb2 as [Hb2 Hd2].
  set (b2 := if nonEmptyLine (currentLineSegments b) then commitLine b1
             else b1) in *.
  rewrite Hd2.
  pose proof (splitWordIfNeeded_cut word (style segment) d Hst eq_refl eq_refl)
    as Hcut.
  destruct (splitWordIfNeeded w word (style segment) d aw) as [parts d'].
  cbn [fst] in Hcut.
  apply singles_placeParts; [|exact Hcut].
  destruct Hb2 as [Ha Hc]. split; assumption.
Qed.

Lemma singles_placeSegment (b : BreakState) (segment : TextSegment) :
  noHeading segment ->
  breakInv w fnt sz sw aw b -> singles b ->
  breakInv w fnt sz sw aw (placeSegment w aw sw fnt b segment)
  /\ singles (placeSegment w aw sw fnt b segment).
Proof.
  intros Hst. unfold placeSegment.
  pose proof (splitSpacesLoop_noSpaces (text segment) "" false eq_refl) as Hw.
  fold (splitSpaces (text segment)) in Hw.
  revert b. induction Hw as [|word ws Hword _ IH]; intros b Hb Hs.
  - now split.
  - cbn [fold_left]. apply IH.
    + now apply inv_placeWord.
    + now apply singles_placeWord.
Qed.

Lemma singles_placeSegments (segments : list TextSegment) :
  Forall noHeading segments ->
  forall b,
    breakInv w fnt sz sw aw b -> singles b ->
    singles (fold_left (placeSegment w aw sw fnt) segments b).
Proof.
  induction 1 as [|s segments Hs _ IH]; intros b Hb Hsg; [exact Hsg|].
  cbn [fold_left].
  destruct (singles_placeSegment b s Hs Hb Hsg) as [Hb1 Hs1].
  now apply IH.
Qed.

End Singles.

(** The lines that the word loop leaves: each is a line of words, and a
    line of one run holds a run that fits or a cut part. *)
Lemma brokenLines_single (w : Font -> string -> Q) (doc : Doc)
    (segments : list TextSegment) (maxW bi : Q) (fnt : string) :
  (0 <= maxW - bi * getFontSize doc)%Q ->
  Forall noHeading segments ->
  Forall (singleRun w fnt (getFontSize doc) (maxW - bi * getFontSize doc)%Q)
         (filter nonEmptyLine
            (lines (brokenLines w doc segments maxW bi fnt))).
Proof.
  intros Haw Hsegs. unfold brokenLines.
  set (aw := (maxW - bi * getFontSize doc)%Q) in *.
  set (sw := measure w doc " ").
  assert (H0 : breakInv w fnt (getFontSize doc) sw aw (mkBreak [[]] 0 0 [] doc)).
  { exists [], []. cbn. splits; try reflexivity; [constructor.. | now left]. }
  assert (S0 : singleRuns w fnt (getFontSize doc) aw (mkBreak [[]] 0 0 [] doc)).
  { split; cbn [lines currentLineSegments].
    - constructor; [apply singleRun_nil | constructor].
    - apply singleRun_nil. }
  pose proof (singles_placeSegments w fnt (getFontSize doc) sw aw Haw segments
                Hsegs _ H0 S0) as Hs.
  set (b := fold_left _ segments _) in *.
  assert (Hc : singleRuns w fnt (getFontSize doc) aw
                 (if nonEmptyLine (currentLineSegments b)
                  then commitLine b else b)).
  { destruct (nonEmptyLine (currentLineSegments b));
      [now apply singles_commitLine | exact Hs]. }
  destruct Hc as [Hc _].
  apply Forall_forall. intros l Hl. apply filter_In in Hl.
  destruct Hl as [Hl _]. rewrite Forall_forall in Hc. now apply Hc.
Qed.

Section Returned.

Variable w : Font -> string -> Q.
Variable fnt : string.
Variables sz sw aw : Q.

Hypothesis aw_nonneg : (0 <= aw)%Q.

(** A space run measures [sw] in every style. *)
Hypothesis space_width :
  forall fs, (w (mkFont fnt fs sz) " " == sw)%Q.

(** A text does not get narrower when a character is added to it. *)
Hypothesis monotone :
  forall fs t c, (w (mkFont fnt fs sz) t <= w (mkFont fnt fs sz) (snoc t c))%Q.

Lemma width_prefix (fs : FontStyle) (b : string) :
  forall a, (w (mkFont fnt fs sz) a <= w (mkFont fnt fs sz) (a ++ b))%Q.
Proof.
  induction b as [|c b IH]; intros a.
  - rewrite append_empty_r. lra.
  - rewrite <- snoc_append.
    apply Qle_trans with (w (mkFont fnt fs sz) (snoc a c));
      [apply monotone | apply IH].
Qed.

(** With one space width for every style, the width that the word loop
    keeps for a line is its measured width. *)
Lemma textWidth_tracked (l : Line) :
  (textWidth w fnt sz l == trackedWidth w fnt sz sw l)%Q.
Proof.
  induction l as [|s l IH]; [reflexivity|].
  cbn [textWidth trackedWidth]. rewrite IH.
  destruct (isSpaceRun s) eqn:E; [|reflexivity].
  apply isSpaceRun_text in E. unfold runFont. rewrite E, space_width.
  reflexivity.
Qed.

(** The character loop on a text whose prefixes all pass the test. *)
Lemma splitWordLoop_passing (doc : Doc) (st : TextStyle) (m : Q) (t : string) :
  forall cur result rest,
    (forall u v, t = (u ++ v)%string -> u <> "" ->
       Qgtb (measure w doc (cur ++ u)) (m * (95 # 100)) = false) ->
    splitWordLoop w doc st m (t ++ rest) result cur
    = splitWordLoop w doc st m rest result (cur ++ t).
Proof.
  induction t as [|c t IH]; intros cur result rest H.
  - now rewrite append_empty_r.
  - change (String c t ++ rest)%string with (String c (t ++ rest)).
    cbn [splitWordLoop].
    assert (E : Qgtb (measure w doc (snoc cur c)) (m * (95 # 100)) = false).
    { apply (H (String c "") t); [reflexivity | discriminate]. }
    rewrite E, IH.
    + now rewrite snoc_append.
    + intros u v Ht Hu. rewrite snoc_append.
      apply (H (String c u) v); [now rewrite Ht | discriminate].
Qed.

(** The post-pass on a line of one run returns at most one run. *)
Lemma repairLine_single (d : Doc) (s : TextSegment) :
  isWord s -> getFontSize d = sz ->
  cutPart w fnt sz aw s ->
  List.length (fst (repairLine w aw sw fnt d [s])) <= 1.
Proof.
  intros (Hst & Hne & Hns) Hd Hcut.
  assert (Hsp : isSpaceRun s = false).
  { apply isWord_notSpaceRun. repeat split; assumption. }
  unfold repairLine, measureLine. cbn [fold_left].
  unfold measureRun. cbn [fst snd].
  rewrite (applyStyle_noHeading _ _ _ _ Hst), Hd.
  set (f := mkFont fnt (styleFont (style s)) sz).
  set (d1 := mkDoc f (pageWidth d) (pageHeight d) (calls d)).
  change (measure w d1 (text s)) with (w f (text s)).
  destruct (Qgtb (0 + w f (text s)) aw) eqn:E; [|cbn [fst List.length]; lia].
  apply Qgtb_true in E.
  unfold repairRun. rewrite Hsp. unfold splitWordIfNeeded.
  rewrite (applyStyle_noHeading _ _ _ _ Hst).
  change (mkDoc (mkFont (fontName (getFont d1)) (styleFont (style s))
                        (getFontSize d1))
                (pageWidth d1) (pageHeight d1) (calls d1)) with d1.
  change (measure w d1 (text s)) with (w f (text s)).
  assert (E2 : Qle_bool (w f (text s)) (aw - 0) = false).
  { destruct (Qle_bool (w f (text s)) (aw - 0)) eqn:E2; [|reflexivity].
    apply Qle_bool_iff in E2. lra. }
  rewrite E2.
  assert (Hkeep : forall t,
             (aw < w f t)%Q ->
             keepPart w aw d1 ([], 0%Q) (mkSegment t (style s)) = ([], 0%Q)).
  { intros t Ht. unfold keepPart. cbn [fst snd text].
    change (measure w d1 t) with (w f t).
    destruct (Qle_bool (0 + w f t) aw) eqn:Ek; [|reflexivity].
    apply Qle_bool_iff in Ek. lra. }
  assert (Hone : forall t,
             List.length
               (fst (keepPart w aw d1 ([], 0%Q) (mkSegment t (style s))))
             <= 1).
  { intros t. unfold keepPart. destruct (Qle_bool _ aw); simpl; lia. }
  destruct Hcut as [Hfit | [(c & Hc) | (piece & Hp & Hl & Ht)]].
  - unfold runFont in Hfit. fold f in Hfit. lra.
  - rewrite Hc in *. cbn [splitWordLoop snoc append].
    change (measure w d1 (String c "")) with (w f (String c "")).
    assert (Eg : Qgtb (w f (String c "")) ((aw - 0) * (95 # 100)) = true)
      by (apply Qgtb_true; lra).
    rewrite Eg. cbn [String.length Nat.leb nonEmpty splitWordLoop app].
    cbn [fold_left]. rewrite Hkeep by lra. cbn [fst List.length]. lia.
  - unfold runFont in Ht. fold f in Ht. rewrite Hp in *.
    rewrite (splitWordLoop_passing d1 (style s) (aw - 0) piece "" [] "-").
    + cbn [append splitWordLoop].
      change (measure w d1 (snoc piece "-")) with (w f (snoc piece "-")).
      assert (Es : snoc piece "-" = (piece ++ "-")%string) by reflexivity.
      rewrite Es.
      assert (Eg : Qgtb (w f (piece ++ "-")) ((aw - 0) * (95 # 100)) = true)
        by (apply Qgtb_true; lra).
      rewrite Eg.
      assert (El : Nat.leb 2 (String.length piece) = true)
        by now apply Nat.leb_le.
      rewrite El. cbn [nonEmpty splitWordLoop app fold_left].
      rewrite Hkeep by lra.
      pose proof (Hone "-") as H1.
      destruct (keepPart w aw d1 ([], 0%Q) (mkSegment "-" (style s)))
        as [nl cw].
      exact H1.
    + intros u v Hu _. cbn [append].
      change (measure w d1 u) with (w f u).
      apply Qgtb_false. rewrite Hu in Ht.
      pose proof (width_prefix (styleFont (style s)) v u) as Hm.
      fold f in Hm. lra.
Qed.

(** The post-pass returns a line of two words or more as it is. *)
Lemma repairLine_words (d : Doc) (ws : list TextSegment) :
  2 <= List.length ws ->
  goodLine w fnt sz sw aw ws -> getFontSize d = sz ->
  fst (repairLine w aw sw fnt d (lineOfWords ws)) = lineOfWords ws.
Proof.
  intros Hl (_ & Hws & Hfit) Hd.
  apply (repairLine_fitting w aw sw sz);
    [now apply lineOfWords_noHeading | exact Hd |].
  rewrite textWidth_tracked.
  destruct Hfit as [Hfit | (s & ->)]; [exact Hfit | simpl in Hl; lia].
Qed.

Lemma repairLines_returned (committed : list (list TextSegment)) :
  Forall (goodLine w fnt sz sw aw) committed ->
  Forall (singleRun w fnt sz aw) (map lineOfWords committed) ->
  forall d, getFontSize d = sz ->
    Forall (fun l => List.length l <= 1 \/ wordsLine l)
           (fst (repairLines w aw sw fnt d (map lineOfWords committed))).
Proof.
  induction 1 as [|ws committed Hg _ IH]; intros Hs d Hd;
    cbn [map repairLines]; [constructor|].
  cbn [map] in Hs.
  pose proof (Forall_inv Hs) as Hs1. apply Forall_inv_tail in Hs.
  assert (Hnh : Forall noHeading (lineOfWords ws))
    by (apply lineOfWords_noHeading; now destruct Hg as (_ & ? & _)).
  pose proof (repairLine_size w aw sw sz fnt d (lineOfWords ws) Hnh Hd) as Hsz.
  assert (Hl : List.length (fst (repairLine w aw sw fnt d (lineOfWords ws)))
               <= 1
               \/ wordsLine (fst (repairLine w aw sw fnt d (lineOfWords ws)))).
  { destruct ws as [|s [|s2 ws]].
    - now destruct Hg as (Hne & _).
    - left. cbn [lineOfWords flat_map]. apply repairLine_single.
      + destruct Hg as (_ & Hws & _). exact (Forall_inv Hws).
      + exact Hd.
      + now apply Hs1.
    - right. rewrite repairLine_words; [|simpl; lia | exact Hg | exact Hd].
      exists (s :: s2 :: ws). splits; [simpl; lia | | reflexivity].
      now destruct Hg as (_ & ? & _). }
  destruct (repairLine w aw sw fnt d (lineOfWords ws)) as [l' d1].
  cbn [fst snd] in Hsz, Hl.
  specialize (IH Hs d1 Hsz).
  destruct (repairLines w aw sw fnt d1 (map lineOfWords committed))
    as [ls' d2].
  cbn [fst] in *. now constructor.
Qed.

End Returned.

Lemma isWord_spaceBefore (s : TextSegment) :
  isSpaceRun (spaceBefore s) = true.
Proof. reflexivity. Qed.

Lemma spaceRuns_words (ws : list TextSegment) :
  Forall isWord ws -> spaceRuns (lineOfWords ws) = List.length ws - 1.
Proof.
  unfold spaceRuns. destruct 1 as [|s ws Hs Hws]; [reflexivity|].
  cbn [lineOfWords filter List.length].
  rewrite (isWord_notSpaceRun s Hs).
  replace (S (List.length ws) - 1) with (List.length ws) by lia.
  induction Hws as [|s' ws Hs' _ IH]; [reflexivity|].
  cbn [flat_map app filter]. rewrite isWord_spaceBefore.
  rewrite (isWord_notSpaceRun s' Hs'). cbn [List.length]. now rewrite IH.
Qed.

Lemma lastIsSpace_snoc (l : Line) (s : TextSegment) :
  lastIsSpace (l ++ [s]) = isSpaceRun s.
Proof. unfold lastIsSpace. now rewrite rev_app_distr. Qed.

Lemma lastIsSpace_words (ws : list TextSegment) :
  Forall isWord ws -> lastIsSpace (lineOfWords ws) = false.
Proof.
  intros Hws. destruct ws as [|s ws]; [reflexivity|].
  destruct (exists_last (l := s :: ws)) as (ws' & s' & E); [discriminate|].
  rewrite E in *. destruct ws' as [|a ws'].
  - cbn [app lineOfWords flat_map]. unfold lastIsSpace. cbn [rev app].
    apply isWord_notSpaceRun. exact (Forall_inv Hws).
  - rewrite lineOfWords_snoc by discriminate.
    change [spaceBefore s'; s'] with ([spaceBefore s'] ++ [s']).
    rewrite app_assoc, lastIsSpace_snoc.
    apply isWord_notSpaceRun. apply Forall_app in Hws.
    exact (Forall_inv (proj2 Hws)).
Qed.

(** On a line that does not end with a space run every space run receives
    the share. *)
Lemma justifiedCalls_stretched (w : Font -> string -> Q) (name : string)
    (sz y extra : Q) (segs : list TextSegment) :
  forall n index x,
    n = index + List.length segs ->
    lastIsSpace segs = false ->
    justifiedCalls w name sz y extra n index x segs
    = stretchedCalls w name sz y extra x segs.
Proof.
  induction segs as [|s segs IH]; intros n index x Hn Hlast; [reflexivity|].
  cbn [justifiedCalls stretchedCalls]. destruct segs as [|s' segs].
  - unfold lastIsSpace in Hlast. simpl in Hlast. rewrite Hlast. reflexivity.
  - rewrite lastIsSpace_cons in Hlast.
    assert (Hlt : Nat.ltb index (n - 1) = true)
      by (apply Nat.ltb_lt; simpl in Hn; lia).
    rewrite Hlt, andb_true_r.
    rewrite (IH n (S index)); [reflexivity | simpl in *; lia | exact Hlast].
Qed.

(** The lines that [splitTextToLines] returns for runs without heading
    level: a line of more than one run is a line of two words or more. *)
Lemma returned_lines (w : Font -> string -> Q) (doc : Doc)
    (segments : list TextSegment) (maxW bi : Q) (fnt : string) :
  (0 <= maxW - bi * getFontSize doc)%Q ->
  Forall noHeading segments ->
  (forall fs,
      (w (mkFont fnt fs (getFontSize doc)) " " == measure w doc " ")%Q) ->
  (forall fs u c,
      (w (mkFont fnt fs (getFontSize doc)) u
       <= w (mkFont fnt fs (getFontSize doc)) (snoc u c))%Q) ->
  Forall (fun l => List.length l <= 1 \/ wordsLine l)
         (fst (splitTextToLines w doc segments maxW bi fnt)).
Proof.
  intros Haw Hsegs Hspace Hmono. unfold splitTextToLines.
  destruct (brokenLines_good w doc segments maxW bi fnt Hsegs)
    as (committed & Hlines & Hgood & Hsz).
  pose proof (brokenLines_single w doc segments maxW bi fnt Haw Hsegs)
    as Hsingle.
  rewrite Hlines in *.
  now apply (repairLines_returned w fnt (getFontSize doc) (measure w doc " ")
               (maxW - bi * getFontSize doc)%Q Haw Hspace Hmono).
Qed.

(** The fixed-pitch metric at a size that is not negative: a text does not
    get narrower when a character is added. *)
Lemma monoWidth_snoc (f : Font) (u : string) (c : ascii) :
  (0 <= size f)%Q -> (monoWidth f u <= monoWidth f (snoc u c))%Q.
Proof.
  intros Hf. unfold monoWidth. rewrite snoc_length.
  rewrite Nat2Z.inj_succ. unfold Z.succ. rewrite inject_Z_plus.
  change (inject_Z 1) with 1%Q.
  set (n := inject_Z (Z.of_nat (String.length u))).
  assert (H : (size f * (1 # 2) * (n + 1)
               == size f * (1 # 2) * n + size f * (1 # 2))%Q) by ring.
  rewrite H. lra.
Qed.

(** C3: on every line that the line breaker returns for the runs of a text,
    when the available width is not negative, a space is as wide in every
    style as the space measured at entry, and a text does not get narrower
    when a character is added to it.  Such a line of more than one run is
    made of words that alternate with single space runs, so it has at least
    one gap and every space run is a gap between two words.  Rendered
    justified as a line that is not the last one, every run advances the
    cursor by its own width and every gap by the share [S/N] more, where [N]
    is the number of gaps and [S = max(0, maxWidth - total text width)];
    when the text is not wider than [maxWidth] the advances add up to
    [maxWidth]. *)
Theorem justified_gap_distribution (w : Font -> string -> Q) (doc : Doc)
    (t : string) (maxW bi : Q) (fnt : string) (l : Line) (d : Doc)
    (x y mw : Q) :
  (0 <= maxW - bi * getFontSize doc)%Q ->
  (forall fs,
      (w (mkFont fnt fs (getFontSize doc)) " " == measure w doc " ")%Q) ->
  (forall fs u c,
      (w (mkFont fnt fs (getFontSize doc)) u
       <= w (mkFont fnt fs (getFontSize doc)) (snoc u c))%Q) ->
  In l (fst (splitTextToLines w doc (parseInlineMarkdown t) maxW bi fnt)) ->
  2 <= List.length l ->
  wordsLine l
  /\ 1 <= spaceRuns l
  /\ lastIsSpace l = false
  /\ calls (renderJustifiedLine w d l x y mw false)
     = calls d
       ++ stretchedCalls w (fontName (getFont d)) (getFontSize d) y
            (extraSpacePerGap w d l mw) x l
  /\ (extraSpacePerGap w d l mw
      == slack w (fontName (getFont d)) (getFontSize d) mw l
         / inject_Z (Z.of_nat (spaceRuns l)))%Q
  /\ ((textWidth w (fontName (getFont d)) (getFontSize d) l <= mw)%Q ->
      (fst (renderJustifiedLineX w d l x y mw false) == x + mw)%Q).
Proof.
  intros Haw Hspace Hmono Hin Hlen.
  pose proof (returned_lines w doc (parseInlineMarkdown t) maxW bi fnt Haw
                (parseInlineMarkdown_noHeading t) Hspace Hmono) as Hall.
  rewrite Forall_forall in Hall.
  destruct (Hall l Hin) as [Hshort | Hwords]; [lia|].
  pose proof Hwords as (ws & Hws2 & Hws & El).
  assert (HN : 1 <= spaceRuns l)
    by (rewrite El, spaceRuns_words by exact Hws; lia).
  assert (Hlast : lastIsSpace l = false)
    by (rewrite El; now apply lastIsSpace_words).
  assert (Hnh : Forall noHeading l)
    by (rewrite El; now apply lineOfWords_noHeading).
  destruct (justified_line_advances w d l x y mw Hlen Hnh)
    as (Hcalls & Hshare & Hsum).
  splits; [exact Hwords | exact HN | exact Hlast | | |].
  - rewrite Hcalls. f_equal.
    now apply justifiedCalls_stretched.
  - apply Hshare. lia.
  - intros Hfit. apply Hsum; [lia | exact Hlast | exact Hfit].
Qed.

Lemma justified_gap_distribution_witness :
  wordsLine [wordRun "aa"; spaceRun; wordRun "bb"]
  /\ 1 <= spaceRuns [wordRun "aa"; spaceRun; wordRun "bb"]
  /\ lastIsSpace [wordRun "aa"; spaceRun; wordRun "bb"] = false
  /\ calls (renderJustifiedLine monoWidth a4
              [wordRun "aa"; spaceRun; wordRun "bb"] 23 40 36 false)
     = calls a4
       ++ stretchedCalls monoWidth (fontName (getFont a4)) (getFontSize a4) 40
            (extraSpacePerGap monoWidth a4
               [wordRun "aa"; spaceRun; wordRun "bb"] 36)
            23 [wordRun "aa"; spaceRun; wordRun "bb"]
  /\ (extraSpacePerGap monoWidth a4 [wordRun "aa"; spaceRun; wordRun "bb"] 36
      == slack monoWidth (fontName (getFont a4)) (getFontSize a4) 36
               [wordRun "aa"; spaceRun; wordRun "bb"]
         / inject_Z (Z.of_nat
                       (spaceRuns [wordRun "aa"; spaceRun; wordRun "bb"])))%Q
  /\ ((textWidth monoWidth (fontName (getFont a4)) (getFontSize a4)
                 [wordRun "aa"; spaceRun; wordRun "bb"] <= 36)%Q ->
      (fst (renderJustifiedLineX monoWidth a4
              [wordRun "aa"; spaceRun; wordRun "bb"] 23 40 36 false)
       == 23 + 36)%Q).
Proof.
  apply (justified_gap_distribution monoWidth a4 "aa bb cc dd" 39 (1 # 4)
           "helvetica" [wordRun "aa"; spaceRun; wordRun "bb"] a4 23 40 36).
  - vm_compute. discriminate.
  - intros fs. vm_compute. reflexivity.
  - intros fs u c. apply monoWidth_snoc. vm_compute. discriminate.
  - vm_compute. left. reflexivity.
  - simpl. lia.
Defined.
